(** * smo-tracker: the position-estimation engine

    A shallow embedding of [js/lateration.js] (geo-projection, lateration
    solver, Kalman smoother, session controller) and of the time-window
    aggregator of [js/dataHandler.js], with the properties the
    specification states about them; and of the code around them: the
    store of [js/dataHandler.js], the realtime path of [js/app.js], the
    point-in-polygon test of the zone manager in [js/mqttHandler.js] and
    the time controls of [js/timeControls.js], with properties read off
    the code.

    Numbers.  A JavaScript number is modelled by [num]: a real number or
    one of the three IEEE special values.  Arithmetic on finite values is
    exact (no rounding, no overflow, no signed zero); the special values
    follow IEEE 754 / ECMAScript, so [NaN] propagation, division by zero,
    [isNaN], truthiness and the comparison operators behave as in the
    source.  Where a property depends on what the doubles of the engine
    round to (the determinant test of the solver), the solver is embedded
    a second time, in [Doubles], over an arbitrary rounding of every
    operation; the exact arithmetic is one instance of it.

    Strings are Stdlib strings, so [charCodeAt] ranges over code units
    below 256.  Times are integer milliseconds: [Date.getTime] is a
    parameter of the aggregator that gives [None] for an invalid date, and
    [Date.now] is an argument of the functions that read the clock.

    State.  The module-level variables of [Lateration] and [DataHandler]
    are the records [lateration], [dataHandler] and [store], those of
    [TimeControls] the record [TimeControls.state], all passed
    explicitly; the realtime buffer and [currentDevices] are arguments
    and results of the functions of the realtime path.
    [Map]s that are only looked up are [gmap]s; the [Map] the aggregator
    returns is iterated, so it is an association list in insertion
    order; the [Set] of processed keys is a [gset]. *)

From Stdlib Require Import Reals Lra Lia ZArith String Ascii List Sorted.
From stdpp Require Import base gmap strings list.

Open Scope R_scope.

(** ** JavaScript numbers *)

Inductive num : Type :=
  | Num (r : R)
  | PosInf
  | NegInf
  | NaN.

Definition Rltb (a b : R) : bool := if Rlt_dec a b then true else false.
Definition Rleb (a b : R) : bool := if Rle_dec a b then true else false.
Definition Reqb (a b : R) : bool := if Req_dec_T a b then true else false.

Definition nopp (a : num) : num :=
  match a with
  | Num x => Num (- x)
  | PosInf => NegInf
  | NegInf => PosInf
  | NaN => NaN
  end.

Definition nadd (a b : num) : num :=
  match a, b with
  | NaN, _ | _, NaN => NaN
  | Num x, Num y => Num (x + y)
  | PosInf, NegInf | NegInf, PosInf => NaN
  | PosInf, _ | _, PosInf => PosInf
  | NegInf, _ | _, NegInf => NegInf
  end.

Definition nsub (a b : num) : num :=
  match a, b with
  | Num x, Num y => Num (x - y)
  | _, _ => nadd a (nopp b)
  end.

(** The sign of [x * inf]: [0 * inf] is [NaN]. *)
Definition scale_inf (x : R) (pos : bool) : num :=
  if Reqb x 0 then NaN
  else if Bool.eqb (Rltb 0 x) pos then PosInf else NegInf.

Definition nmul (a b : num) : num :=
  match a, b with
  | NaN, _ | _, NaN => NaN
  | Num x, Num y => Num (x * y)
  | Num x, PosInf | PosInf, Num x => scale_inf x true
  | Num x, NegInf | NegInf, Num x => scale_inf x false
  | PosInf, PosInf | NegInf, NegInf => PosInf
  | PosInf, NegInf | NegInf, PosInf => NegInf
  end.

Definition ndiv (a b : num) : num :=
  match a, b with
  | NaN, _ | _, NaN => NaN
  | Num x, Num y =>
      if Reqb y 0 then
        (if Reqb x 0 then NaN else if Rltb 0 x then PosInf else NegInf)
      else Num (x / y)
  | Num _, _ => Num 0
  | PosInf, Num y => if Rltb y 0 then NegInf else PosInf
  | NegInf, Num y => if Rltb y 0 then PosInf else NegInf
  | _, _ => NaN
  end.

Definition Math_sqrt (a : num) : num :=
  match a with
  | Num x => if Rltb x 0 then NaN else Num (sqrt x)
  | PosInf => PosInf
  | _ => NaN
  end.

Definition Math_abs (a : num) : num :=
  match a with
  | Num x => Num (Rabs x)
  | NaN => NaN
  | _ => PosInf
  end.

Definition Math_cos (a : num) : num :=
  match a with Num x => Num (cos x) | _ => NaN end.

Definition Math_sin (a : num) : num :=
  match a with Num x => Num (sin x) | _ => NaN end.

(** [Math.pow(10, e)], the only call of [Math.pow] with a base other than
    its first argument squared. *)
Definition Math_pow10 (e : num) : num :=
  match e with
  | Num y => Num (Rpower 10 y)
  | PosInf => PosInf
  | NegInf => Num 0
  | NaN => NaN
  end.

(** [Math.pow(a, 2)]. *)
Definition Math_pow2 (a : num) : num :=
  match a with
  | Num x => Num (x * x)
  | NaN => NaN
  | _ => PosInf
  end.

Definition nltb (a b : num) : bool :=
  match a, b with
  | NaN, _ | _, NaN => false
  | Num x, Num y => Rltb x y
  | NegInf, NegInf | PosInf, _ | _, NegInf => false
  | _, _ => true
  end.

Definition nleb (a b : num) : bool :=
  match a, b with
  | NaN, _ | _, NaN => false
  | Num x, Num y => Rleb x y
  | NegInf, _ | _, PosInf => true
  | _, _ => false
  end.

(** [a === b] on numbers. *)
Definition neqb (a b : num) : bool :=
  match a, b with
  | Num x, Num y => Reqb x y
  | PosInf, PosInf | NegInf, NegInf => true
  | _, _ => false
  end.

Definition Math_max (a b : num) : num :=
  match a, b with
  | NaN, _ | _, NaN => NaN
  | _, _ => if nltb a b then b else a
  end.

Definition Math_min (a b : num) : num :=
  match a, b with
  | NaN, _ | _, NaN => NaN
  | _, _ => if nltb b a then b else a
  end.

Definition isNaN (a : num) : bool :=
  match a with NaN => true | _ => false end.

(** Truthiness of a number: [0] and [NaN] are falsy. *)
Definition truthy (a : num) : bool :=
  match a with
  | Num x => negb (Reqb x 0)
  | NaN => false
  | _ => true
  end.

Definition finite (a : num) : Prop := exists r, a = Num r.

Declare Scope js_scope.
Delimit Scope js_scope with js.
Bind Scope js_scope with num.
Infix "+" := nadd : js_scope.
Infix "-" := nsub : js_scope.
Infix "*" := nmul : js_scope.
Infix "/" := ndiv : js_scope.
Notation "- x" := (nopp x) : js_scope.
Infix "<?" := nltb : js_scope.
Infix "<=?" := nleb : js_scope.
Infix "=?" := neqb : js_scope.

Definition Math_PI : num := Num PI.

(** ** Geo-projection ([gpsToMeters], [metersToGps], [distance]) *)

Definition earthRadius : num := Num 6371000.

Record point : Type := mkPoint { px : num; py : num }.

Definition gpsToMeters (lat lng refLat refLng : num) : point :=
  let latRad := (refLat * Math_PI / Num 180)%js in
  let x := ((lng - refLng) * Math_PI / Num 180 * earthRadius
            * Math_cos latRad)%js in
  let y := ((lat - refLat) * Math_PI / Num 180 * earthRadius)%js in
  mkPoint x y.

Record gps : Type := mkGps { g_lat : num; g_lng : num }.

Definition metersToGps (x y refLat refLng : num) : gps :=
  let latRad := (refLat * Math_PI / Num 180)%js in
  let lat := (refLat + (y / earthRadius) * (Num 180 / Math_PI))%js in
  let lng := (refLng + (x / (earthRadius * Math_cos latRad))
                       * (Num 180 / Math_PI))%js in
  mkGps lat lng.

Definition distance (p1 p2 : point) : num :=
  Math_sqrt (Math_pow2 (px p2 - px p1) + Math_pow2 (py p2 - py p1))%js.

(** ** Lateration solver *)

(** An observation as the solver reads it.  [rssi] and [mac_hashed] are
    optional properties; [original_timestamp] and [time_offset_ms] are the
    two properties the aggregator adds. *)
Record obs : Type := mkObs {
  sensor_id : string;
  sensor_lat : num;
  sensor_lng : num;
  obs_distance : num;
  rssi : option num;
  mac_hashed : option string;
  original_timestamp : option string;
  time_offset_ms : option Z
}.

(** An element of [points]: the observation with its [pos] property. *)
Record pointObs : Type := mkPointObs { p_obs : obs; pos : point }.

Inductive qualityLevel : Type := high | medium | low.

(** The object the three strategies return: [{ x, y, variance }], where
    [variance] is absent for coincident sensors. *)
Record estimatedPos : Type := mkEst {
  est_x : num;
  est_y : num;
  est_variance : option num
}.

Definition est_point (e : estimatedPos) : point := mkPoint (est_x e) (est_y e).

Record result : Type := mkResult {
  lat : num;
  lng : num;
  r_qualityLevel : qualityLevel;
  sensorCount : nat;
  observations : list obs;
  confidence : num;
  variance : num
}.

(** [v || d] for an optional number [v]. *)
Definition or_else (v : option num) (d : num) : num :=
  match v with
  | Some x => if truthy x then x else d
  | None => d
  end.

(** *** The bearing hash of the one-sensor strategy *)

Definition toInt32 (z : Z) : Z := ((z + 2 ^ 31) mod 2 ^ 32 - 2 ^ 31)%Z.

Definition charCode (c : ascii) : Z := Z.of_nat (nat_of_ascii c).

(** One round of the loop body:
    [hash = ((hash << 5) - hash) + c; hash = hash & hash]. *)
Definition hashStep (hash : Z) (c : ascii) : Z :=
  let h := (toInt32 (Z.shiftl hash 5) - hash + charCode c)%Z in
  Z.land (toInt32 h) (toInt32 h).

Definition macHash (s : string) : Z :=
  fold_left hashStep (list_ascii_of_string s) 0%Z.

(** [angle]: zero unless [sensor.mac_hashed] is a non-empty string. *)
Definition bearing (mac : option string) : num :=
  match mac with
  | Some s =>
      if String.eqb s "" then Num 0
      else (Num (IZR (Z.rem (Z.abs (macHash s)) 360)) * Math_PI / Num 180)%js
  | None => Num 0
  end.

(** *** Two sensors *)

Definition estimateTwoSensorPosition (p1 p2 : pointObs) : estimatedPos :=
  let dx := (px (pos p2) - px (pos p1))%js in
  let dy := (py (pos p2) - py (pos p1))%js in
  let sensorDist := Math_sqrt (dx * dx + dy * dy)%js in
  if (sensorDist =? Num 0)%js then
    mkEst (px (pos p1)) (py (pos p1)) None
  else
    let d1 := obs_distance (p_obs p1) in
    let d2 := obs_distance (p_obs p2) in
    let t := ((sensorDist * sensorDist + d1 * d1 - d2 * d2)
              / (Num 2 * sensorDist * sensorDist))%js in
    let t := Math_max (Num (-0.5)) (Math_min (Num 1.5) t) in
    mkEst (px (pos p1) + t * dx)%js
          (py (pos p1) + t * dy)%js
          (Some (Math_abs (d1 + d2 - sensorDist)%js)).

(** *** Three or more sensors *)

(** The accumulators of [solveWeightedLeastSquares]. *)
Record normalSums : Type := mkSums {
  ata00 : num; ata01 : num; ata10 : num; ata11 : num;
  atb0 : num; atb1 : num
}.

Definition sums0 : normalSums :=
  mkSums (Num 0) (Num 0) (Num 0) (Num 0) (Num 0) (Num 0).

Definition addRow (s : normalSums) (ai : num * num) (bi wi : num) : normalSums :=
  mkSums (ata00 s + wi * fst ai * fst ai)%js
         (ata01 s + wi * fst ai * snd ai)%js
         (ata10 s + wi * snd ai * fst ai)%js
         (ata11 s + wi * snd ai * snd ai)%js
         (atb0 s + wi * fst ai * bi)%js
         (atb1 s + wi * snd ai * bi)%js.

(** The first loop, [for (i = 0; i < n; i++)], over the three arrays. *)
Fixpoint accumulate (A : list (num * num)) (b w : list num) (s : normalSums)
  : normalSums :=
  match A, b, w with
  | ai :: A', bi :: b', wi :: w' => accumulate A' b' w' (addRow s ai bi wi)
  | _, _, _ => s
  end.

Definition columnSum (col : num * num -> num) (A : list (num * num)) : num :=
  fold_left (fun c ai => (c + col ai)%js) A (Num 0).

Definition solveWeightedLeastSquares (A : list (num * num)) (b w : list num)
  : estimatedPos :=
  let n := Num (INR (length A)) in
  let s := accumulate A b w sums0 in
  let det := (ata00 s * ata11 s - ata01 s * ata10 s)%js in
  if (Math_abs det <? Num 1e-10)%js then
    let cx := columnSum fst A in
    let cy := columnSum snd A in
    mkEst (cx / n)%js (cy / n)%js None
  else
    mkEst ((ata11 s * atb0 s - ata01 s * atb1 s) / det)%js
          ((ata00 s * atb1 s - ata10 s * atb0 s) / det)%js
          None.

(** The row, right-hand side and weight pushed for [points[i]], [i >= 1]. *)
Definition rowA (ref pi : pointObs) : num * num :=
  ((Num 2 * (px (pos pi) - px (pos ref)))%js,
   (Num 2 * (py (pos pi) - py (pos ref)))%js).

Definition rowB (ref pi : pointObs) : num :=
  let dr := obs_distance (p_obs ref) in
  let di := obs_distance (p_obs pi) in
  (dr * dr - di * di
   + px (pos pi) * px (pos pi) - px (pos ref) * px (pos ref)
   + py (pos pi) * py (pos pi) - py (pos ref) * py (pos ref))%js.

Definition rssiWeight (r : option num) : num :=
  match r with
  | Some v => if truthy v then Math_pow10 ((v + Num 100) / Num 20)%js else Num 1
  | None => Num 1
  end.

Definition rowWeight (pi : pointObs) : num :=
  let distWeight := (Num 1 / (obs_distance (p_obs pi) + Num 1))%js in
  (distWeight * rssiWeight (rssi (p_obs pi)))%js.

Definition sumSqResiduals (e : estimatedPos) (points : list pointObs) : num :=
  fold_left
    (fun acc p =>
       (acc + Math_pow2 (distance (est_point e) (pos p) - obs_distance (p_obs p)))%js)
    points (Num 0).

(** [points = ref :: rest]; the loop [for (i = 1; i < n; i++)] runs over
    [rest]. *)
Definition estimateMultiSensorPosition (ref : pointObs) (rest : list pointObs)
  : estimatedPos :=
  let A := map (rowA ref) rest in
  let b := map (rowB ref) rest in
  let weights := map rowWeight rest in
  let res := solveWeightedLeastSquares A b weights in
  let points := ref :: rest in
  let v := Math_sqrt (sumSqResiduals res points / Num (INR (length points)))%js in
  mkEst (est_x res) (est_y res) (Some v).

Definition calculateResidual (e : estimatedPos) (points : list pointObs) : num :=
  let totalError :=
    fold_left
      (fun acc p =>
         (acc + Math_abs (distance (est_point e) (pos p) - obs_distance (p_obs p)))%js)
      points (Num 0) in
  (totalError / Num (INR (length points)))%js.

Definition getQualityLevel (sensorCount : nat) : qualityLevel :=
  if (3 <=? sensorCount)%nat then high
  else if (sensorCount =? 2)%nat then medium
  else low.

Definition getConfidenceFromSensorCount (sensorCount : nat) : num :=
  if (3 <=? sensorCount)%nat then Num 1.0
  else if (sensorCount =? 2)%nat then Num 0.5
  else Num 0.2.

(** *** [trilaterate] *)

Definition validObservation (o : obs) : bool :=
  (Num 0 <? obs_distance o)%js && (obs_distance o <? Num 200)%js.

Definition sumOver (f : obs -> num) (l : list obs) : num :=
  fold_left (fun sum o => (sum + f o)%js) l (Num 0).

(** The one-sensor strategy: the pair [(gpsResult, estimatedPos)]. *)
Definition estimateOneSensorPosition (sensor : obs) : gps * estimatedPos :=
  let distanceMeters := obs_distance sensor in
  let angle := bearing (mac_hashed sensor) in
  let latOffset :=
    (distanceMeters * Math_cos angle / earthRadius * (Num 180 / Math_PI))%js in
  let lngOffset :=
    (distanceMeters * Math_sin angle
     / (earthRadius * Math_cos (sensor_lat sensor * Math_PI / Num 180))
     * (Num 180 / Math_PI))%js in
  (mkGps (sensor_lat sensor + latOffset)%js (sensor_lng sensor + lngOffset)%js,
   mkEst (distanceMeters * Math_sin angle)%js
         (distanceMeters * Math_cos angle)%js
         (Some distanceMeters)).

Definition centroid (f : obs -> num) (validObs : list obs) : num :=
  (sumOver f validObs / Num (INR (length validObs)))%js.

Definition toPoint (refLat refLng : num) (o : obs) : pointObs :=
  mkPointObs o (gpsToMeters (sensor_lat o) (sensor_lng o) refLat refLng).

Definition trilaterate (observations : list obs) : option result :=
  let validObs := List.filter validObservation observations in
  let n := length validObs in
  let refLat := centroid sensor_lat validObs in
  let refLng := centroid sensor_lng validObs in
  let points := map (toPoint refLat refLng) validObs in
  let finish (first : obs) (gpsResult : gps) (estimated : estimatedPos) :=
    let residual :=
      if (1 <? n)%nat then calculateResidual estimated points
      else obs_distance first in
    Some (mkResult (g_lat gpsResult) (g_lng gpsResult)
                   (getQualityLevel n) n validObs
                   (getConfidenceFromSensorCount n)
                   (or_else (est_variance estimated) residual)) in
  match validObs with
  | [] => None
  | [sensor] =>
      let '(gpsResult, estimated) := estimateOneSensorPosition sensor in
      finish sensor gpsResult estimated
  | [o1; o2] =>
      let e := estimateTwoSensorPosition (toPoint refLat refLng o1)
                                         (toPoint refLat refLng o2) in
      finish o1 (metersToGps (est_x e) (est_y e) refLat refLng) e
  | o1 :: rest =>
      let e := estimateMultiSensorPosition (toPoint refLat refLng o1)
                                           (map (toPoint refLat refLng) rest) in
      finish o1 (metersToGps (est_x e) (est_y e) refLat refLng) e
  end.

(** ** Kalman smoother *)

Record vec4 : Type := mkVec4 { v0 : num; v1 : num; v2 : num; v3 : num }.
Record mat4 : Type := mkMat4 { m0 : vec4; m1 : vec4; m2 : vec4; m3 : vec4 }.

(** [P[i][j]] *)
Definition el (P : mat4) (i j : nat) : num :=
  let r := match i with O => m0 P | 1%nat => m1 P | 2%nat => m2 P | _ => m3 P end in
  match j with O => v0 r | 1%nat => v1 r | 2%nat => v2 r | _ => v3 r end.

Definition processNoise : num := Num 0.5.
Definition measurementNoise : num := Num 2.0.
Definition KALMAN_dt : num := Num 1.0.

(** A per-device state.  [createKalmanState] leaves [refLat] and [refLng]
    unset (arithmetic reads an unset property as [NaN]); the caller
    assigns them before the state is stored. *)
Record kalmanState : Type := mkKalmanState {
  ks_x : vec4;
  ks_P : mat4;
  lastUpdate : Z;
  ks_refLat : num;
  ks_refLng : num
}.

Definition createKalmanState (x y : num) (now : Z) : kalmanState :=
  mkKalmanState
    (mkVec4 x y (Num 0) (Num 0))
    (mkMat4 (mkVec4 (Num 100) (Num 0) (Num 0) (Num 0))
            (mkVec4 (Num 0) (Num 100) (Num 0) (Num 0))
            (mkVec4 (Num 0) (Num 0) (Num 10) (Num 0))
            (mkVec4 (Num 0) (Num 0) (Num 0) (Num 10)))
    now NaN NaN.

Definition kalmanPredict (x : vec4) (P : mat4) (dt : num) : vec4 * mat4 :=
  let q := processNoise in
  let x_pred :=
    mkVec4 (v0 x + v2 x * dt)%js (v1 x + v3 x * dt)%js (v2 x) (v3 x) in
  let P_pred :=
    mkMat4
      (mkVec4 (el P 0 0 + Num 2 * dt * el P 0 2 + dt * dt * el P 2 2 + q)%js
              (el P 0 1 + dt * el P 0 3 + dt * el P 2 1 + dt * dt * el P 2 3)%js
              (el P 0 2 + dt * el P 2 2)%js
              (el P 0 3 + dt * el P 2 3)%js)
      (mkVec4 (el P 1 0 + dt * el P 1 2 + dt * el P 3 0 + dt * dt * el P 3 2)%js
              (el P 1 1 + Num 2 * dt * el P 1 3 + dt * dt * el P 3 3 + q)%js
              (el P 1 2 + dt * el P 3 2)%js
              (el P 1 3 + dt * el P 3 3)%js)
      (mkVec4 (el P 2 0 + dt * el P 2 2)%js
              (el P 2 1 + dt * el P 2 3)%js
              (el P 2 2 + q)%js
              (el P 2 3))
      (mkVec4 (el P 3 0 + dt * el P 3 2)%js
              (el P 3 1 + dt * el P 3 3)%js
              (el P 3 2)
              (el P 3 3 + q)%js) in
  (x_pred, P_pred).

Definition kalmanUpdate (x : vec4) (P : mat4) (mx my r : num) : vec4 * mat4 :=
  let y0 := (mx - v0 x)%js in
  let y1 := (my - v1 x)%js in
  let S00 := (el P 0 0 + r)%js in
  let S01 := el P 0 1 in
  let S10 := el P 1 0 in
  let S11 := (el P 1 1 + r)%js in
  let det := (S00 * S11 - S01 * S10)%js in
  if (Math_abs det <? Num 1e-10)%js then (x, P)
  else
    let Si00 := (S11 / det)%js in
    let Si01 := (- S01 / det)%js in
    let Si10 := (- S10 / det)%js in
    let Si11 := (S00 / det)%js in
    let K := fun i : nat =>
      ((el P i 0 * Si00 + el P i 1 * Si10)%js,
       (el P i 0 * Si01 + el P i 1 * Si11)%js) in
    let K00 := fst (K 0%nat) in let K01 := snd (K 0%nat) in
    let K10 := fst (K 1%nat) in let K11 := snd (K 1%nat) in
    let K20 := fst (K 2%nat) in let K21 := snd (K 2%nat) in
    let K30 := fst (K 3%nat) in let K31 := snd (K 3%nat) in
    let x_new :=
      mkVec4 (v0 x + K00 * y0 + K01 * y1)%js
             (v1 x + K10 * y0 + K11 * y1)%js
             (v2 x + K20 * y0 + K21 * y1)%js
             (v3 x + K30 * y0 + K31 * y1)%js in
    let P_new :=
      mkMat4
        (mkVec4 ((Num 1 - K00) * el P 0 0 - K01 * el P 1 0)%js
                ((Num 1 - K00) * el P 0 1 - K01 * el P 1 1)%js
                (el P 0 2 - K00 * el P 0 2 - K01 * el P 1 2)%js
                (el P 0 3 - K00 * el P 0 3 - K01 * el P 1 3)%js)
        (mkVec4 (- K10 * el P 0 0 + (Num 1 - K11) * el P 1 0)%js
                (- K10 * el P 0 1 + (Num 1 - K11) * el P 1 1)%js
                (el P 1 2 - K10 * el P 0 2 - K11 * el P 1 2)%js
                (el P 1 3 - K10 * el P 0 3 - K11 * el P 1 3)%js)
        (mkVec4 (- K20 * el P 0 0 - K21 * el P 1 0 + el P 2 0)%js
                (- K20 * el P 0 1 - K21 * el P 1 1 + el P 2 1)%js
                (el P 2 2 - K20 * el P 0 2 - K21 * el P 1 2)%js
                (el P 2 3 - K20 * el P 0 3 - K21 * el P 1 3)%js)
        (mkVec4 (- K30 * el P 0 0 - K31 * el P 1 0 + el P 3 0)%js
                (- K30 * el P 0 1 - K31 * el P 1 1 + el P 3 1)%js
                (el P 3 2 - K30 * el P 0 2 - K31 * el P 1 2)%js
                (el P 3 3 - K30 * el P 0 3 - K31 * el P 1 3)%js) in
    (x_new, P_new).

(** [applyKalmanFilter] over the map of per-device states; [now] is the
    reading of [Date.now()]. *)
Definition applyKalmanFilter (kalmanStates : gmap string kalmanState) (now : Z)
    (deviceId : string) (measuredLat measuredLng quality : num)
  : gps * gmap string kalmanState :=
  let refLat := measuredLat in
  let refLng := measuredLng in
  let measured := gpsToMeters measuredLat measuredLng refLat refLng in
  match kalmanStates !! deviceId with
  | None =>
      let state := createKalmanState (px measured) (py measured) now in
      let state := mkKalmanState (ks_x state) (ks_P state) (lastUpdate state)
                                 refLat refLng in
      (mkGps measuredLat measuredLng, <[deviceId := state]> kalmanStates)
  | Some state =>
      let measInState :=
        gpsToMeters measuredLat measuredLng (ks_refLat state) (ks_refLng state) in
      let dt := KALMAN_dt in
      let noise := (measurementNoise * (Num 1 + quality / Num 10))%js in
      let '(xp, Pp) := kalmanPredict (ks_x state) (ks_P state) dt in
      let '(xu, Pu) := kalmanUpdate xp Pp (px measInState) (py measInState) noise in
      let state := mkKalmanState xu Pu now (ks_refLat state) (ks_refLng state) in
      let smoothed := metersToGps (v0 xu) (v1 xu) (ks_refLat state) (ks_refLng state) in
      (mkGps (g_lat smoothed) (g_lng smoothed), <[deviceId := state]> kalmanStates)
  end.

(** ** Session controller *)

(** The module-level state of [Lateration]. *)
Record lateration : Type := mkLateration {
  resultCache : gmap string (option result);
  kalmanEnabled : bool;
  kalmanStates : gmap string kalmanState
}.

Definition getCacheKey (timestamp macHashed : string) : string :=
  timestamp +:+ ":" +:+ macHashed.

(** [getCachedOrCompute]: a cached [null] is a hit. *)
Definition getCachedOrCompute (cache : gmap string (option result))
    (timestamp macHashed : string) (observations : list obs)
  : option result * gmap string (option result) :=
  let key := getCacheKey timestamp macHashed in
  match cache !! key with
  | Some r => (r, cache)
  | None =>
      let r := trilaterate observations in
      (r, <[key := r]> cache)
  end.

Definition clearCache (st : lateration) : lateration :=
  mkLateration ∅ (kalmanEnabled st) ∅.

Definition resetKalmanFilters (st : lateration) : lateration :=
  mkLateration (resultCache st) (kalmanEnabled st) ∅.

Definition setKalmanEnabled (enabled : bool) (st : lateration) : lateration :=
  let st := mkLateration (resultCache st) enabled (kalmanStates st) in
  if enabled then resetKalmanFilters st else st.

Definition isKalmanEnabled (st : lateration) : bool := kalmanEnabled st.

(** An element of the list [computeAllPositions] returns: the solver's
    result spread into it, with [lat] and [lng] overridden. *)
Record devicePosition : Type := mkDevicePosition {
  macHashed : string;
  raw : result;
  final_lat : num;
  final_lng : num;
  rawLat : num;
  rawLng : num;
  isSmoothed : bool
}.

(** The body of [devices.forEach] in [computeAllPositions]. *)
Definition positionStep (timestamp : string) (now : Z)
    (acc : lateration * list devicePosition) (dev : string * list obs)
  : lateration * list devicePosition :=
  let '(st, results) := acc in
  let '(macHashed, observations) := dev in
  let '(res, cache) :=
    getCachedOrCompute (resultCache st) timestamp macHashed observations in
  let st := mkLateration cache (kalmanEnabled st) (kalmanStates st) in
  match res with
  | None => (st, results)
  | Some r =>
      if negb (isNaN (lat r)) && negb (isNaN (lng r)) then
        if kalmanEnabled st then
          let '(smoothed, states) :=
            applyKalmanFilter (kalmanStates st) now macHashed (lat r) (lng r)
                              (if truthy (variance r) then variance r else Num 5) in
          let st := mkLateration cache (kalmanEnabled st) states in
          if negb (isNaN (g_lat smoothed)) && negb (isNaN (g_lng smoothed)) then
            (st, results ++ [mkDevicePosition macHashed r (g_lat smoothed)
                                              (g_lng smoothed) (lat r) (lng r) true])
          else
            (st, results ++ [mkDevicePosition macHashed r (lat r) (lng r)
                                              (lat r) (lng r) false])
        else
          (st, results ++ [mkDevicePosition macHashed r (lat r) (lng r)
                                            (lat r) (lng r) false])
      else (st, results)
  end.

(** ** Time-window aggregator ([js/dataHandler.js]) *)

(** A device reading inside a sensor entry, and a validated sensor entry. *)
Record device : Type := mkDevice {
  d_mac_hashed : string;
  d_rssi : option num;
  d_distance : num
}.

Record entry : Type := mkEntry {
  device_key : string;
  e_gps : num * num;
  e_timestamp : string;
  devices : list device
}.

(** The module-level state of [DataHandler] the aggregator reads. *)
Record dataHandler : Type := mkDataHandler {
  TIME_WINDOW_MS : Z;
  timestamps : list string;
  dataByTimestamp : gmap string (list entry)
}.

Definition setTimeWindow (windowMs : Z) (dh : dataHandler) : dataHandler :=
  mkDataHandler (Z.max 0 windowMs) (timestamps dh) (dataByTimestamp dh).

(** The [Map] the aggregator returns: keys in insertion order, which is the
    order [forEach] visits them in. *)
Definition deviceMap : Type := list (string * list obs).

Definition dm_has (mac : string) (m : deviceMap) : bool :=
  existsb (fun kv => String.eqb (fst kv) mac) m.

Definition dm_get (mac : string) (m : deviceMap) : option (list obs) :=
  snd <$> List.find (fun kv => String.eqb (fst kv) mac) m.

(** [deviceMap.get(mac).push(o)] *)
Definition dm_push (mac : string) (o : obs) (m : deviceMap) : deviceMap :=
  map (fun kv => if String.eqb (fst kv) mac then (fst kv, snd kv ++ [o]) else kv) m.

Definition readingKey (e : entry) (d : device) : string :=
  device_key e +:+ "_" +:+ d_mac_hashed d.

Definition mkReading (ts : string) (offset : Z) (e : entry) (d : device) : obs :=
  mkObs (device_key e) (fst (e_gps e)) (snd (e_gps e)) (d_distance d) (d_rssi d)
        None (Some ts) (Some offset).

(** The body of [entry.devices.forEach]. *)
Definition deviceStep (ts : string) (offset : Z) (e : entry)
    (acc : deviceMap * gset string) (d : device) : deviceMap * gset string :=
  let '(dm, processedReadings) := acc in
  let key := readingKey e d in
  if bool_decide (key ∈ processedReadings) then acc
  else
    let processedReadings := processedReadings ∪ {[ key ]} in
    let dm := if dm_has (d_mac_hashed d) dm then dm
              else dm ++ [(d_mac_hashed d, [])] in
    (dm_push (d_mac_hashed d) (mkReading ts offset e d) dm, processedReadings).

Definition entryStep (ts : string) (offset : Z)
    (acc : deviceMap * gset string) (e : entry) : deviceMap * gset string :=
  fold_left (deviceStep ts offset e) (devices e) acc.

Section Aggregator.

(** [new Date(ts).getTime()]: milliseconds since the epoch, [None] for
    the [NaN] of an invalid date. *)
Variable Date_getTime : string -> option Z.

(** [tsTime >= windowStart && tsTime <= windowEnd]; every comparison
    with [NaN] is false. *)
Definition inWindow (dh : dataHandler) (centerTime : option Z) (ts : string)
  : option Z :=
  match centerTime, Date_getTime ts with
  | Some c, Some t =>
      let windowStart := (c - TIME_WINDOW_MS dh)%Z in
      let windowEnd := (c + TIME_WINDOW_MS dh)%Z in
      if (windowStart <=? t)%Z && (t <=? windowEnd)%Z then Some (t - c)%Z
      else None
  | _, _ => None
  end.

(** The body of [timestamps.forEach]. *)
Definition timestampStep (dh : dataHandler) (centerTime : option Z)
    (acc : deviceMap * gset string) (ts : string) : deviceMap * gset string :=
  match inWindow dh centerTime ts with
  | Some offset =>
      let entries := default [] (dataByTimestamp dh !! ts) in
      fold_left (entryStep ts offset) entries acc
  | None => acc
  end.

Definition getDevicesInTimeWindow (dh : dataHandler) (timestamp : string)
  : deviceMap :=
  let centerTime := Date_getTime timestamp in
  fst (fold_left (timestampStep dh centerTime) (timestamps dh) ([], ∅)).

(** [computeAllPositions]: the returned list and the state it leaves. *)
Definition computeAllPositions (dh : dataHandler) (st : lateration) (now : Z)
    (timestamp : string) : list devicePosition * lateration :=
  let devices := getDevicesInTimeWindow dh timestamp in
  let '(st, results) := fold_left (positionStep timestamp now) devices (st, []) in
  (results, st).

End Aggregator.

(** ** Data handler: the store ([js/dataHandler.js]) *)

(** An element of [sensorMap]: [{ id, lat, lng }]. *)
Record sensor : Type := mkSensor { s_id : string; s_lat : num; s_lng : num }.

(** A feature of the GeoJSON collection: a point with [coordinates]
    [[lng, lat]] and the properties [id] and [name]. *)
Record feature : Type := mkFeature {
  f_coordinates : num * num;
  f_id : string;
  f_name : string
}.

(** A parsed entry that waits for the coordinates of its sensor
    ([gps: null]); [device_key] is [None] when the upload had none. *)
Record pendingEntry : Type := mkPending {
  p_device_key : option string;
  p_timestamp : string;
  p_devices : list device
}.

(** Coordinates the user provided for a sensor; a field is [None] unless
    it is a number. *)
Record coordinates : Type := mkCoordinates {
  gps_lat : option num;
  gps_lng : option num
}.

(** The module-level state of [DataHandler]: the part the aggregator
    reads, and the rest.  [sensorMap] is iterated, so it is an association
    list in insertion order. *)
Record store : Type := mkStore {
  handler : dataHandler;
  rawData : list entry;
  normalizedData : option (list feature);
  sensorMap : list (string * sensor);
  pendingNewFormatData : option (list pendingEntry);
  sensorGpsCoordinates : gmap string coordinates
}.

(** [new Set(l)] followed by [Array.from]: the distinct elements in the
    order of their first occurrence. *)
Definition Set_from (l : list string) : list string :=
  fold_left (fun s x => if existsb (String.eqb x) s then s else s ++ [x]) l [].

(** [Array.prototype.sort()] without a comparator orders strings by their
    code units; the elements sorted here are distinct, so any sorting
    algorithm gives the same array. *)
Fixpoint insertSorted (x : string) (l : list string) : list string :=
  match l with
  | [] => [x]
  | y :: l' => if String.leb x y then x :: l else y :: insertSorted x l'
  end.

Definition Array_sort (l : list string) : list string :=
  fold_right insertSorted [] l.

Definition sm_has (id : string) (m : list (string * sensor)) : bool :=
  existsb (fun kv => String.eqb (fst kv) id) m.

(** The body of the first [data.forEach] of [processData]. *)
Definition addSensor (m : list (string * sensor)) (e : entry)
  : list (string * sensor) :=
  if sm_has (device_key e) m then m
  else m ++ [(device_key e,
              mkSensor (device_key e) (fst (e_gps e)) (snd (e_gps e)))].

Definition createGeoJSON (sensors : list (string * sensor)) : list feature :=
  map (fun kv => mkFeature (s_lng (snd kv), s_lat (snd kv)) (fst kv) (fst kv))
      sensors.

Definition groupByTimestamp (data : list entry) (tss : list string)
  : gmap string (list entry) :=
  fold_left
    (fun m ts =>
       <[ts := List.filter (fun e => String.eqb (e_timestamp e) ts) data]> m)
    tss ∅.

Definition processData (data : list entry) (st : store) : store :=
  let sensors := fold_left addSensor data [] in
  let tss := Array_sort (Set_from (map e_timestamp data)) in
  mkStore (mkDataHandler (TIME_WINDOW_MS (handler st)) tss
                         (groupByTimestamp data tss))
          data (Some (createGeoJSON sensors)) sensors
          (pendingNewFormatData st) (sensorGpsCoordinates st).

Definition getSensors (st : store) : list (string * sensor) := sensorMap st.
Definition getTimestamps (st : store) : list string := timestamps (handler st).
Definition getRawData (st : store) : list entry := rawData st.
Definition getTimeWindow (st : store) : Z := TIME_WINDOW_MS (handler st).

(** [sensorMap.get(sensorId) || null] *)
Definition getSensorById (sensorId : string) (st : store) : option sensor :=
  snd <$> List.find (fun kv => String.eqb (fst kv) sensorId) (sensorMap st).

Definition hasData (st : store) : bool := (0 <? length (rawData st))%nat.

Definition clear (st : store) : store :=
  mkStore (mkDataHandler (TIME_WINDOW_MS (handler st)) [] ∅) [] None []
          (pendingNewFormatData st) (sensorGpsCoordinates st).

(** The body of [entry.devices.forEach] in [getDevicesAt]. *)
Definition deviceAtStep (e : entry) (dm : deviceMap) (d : device) : deviceMap :=
  let dm := if dm_has (d_mac_hashed d) dm then dm
            else dm ++ [(d_mac_hashed d, [])] in
  dm_push (d_mac_hashed d)
          (mkObs (device_key e) (fst (e_gps e)) (snd (e_gps e)) (d_distance d)
                 (d_rssi d) None None None)
          dm.

Definition getDevicesAt (st : store) (timestamp : string) : deviceMap :=
  let entries := default [] (dataByTimestamp (handler st) !! timestamp) in
  fold_left (fun dm e => fold_left (deviceAtStep e) (devices e) dm) entries [].

(** [setSensorGpsCoordinates] with string keys: the old coordinates are
    dropped, the given ones stored. *)
Definition setSensorGpsCoordinates (gpsMap : gmap string coordinates) (st : store)
  : store :=
  mkStore (handler st) (rawData st) (normalizedData st) (sensorMap st)
          (pendingNewFormatData st) gpsMap.

(** What [completePendingData] returns. *)
Inductive completion : Type :=
  | Failed (error : string)
  | Completed (sensors timestamps totalEntries : nat).

(** The body of the loop over the pending entries: the entry with its
    coordinates, or nothing. *)
Definition withCoordinates (coords : gmap string coordinates) (p : pendingEntry)
  : list entry :=
  match p_device_key p with
  | Some key =>
      match coords !! key with
      | Some (mkCoordinates (Some la) (Some lo)) =>
          [mkEntry key (la, lo) (p_timestamp p) (p_devices p)]
      | _ => []
      end
  | None => []
  end.

Definition completePendingData (st : store) : completion * store :=
  match pendingNewFormatData st with
  | None => (Failed "No pending data to process", st)
  | Some pending =>
      let validatedData := flat_map (withCoordinates (sensorGpsCoordinates st)) pending in
      if (length validatedData =? 0)%nat then
        (Failed "No entries with valid GPS coordinates", st)
      else
        let st := processData validatedData st in
        let st := mkStore (handler st) (rawData st) (normalizedData st)
                          (sensorMap st) None (sensorGpsCoordinates st) in
        (Completed (length (sensorMap st)) (length (timestamps (handler st)))
                   (length (rawData st)),
         st)
  end.

(** ** Realtime path ([js/app.js]) *)

(** A reading of [realtimeReadingsBuffer]:
    [{ sensor_id, distance, rssi, sensor_lat, sensor_lng, timestamp }],
    stamped with [Date.now()]. *)
Record bufferedReading : Type := mkBuffered {
  b_sensor_id : string;
  b_distance : num;
  b_rssi : num;
  b_sensor_lat : num;
  b_sensor_lng : num;
  b_timestamp : Z
}.

(** The buffer: a [Map] from device to its readings, iterated in insertion
    order. *)
Definition readingsBuffer : Type := list (string * list bufferedReading).

(** An element of [currentDevices] on the realtime path: the solver's
    result spread into it, with [sensorCount] overridden. *)
Record realtimeDevice : Type := mkRealtimeDevice {
  rt_macHashed : string;
  rt_result : result;
  rt_sensorCount : nat
}.

Definition REALTIME_TIME_WINDOW_MS : Z := 15000.

(** The reading [handleRealtimeMessage] buffers for a device of a parsed
    entry: [distance: device.distance || device.distance_m || 0] (a parsed
    device has no [distance_m]) and [rssi: device.rssi || -100]. *)
Definition bufferedOf (now : Z) (e : entry) (d : device) : bufferedReading :=
  mkBuffered (device_key e)
             (or_else (Some (d_distance d)) (Num 0))
             (or_else (d_rssi d) (Num (-100)))
             (fst (e_gps e)) (snd (e_gps e)) now.

Definition rb_has (mac : string) (buf : readingsBuffer) : bool :=
  existsb (fun kv => String.eqb (fst kv) mac) buf.

(** [realtimeReadingsBuffer.get(mac).push(r)] *)
Definition rb_push (mac : string) (r : bufferedReading) (buf : readingsBuffer)
  : readingsBuffer :=
  map (fun kv => if String.eqb (fst kv) mac then (fst kv, snd kv ++ [r]) else kv) buf.

(** The body of [entry.devices.forEach] in [handleRealtimeMessage]; a
    device without [mac_hashed] (the empty string is falsy) is skipped. *)
Definition bufferStep (now : Z) (e : entry) (buf : readingsBuffer) (d : device)
  : readingsBuffer :=
  if String.eqb (d_mac_hashed d) "" then buf
  else
    let buf := if rb_has (d_mac_hashed d) buf then buf
               else buf ++ [(d_mac_hashed d, [])] in
    rb_push (d_mac_hashed d) (bufferedOf now e d) buf.

(** [handleRealtimeMessage] on the sensor registry (the [Map] that
    [DataHandler.getSensors()] hands out) and the buffer; the third
    component tells whether a position computation was scheduled. *)
Definition handleRealtimeMessage (now : Z) (e : entry)
    (sensors : list (string * sensor)) (buf : readingsBuffer)
  : list (string * sensor) * readingsBuffer * bool :=
  let sensors := addSensor sensors e in
  match devices e with
  | [] => (sensors, buf, false)
  | ds => (sensors, fold_left (bufferStep now e) ds buf, true)
  end.

(** The body of [recentReadings.forEach]: keep the latest reading of
    every sensor, the first one among equals. *)
Definition bySensorStep (bySensor : list (string * bufferedReading))
    (reading : bufferedReading) : list (string * bufferedReading) :=
  match List.find (fun kv => String.eqb (fst kv) (b_sensor_id reading)) bySensor with
  | None => bySensor ++ [(b_sensor_id reading, reading)]
  | Some existing =>
      if (b_timestamp (snd existing) <? b_timestamp reading)%Z then
        map (fun kv => if String.eqb (fst kv) (b_sensor_id reading)
                       then (fst kv, reading) else kv)
            bySensor
      else bySensor
  end.

Definition observationOf (r : bufferedReading) : obs :=
  mkObs (b_sensor_id r) (b_sensor_lat r) (b_sensor_lng r) (b_distance r)
        (Some (b_rssi r)) None None None.

(** The observations handed to the solver for the recent readings of a
    device. *)
Definition realtimeObservations (recentReadings : list bufferedReading) : list obs :=
  map (fun kv => observationOf (snd kv)) (fold_left bySensorStep recentReadings []).

(** The body of [realtimeReadingsBuffer.forEach]: what stays in the buffer
    for the device and what is pushed to [newDevices]. *)
Definition realtimeStep (cutoffTime : Z) (dev : string * list bufferedReading)
  : readingsBuffer * list realtimeDevice :=
  let '(macHashed, readings) := dev in
  let recentReadings :=
    List.filter (fun r => (cutoffTime <=? b_timestamp r)%Z) readings in
  match recentReadings with
  | [] => ([], [])
  | _ =>
      let observations := realtimeObservations recentReadings in
      ([(macHashed, recentReadings)],
       match trilaterate observations with
       | Some r =>
           if negb (isNaN (lat r)) && negb (isNaN (lng r)) then
             [mkRealtimeDevice macHashed r (length observations)]
           else []
       | None => []
       end)
  end.

(** [computeRealtimePositions]: the buffer and [currentDevices] it
    leaves. *)
Definition computeRealtimePositions (now : Z) (buf : readingsBuffer)
    (currentDevices : list realtimeDevice)
  : readingsBuffer * list realtimeDevice :=
  let cutoffTime := (now - REALTIME_TIME_WINDOW_MS)%Z in
  let steps := map (realtimeStep cutoffTime) buf in
  let newDevices := flat_map snd steps in
  (flat_map fst steps,
   if (0 <? length newDevices)%nat then newDevices else currentDevices).

(** ** Zone manager: the point-in-polygon test ([js/mqttHandler.js]) *)

(** A Leaflet [L.LatLng]. *)
Record latLng : Type := mkLatLng { ll_lat : num; ll_lng : num }.

(** The test of one edge in [isPointInPolygon], from vertex [j] to vertex
    [i]:
    [((yi > y) !== (yj > y)) && (x < (xj - xi) * (y - yi) / (yj - yi) + xi)]. *)
Definition edgeCrossed (x y : num) (vi vj : latLng) : bool :=
  let xi := ll_lng vi in
  let yi := ll_lat vi in
  let xj := ll_lng vj in
  let yj := ll_lat vj in
  negb (Bool.eqb (y <? yi)%js (y <? yj)%js)
  && (x <? (xj - xi) * (y - yi) / (yj - yi) + xi)%js.

(** The loop [for (let i = 0, j = polygon.length - 1; ...; j = i++)] from
    vertex [i] on: [vj] is the vertex before. *)
Fixpoint rayLoop (x y : num) (vj : latLng) (rest : list latLng) (inside : bool)
  : bool :=
  match rest with
  | [] => inside
  | vi :: rest' =>
      rayLoop x y vi rest' (if edgeCrossed x y vi vj then negb inside else inside)
  end.

(** [ZoneManager.isPointInPolygon], with [x = point.lng] and
    [y = point.lat]; the polygon is an array of vertices (the guard
    [!polygon] is for a missing one). *)
Definition isPointInPolygon (point : latLng) (polygon : list latLng) : bool :=
  if (length polygon <? 3)%nat then false
  else
    match polygon with
    | [] => false
    | v0 :: _ => rayLoop (ll_lng point) (ll_lat point) (List.last polygon v0)
                         polygon false
    end.

(** ** Time controls ([js/timeControls.js]) *)

Module TimeControls.

(** The module-level state: [animationFrameId] is kept as the fact that a
    frame is requested.  The page elements the module writes to are not
    part of it. *)
Record state : Type := mkState {
  timestamps : list string;
  currentIndex : Z;
  isPlaying : bool;
  playbackSpeed : num;
  animationFrameId : bool;
  lastFrameTime : num
}.

Definition initial : state := mkState [] 0 false (Num 1) false (Num 0).

(** [ts[i]]: [undefined] out of range. *)
Definition item (ts : list string) (i : Z) : option string :=
  if (i <? 0)%Z then None else nth_error ts (Z.to_nat i).

(** [ts.indexOf(x)] *)
Fixpoint indexOf (ts : list string) (x : string) : Z :=
  match ts with
  | [] => -1
  | t :: ts' =>
      if String.eqb t x then 0
      else let i := indexOf ts' x in if (i <? 0)%Z then -1 else (i + 1)%Z
  end.

(** Every function returns the state it leaves and the arguments of the
    calls of [updateCallback] it makes, in order. *)
Definition setTimestamps (ts : list string) (st : state)
  : state * list (option string) :=
  let st := mkState ts 0 (isPlaying st) (playbackSpeed st) (animationFrameId st)
                    (lastFrameTime st) in
  if (0 <? length ts)%nat then (st, [item (timestamps st) (currentIndex st)])
  else (st, []).

(** [handleSliderChange], for the value [parseInt(slider.value, 10)] of the
    slider. *)
Definition handleSliderChange (newIndex : Z) (st : state)
  : state * list (option string) :=
  if negb (newIndex =? currentIndex st)%Z then
    let st := mkState (timestamps st) newIndex (isPlaying st) (playbackSpeed st)
                      (animationFrameId st) (lastFrameTime st) in
    (st, [item (timestamps st) (currentIndex st)])
  else (st, []).

(** [handleSpeedChange], for the value [parseFloat(speedSelect.value)]. *)
Definition handleSpeedChange (speed : num) (st : state) : state :=
  mkState (timestamps st) (currentIndex st) (isPlaying st) speed
          (animationFrameId st) (lastFrameTime st).

Definition step (delta : Z) (st : state) : state * list (option string) :=
  let newIndex := (currentIndex st + delta)%Z in
  if (0 <=? newIndex)%Z && (newIndex <? Z.of_nat (length (timestamps st)))%Z then
    let st := mkState (timestamps st) newIndex (isPlaying st) (playbackSpeed st)
                      (animationFrameId st) (lastFrameTime st) in
    (st, [item (timestamps st) (currentIndex st)])
  else (st, []).

(** [play], with the reading [now] of [performance.now()]. *)
Definition play (now : num) (st : state) : state :=
  if (length (timestamps st) =? 0)%nat then st
  else mkState (timestamps st) (currentIndex st) true (playbackSpeed st) true now.

Definition pause (st : state) : state :=
  mkState (timestamps st) (currentIndex st) false (playbackSpeed st) false
          (lastFrameTime st).

Definition togglePlayback (now : num) (st : state) : state :=
  if isPlaying st then pause st else play now st.

Definition animationLoop (currentTime : num) (st : state)
  : state * list (option string) :=
  if negb (isPlaying st) then (st, [])
  else
    let elapsed := (currentTime - lastFrameTime st)%js in
    let interval := (Num 1000 / playbackSpeed st)%js in
    if (interval <=? elapsed)%js then
      let index := (currentIndex st + 1)%Z in
      let index :=
        if (Z.of_nat (length (timestamps st)) <=? index)%Z then 0%Z else index in
      let st := mkState (timestamps st) index (isPlaying st) (playbackSpeed st)
                        true currentTime in
      (st, [item (timestamps st) (currentIndex st)])
    else
      (mkState (timestamps st) (currentIndex st) (isPlaying st) (playbackSpeed st)
               true (lastFrameTime st), []).

Definition getCurrentTimestamp (st : state) : option string :=
  if (length (timestamps st) =? 0)%nat then None
  else item (timestamps st) (currentIndex st).

Definition getCurrentIndex (st : state) : Z := currentIndex st.

Definition setTimestamp (timestamp : string) (st : state) : state :=
  let index := indexOf (timestamps st) timestamp in
  if (0 <=? index)%Z then
    mkState (timestamps st) index (isPlaying st) (playbackSpeed st)
            (animationFrameId st) (lastFrameTime st)
  else st.

Definition reset (st : state) : state :=
  let st := pause st in
  mkState [] 0 (isPlaying st) (playbackSpeed st) (animationFrameId st)
          (lastFrameTime st).

(** What can happen to the controls: the calls of the public functions, the
    input of the page elements and the animation frames. *)
Inductive event : Type :=
  | SetTimestamps (ts : list string)
  | SliderInput (newIndex : Z)
  | SpeedInput (speed : num)
  | PrevClick
  | NextClick
  | Step (delta : Z)
  | PlayClick (now : num)
  | Play (now : num)
  | Pause
  | Frame (currentTime : num)
  | SetTimestamp (timestamp : string)
  | Reset.

Definition fire (ev : event) (st : state) : state * list (option string) :=
  match ev with
  | SetTimestamps ts => setTimestamps ts st
  | SliderInput i => handleSliderChange i st
  | SpeedInput v => (handleSpeedChange v st, [])
  | PrevClick => step (-1) st
  | NextClick => step 1 st
  | Step delta => step delta st
  | PlayClick now => (togglePlayback now st, [])
  | Play now => (play now st, [])
  | Pause => (pause st, [])
  | Frame t => animationLoop t st
  | SetTimestamp s => (setTimestamp s st, [])
  | Reset => (reset st, [])
  end.

Definition run (evs : list event) (st : state) : state * list (option string) :=
  fold_left (fun acc ev => let '(st', calls) := fire ev (fst acc) in
                           (st', snd acc ++ calls))
            evs (st, []).

End TimeControls.

(** ** The lateration solver in double precision *)

(** The arithmetic of the engine that runs the code.  [round] gives the
    double a real result is rounded to ([Infinity] or [-Infinity] when it
    overflows); the results of [+], [-], [*] and [/] on finite operands
    are the rounded exact results.  [Math.cos], [Math.sin], [Math.sqrt]
    and [Math.pow] are left to the implementation by the language, so they
    are arbitrary functions: [pow10D] is [Math.pow(10, .)] and [pow2D] is
    [Math.pow(., 2)].  Comparisons, [Math.abs], [Math.max] and [Math.min]
    are exact. *)
Record arithmetic : Type := mkArithmetic {
  round : R -> num;
  cosD : num -> num;
  sinD : num -> num;
  sqrtD : num -> num;
  pow10D : num -> num;
  pow2D : num -> num
}.

(** The arithmetic of the other sections of this file: nothing rounds. *)
Definition exact : arithmetic :=
  mkArithmetic Num Math_cos Math_sin Math_sqrt Math_pow10 Math_pow2.

(** The lateration solver of [js/lateration.js] once more, operation by
    operation, over an arbitrary [arithmetic].  Literals that doubles
    hold exactly (integers, [0.5], [1.5]) are themselves; [1e-10], [0.2]
    and [Math.PI] are rounded. *)
Module Doubles.
Section Solver.

Variable ar : arithmetic.

Definition rounded (v : num) : num :=
  match v with
  | Num r => round ar r
  | _ => v
  end.

Definition add (a b : num) : num := rounded (a + b)%js.
Definition sub (a b : num) : num := rounded (a - b)%js.
Definition mul (a b : num) : num := rounded (a * b)%js.
Definition div (a b : num) : num := rounded (a / b)%js.

Local Infix "[+]" := add (at level 50, left associativity).
Local Infix "[-]" := sub (at level 50, left associativity).
Local Infix "[*]" := mul (at level 40, left associativity).
Local Infix "[/]" := div (at level 40, left associativity).

(** [Math.PI] *)
Definition PI_D : num := rounded Math_PI.

Definition gpsToMeters (lat lng refLat refLng : num) : point :=
  let latRad := (refLat [*] PI_D [/] Num 180) in
  let x := ((lng [-] refLng) [*] PI_D [/] Num 180 [*] earthRadius
            [*] cosD ar latRad) in
  let y := ((lat [-] refLat) [*] PI_D [/] Num 180 [*] earthRadius) in
  mkPoint x y.

Definition metersToGps (x y refLat refLng : num) : gps :=
  let latRad := (refLat [*] PI_D [/] Num 180) in
  let lat := (refLat [+] (y [/] earthRadius) [*] (Num 180 [/] PI_D)) in
  let lng := (refLng [+] (x [/] (earthRadius [*] cosD ar latRad))
                       [*] (Num 180 [/] PI_D)) in
  mkGps lat lng.

Definition distance (p1 p2 : point) : num :=
  sqrtD ar (pow2D ar (px p2 [-] px p1) [+] pow2D ar (py p2 [-] py p1)).

Definition bearing (mac : option string) : num :=
  match mac with
  | Some s =>
      if String.eqb s "" then Num 0
      else (Num (IZR (Z.rem (Z.abs (macHash s)) 360)) [*] PI_D [/] Num 180)
  | None => Num 0
  end.

Definition estimateTwoSensorPosition (p1 p2 : pointObs) : estimatedPos :=
  let dx := (px (pos p2) [-] px (pos p1)) in
  let dy := (py (pos p2) [-] py (pos p1)) in
  let sensorDist := sqrtD ar (dx [*] dx [+] dy [*] dy) in
  if (sensorDist =? Num 0)%js then
    mkEst (px (pos p1)) (py (pos p1)) None
  else
    let d1 := obs_distance (p_obs p1) in
    let d2 := obs_distance (p_obs p2) in
    let t := ((sensorDist [*] sensorDist [+] d1 [*] d1 [-] d2 [*] d2)
              [/] (Num 2 [*] sensorDist [*] sensorDist)) in
    let t := Math_max (Num (-0.5)) (Math_min (Num 1.5) t) in
    mkEst (px (pos p1) [+] t [*] dx)
          (py (pos p1) [+] t [*] dy)
          (Some (Math_abs (d1 [+] d2 [-] sensorDist))).

Definition addRow (s : normalSums) (ai : num * num) (bi wi : num) : normalSums :=
  mkSums (ata00 s [+] wi [*] fst ai [*] fst ai)
         (ata01 s [+] wi [*] fst ai [*] snd ai)
         (ata10 s [+] wi [*] snd ai [*] fst ai)
         (ata11 s [+] wi [*] snd ai [*] snd ai)
         (atb0 s [+] wi [*] fst ai [*] bi)
         (atb1 s [+] wi [*] snd ai [*] bi).

Fixpoint accumulate (A : list (num * num)) (b w : list num) (s : normalSums)
  : normalSums :=
  match A, b, w with
  | ai :: A', bi :: b', wi :: w' => accumulate A' b' w' (addRow s ai bi wi)
  | _, _, _ => s
  end.

Definition columnSum (col : num * num -> num) (A : list (num * num)) : num :=
  fold_left (fun c ai => (c [+] col ai)) A (Num 0).

(** [det = ata00 * ata11 - ata01 * ata10] *)
Definition determinant (s : normalSums) : num :=
  (ata00 s [*] ata11 s [-] ata01 s [*] ata10 s).

(** The test [Math.abs(det) < 1e-10]. *)
Definition singular (s : normalSums) : bool :=
  (Math_abs (determinant s) <? round ar 1e-10)%js.

Definition solveWeightedLeastSquares (A : list (num * num)) (b w : list num)
  : estimatedPos :=
  let n := Num (INR (length A)) in
  let s := accumulate A b w sums0 in
  let det := determinant s in
  if singular s then
    let cx := columnSum fst A in
    let cy := columnSum snd A in
    mkEst (cx [/] n) (cy [/] n) None
  else
    mkEst ((ata11 s [*] atb0 s [-] ata01 s [*] atb1 s) [/] det)
          ((ata00 s [*] atb1 s [-] ata10 s [*] atb0 s) [/] det)
          None.

Definition rowA (ref pi : pointObs) : num * num :=
  ((Num 2 [*] (px (pos pi) [-] px (pos ref))),
   (Num 2 [*] (py (pos pi) [-] py (pos ref)))).

Definition rowB (ref pi : pointObs) : num :=
  let dr := obs_distance (p_obs ref) in
  let di := obs_distance (p_obs pi) in
  (dr [*] dr [-] di [*] di
   [+] px (pos pi) [*] px (pos pi) [-] px (pos ref) [*] px (pos ref)
   [+] py (pos pi) [*] py (pos pi) [-] py (pos ref) [*] py (pos ref)).

Definition rssiWeight (r : option num) : num :=
  match r with
  | Some v => if truthy v then pow10D ar ((v [+] Num 100) [/] Num 20) else Num 1
  | None => Num 1
  end.

Definition rowWeight (pi : pointObs) : num :=
  let distWeight := (Num 1 [/] (obs_distance (p_obs pi) [+] Num 1)) in
  (distWeight [*] rssiWeight (rssi (p_obs pi))).

Definition sumSqResiduals (e : estimatedPos) (points : list pointObs) : num :=
  fold_left
    (fun acc p =>
       (acc [+] pow2D ar (distance (est_point e) (pos p) [-] obs_distance (p_obs p))))
    points (Num 0).

Definition estimateMultiSensorPosition (ref : pointObs) (rest : list pointObs)
  : estimatedPos :=
  let A := map (rowA ref) rest in
  let b := map (rowB ref) rest in
  let weights := map rowWeight rest in
  let res := solveWeightedLeastSquares A b weights in
  let points := ref :: rest in
  let v := sqrtD ar (sumSqResiduals res points [/] Num (INR (length points))) in
  mkEst (est_x res) (est_y res) (Some v).

Definition calculateResidual (e : estimatedPos) (points : list pointObs) : num :=
  let totalError :=
    fold_left
      (fun acc p =>
         (acc [+] Math_abs (distance (est_point e) (pos p) [-] obs_distance (p_obs p))))
      points (Num 0) in
  (totalError [/] Num (INR (length points))).

Definition getConfidenceFromSensorCount (sensorCount : nat) : num :=
  if (3 <=? sensorCount)%nat then Num 1.0
  else if (sensorCount =? 2)%nat then Num 0.5
  else round ar 0.2.

Definition sumOver (f : obs -> num) (l : list obs) : num :=
  fold_left (fun sum o => (sum [+] f o)) l (Num 0).

Definition estimateOneSensorPosition (sensor : obs) : gps * estimatedPos :=
  let distanceMeters := obs_distance sensor in
  let angle := bearing (mac_hashed sensor) in
  let latOffset :=
    (distanceMeters [*] cosD ar angle [/] earthRadius [*] (Num 180 [/] PI_D)) in
  let lngOffset :=
    (distanceMeters [*] sinD ar angle
     [/] (earthRadius [*] cosD ar (sensor_lat sensor [*] PI_D [/] Num 180))
     [*] (Num 180 [/] PI_D)) in
  (mkGps (sensor_lat sensor [+] latOffset) (sensor_lng sensor [+] lngOffset),
   mkEst (distanceMeters [*] sinD ar angle)
         (distanceMeters [*] cosD ar angle)
         (Some distanceMeters)).

Definition centroid (f : obs -> num) (validObs : list obs) : num :=
  (sumOver f validObs [/] Num (INR (length validObs))).

Definition toPoint (refLat refLng : num) (o : obs) : pointObs :=
  mkPointObs o (gpsToMeters (sensor_lat o) (sensor_lng o) refLat refLng).

Definition trilaterate (observations : list obs) : option result :=
  let validObs := List.filter validObservation observations in
  let n := length validObs in
  let refLat := centroid sensor_lat validObs in
  let refLng := centroid sensor_lng validObs in
  let points := map (toPoint refLat refLng) validObs in
  let finish (first : obs) (gpsResult : gps) (estimated : estimatedPos) :=
    let residual :=
      if (1 <? n)%nat then calculateResidual estimated points
      else obs_distance first in
    Some (mkResult (g_lat gpsResult) (g_lng gpsResult)
                   (getQualityLevel n) n validObs
                   (getConfidenceFromSensorCount n)
                   (or_else (est_variance estimated) residual)) in
  match validObs with
  | [] => None
  | [sensor] =>
      let '(gpsResult, estimated) := estimateOneSensorPosition sensor in
      finish sensor gpsResult estimated
  | [o1; o2] =>
      let e := estimateTwoSensorPosition (toPoint refLat refLng o1)
                                         (toPoint refLat refLng o2) in
      finish o1 (metersToGps (est_x e) (est_y e) refLat refLng) e
  | o1 :: rest =>
      let e := estimateMultiSensorPosition (toPoint refLat refLng o1)
                                           (map (toPoint refLat refLng) rest) in
      finish o1 (metersToGps (est_x e) (est_y e) refLat refLng) e
  end.

End Solver.
End Doubles.

(** ** Vocabulary of the properties

    Definitions the theorems are stated with.  Those that follow the
    wording of the specification rather than the code say so. *)

(** *** The distance filter, in the words of the specification *)

(** "discard observations with [distance_m <= 0] or [distance_m >= 200]" *)
Definition discarded (o : obs) : bool :=
  (obs_distance o <=? Num 0)%js || (Num 200 <=? obs_distance o)%js.

Definition survivors (observations : list obs) : list obs :=
  List.filter (fun o => negb (discarded o)) observations.

(** *** Sequences of smoother calls *)

(** A call of the smoother: device, measured position, quality, clock. *)
Record smootherCall : Type := mkCall {
  c_device : string;
  c_lat : num;
  c_lng : num;
  c_quality : num;
  c_now : Z
}.

(** The states left by a sequence of smoother calls. *)
Definition runSmoother (states : gmap string kalmanState) (calls : list smootherCall)
  : gmap string kalmanState :=
  fold_left
    (fun st c => snd (applyKalmanFilter st (c_now c) (c_device c)
                                        (c_lat c) (c_lng c) (c_quality c)))
    calls states.

Definition initialCovariance : mat4 :=
  mkMat4 (mkVec4 (Num 100) (Num 0) (Num 0) (Num 0))
         (mkVec4 (Num 0) (Num 100) (Num 0) (Num 0))
         (mkVec4 (Num 0) (Num 0) (Num 10) (Num 0))
         (mkVec4 (Num 0) (Num 0) (Num 0) (Num 10)).

(** *** Real-valued views of finite data *)

Definition toR (a : num) : R := match a with Num r => r | _ => 0 end.

Definition Rsum {A : Type} (f : A -> R) (l : list A) : R :=
  fold_right (fun a acc => f a + acc) 0 l.

Definition xR (p : pointObs) : R := toR (px (pos p)).
Definition yR (p : pointObs) : R := toR (py (pos p)).
Definition dR (p : pointObs) : R := toR (obs_distance (p_obs p)).

Definition finiteRssi (r : option num) : Prop :=
  match r with Some v => finite v | None => True end.

(** A projected observation with finite coordinates, a finite positive
    distance and a finite or absent rssi. *)
Definition finitePoint (p : pointObs) : Prop :=
  px (pos p) = Num (xR p) /\ py (pos p) = Num (yR p)
  /\ obs_distance (p_obs p) = Num (dR p) /\ 0 < dR p
  /\ finiteRssi (rssi (p_obs p)).

(** An observation the solver keeps, with finite fields. *)
Definition finiteObs (o : obs) : Prop :=
  finite (sensor_lat o) /\ finite (sensor_lng o)
  /\ finite (obs_distance o) /\ finiteRssi (rssi o).

(** The bearing of the one-sensor strategy, in radians, over the reals. *)
Definition bearingR (mac : option string) : R :=
  match mac with
  | Some s =>
      if String.eqb s "" then 0
      else IZR (Z.rem (Z.abs (macHash s)) 360) * PI / 180
  | None => 0
  end.

(** The circle equation of sensor [p] at [(x, y)], as a residual. *)
Definition circle (p : pointObs) (x y : R) : R :=
  (x - xR p) * (x - xR p) + (y - yR p) * (y - yR p) - dR p * dR p.

(** The linearized equation of sensor [p] against the first sensor [ref]:
    [a0 * x + a1 * y = b]. *)
Definition a0R (ref p : pointObs) : R := 2 * (xR p - xR ref).
Definition a1R (ref p : pointObs) : R := 2 * (yR p - yR ref).
Definition bR (ref p : pointObs) : R :=
  dR ref * dR ref - dR p * dR p + xR p * xR p - xR ref * xR ref
  + yR p * yR p - yR ref * yR ref.

(** The signal multiplier as the specification words it: the formula
    whenever an rssi is present, [1] when it is missing. *)
Definition claimedMultiplier (r : option num) : R :=
  match r with
  | Some v => Rpower 10 ((toR v + 100) / 20)
  | None => 1
  end.

(** The signal multiplier of the code: the formula for a present, nonzero
    rssi, [1] for a missing or zero one. *)
Definition signalMultiplier (r : option num) : R :=
  match r with
  | Some v => if Reqb (toR v) 0 then 1 else Rpower 10 ((toR v + 100) / 20)
  | None => 1
  end.

Definition wR (p : pointObs) : R :=
  1 / (dR p + 1) * signalMultiplier (rssi (p_obs p)).

(** The separation of two projected sensors. *)
Definition sepR (p1 p2 : pointObs) : R :=
  sqrt ((xR p2 - xR p1) * (xR p2 - xR p1) + (yR p2 - yR p1) * (yR p2 - yR p1)).

(** The clamped interpolation parameter. *)
Definition tR (p1 p2 : pointObs) : R :=
  let D := sepR p1 p2 in
  Rmax (-0.5) (Rmin 1.5 ((D * D + dR p1 * dR p1 - dR p2 * dR p2) / (2 * D * D))).

(** The entries of [A'WA] and [A'Wb] over the reals. *)
Definition S00 (ref : pointObs) (rest : list pointObs) : R :=
  Rsum (fun p => wR p * a0R ref p * a0R ref p) rest.
Definition S01 (ref : pointObs) (rest : list pointObs) : R :=
  Rsum (fun p => wR p * a0R ref p * a1R ref p) rest.
Definition S10 (ref : pointObs) (rest : list pointObs) : R :=
  Rsum (fun p => wR p * a1R ref p * a0R ref p) rest.
Definition S11 (ref : pointObs) (rest : list pointObs) : R :=
  Rsum (fun p => wR p * a1R ref p * a1R ref p) rest.
Definition T0 (ref : pointObs) (rest : list pointObs) : R :=
  Rsum (fun p => wR p * a0R ref p * bR ref p) rest.
Definition T1 (ref : pointObs) (rest : list pointObs) : R :=
  Rsum (fun p => wR p * a1R ref p * bR ref p) rest.
Definition detR (ref : pointObs) (rest : list pointObs) : R :=
  S00 ref rest * S11 ref rest - S01 ref rest * S10 ref rest.

(** The reference point and the projected sensors of a filtered list. *)
Definition refLatOf (validObs : list obs) : num := centroid sensor_lat validObs.
Definition refLngOf (validObs : list obs) : num := centroid sensor_lng validObs.
Definition pointsOf (validObs : list obs) : list pointObs :=
  map (toPoint (refLatOf validObs) (refLngOf validObs)) validObs.

(** A filtered observation list: every element passes the distance filter
    and has finite fields. *)
Definition filteredList (validObs : list obs) : Prop :=
  Forall (fun o => validObservation o = true) validObs
  /\ Forall finiteObs validObs.

(** *** The aggregator, flattened

    One reading per (timestamp, entry, device) triple the three nested
    [forEach] loops visit, in the order they visit them. *)
Record reading : Type := mkRd {
  rd_ts : string;
  rd_offset : Z;
  rd_entry : entry;
  rd_device : device
}.

Definition rd_obs (r : reading) : obs :=
  mkReading (rd_ts r) (rd_offset r) (rd_entry r) (rd_device r).
Definition rd_sensor (r : reading) : string := device_key (rd_entry r).
Definition rd_mac (r : reading) : string := d_mac_hashed (rd_device r).
Definition rd_key (r : reading) : string := readingKey (rd_entry r) (rd_device r).

Definition entryReadings (ts : string) (offset : Z) (e : entry) : list reading :=
  map (mkRd ts offset e) (devices e).

Definition timestampReadings (getTime : string -> option Z) (dh : dataHandler)
    (centerTime : option Z) (ts : string) : list reading :=
  match inWindow getTime dh centerTime ts with
  | Some offset =>
      flat_map (entryReadings ts offset) (default [] (dataByTimestamp dh !! ts))
  | None => []
  end.

(** The readings recorded at the timestamps of the window. *)
Definition windowReadings (getTime : string -> option Z) (dh : dataHandler)
    (timestamp : string) : list reading :=
  flat_map (timestampReadings getTime dh (getTime timestamp)) (timestamps dh).

Definition readingStep (acc : deviceMap * gset string) (r : reading)
  : deviceMap * gset string :=
  deviceStep (rd_ts r) (rd_offset r) (rd_entry r) acc (rd_device r).

(** *** The aggregation, in the words of the specification *)

(** Keep the first element of every class of [same], in order: an element
    stays, every later element of its class goes. *)
Fixpoint keepFirst {A : Type} (same : A -> A -> bool) (l : list A) : list A :=
  match l with
  | [] => []
  | a :: l' => a :: List.filter (fun b => negb (same a b)) (keepFirst same l')
  end.

(** Two readings of one (sensor, device) pair. *)
Definition samePair (r r' : reading) : bool :=
  String.eqb (rd_sensor r) (rd_sensor r') && String.eqb (rd_mac r) (rd_mac r').

(** "keep at most one reading per (sensor, device) pair across the whole
    window, first-seen wins" *)
Definition firstSeen (l : list reading) : list reading := keepFirst samePair l.

(** "group results by device": devices in order of first appearance, each
    with its observations in order. *)
Definition groupByDevice (l : list reading) : deviceMap :=
  map (fun mac =>
         (mac, map rd_obs (List.filter (fun r => String.eqb (rd_mac r) mac) l)))
      (keepFirst String.eqb (map rd_mac l)).

Definition specAggregate (getTime : string -> option Z) (dh : dataHandler)
    (timestamp : string) : deviceMap :=
  groupByDevice (firstSeen (windowReadings getTime dh timestamp)).

(** The keys [`${sensor}_${device}`] of the readings tell their pairs
    apart. *)
Definition keysInjective (l : list reading) : Prop :=
  forall r r', In r l -> In r' l -> rd_key r = rd_key r' -> samePair r r' = true.

(** A sensor identifier that contains the key separator. *)
Fixpoint hasUnderscore (s : string) : bool :=
  match s with
  | EmptyString => false
  | String c s' => Ascii.eqb c "_" || hasUnderscore s'
  end.

(** The stored timestamps are in chronological order. *)
Definition chronological (getTime : string -> option Z) (tss : list string) : Prop :=
  StronglySorted
    (fun a b => forall ta tb, getTime a = Some ta -> getTime b = Some tb ->
                              (ta <= tb)%Z)
    tss.

(** *** The controller's guard *)

(** The test [result && !isNaN(result.lat) && !isNaN(result.lng)]. *)
Definition keptResult (res : option result) : bool :=
  match res with
  | Some r => negb (isNaN (lat r)) && negb (isNaN (lng r))
  | None => false
  end.

(** The solver result the controller obtains for a device: the cached one
    if the cache has the key, a fresh [trilaterate] otherwise. *)
Definition solverResult (cache : gmap string (option result)) (timestamp : string)
    (dev : string * list obs) : option result :=
  match cache !! getCacheKey timestamp (fst dev) with
  | Some r => r
  | None => trilaterate (snd dev)
  end.

(** What the guard guarantees of a returned element. *)
Definition nonNaNPosition (dp : devicePosition) : Prop :=
  isNaN (final_lat dp) = false /\ isNaN (final_lng dp) = false
  /\ isNaN (rawLat dp) = false /\ isNaN (rawLng dp) = false
  /\ rawLat dp = lat (raw dp) /\ rawLng dp = lng (raw dp).

(** No observation of an aggregated map carries [mac_hashed]. *)
Definition noMac (dm : deviceMap) : Prop :=
  Forall (fun kv => Forall (fun o => mac_hashed o = None) (snd kv)) dm.

(** *** The result cache and the controller's output *)

(** A device identifier that contains the separator of the cache key. *)
Fixpoint hasColon (s : string) : bool :=
  match s with
  | EmptyString => false
  | String c s' => Ascii.eqb c ":" || hasColon s'
  end.

(** The element pushed for a device whose position is not smoothed. *)
Definition unsmoothed (mac : string) (r : result) : devicePosition :=
  mkDevicePosition mac r (lat r) (lng r) (lat r) (lng r) false.

(** The cache after one request of the controller. *)
Definition cacheStep (timestamp : string) (cache : gmap string (option result))
    (dev : string * list obs) : gmap string (option result) :=
  snd (getCachedOrCompute cache timestamp (fst dev) (snd dev)).

(** What the controller pushes for a device while smoothing is off. *)
Definition unsmoothedOutput (cache : gmap string (option result))
    (timestamp : string) (dev : string * list obs) : list devicePosition :=
  match solverResult cache timestamp dev with
  | Some r => if keptResult (Some r) then [unsmoothed (fst dev) r] else []
  | None => []
  end.

(** *** Range errors *)

(** The signed range error of sensor [p] at the local point [(x, y)]. *)
Definition residualR (x y : R) (p : pointObs) : R :=
  sqrt ((xR p - x) * (xR p - x) + (yR p - y) * (yR p - y)) - dR p.

(** *** Smoother states and call sequences *)

(** Smoother states with finite entries. *)
Definition finiteVec (x : vec4) : Prop :=
  finite (v0 x) /\ finite (v1 x) /\ finite (v2 x) /\ finite (v3 x).

Definition finiteMat (P : mat4) : Prop :=
  finiteVec (m0 P) /\ finiteVec (m1 P) /\ finiteVec (m2 P) /\ finiteVec (m3 P).

Definition symmetricMat (P : mat4) : Prop :=
  el P 0 1 = el P 1 0 /\ el P 0 2 = el P 2 0 /\ el P 0 3 = el P 3 0
  /\ el P 1 2 = el P 2 1 /\ el P 1 3 = el P 3 1 /\ el P 2 3 = el P 3 2.

(** A stored smoother state with a finite state vector, a finite symmetric
    covariance and a finite anchor. *)
Definition regularState (s : kalmanState) : Prop :=
  finiteVec (ks_x s) /\ finiteMat (ks_P s) /\ symmetricMat (ks_P s)
  /\ finite (ks_refLat s) /\ finite (ks_refLng s).

(** A call with a finite measurement and a finite quality. *)
Definition finiteCall (c : smootherCall) : Prop :=
  finite (c_lat c) /\ finite (c_lng c) /\ finite (c_quality c).

(** The outputs of a sequence of smoother calls, each with its device, and
    the states the sequence leaves. *)
Definition smootherStep (acc : list (string * gps) * gmap string kalmanState)
    (c : smootherCall) : list (string * gps) * gmap string kalmanState :=
  let '(g, states) :=
    applyKalmanFilter (snd acc) (c_now c) (c_device c) (c_lat c) (c_lng c)
                      (c_quality c) in
  (fst acc ++ [(c_device c, g)], states).

Definition smoothAll (states : gmap string kalmanState) (calls : list smootherCall)
  : list (string * gps) * gmap string kalmanState :=
  fold_left smootherStep calls ([], states).

(** The state vector of a device at rest at its anchor. *)
Definition zero4 : vec4 := mkVec4 (Num 0) (Num 0) (Num 0) (Num 0).

Definition restingAt (mlat mlng : R) (s : kalmanState) : Prop :=
  ks_x s = zero4 /\ finiteMat (ks_P s)
  /\ ks_refLat s = Num mlat /\ ks_refLng s = Num mlng.

Definition vecR (a b c d : R) : vec4 := mkVec4 (Num a) (Num b) (Num c) (Num d).

(** A covariance whose two axes are uncorrelated: the x axis has position
    variance [a], velocity variance [c] and their covariance [b]; the y
    axis has [a'], [c'] and [b']. *)
Definition blockMat (a b c a' b' c' : R) : mat4 :=
  mkMat4 (vecR a 0 b 0) (vecR 0 a' 0 b') (vecR b 0 c 0) (vecR 0 b' 0 c').

(** A positive semi-definite 2x2 block with positive diagonal. *)
Definition axisPSD (a b c : R) : Prop := 0 < a /\ 0 < c /\ b * b <= a * c.

(** A state whose covariance is of that kind, with a finite state vector
    and a finite anchor. *)
Definition conditionedState (s : kalmanState) : Prop :=
  exists x0 x1 x2 x3 a b c a' b' c' rlat rlng,
    ks_x s = vecR x0 x1 x2 x3 /\ ks_P s = blockMat a b c a' b' c'
    /\ axisPSD a b c /\ axisPSD a' b' c'
    /\ ks_refLat s = Num rlat /\ ks_refLng s = Num rlng.

(** *** Loaded stores *)

(** The sensor an entry describes. *)
Definition sensorOf (e : entry) : sensor :=
  mkSensor (device_key e) (fst (e_gps e)) (snd (e_gps e)).

(** *** Buffered readings *)

(** The sensors of a list of buffered readings, in order of first
    appearance. *)
Definition sensorsOfReadings (l : list bufferedReading) : list string :=
  keepFirst String.eqb (map b_sensor_id l).

(** *** Zone polygons *)

Definition finiteLatLng (v : latLng) : Prop :=
  finite (ll_lat v) /\ finite (ll_lng v).

(** The parity of the edges crossed along a path that starts after [vj]. *)
Fixpoint crossings (x y : num) (vj : latLng) (rest : list latLng) : bool :=
  match rest with
  | [] => false
  | vi :: rest' => xorb (edgeCrossed x y vi vj) (crossings x y vi rest')
  end.

(** *** Time controls: events and invariants *)

(** The slider offers the indices of the list ([min] 0, [max]
    [length - 1]), and data is loaded with at least one timestamp. *)
Definition admissible (st : TimeControls.state) (ev : TimeControls.event) : Prop :=
  match ev with
  | TimeControls.SliderInput i =>
      (0 <= i < Z.of_nat (length (TimeControls.timestamps st)))%Z
  | TimeControls.SetTimestamps ts => ts <> []
  | _ => True
  end.

Fixpoint admissibleFrom (st : TimeControls.state) (evs : list TimeControls.event)
  : Prop :=
  match evs with
  | [] => True
  | ev :: evs' => admissible st ev /\ admissibleFrom (fst (TimeControls.fire ev st)) evs'
  end.

Definition indexInRange (st : TimeControls.state) : Prop :=
  (TimeControls.timestamps st = [] /\ TimeControls.currentIndex st = 0%Z)
  \/ (0 <= TimeControls.currentIndex st
      < Z.of_nat (length (TimeControls.timestamps st)))%Z.

Definition isSetTimestamp (ev : TimeControls.event) : bool :=
  match ev with TimeControls.SetTimestamp _ => true | _ => false end.

(** What the controls keep: a valid index, and a list to play. *)
Definition controlsInv (st : TimeControls.state) : Prop :=
  indexInRange st
  /\ (TimeControls.isPlaying st = true -> TimeControls.timestamps st <> []).

(** The timestamp last handed to the callback is the current one. *)
Definition synced (st : TimeControls.state) (shown : option string) : Prop :=
  TimeControls.timestamps st = [] \/ shown = TimeControls.getCurrentTimestamp st.

(** *** The solver in double precision *)

(** The reference point, the projected sensors and the accumulated sums
    [A'WA], [A'Wb] that the code computes for the kept observations, over
    an arithmetic. *)
Definition refLatD (ar : arithmetic) (validObs : list obs) : num :=
  Doubles.centroid ar sensor_lat validObs.
Definition refLngD (ar : arithmetic) (validObs : list obs) : num :=
  Doubles.centroid ar sensor_lng validObs.
Definition pointsD (ar : arithmetic) (validObs : list obs) : list pointObs :=
  map (Doubles.toPoint ar (refLatD ar validObs) (refLngD ar validObs)) validObs.
Definition normalSumsD (ar : arithmetic) (ref : pointObs) (rest : list pointObs)
  : normalSums :=
  Doubles.accumulate ar (map (Doubles.rowA ar ref) rest)
                     (map (Doubles.rowB ar ref) rest)
                     (map (Doubles.rowWeight ar) rest) sums0.

(** *** Devices without a smoother state *)

(** What the controller pushes for a device that has no smoother state
    while smoothing is on: the solver's position, flagged as smoothed. *)
Definition firstOutput (cache : gmap string (option result))
    (timestamp : string) (dev : string * list obs) : list devicePosition :=
  match solverResult cache timestamp dev with
  | Some r =>
      if keptResult (Some r) then
        [mkDevicePosition (fst dev) r (lat r) (lng r) (lat r) (lng r) true]
      else []
  | None => []
  end.

(** A smoother state anchored at a position. *)
Definition anchoredAt (la lo : num) (s : kalmanState) : Prop :=
  ks_refLat s = la /\ ks_refLng s = lo.

(** *** Numbers that are not negative *)

(** A number that is not negative: [NaN], [Infinity] or a real [>= 0]. *)
Definition notNegative (v : num) : Prop :=
  match v with
  | Num x => 0 <= x
  | PosInf | NaN => True
  | NegInf => False
  end.

(** ** Example data *)

Definition exObs (id : string) (la lo d : R) (r : option num) : obs :=
  mkObs id (Num la) (Num lo) (Num d) r None None None.

(** Three sensors on one meridian: a collinear geometry. *)
Definition obsA : obs := exObs "A" 50 6 5 (Some (Num (-70))).
Definition obsB : obs := exObs "B" 50.001 6 5 (Some (Num (-70))).
Definition obsC : obs := exObs "C" 50.002 6 5 (Some (Num (-70))).
Definition meridianObs : list obs := [obsA; obsB; obsC].

(** Three sensors forming a triangle, each with the default rssi. *)
Definition triA : obs := exObs "A" 50 6 60 (Some (Num (-100))).
Definition triB : obs := exObs "B" 50.001 6 70 (Some (Num (-100))).
Definition triC : obs := exObs "C" 50.0005 6.001 65 (Some (Num (-100))).
Definition triangleObs : list obs := [triA; triB; triC].

(** The same triangle, the third sensor reporting an rssi of zero. *)
Definition zeroC : obs := exObs "C" 50.0005 6.001 9 (Some (Num 0)).
Definition zeroRssiObs : list obs := [triA; triB; zeroC].

(** Two sensors about 111 m apart whose circles do not meet. *)
Definition twoA : obs := exObs "A" 50 6 30 (Some (Num (-100))).
Definition twoB : obs := exObs "B" 50.001 6 40 (Some (Num (-100))).
Definition twoObs : list obs := [twoA; twoB].

(** [Date.getTime] on the timestamps of the example stores. *)
Definition exampleTime (ts : string) : option Z :=
  if String.eqb ts "2025-01-15T10:30:00Z" then Some 1736937000000%Z
  else if String.eqb ts "2025-01-15T10:30:12Z" then Some 1736937012000%Z
  else None.

(** One sensor that saw the device ["ab"] once. *)
Definition singleStore : dataHandler :=
  mkDataHandler 15000
    ["2025-01-15T10:30:00Z"]
    {[ "2025-01-15T10:30:00Z" :=
         [mkEntry "S" (Num 50, Num 6) "2025-01-15T10:30:00Z"
                  [mkDevice "ab" (Some (Num (-70))) (Num 5)]] ]}.

Definition singleReading : obs :=
  mkObs "S" (Num 50) (Num 6) (Num 5) (Some (Num (-70))) None
        (Some "2025-01-15T10:30:00Z") (Some 0%Z).

(** The controller state of a fresh session: smoothing is on by default. *)
Definition freshSession : lateration := mkLateration ∅ true ∅.

(** The store of [singleStore] with an infinite sensor longitude. *)
Definition infStore : dataHandler :=
  mkDataHandler 15000
    ["2025-01-15T10:30:00Z"]
    {[ "2025-01-15T10:30:00Z" :=
         [mkEntry "S" (Num 50, PosInf) "2025-01-15T10:30:00Z"
                  [mkDevice "ab" (Some (Num (-70))) (Num 5)]] ]}.

Definition infReading : obs :=
  mkObs "S" (Num 50) PosInf (Num 5) (Some (Num (-70))) None
        (Some "2025-01-15T10:30:00Z") (Some 0%Z).

(** One usable observation among two out-of-range ones. *)
Definition mixedObs : list obs :=
  [exObs "far" 50 6 250 None; twoA; exObs "zero" 50 6 0 None].

(** Two sensors, two devices, one key: ["pi_7" + "_" + "a1b2"] and
    ["pi" + "_" + "7_a1b2"] are the same string. *)
Definition collidingStore : dataHandler :=
  mkDataHandler 15000
    ["2025-01-15T10:30:00Z"]
    {[ "2025-01-15T10:30:00Z" :=
         [mkEntry "pi_7" (Num 50, Num 6) "2025-01-15T10:30:00Z"
                  [mkDevice "a1b2" (Some (Num (-70))) (Num 5)];
          mkEntry "pi" (Num 50.001, Num 6) "2025-01-15T10:30:00Z"
                  [mkDevice "7_a1b2" (Some (Num (-60))) (Num 7)]] ]}.

(** Device ["D"] seen by sensor ["A"] at [t] and by sensor ["B"] at
    [t + 12 s]. *)
Definition asyncStore : dataHandler :=
  mkDataHandler 15000
    ["2025-01-15T10:30:00Z"; "2025-01-15T10:30:12Z"]
    ({[ "2025-01-15T10:30:00Z" :=
          [mkEntry "A" (Num 50, Num 6) "2025-01-15T10:30:00Z"
                   [mkDevice "D" (Some (Num (-70))) (Num 5)]] ]}
     ∪ {[ "2025-01-15T10:30:12Z" :=
          [mkEntry "B" (Num 50.001, Num 6) "2025-01-15T10:30:12Z"
                   [mkDevice "D" (Some (Num (-60))) (Num 7)]] ]}).

(** The devices of an aggregated map with the sensors of their readings. *)
Definition sensorsByDevice (dm : deviceMap) : list (string * list string) :=
  map (fun kv => (fst kv, map sensor_id (snd kv))) dm.

(** *** A device at the centroid of three sensors *)

(** The range from the local origin of the frame anchored at
    [(50.0005, 6.0005)] to the sensor at [(la, lo)]. *)
Definition exactRange (la lo : R) : R :=
  sqrt (((lo - 6.0005) * PI / 180 * 6371000 * cos (50.0005 * PI / 180))
        * ((lo - 6.0005) * PI / 180 * 6371000 * cos (50.0005 * PI / 180))
        + ((la - 50.0005) * PI / 180 * 6371000)
          * ((la - 50.0005) * PI / 180 * 6371000)).

(** Three sensors whose centroid is [(50.0005, 6.0005)], each reporting
    its exact range to a device at the centroid. *)
Definition exactA : obs := exObs "A" 50 6 (exactRange 50 6) (Some (Num (-100))).
Definition exactB : obs := exObs "B" 50.001 6 (exactRange 50.001 6) (Some (Num (-100))).
Definition exactC : obs :=
  exObs "C" 50.0005 6.0015 (exactRange 50.0005 6.0015) (Some (Num (-100))).
Definition exactObs : list obs := [exactA; exactB; exactC].

(** *** An upload in reverse order *)

(** The entries of [asyncStore], as an upload in reverse order. *)
Definition asyncData : list entry :=
  [mkEntry "B" (Num 50.001, Num 6) "2025-01-15T10:30:12Z"
           [mkDevice "D" (Some (Num (-60))) (Num 7)];
   mkEntry "A" (Num 50, Num 6) "2025-01-15T10:30:00Z"
           [mkDevice "D" (Some (Num (-70))) (Num 5)]].

Definition emptyStore : store :=
  mkStore (mkDataHandler 15000 [] ∅) [] None [] None ∅.

(** ** Arithmetic on finite values *)

Lemma Reqb_false (a b : R) : a <> b -> Reqb a b = false.
Proof. intros H. unfold Reqb. destruct (Req_dec_T a b); [contradiction | reflexivity]. Qed.

Lemma Reqb_true (a b : R) : a = b -> Reqb a b = true.
Proof. intros H. unfold Reqb. destruct (Req_dec_T a b); [reflexivity | contradiction]. Qed.

Lemma Rltb_true (a b : R) : a < b -> Rltb a b = true.
Proof. intros H. unfold Rltb. destruct (Rlt_dec a b); [reflexivity | contradiction]. Qed.

Lemma Rltb_false (a b : R) : ~ a < b -> Rltb a b = false.
Proof. intros H. unfold Rltb. destruct (Rlt_dec a b); [contradiction | reflexivity]. Qed.

Lemma Rleb_true (a b : R) : a <= b -> Rleb a b = true.
Proof. intros H. unfold Rleb. destruct (Rle_dec a b); [reflexivity | contradiction]. Qed.

Lemma Rleb_false (a b : R) : ~ a <= b -> Rleb a b = false.
Proof. intros H. unfold Rleb. destruct (Rle_dec a b); [contradiction | reflexivity]. Qed.

Lemma ndiv_Num (a b : R) : b <> 0 -> ndiv (Num a) (Num b) = Num (a / b).
Proof. intros H. unfold ndiv. now rewrite Reqb_false. Qed.

Lemma Math_sqrt_Num (a : R) : 0 <= a -> Math_sqrt (Num a) = Num (sqrt a).
Proof. intros H. unfold Math_sqrt. rewrite Rltb_false; [reflexivity | lra]. Qed.

Lemma Math_min_Num (a b : R) : Math_min (Num a) (Num b) = Num (Rmin a b).
Proof.
  unfold Math_min, Rmin. cbn [nltb]. unfold Rltb.
  destruct (Rlt_dec b a), (Rle_dec a b); try reflexivity; lra.
Qed.

Lemma Math_max_Num (a b : R) : Math_max (Num a) (Num b) = Num (Rmax a b).
Proof.
  unfold Math_max, Rmax. cbn [nltb]. unfold Rltb.
  destruct (Rlt_dec a b), (Rle_dec a b); try reflexivity; try lra.
  f_equal. lra.
Qed.

Lemma clamp_bounds (x : R) : -0.5 <= Rmax (-0.5) (Rmin 1.5 x) <= 1.5.
Proof.
  split; [apply Rmax_l|].
  apply Rmax_lub; [lra | apply Rmin_l].
Qed.

Lemma sum_squares_nonneg (a b : R) : 0 <= a * a + b * b.
Proof. nra. Qed.

Lemma PI_neq0' : PI <> 0.
Proof. pose proof PI_RGT_0. lra. Qed.

Lemma PI_gt_3 : 3 < PI.
Proof. pose proof PI2_3_2. lra. Qed.

Lemma cos_deg_gt_half (a : R) : 0 <= a -> a < 60 -> 1 / 2 < cos (a * PI / 180).
Proof.
  intros H0 H60. pose proof PI_gt_3 as HPI.
  rewrite <- cos_PI3. apply cos_decreasing_1; try nra.
Qed.

Lemma cos_50_neq0 : cos (50 * PI / 180) <> 0.
Proof.
  pose proof (cos_deg_gt_half 50 ltac:(lra) ltac:(lra)). lra.
Qed.

Lemma sin_225_neg : sin (225 * PI / 180) < 0.
Proof.
  pose proof PI_RGT_0 as HPI. apply sin_lt_0; lra.
Qed.

Lemma Rsum_cons {A : Type} (f : A -> R) (a : A) (l : list A) :
  Rsum f (a :: l) = f a + Rsum f l.
Proof. reflexivity. Qed.

Lemma Rsum_nil {A : Type} (f : A -> R) : Rsum f [] = 0.
Proof. reflexivity. Qed.

Lemma Rsum_zero {A : Type} (f : A -> R) (l : list A) :
  Forall (fun a => f a = 0) l -> Rsum f l = 0.
Proof.
  induction 1 as [|a l Ha _ IH]; [reflexivity|].
  rewrite Rsum_cons, Ha, IH. lra.
Qed.

Lemma fold_nadd_Num {A : Type} (f : A -> num) (l : list A) :
  Forall (fun a => f a = Num (toR (f a))) l ->
  forall acc : R,
    fold_left (fun s a => (s + f a)%js) l (Num acc)
    = Num (acc + Rsum (fun a => toR (f a)) l).
Proof.
  induction 1 as [|a l Ha _ IH]; intros acc; cbn [fold_left].
  - rewrite Rsum_nil. f_equal. lra.
  - rewrite Rsum_cons, Ha. cbn [nadd]. rewrite IH. f_equal. cbn [toR]. lra.
Qed.

Lemma finite_toR (a : num) : finite a <-> a = Num (toR a).
Proof.
  split.
  - intros [r ->]. reflexivity.
  - intros H. exists (toR a). exact H.
Qed.

Lemma INR_length_neq0 {A : Type} (l : list A) : l <> [] -> INR (length l) <> 0.
Proof.
  destruct l as [|a l]; [congruence|]. intros _.
  apply not_0_INR. cbn. lia.
Qed.

(** ** Lists, folds and orders *)

Lemma filter_all {A : Type} (f : A -> bool) (l : list A) :
  Forall (fun a => f a = true) l -> List.filter f l = l.
Proof.
  induction 1 as [|a l Ha _ IH]; [reflexivity|].
  cbn [List.filter]. rewrite Ha, IH. reflexivity.
Qed.

Lemma filter_idem {A : Type} (f : A -> bool) (l : list A) :
  List.filter f (List.filter f l) = List.filter f l.
Proof.
  induction l as [|a l IH]; [reflexivity|]. cbn [List.filter].
  destruct (f a) eqn:Ha; [|exact IH]. cbn [List.filter]. rewrite Ha, IH. reflexivity.
Qed.

Lemma filter_none {A : Type} (f : A -> bool) (l : list A) :
  (forall a, In a l -> f a = false) -> List.filter f l = [].
Proof.
  induction l as [|a l IH]; intros H; cbn [List.filter]; [reflexivity|].
  rewrite (H a (or_introl eq_refl)). apply IH. intros b Hb. apply H. right. exact Hb.
Qed.

Lemma fold_left_invariant {A B : Type} (P : A -> Prop) (f : A -> B -> A)
    (l : list B) :
  (forall a b, P a -> P (f a b)) -> forall a, P a -> P (fold_left f l a).
Proof.
  intros Hstep. induction l as [|b l IH]; intros a Ha; cbn [fold_left]; auto.
Qed.

Lemma fold_left_flat_map {A B C : Type} (f : A -> C -> A) (g : B -> list C)
    (l : list B) :
  forall a, fold_left f (flat_map g l) a
            = fold_left (fun acc b => fold_left f (g b) acc) l a.
Proof.
  induction l as [|b l IH]; intros a; cbn [flat_map fold_left]; [reflexivity|].
  rewrite fold_left_app. apply IH.
Qed.

Lemma fold_left_map' {A B C : Type} (f : A -> C -> A) (g : B -> C) (l : list B) :
  forall a, fold_left f (map g l) a = fold_left (fun acc b => f acc (g b)) l a.
Proof.
  induction l as [|b l IH]; intros a; cbn [map fold_left]; [reflexivity|]. apply IH.
Qed.

Lemma fold_left_ext' {A B : Type} (f g : A -> B -> A) (l : list B) :
  (forall a b, f a b = g a b) -> forall a, fold_left f l a = fold_left g l a.
Proof.
  intros H. induction l as [|b l IH]; intros a; cbn [fold_left]; [reflexivity|].
  rewrite H. apply IH.
Qed.

Lemma NoDup_fst_functional {A B : Type} (l : list (A * B)) (a : A) (b b' : B) :
  NoDup (map fst l) -> In (a, b) l -> In (a, b') l -> b = b'.
Proof.
  induction l as [|[a0 b0] l IH]; cbn [map fst In]; [intros _ []|].
  intros Hnd H1 H2. apply NoDup_cons in Hnd as [Hnotin Hnd].
  assert (Hin : forall x, In (a0, x) l -> False).
  { intros x Hx. apply Hnotin, list_elem_of_In, in_map_iff.
    exists (a0, x). auto. }
  destruct H1 as [H1|H1], H2 as [H2|H2].
  - congruence.
  - injection H1 as -> ->. destruct (Hin _ H2).
  - injection H2 as -> ->. destruct (Hin _ H1).
  - exact (IH Hnd H1 H2).
Qed.

Lemma StronglySorted_app {A : Type} (R : A -> A -> Prop) (l1 l2 : list A) :
  StronglySorted R l1 -> StronglySorted R l2 ->
  (forall x y, In x l1 -> In y l2 -> R x y) ->
  StronglySorted R (l1 ++ l2).
Proof.
  induction 1 as [|a l1 Hs IH Hall]; intros H2 Hcross; cbn [app]; [exact H2|].
  constructor.
  - apply IH; [exact H2|]. intros x y Hx Hy. apply Hcross; [right|]; assumption.
  - apply Forall_app. split; [exact Hall|].
    apply List.Forall_forall. intros y Hy. apply Hcross; [left; reflexivity|exact Hy].
Qed.

Lemma StronglySorted_all_related {A : Type} (R : A -> A -> Prop) (l : list A) :
  (forall x y, In x l -> In y l -> R x y) -> StronglySorted R l.
Proof.
  induction l as [|a l IH]; intros H; constructor.
  - apply IH. intros x y Hx Hy. apply H; right; assumption.
  - apply List.Forall_forall. intros y Hy. apply H; [left; reflexivity | right; exact Hy].
Qed.

Lemma ForallOrdPairs_filter {A : Type} (R : A -> A -> Prop) (f : A -> bool)
    (l : list A) :
  ForallOrdPairs R l -> ForallOrdPairs R (List.filter f l).
Proof.
  induction 1 as [|a l Ha _ IH]; cbn [List.filter]; [constructor|].
  destruct (f a); [|exact IH]. constructor; [|exact IH].
  apply List.Forall_forall. intros b Hb. apply filter_In in Hb as [Hb _].
  rewrite List.Forall_forall in Ha. auto.
Qed.

(** ** Geo-projection *)

Lemma gpsToMeters_Num (lat lng refLat refLng : R) :
  gpsToMeters (Num lat) (Num lng) (Num refLat) (Num refLng)
  = mkPoint (Num ((lng - refLng) * PI / 180 * 6371000 * cos (refLat * PI / 180)))
            (Num ((lat - refLat) * PI / 180 * 6371000)).
Proof.
  unfold gpsToMeters, Math_PI, earthRadius.
  assert (H180 : (180 : R) <> 0) by lra.
  cbn [nsub nmul]. rewrite !(ndiv_Num _ 180) by exact H180.
  cbn [nmul Math_cos]. reflexivity.
Qed.

Lemma gpsToMeters_self (lat lng : R) :
  gpsToMeters (Num lat) (Num lng) (Num lat) (Num lng) = mkPoint (Num 0) (Num 0).
Proof.
  rewrite gpsToMeters_Num. f_equal; f_equal.
  - replace (lng - lng) with 0 by lra. unfold Rdiv. rewrite !Rmult_0_l. reflexivity.
  - replace (lat - lat) with 0 by lra. unfold Rdiv. rewrite !Rmult_0_l. reflexivity.
Qed.

Lemma metersToGps_Num (x y refLat refLng : R) :
  cos (refLat * PI / 180) <> 0 ->
  metersToGps (Num x) (Num y) (Num refLat) (Num refLng)
  = mkGps (Num (refLat + y / 6371000 * (180 / PI)))
          (Num (refLng + x / (6371000 * cos (refLat * PI / 180)) * (180 / PI))).
Proof.
  intros Hcos. unfold metersToGps, Math_PI, earthRadius.
  pose proof PI_neq0' as HPI.
  cbn [nmul]. rewrite (ndiv_Num _ 180) by lra. cbn [Math_cos nmul].
  rewrite (ndiv_Num y) by lra. rewrite (ndiv_Num 180) by exact HPI.
  rewrite ndiv_Num by (apply Rmult_integral_contrapositive_currified; [lra|exact Hcos]).
  reflexivity.
Qed.

Lemma distance_Num (a b c d : R) :
  distance (mkPoint (Num a) (Num b)) (mkPoint (Num c) (Num d))
  = Num (sqrt ((c - a) * (c - a) + (d - b) * (d - b))).
Proof.
  unfold distance. cbn [px py nsub Math_pow2 nadd].
  apply Math_sqrt_Num, sum_squares_nonneg.
Qed.

(** C9. For finite [lat], [lng] and a finite reference point with
    [cos (ref_lat * PI / 180) <> 0], projecting to local meters and back
    through the same reference point is the identity, exactly. *)
Theorem metersToGps_gpsToMeters (lat lng refLat refLng : R) :
  cos (refLat * PI / 180) <> 0 ->
  let p := gpsToMeters (Num lat) (Num lng) (Num refLat) (Num refLng) in
  metersToGps (px p) (py p) (Num refLat) (Num refLng)
  = mkGps (Num lat) (Num lng).
Proof.
  intros Hcos p. subst p.
  unfold gpsToMeters, metersToGps, Math_PI, earthRadius; cbn [px py].
  assert (H180 : (180 : R) <> 0) by lra.
  assert (HR : (6371000 : R) <> 0) by lra.
  pose proof PI_neq0' as HPI.
  cbn [nsub nmul nadd Math_cos].
  rewrite !(ndiv_Num _ 180) by exact H180.
  cbn [nsub nmul nadd Math_cos].
  rewrite (ndiv_Num _ 6371000) by exact HR.
  rewrite (ndiv_Num 180 PI) by exact HPI.
  rewrite ndiv_Num by (apply Rmult_integral_contrapositive_currified; assumption).
  cbn [nmul nadd].
  f_equal; f_equal; field; repeat split; assumption.
Qed.

Lemma metersToGps_gpsToMeters_witness :
  cos (0 * PI / 180) <> 0 /\
  (let p := gpsToMeters (Num 50) (Num 6) (Num 0) (Num 6) in
   metersToGps (px p) (py p) (Num 0) (Num 6) = mkGps (Num 50) (Num 6)).
Proof.
  assert (H : cos (0 * PI / 180) <> 0).
  { replace (0 * PI / 180) with 0 by lra. rewrite cos_0. lra. }
  split; [exact H | exact (metersToGps_gpsToMeters 50 6 0 6 H)].
Defined.

(** ** Session controller: the smoothing switch *)

(** C10. [setKalmanEnabled true] empties the map of per-device Kalman
    states whatever the previous value of the flag, [setKalmanEnabled
    false] leaves that map as it is, and neither touches the lateration
    result cache. *)
Theorem setKalmanEnabled_states (st : lateration) :
  kalmanStates (setKalmanEnabled true st) = ∅
  /\ kalmanStates (setKalmanEnabled false st) = kalmanStates st
  /\ (forall enabled, resultCache (setKalmanEnabled enabled st) = resultCache st)
  /\ (forall enabled, kalmanEnabled (setKalmanEnabled enabled st) = enabled).
Proof.
  repeat split; try reflexivity; intros []; reflexivity.
Qed.

(** ** Lateration solver: the distance filter *)

Lemma validObservation_discarded (o : obs) :
  obs_distance o <> NaN -> validObservation o = negb (discarded o).
Proof.
  unfold validObservation, discarded.
  destruct (obs_distance o) as [d| | |]; intros Hnan; try reflexivity;
    [|contradiction].
  cbn [nltb nleb]. unfold Rltb, Rleb.
  destruct (Rlt_dec 0 d), (Rlt_dec d 200), (Rle_dec d 0), (Rle_dec 200 d);
    cbn; try reflexivity; lra.
Qed.

Lemma filter_valid_survivors (l : list obs) :
  Forall (fun o => obs_distance o <> NaN) l ->
  List.filter validObservation l = survivors l.
Proof.
  unfold survivors. induction 1 as [|o l Ho _ IH]; [reflexivity|].
  cbn [List.filter]. rewrite (validObservation_discarded o Ho), IH. reflexivity.
Qed.

Lemma trilaterate_None_iff (l : list obs) :
  trilaterate l = None <-> List.filter validObservation l = [].
Proof.
  unfold trilaterate.
  destruct (List.filter validObservation l) as [|o1 [|o2 [|o3 tl]]];
    cbn zeta; try destruct (estimateOneSensorPosition o1); split; congruence.
Qed.

Lemma trilaterate_Some_fields (l : list obs) (r : result) :
  trilaterate l = Some r ->
  observations r = List.filter validObservation l
  /\ sensorCount r = length (List.filter validObservation l)
  /\ r_qualityLevel r = getQualityLevel (sensorCount r)
  /\ confidence r = getConfidenceFromSensorCount (sensorCount r).
Proof.
  unfold trilaterate.
  destruct (List.filter validObservation l) as [|o1 [|o2 [|o3 tl]]];
    cbn zeta; try destruct (estimateOneSensorPosition o1);
    intros H; inversion H; subst; cbn; auto.
Qed.

(** Everything [trilaterate] computes, it computes from the filtered list. *)
Lemma trilaterate_filtered (l : list obs) :
  trilaterate l = trilaterate (List.filter validObservation l).
Proof. unfold trilaterate. rewrite filter_idem. reflexivity. Qed.

Lemma exObs_valid (id : string) (la lo d : R) (r : option num) :
  0 < d < 200 -> validObservation (exObs id la lo d r) = true.
Proof.
  intros [H0 H200]. unfold validObservation, exObs. cbn [obs_distance nltb].
  rewrite !Rltb_true by assumption. reflexivity.
Qed.

Lemma exObs_finite (id : string) (la lo d : R) (r : option num) :
  finiteRssi r -> finiteObs (exObs id la lo d r).
Proof.
  intros Hr. unfold finiteObs, exObs, finite. cbn. eauto 10.
Qed.

(** Example lists are filtered lists: every distance lies in (0, 200) and
    every field is a number. *)
Ltac example_filtered :=
  split; repeat constructor;
  first [ apply exObs_valid; lra
        | apply exObs_finite; cbn; unfold finite; eauto ].

(** C8. On observations whose distance is a number (not [NaN]), the solver
    keeps exactly those with neither [distance <= 0] nor [distance >= 200];
    it returns [null] if and only if none is kept, and otherwise returns an
    estimate built from the kept observations only: the result on a list is
    the result on its kept observations. *)
Theorem trilaterate_filter (l : list obs) :
  Forall (fun o => obs_distance o <> NaN) l ->
  (trilaterate l = None <-> survivors l = [])
  /\ (survivors l <> [] ->
      exists r, trilaterate l = Some r
                /\ observations r = survivors l
                /\ sensorCount r = length (survivors l))
  /\ (forall o, In o (survivors l) <-> In o l /\ discarded o = false)
  /\ trilaterate l = trilaterate (survivors l).
Proof.
  intros Hnum. pose proof (filter_valid_survivors l Hnum) as Hf.
  split; [|split; [|split]].
  - rewrite <- Hf. apply trilaterate_None_iff.
  - intros Hne. destruct (trilaterate l) as [r|] eqn:Hr.
    + exists r. destruct (trilaterate_Some_fields l r Hr) as (Ho & Hc & _).
      rewrite <- Hf. auto.
    + apply trilaterate_None_iff in Hr. congruence.
  - intros o. unfold survivors. rewrite filter_In.
    destruct (discarded o); cbn; intuition congruence.
  - rewrite <- Hf. apply trilaterate_filtered.
Qed.

Lemma trilaterate_filter_witness :
  Forall (fun o => obs_distance o <> NaN) mixedObs
  /\ survivors mixedObs = [twoA]
  /\ exists r, trilaterate mixedObs = Some r /\ observations r = [twoA].
Proof.
  assert (H : Forall (fun o => obs_distance o <> NaN) mixedObs)
    by (repeat constructor; discriminate).
  assert (Hs : survivors mixedObs = [twoA]).
  { unfold survivors, mixedObs, twoA, exObs, discarded.
    cbn [List.filter obs_distance nleb].
    rewrite (Rleb_false 250 0), (Rleb_true 200 250), (Rleb_false 30 0),
      (Rleb_false 200 30), (Rleb_true 0 0) by lra.
    reflexivity. }
  split; [exact H|]. split; [exact Hs|].
  destruct (trilaterate_filter mixedObs H) as (_ & Hsome & _ & _).
  destruct Hsome as (r & Hr & Ho & _); [rewrite Hs; discriminate|].
  exists r. rewrite <- Hs. auto.
Defined.

(** ** Lateration solver: filtered lists and their projection *)

Lemma centroid_Num (f : obs -> num) (l : list obs) :
  l <> [] -> Forall (fun o => finite (f o)) l ->
  centroid f l = Num (Rsum (fun o => toR (f o)) l / INR (length l)).
Proof.
  intros Hne Hfin. unfold centroid, sumOver.
  rewrite fold_nadd_Num.
  - rewrite ndiv_Num by (apply INR_length_neq0; exact Hne).
    f_equal. f_equal. lra.
  - eapply Forall_impl; [exact Hfin|]. intros o Ho. apply finite_toR, Ho.
Qed.

Lemma toPoint_finite (refLat refLng : R) (o : obs) :
  finiteObs o -> validObservation o = true ->
  finitePoint (toPoint (Num refLat) (Num refLng) o).
Proof.
  intros (Hlat & Hlng & Hd & Hr) Hv.
  destruct Hlat as [la Hla], Hlng as [lo Hlo], Hd as [d Hd].
  unfold finitePoint, xR, yR, dR, toPoint. cbn [pos p_obs].
  rewrite Hla, Hlo, gpsToMeters_Num. cbn [px py toR].
  unfold validObservation in Hv. rewrite Hd in Hv |- *. cbn [nltb toR] in Hv |- *.
  apply andb_prop in Hv as [H0 _]. unfold Rltb in H0.
  destruct (Rlt_dec 0 d); [|discriminate].
  repeat split; assumption.
Qed.

Lemma refOf_finite (v : list obs) :
  v <> [] -> Forall finiteObs v ->
  exists rlat rlng, refLatOf v = Num rlat /\ refLngOf v = Num rlng.
Proof.
  intros Hne Hfin. unfold refLatOf, refLngOf.
  rewrite !centroid_Num; try exact Hne.
  - eauto.
  - eapply Forall_impl; [exact Hfin|]. intros o (_ & H & _). exact H.
  - eapply Forall_impl; [exact Hfin|]. intros o (H & _). exact H.
Qed.

Lemma pointsOf_finite (v : list obs) :
  v <> [] -> filteredList v -> Forall finitePoint (pointsOf v).
Proof.
  intros Hne [Hval Hfin].
  destruct (refOf_finite v Hne Hfin) as (rlat & rlng & Hlat & Hlng).
  unfold pointsOf. rewrite Hlat, Hlng.
  apply List.Forall_forall. intros p Hp. apply in_map_iff in Hp as (o & <- & Ho).
  rewrite List.Forall_forall in Hval, Hfin.
  apply toPoint_finite; auto.
Qed.

Lemma xR_exObs (rlat rlng : R) (id : string) (la lo d : R) (r : option num) :
  xR (toPoint (Num rlat) (Num rlng) (exObs id la lo d r))
  = (lo - rlng) * PI / 180 * 6371000 * cos (rlat * PI / 180).
Proof.
  unfold xR, toPoint, exObs. cbn [pos sensor_lat sensor_lng].
  rewrite gpsToMeters_Num. reflexivity.
Qed.

Lemma yR_exObs (rlat rlng : R) (id : string) (la lo d : R) (r : option num) :
  yR (toPoint (Num rlat) (Num rlng) (exObs id la lo d r))
  = (la - rlat) * PI / 180 * 6371000.
Proof.
  unfold yR, toPoint, exObs. cbn [pos sensor_lat sensor_lng].
  rewrite gpsToMeters_Num. reflexivity.
Qed.

Lemma dR_exObs (rlat rlng : num) (id : string) (la lo d : R) (r : option num) :
  dR (toPoint rlat rlng (exObs id la lo d r)) = d.
Proof. reflexivity. Qed.

Lemma wR_exObs (rlat rlng : num) (id : string) (la lo d : R) (r : option num) :
  wR (toPoint rlat rlng (exObs id la lo d r)) = 1 / (d + 1) * signalMultiplier r.
Proof. reflexivity. Qed.

(** ** Lateration solver: one sensor *)

Lemma bearing_Num (mac : option string) : bearing mac = Num (bearingR mac).
Proof.
  unfold bearing, bearingR. destruct mac as [s|]; [|reflexivity].
  destruct (String.eqb s ""); [reflexivity|].
  unfold Math_PI. cbn [nmul]. rewrite ndiv_Num by lra. reflexivity.
Qed.

Lemma trilaterate_one (o : obs) :
  validObservation o = true ->
  trilaterate [o]
  = Some (mkResult (g_lat (fst (estimateOneSensorPosition o)))
                   (g_lng (fst (estimateOneSensorPosition o)))
                   low 1 [o] (Num 0.2) (obs_distance o)).
Proof.
  intros Hv. unfold trilaterate. cbn [List.filter]. rewrite Hv.
  cbn [estimateOneSensorPosition fst g_lat g_lng est_variance or_else length
       Nat.ltb Nat.leb getQualityLevel getConfidenceFromSensorCount Nat.eqb].
  f_equal. f_equal. destruct (truthy (obs_distance o)); reflexivity.
Qed.

Lemma estimateOneSensorPosition_gps (o : obs) (la d : R) :
  sensor_lat o = Num la -> obs_distance o = Num d -> cos (la * PI / 180) <> 0 ->
  let th := bearingR (mac_hashed o) in
  fst (estimateOneSensorPosition o)
  = mkGps (Num (la + d * cos th / 6371000 * (180 / PI)))
          (sensor_lng o
           + Num (d * sin th / (6371000 * cos (la * PI / 180)) * (180 / PI)))%js.
Proof.
  intros Hla Hd Hcos th. unfold estimateOneSensorPosition. cbn [fst].
  rewrite Hla, Hd, bearing_Num. fold th.
  unfold Math_PI, earthRadius. pose proof PI_neq0' as HPI.
  cbn [Math_cos Math_sin nmul].
  rewrite (ndiv_Num 180 PI) by exact HPI.
  rewrite (ndiv_Num _ 180) by lra. cbn [Math_cos nmul].
  rewrite (ndiv_Num _ 6371000) by lra.
  rewrite ndiv_Num by (apply Rmult_integral_contrapositive_currified; [lra|exact Hcos]).
  reflexivity.
Qed.

Lemma estimateOneSensorPosition_Num (o : obs) (la lo d : R) :
  sensor_lat o = Num la -> sensor_lng o = Num lo -> obs_distance o = Num d ->
  cos (la * PI / 180) <> 0 ->
  let th := bearingR (mac_hashed o) in
  estimateOneSensorPosition o
  = (mkGps (Num (la + d * cos th / 6371000 * (180 / PI)))
           (Num (lo + d * sin th / (6371000 * cos (la * PI / 180)) * (180 / PI))),
     mkEst (Num (d * sin th)) (Num (d * cos th)) (Some (Num d))).
Proof.
  intros Hla Hlo Hd Hcos th. unfold estimateOneSensorPosition.
  rewrite Hla, Hlo, Hd, bearing_Num. fold th.
  unfold Math_PI, earthRadius. pose proof PI_neq0' as HPI.
  cbn [Math_cos Math_sin nmul].
  rewrite (ndiv_Num 180 PI) by exact HPI.
  rewrite (ndiv_Num _ 180) by lra. cbn [Math_cos nmul].
  rewrite (ndiv_Num _ 6371000) by lra.
  rewrite ndiv_Num by (apply Rmult_integral_contrapositive_currified; [lra|exact Hcos]).
  reflexivity.
Qed.

(** What the one-sensor strategy guarantees: the estimate lies at the
    measured distance from the sensor, in the direction [bearing] derives
    from the observation's own [mac_hashed] property. *)
Lemma oneSensor_estimate (o : obs) (la lo d : R) :
  sensor_lat o = Num la -> sensor_lng o = Num lo -> obs_distance o = Num d ->
  0 < d < 200 -> cos (la * PI / 180) <> 0 ->
  let th := bearingR (mac_hashed o) in
  exists r,
    trilaterate [o] = Some r
    /\ lat r = Num (la + d * cos th / 6371000 * (180 / PI))
    /\ lng r = Num (lo + d * sin th / (6371000 * cos (la * PI / 180)) * (180 / PI))
    /\ gpsToMeters (lat r) (lng r) (Num la) (Num lo)
       = mkPoint (Num (d * sin th)) (Num (d * cos th))
    /\ distance (mkPoint (Num 0) (Num 0))
                (gpsToMeters (lat r) (lng r) (Num la) (Num lo)) = Num d
    /\ variance r = Num d /\ r_qualityLevel r = low
    /\ confidence r = Num 0.2 /\ sensorCount r = 1%nat.
Proof.
  intros Hla Hlo Hd Hrange Hcos th.
  assert (Hv : validObservation o = true).
  { unfold validObservation. rewrite Hd. cbn [nltb].
    rewrite !Rltb_true by lra. reflexivity. }
  eexists. split; [apply (trilaterate_one o Hv)|].
  rewrite (estimateOneSensorPosition_Num o la lo d Hla Hlo Hd Hcos).
  fold th. cbn [fst g_lat g_lng lat lng variance r_qualityLevel confidence sensorCount].
  pose proof PI_neq0' as HPI.
  assert (Hproj : gpsToMeters
                    (Num (la + d * cos th / 6371000 * (180 / PI)))
                    (Num (lo + d * sin th / (6371000 * cos (la * PI / 180))
                               * (180 / PI)))
                    (Num la) (Num lo)
                  = mkPoint (Num (d * sin th)) (Num (d * cos th))).
  { rewrite gpsToMeters_Num. f_equal; f_equal; field; auto. }
  split; [reflexivity|]. split; [reflexivity|].
  split; [exact Hproj|]. rewrite Hproj, distance_Num.
  split; [|auto].
  f_equal.
  replace ((d * sin th - 0) * (d * sin th - 0) + (d * cos th - 0) * (d * cos th - 0))
    with (d * d * (Rsqr (sin th) + Rsqr (cos th))) by (unfold Rsqr; ring).
  rewrite sin2_cos2, Rmult_1_r. apply sqrt_square. lra.
Qed.

(** ** Lateration solver: two sensors *)

Lemma estimateTwoSensorPosition_Num (p1 p2 : pointObs) :
  finitePoint p1 -> finitePoint p2 ->
  estimateTwoSensorPosition p1 p2
  = if Reqb (sepR p1 p2) 0 then mkEst (Num (xR p1)) (Num (yR p1)) None
    else mkEst (Num (xR p1 + tR p1 p2 * (xR p2 - xR p1)))
               (Num (yR p1 + tR p1 p2 * (yR p2 - yR p1)))
               (Some (Num (Rabs (dR p1 + dR p2 - sepR p1 p2)))).
Proof.
  intros (Hx1 & Hy1 & Hd1 & _) (Hx2 & Hy2 & Hd2 & _).
  unfold estimateTwoSensorPosition. rewrite Hx1, Hy1, Hd1, Hx2, Hy2, Hd2.
  cbn [nsub nmul nadd]. rewrite Math_sqrt_Num by apply sum_squares_nonneg.
  fold (sepR p1 p2). cbn [neqb].
  destruct (Reqb (sepR p1 p2) 0) eqn:HD; [reflexivity|].
  assert (HD0 : sepR p1 p2 <> 0).
  { intros H0. rewrite Reqb_true in HD by exact H0. discriminate. }
  cbn [nmul nadd nsub].
  rewrite ndiv_Num by (apply Rmult_integral_contrapositive_currified;
                        [apply Rmult_integral_contrapositive_currified; [lra|]|];
                        exact HD0).
  rewrite Math_min_Num, Math_max_Num. fold (tR p1 p2).
  cbn [nmul nadd nsub Math_abs]. reflexivity.
Qed.

Lemma trilaterate_two (v : list obs) (o1 o2 : obs) :
  v = [o1; o2] -> Forall (fun o => validObservation o = true) v ->
  let p1 := toPoint (refLatOf v) (refLngOf v) o1 in
  let p2 := toPoint (refLatOf v) (refLngOf v) o2 in
  let e := estimateTwoSensorPosition p1 p2 in
  let g := metersToGps (est_x e) (est_y e) (refLatOf v) (refLngOf v) in
  pointsOf v = [p1; p2]
  /\ trilaterate v
     = Some (mkResult (g_lat g) (g_lng g) medium 2 v (Num 0.5)
                      (or_else (est_variance e) (calculateResidual e [p1; p2]))).
Proof.
  intros Hv Hval p1 p2 e g. subst p1 p2 e g.
  unfold trilaterate. rewrite (filter_all _ _ Hval). subst v.
  split; reflexivity.
Qed.

Lemma calculateResidual_two (ex ey : R) (var : option num) (p1 p2 : pointObs) :
  finitePoint p1 -> finitePoint p2 ->
  calculateResidual (mkEst (Num ex) (Num ey) var) [p1; p2]
  = Num ((0
          + Rabs (sqrt ((xR p1 - ex) * (xR p1 - ex) + (yR p1 - ey) * (yR p1 - ey))
                  - dR p1)
          + Rabs (sqrt ((xR p2 - ex) * (xR p2 - ex) + (yR p2 - ey) * (yR p2 - ey))
                  - dR p2))
         / INR 2).
Proof.
  intros (Hx1 & Hy1 & Hd1 & _) (Hx2 & Hy2 & Hd2 & _).
  unfold calculateResidual, est_point. cbn [fold_left est_x est_y length].
  destruct (pos p1) as [x1 y1] eqn:E1, (pos p2) as [x2 y2] eqn:E2.
  cbn [px py] in Hx1, Hy1, Hx2, Hy2. subst x1 y1 x2 y2.
  rewrite !distance_Num, Hd1, Hd2. cbn [nsub Math_abs nadd].
  rewrite ndiv_Num by (apply not_0_INR; lia). reflexivity.
Qed.

(** Tangent circles: when [d1 + d2] equals the separation, the clamp is
    idle and the point lies at [d1] from the first sensor and [d2] from
    the second. *)
Lemma tangent_circles (x1 y1 x2 y2 d1 d2 : R) :
  let dx := x2 - x1 in
  let dy := y2 - y1 in
  let D := sqrt (dx * dx + dy * dy) in
  let t := Rmax (-0.5) (Rmin 1.5 ((D * D + d1 * d1 - d2 * d2) / (2 * D * D))) in
  0 < d1 -> 0 < d2 -> d1 + d2 - D = 0 ->
  sqrt ((x1 - (x1 + t * dx)) * (x1 - (x1 + t * dx))
        + (y1 - (y1 + t * dy)) * (y1 - (y1 + t * dy))) = d1
  /\ sqrt ((x2 - (x1 + t * dx)) * (x2 - (x1 + t * dx))
           + (y2 - (y1 + t * dy)) * (y2 - (y1 + t * dy))) = d2.
Proof.
  intros dx dy D t H1 H2 HD.
  assert (HDD : D * D = dx * dx + dy * dy).
  { subst D. apply sqrt_sqrt, sum_squares_nonneg. }
  assert (HDpos : 0 < D) by lra.
  assert (Ht : t = d1 / D).
  { subst t. replace ((D * D + d1 * d1 - d2 * d2) / (2 * D * D)) with (d1 / D).
    - assert (0 < d1 / D) by (apply Rdiv_lt_0_compat; lra).
      assert (d1 / D < 1).
      { apply Rmult_lt_reg_r with D; [lra|]. unfold Rdiv.
        rewrite Rmult_assoc, Rinv_l by lra. lra. }
      rewrite Rmin_right by lra. rewrite Rmax_right by lra. reflexivity.
    - replace d2 with (D - d1) by lra. field. lra. }
  split.
  - replace ((x1 - (x1 + t * dx)) * (x1 - (x1 + t * dx))
             + (y1 - (y1 + t * dy)) * (y1 - (y1 + t * dy)))
      with (d1 * d1).
    + apply sqrt_square. lra.
    + replace ((x1 - (x1 + t * dx)) * (x1 - (x1 + t * dx))
               + (y1 - (y1 + t * dy)) * (y1 - (y1 + t * dy)))
        with (t * t * (dx * dx + dy * dy)) by ring.
      rewrite <- HDD, Ht. field. lra.
  - replace ((x2 - (x1 + t * dx)) * (x2 - (x1 + t * dx))
             + (y2 - (y1 + t * dy)) * (y2 - (y1 + t * dy)))
      with (d2 * d2).
    + apply sqrt_square. lra.
    + replace ((x2 - (x1 + t * dx)) * (x2 - (x1 + t * dx))
               + (y2 - (y1 + t * dy)) * (y2 - (y1 + t * dy)))
        with ((1 - t) * (1 - t) * (dx * dx + dy * dy)) by (subst dx dy; ring).
      rewrite <- HDD, Ht. replace d2 with (D - d1) by lra. field. lra.
Qed.

(** C2. For a filtered list of exactly two finite observations with local
    positions [P1], [P2], separation [D] and distances [d1], [d2]: if
    [D > 0] the local position is [P1 + t (P2 - P1)] with
    [t = (D^2 + d1^2 - d2^2) / (2 D^2)] clamped to [[-0.5, 1.5]] and the
    reported variance is [|d1 + d2 - D|]; if [D = 0] the local position is
    [P1]; in both cases it is a finite point and an estimate is returned. *)
Theorem twoSensor_position (v : list obs) (p1 p2 : pointObs) :
  filteredList v -> length v = 2%nat -> pointsOf v = [p1; p2] ->
  let D := sepR p1 p2 in
  let d1 := dR p1 in
  let d2 := dR p2 in
  let t := Rmax (-0.5) (Rmin 1.5 ((D * D + d1 * d1 - d2 * d2) / (2 * D * D))) in
  let e := estimateTwoSensorPosition p1 p2 in
  (exists r, trilaterate v = Some r
             /\ lat r = g_lat (metersToGps (est_x e) (est_y e)
                                           (refLatOf v) (refLngOf v))
             /\ lng r = g_lng (metersToGps (est_x e) (est_y e)
                                           (refLatOf v) (refLngOf v))
             /\ (0 < D -> variance r = Num (Rabs (d1 + d2 - D)))
             /\ (cos (toR (refLatOf v) * PI / 180) <> 0 ->
                 finite (lat r) /\ finite (lng r)))
  /\ (0 < D ->
      -0.5 <= t <= 1.5
      /\ e = mkEst (Num (xR p1 + t * (xR p2 - xR p1)))
                   (Num (yR p1 + t * (yR p2 - yR p1)))
                   (Some (Num (Rabs (d1 + d2 - D)))))
  /\ (D = 0 -> est_x e = Num (xR p1) /\ est_y e = Num (yR p1))
  /\ finite (est_x e) /\ finite (est_y e).
Proof.
  intros Hfl Hlen Hpts D d1 d2 t e.
  destruct v as [|o1 [|o2 [|o3 tl]]]; try discriminate Hlen.
  destruct (trilaterate_two [o1; o2] o1 o2 eq_refl (proj1 Hfl)) as [Hp Htri].
  cbn zeta in Hp, Htri. rewrite Hpts in Hp. injection Hp as Hp1 Hp2.
  rewrite <- Hp1, <- Hp2 in Htri. fold e in Htri.
  pose proof (pointsOf_finite [o1; o2] ltac:(discriminate) Hfl) as Hfin.
  rewrite Hpts in Hfin.
  apply Forall_cons_1 in Hfin as [Hf1 Hfin].
  apply Forall_cons_1 in Hfin as [Hf2 _].
  pose proof (estimateTwoSensorPosition_Num p1 p2 Hf1 Hf2) as He.
  fold e in He. fold D in He. change (tR p1 p2) with t in He.
  fold d1 d2 in He.
  assert (Hpos : 0 < D -> e = mkEst (Num (xR p1 + t * (xR p2 - xR p1)))
                                    (Num (yR p1 + t * (yR p2 - yR p1)))
                                    (Some (Num (Rabs (d1 + d2 - D))))).
  { intros HD. rewrite Reqb_false in He by lra. exact He. }
  split; [|split; [|split; [|split]]].
  - eexists. split; [exact Htri|]. cbn [lat lng variance].
    split; [reflexivity|]. split; [reflexivity|]. split; cycle 1.
    { intros Hcos.
      destruct (refOf_finite [o1; o2] ltac:(discriminate) (proj2 Hfl))
        as (rlat & rlng & Hrlat & Hrlng).
      rewrite Hrlat in Hcos. rewrite Hrlat, Hrlng. cbn [toR] in Hcos.
      assert (Hxy : exists X Y, est_x e = Num X /\ est_y e = Num Y).
      { rewrite He. destruct (Reqb D 0); cbn [est_x est_y]; eauto. }
      destruct Hxy as (X & Y & -> & ->).
      rewrite (metersToGps_Num X Y rlat rlng Hcos). cbn [g_lat g_lng].
      unfold finite. eauto. }
    intros HD. rewrite (Hpos HD). cbn [est_variance or_else truthy].
    destruct (Reqb (Rabs (d1 + d2 - D)) 0) eqn:Hz; [|reflexivity].
    cbn [negb].
    assert (Habs : Rabs (d1 + d2 - D) = 0).
    { unfold Reqb in Hz. destruct (Req_dec_T (Rabs (d1 + d2 - D)) 0);
        [assumption | discriminate]. }
    assert (Hzero : d1 + d2 - D = 0).
    { destruct (Req_dec (d1 + d2 - D) 0) as [H0|H0]; [exact H0|].
      apply Rabs_no_R0 in H0. contradiction. }
    rewrite calculateResidual_two by assumption.
    destruct Hf1 as (_ & _ & _ & Hd1 & _), Hf2 as (_ & _ & _ & Hd2 & _).
    destruct (tangent_circles (xR p1) (yR p1) (xR p2) (yR p2) d1 d2
                Hd1 Hd2 Hzero) as [Hs1 Hs2].
    cbn zeta in Hs1, Hs2. fold (sepR p1 p2) in Hs1, Hs2. fold D in Hs1, Hs2.
    fold t in Hs1, Hs2. rewrite Hs1, Hs2. fold d1 d2. rewrite Habs.
    f_equal. rewrite !Rminus_diag, Rabs_R0. unfold Rdiv. ring.
  - intros HD. split; [apply clamp_bounds | exact (Hpos HD)].
  - intros HD. rewrite Reqb_true in He by exact HD. rewrite He. split; reflexivity.
  - rewrite He. destruct (Reqb D 0); cbn [est_x]; unfold finite; eauto.
  - rewrite He. destruct (Reqb D 0); cbn [est_y]; unfold finite; eauto.
Qed.

Lemma twoObs_filtered : filteredList twoObs.
Proof. example_filtered. Qed.

Lemma twoObs_separated :
  let v := twoObs in
  0 < sepR (toPoint (refLatOf v) (refLngOf v) twoA)
           (toPoint (refLatOf v) (refLngOf v) twoB).
Proof.
  intros v.
  destruct (refOf_finite v) as (rlat & rlng & Hlat & Hlng);
    [discriminate | apply twoObs_filtered |].
  rewrite Hlat, Hlng. unfold sepR, twoA, twoB.
  rewrite !xR_exObs, !yR_exObs. apply sqrt_lt_R0.
  pose proof PI_gt_3 as HPI.
  set (dx := (6 - rlng) * PI / 180 * 6371000 * cos (rlat * PI / 180)
             - (6 - rlng) * PI / 180 * 6371000 * cos (rlat * PI / 180)).
  set (dy := (50.001 - rlat) * PI / 180 * 6371000
             - (50 - rlat) * PI / 180 * 6371000).
  assert (Hdy : 100 < dy) by (subst dy; lra).
  nra.
Qed.

Lemma twoSensor_position_witness :
  let v := twoObs in
  let p1 := toPoint (refLatOf v) (refLngOf v) twoA in
  let p2 := toPoint (refLatOf v) (refLngOf v) twoB in
  filteredList v /\ length v = 2%nat /\ pointsOf v = [p1; p2]
  /\ 0 < sepR p1 p2
  /\ exists r, trilaterate v = Some r
               /\ variance r = Num (Rabs (dR p1 + dR p2 - sepR p1 p2)).
Proof.
  intros v p1 p2.
  assert (H1 : filteredList v) by exact twoObs_filtered.
  assert (H2 : length v = 2%nat) by reflexivity.
  assert (H3 : pointsOf v = [p1; p2]) by reflexivity.
  assert (H4 : 0 < sepR p1 p2) by exact twoObs_separated.
  repeat (split; [assumption|]).
  destruct (twoSensor_position v p1 p2 H1 H2 H3)
    as ((r & Hr & _ & _ & Hvar & _) & _).
  exists r. split; [exact Hr | exact (Hvar H4)].
Defined.

(** ** Lateration solver: three or more sensors *)

Lemma rowA_Num (ref p : pointObs) :
  finitePoint ref -> finitePoint p ->
  rowA ref p = (Num (a0R ref p), Num (a1R ref p)).
Proof.
  intros (Hx1 & Hy1 & _) (Hx & Hy & _). unfold rowA, a0R, a1R.
  rewrite Hx1, Hy1, Hx, Hy. reflexivity.
Qed.

Lemma rowB_Num (ref p : pointObs) :
  finitePoint ref -> finitePoint p -> rowB ref p = Num (bR ref p).
Proof.
  intros (Hx1 & Hy1 & Hd1 & _) (Hx & Hy & Hd & _). unfold rowB, bR.
  rewrite Hx1, Hy1, Hd1, Hx, Hy, Hd. reflexivity.
Qed.

Lemma signalMultiplier_cases (r : option num) :
  match r with
  | None => signalMultiplier r = 1
  | Some v =>
      (toR v = 0 -> signalMultiplier r = 1)
      /\ (toR v <> 0 -> signalMultiplier r = Rpower 10 ((toR v + 100) / 20))
  end.
Proof.
  destruct r as [v|]; [|reflexivity]. unfold signalMultiplier. split; intros H.
  - rewrite Reqb_true by exact H. reflexivity.
  - rewrite Reqb_false by exact H. reflexivity.
Qed.

Lemma signalMultiplier_pos (r : option num) : 0 < signalMultiplier r.
Proof.
  unfold signalMultiplier. destruct r as [v|]; [|lra].
  destruct (Reqb (toR v) 0); [lra|]. unfold Rpower. apply exp_pos.
Qed.

Lemma signalMultiplier_default : signalMultiplier (Some (Num (-100))) = 1.
Proof.
  unfold signalMultiplier. cbn [toR]. rewrite Reqb_false by lra.
  replace ((-100 + 100) / 20) with 0 by lra. apply Rpower_O. lra.
Qed.

Lemma rssiWeight_Num (r : option num) :
  finiteRssi r -> rssiWeight r = Num (signalMultiplier r).
Proof.
  destruct r as [v|]; [|reflexivity].
  intros [x ->]. unfold rssiWeight, signalMultiplier, truthy. cbn [toR].
  destruct (Reqb x 0); cbn [negb]; [reflexivity|].
  cbn [nadd]. rewrite ndiv_Num by lra. reflexivity.
Qed.

Lemma rowWeight_Num (p : pointObs) : finitePoint p -> rowWeight p = Num (wR p).
Proof.
  intros (_ & _ & Hd & Hpos & Hr). unfold rowWeight, wR.
  rewrite Hd, (rssiWeight_Num _ Hr). cbn [nadd].
  rewrite ndiv_Num by lra. reflexivity.
Qed.

Lemma wR_exObs_default (rlat rlng : R) (id : string) (la lo d : R) :
  wR (toPoint (Num rlat) (Num rlng) (exObs id la lo d (Some (Num (-100)))))
  = 1 / (d + 1).
Proof.
  unfold wR, dR, toPoint, exObs. cbn [p_obs obs_distance rssi toR].
  rewrite signalMultiplier_default. lra.
Qed.

Lemma map_rowA_Num (ref : pointObs) (rest : list pointObs) :
  finitePoint ref -> Forall finitePoint rest ->
  map (rowA ref) rest
  = map (fun p => (Num (2 * (xR p - xR ref)), Num (2 * (yR p - yR ref)))) rest.
Proof.
  intros Href. induction 1 as [|p rest Hp _ IH]; [reflexivity|].
  cbn [map]. rewrite IH, (rowA_Num ref p Href Hp). reflexivity.
Qed.

Lemma map_rowB_Num (ref : pointObs) (rest : list pointObs) :
  finitePoint ref -> Forall finitePoint rest ->
  map (rowB ref) rest = map (fun p => Num (bR ref p)) rest.
Proof.
  intros Href. induction 1 as [|p rest Hp _ IH]; [reflexivity|].
  cbn [map]. rewrite IH, (rowB_Num ref p Href Hp). reflexivity.
Qed.

Lemma map_rowWeight_Num (rest : list pointObs) :
  Forall finitePoint rest ->
  map rowWeight rest
  = map (fun p => Num (1 / (dR p + 1) * signalMultiplier (rssi (p_obs p)))) rest.
Proof.
  induction 1 as [|p rest Hp _ IH]; [reflexivity|].
  cbn [map]. rewrite IH, (rowWeight_Num p Hp). reflexivity.
Qed.

Lemma accumulate_Num (ref : pointObs) (rest : list pointObs) :
  finitePoint ref -> Forall finitePoint rest ->
  forall s00 s01 s10 s11 t0 t1 : R,
    accumulate (map (rowA ref) rest) (map (rowB ref) rest) (map rowWeight rest)
               (mkSums (Num s00) (Num s01) (Num s10) (Num s11) (Num t0) (Num t1))
    = mkSums (Num (s00 + S00 ref rest)) (Num (s01 + S01 ref rest))
             (Num (s10 + S10 ref rest)) (Num (s11 + S11 ref rest))
             (Num (t0 + T0 ref rest)) (Num (t1 + T1 ref rest)).
Proof.
  intros Href. unfold S00, S01, S10, S11, T0, T1.
  induction 1 as [|p rest Hp _ IH]; intros s00 s01 s10 s11 t0 t1.
  - cbn [map accumulate]. rewrite !Rsum_nil, !Rplus_0_r. reflexivity.
  - cbn [map accumulate]. unfold addRow.
    rewrite (rowA_Num ref p Href Hp), (rowB_Num ref p Href Hp),
      (rowWeight_Num p Hp).
    cbn [fst snd ata00 ata01 ata10 ata11 atb0 atb1 nmul nadd].
    rewrite IH, !Rsum_cons. f_equal; f_equal; lra.
Qed.

Lemma determinant_Num (ref : pointObs) (rest : list pointObs) :
  finitePoint ref -> Forall finitePoint rest ->
  let s := accumulate (map (rowA ref) rest) (map (rowB ref) rest)
                      (map rowWeight rest) sums0 in
  (ata00 s * ata11 s - ata01 s * ata10 s)%js = Num (detR ref rest).
Proof.
  intros Href Hrest s. subst s. unfold sums0.
  rewrite (accumulate_Num ref rest Href Hrest).
  cbn [ata00 ata01 ata10 ata11 nmul nsub]. rewrite !Rplus_0_l. reflexivity.
Qed.

Lemma columnSum_fst (ref : pointObs) (rest : list pointObs) :
  finitePoint ref -> Forall finitePoint rest ->
  columnSum fst (map (rowA ref) rest) = Num (Rsum (a0R ref) rest).
Proof.
  intros Href Hrest. unfold columnSum.
  assert (G : forall acc : R,
             fold_left (fun c ai => (c + fst ai)%js) (map (rowA ref) rest) (Num acc)
             = Num (acc + Rsum (a0R ref) rest)).
  { induction Hrest as [|p rest Hp _ IH]; intros acc; cbn [map fold_left].
    - rewrite Rsum_nil, Rplus_0_r. reflexivity.
    - rewrite (rowA_Num ref p Href Hp). cbn [fst nadd].
      rewrite IH, Rsum_cons. f_equal. lra. }
  rewrite G. f_equal. lra.
Qed.

Lemma columnSum_snd (ref : pointObs) (rest : list pointObs) :
  finitePoint ref -> Forall finitePoint rest ->
  columnSum snd (map (rowA ref) rest) = Num (Rsum (a1R ref) rest).
Proof.
  intros Href Hrest. unfold columnSum.
  assert (G : forall acc : R,
             fold_left (fun c ai => (c + snd ai)%js) (map (rowA ref) rest) (Num acc)
             = Num (acc + Rsum (a1R ref) rest)).
  { induction Hrest as [|p rest Hp _ IH]; intros acc; cbn [map fold_left].
    - rewrite Rsum_nil, Rplus_0_r. reflexivity.
    - rewrite (rowA_Num ref p Href Hp). cbn [snd nadd].
      rewrite IH, Rsum_cons. f_equal. lra. }
  rewrite G. f_equal. lra.
Qed.

(** The solver on a finite system, over the reals: the fallback when
    [|det| < 1e-10], the closed-form solution otherwise. *)
Lemma solveWeightedLeastSquares_Num (ref : pointObs) (rest : list pointObs) :
  finitePoint ref -> Forall finitePoint rest -> rest <> [] ->
  solveWeightedLeastSquares (map (rowA ref) rest) (map (rowB ref) rest)
                            (map rowWeight rest)
  = if Rltb (Rabs (detR ref rest)) 1e-10 then
      mkEst (Num (Rsum (a0R ref) rest / INR (length rest)))
            (Num (Rsum (a1R ref) rest / INR (length rest))) None
    else
      mkEst (Num ((S11 ref rest * T0 ref rest - S01 ref rest * T1 ref rest)
                  / detR ref rest))
            (Num ((S00 ref rest * T1 ref rest - S10 ref rest * T0 ref rest)
                  / detR ref rest)) None.
Proof.
  intros Href Hrest Hne. unfold solveWeightedLeastSquares, sums0.
  rewrite (accumulate_Num ref rest Href Hrest).
  cbn [ata00 ata01 ata10 ata11 atb0 atb1 nmul nsub Math_abs nltb].
  rewrite !Rplus_0_l. fold (detR ref rest).
  rewrite length_map.
  destruct (Rltb (Rabs (detR ref rest)) 1e-10) eqn:Hdet.
  - rewrite (columnSum_fst ref rest Href Hrest),
      (columnSum_snd ref rest Href Hrest).
    rewrite !ndiv_Num by (apply INR_length_neq0; exact Hne). reflexivity.
  - assert (Hd : detR ref rest <> 0).
    { intros H0. rewrite H0, Rabs_R0 in Hdet. unfold Rltb in Hdet.
      destruct (Rlt_dec 0 1e-10) as [_|Hn]; [discriminate|]. apply Hn. lra. }
    rewrite !ndiv_Num by exact Hd. reflexivity.
Qed.

(** Each linearized row is the first sensor's circle equation minus the
    row's own. *)
Lemma row_is_circle_difference (ref p : pointObs) (x y : R) :
  a0R ref p * x + a1R ref p * y - bR ref p = circle ref x y - circle p x y.
Proof. unfold a0R, a1R, bR, circle. ring. Qed.

(** The closed-form solution solves the normal equations. *)
Lemma normal_equations (ref : pointObs) (rest : list pointObs) :
  detR ref rest <> 0 ->
  let X := (S11 ref rest * T0 ref rest - S01 ref rest * T1 ref rest) / detR ref rest in
  let Y := (S00 ref rest * T1 ref rest - S10 ref rest * T0 ref rest) / detR ref rest in
  S00 ref rest * X + S01 ref rest * Y = T0 ref rest
  /\ S10 ref rest * X + S11 ref rest * Y = T1 ref rest.
Proof.
  intros Hd X Y. subst X Y. unfold detR in *.
  split; field; exact Hd.
Qed.

Lemma three_or_more (v : list obs) :
  (3 <= length v)%nat -> exists o1 o2 o3 tl, v = o1 :: o2 :: o3 :: tl.
Proof.
  destruct v as [|o1 [|o2 [|o3 tl]]]; cbn [length]; try lia. eauto.
Qed.

(** [trilaterate] on a filtered list of three or more observations. *)
Lemma trilaterate_multi (v : list obs) (o1 o2 o3 : obs) (tl : list obs) :
  v = o1 :: o2 :: o3 :: tl ->
  Forall (fun o => validObservation o = true) v ->
  exists ref rest,
    pointsOf v = ref :: rest
    /\ length rest = (length v - 1)%nat
    /\ let e := estimateMultiSensorPosition ref rest in
       let g := metersToGps (est_x e) (est_y e) (refLatOf v) (refLngOf v) in
       exists var,
         trilaterate v
         = Some (mkResult (g_lat g) (g_lng g) high (length v) v (Num 1.0) var).
Proof.
  intros Hv Hval.
  exists (toPoint (refLatOf v) (refLngOf v) o1),
         (map (toPoint (refLatOf v) (refLngOf v)) (o2 :: o3 :: tl)).
  split; [unfold pointsOf; rewrite Hv at 3; reflexivity|].
  split; [rewrite length_map, Hv; cbn [length]; lia|].
  cbn zeta. eexists.
  unfold trilaterate. rewrite (filter_all _ _ Hval).
  subst v. reflexivity.
Qed.

(** The setting the two theorems on three or more sensors share. *)
Section MultiSensor.

Variables (v : list obs) (ref : pointObs) (rest : list pointObs).
Hypothesis Hfiltered : filteredList v.
Hypothesis Hcount : (3 <= length v)%nat.
Hypothesis Hpoints : pointsOf v = ref :: rest.

Lemma multi_nonempty : v <> [].
Proof. destruct v; [cbn in Hcount; lia | discriminate]. Qed.

Lemma multi_finite : finitePoint ref /\ Forall finitePoint rest.
Proof.
  pose proof (pointsOf_finite v multi_nonempty Hfiltered) as Hfin.
  rewrite Hpoints in Hfin. apply Forall_cons_1 in Hfin. exact Hfin.
Qed.

Lemma multi_rest_length : length rest = (length v - 1)%nat.
Proof.
  assert (H : length (pointsOf v) = length v) by (unfold pointsOf; apply length_map).
  rewrite Hpoints in H. cbn [length] in H. lia.
Qed.

Lemma multi_rest_nonempty : rest <> [].
Proof.
  intros H. pose proof multi_rest_length as Hl. rewrite H in Hl. cbn in Hl. lia.
Qed.

Lemma multi_trilaterate :
  let e := estimateMultiSensorPosition ref rest in
  let g := metersToGps (est_x e) (est_y e) (refLatOf v) (refLngOf v) in
  exists var,
    trilaterate v
    = Some (mkResult (g_lat g) (g_lng g) high (length v) v (Num 1.0) var).
Proof.
  destruct (three_or_more v Hcount) as (o1 & o2 & o3 & tl & Hv).
  destruct (trilaterate_multi v o1 o2 o3 tl Hv (proj1 Hfiltered))
    as (ref' & rest' & Hpts & _ & Htri).
  rewrite Hpoints in Hpts. injection Hpts as <- <-. exact Htri.
Qed.

End MultiSensor.

(** *** The degenerate case *)

(** Sensors on one meridian of the local frame make the normal matrix
    singular. *)
Lemma same_x_det0 (ref : pointObs) (rest : list pointObs) :
  Forall (fun p => xR p = xR ref) rest -> detR ref rest = 0.
Proof.
  intros H. unfold detR, S00, S01, S10.
  rewrite !(Rsum_zero _ rest); [lra| | |];
    (eapply Forall_impl; [exact H|]); intros p Hp; cbn beta;
    unfold a0R; rewrite Hp; lra.
Qed.

Lemma meridianObs_filtered : filteredList meridianObs.
Proof. example_filtered. Qed.

Lemma meridianObs_refLat : refLatOf meridianObs = Num 50.001.
Proof.
  unfold refLatOf. rewrite centroid_Num.
  - f_equal. unfold meridianObs, obsA, obsB, obsC, exObs.
    cbn [Rsum fold_right sensor_lat toR length INR]. lra.
  - discriminate.
  - repeat constructor; unfold finite; cbn; eauto.
Qed.

Lemma meridianObs_det :
  let v := meridianObs in
  Rabs (detR (toPoint (refLatOf v) (refLngOf v) obsA)
             (map (toPoint (refLatOf v) (refLngOf v)) [obsB; obsC])) < 1e-10.
Proof.
  intros v.
  destruct (refOf_finite v) as (rlat & rlng & Hlat & Hlng);
    [discriminate | apply meridianObs_filtered |].
  rewrite Hlat, Hlng, same_x_det0.
  - rewrite Rabs_R0. lra.
  - repeat constructor; unfold xR, toPoint, obsA, obsB, obsC, exObs;
      cbn [pos sensor_lat sensor_lng]; rewrite !gpsToMeters_Num; reflexivity.
Qed.

(** *** The normal equations *)

Lemma detR_two_rows (ref p1 p2 : pointObs) :
  detR ref [p1; p2]
  = wR p1 * wR p2
    * ((a0R ref p1 * a1R ref p2 - a0R ref p2 * a1R ref p1)
       * (a0R ref p1 * a1R ref p2 - a0R ref p2 * a1R ref p1)).
Proof.
  unfold detR, S00, S01, S10, S11. rewrite !Rsum_cons, !Rsum_nil. ring.
Qed.

Lemma triangleObs_filtered : filteredList triangleObs.
Proof. example_filtered. Qed.

Lemma triangleObs_refLat : refLatOf triangleObs = Num 50.0005.
Proof.
  unfold refLatOf. rewrite centroid_Num.
  - f_equal. unfold triangleObs, triA, triB, triC, exObs.
    cbn [Rsum fold_right sensor_lat toR length INR]. lra.
  - discriminate.
  - repeat constructor; unfold finite; cbn; eauto.
Qed.

Lemma triangleObs_refLng : exists rlng, refLngOf triangleObs = Num rlng.
Proof.
  destruct (refOf_finite triangleObs) as (rlat & rlng & _ & H);
    [discriminate | apply triangleObs_filtered | eauto].
Qed.

Lemma triangleObs_det :
  let v := triangleObs in
  1e-10 <= Rabs (detR (toPoint (refLatOf v) (refLngOf v) triA)
                      (map (toPoint (refLatOf v) (refLngOf v)) [triB; triC])).
Proof.
  intros v. subst v. destruct triangleObs_refLng as [rlng Hlng].
  rewrite triangleObs_refLat, Hlng. cbn [map]. rewrite detR_two_rows.
  unfold a0R, a1R, triA, triB, triC.
  rewrite !xR_exObs, !yR_exObs, !wR_exObs_default.
  pose proof (cos_deg_gt_half 50.0005 ltac:(lra) ltac:(lra)) as Hc.
  pose proof PI_gt_3 as HPI.
  set (c := cos (50.0005 * PI / 180)) in *.
  set (a := 2 * ((6.001 - rlng) * PI / 180 * 6371000 * c
                 - (6 - rlng) * PI / 180 * 6371000 * c)).
  set (b := 2 * ((50.001 - 50.0005) * PI / 180 * 6371000
                 - (50 - 50.0005) * PI / 180 * 6371000)).
  assert (Ha : 100 < a).
  { subst a. replace (2 * ((6.001 - rlng) * PI / 180 * 6371000 * c
                          - (6 - rlng) * PI / 180 * 6371000 * c))
      with (12742 / 180 * (PI * c)) by lra.
    assert (3 * (1 / 2) < PI * c) by nra. lra. }
  assert (Hb : 200 < b).
  { subst b. lra. }
  match goal with |- _ <= Rabs ?e => assert (He : 1 <= e) end.
  { match goal with |- 1 <= _ * _ * ((?u - _ * _) * _) =>
      replace u with 0 by (unfold Rdiv; ring) end.
    fold a.
    assert (Hab : 20000 < a * b) by nra.
    assert (Hsq : 400000000 < (0 - a * b) * (0 - a * b)) by nra.
    lra. }
  rewrite Rabs_pos_eq; lra.
Qed.

(** Over exact arithmetic: for a filtered list of [n >= 3] finite
    observations the equation of sensor [i] is the first sensor's circle
    equation minus its own, with weight [1 / (d_i + 1) * m_i], and
    whenever [|det| >= 1e-10] the returned local position solves the
    normal equations [(A'WA) x = A'Wb]. *)
Lemma multiSensor_normal_equations_exact (v : list obs) (ref : pointObs)
    (rest : list pointObs) :
  filteredList v -> (3 <= length v)%nat -> pointsOf v = ref :: rest ->
  1e-10 <= Rabs (detR ref rest) ->
  let A := map (rowA ref) rest in
  let b := map (rowB ref) rest in
  let weights := map rowWeight rest in
  (length A = (length v - 1)%nat /\ length b = (length v - 1)%nat
   /\ length weights = (length v - 1)%nat)
  /\ A = map (fun p => (Num (2 * (xR p - xR ref)), Num (2 * (yR p - yR ref)))) rest
  /\ b = map (fun p => Num (bR ref p)) rest
  /\ (forall p x y,
        2 * (xR p - xR ref) * x + 2 * (yR p - yR ref) * y - bR ref p
        = circle ref x y - circle p x y)
  /\ weights
     = map (fun p => Num (1 / (dR p + 1) * signalMultiplier (rssi (p_obs p)))) rest
  /\ (forall r, match r with
                | None => signalMultiplier r = 1
                | Some x =>
                    (toR x = 0 -> signalMultiplier r = 1)
                    /\ (toR x <> 0 ->
                        signalMultiplier r = Rpower 10 ((toR x + 100) / 20))
                end)
  /\ exists X Y,
       solveWeightedLeastSquares A b weights = mkEst (Num X) (Num Y) None
       /\ est_x (estimateMultiSensorPosition ref rest) = Num X
       /\ est_y (estimateMultiSensorPosition ref rest) = Num Y
       /\ S00 ref rest * X + S01 ref rest * Y = T0 ref rest
       /\ S10 ref rest * X + S11 ref rest * Y = T1 ref rest
       /\ exists r,
            trilaterate v = Some r
            /\ lat r = g_lat (metersToGps (Num X) (Num Y) (refLatOf v) (refLngOf v))
            /\ lng r = g_lng (metersToGps (Num X) (Num Y) (refLatOf v) (refLngOf v))
            /\ r_qualityLevel r = high /\ confidence r = Num 1.0.
Proof.
  intros Hfl Hlen Hpts Hdet.
  destruct (multi_finite v ref rest Hfl Hlen Hpts) as [Href Hrest].
  pose proof (multi_rest_nonempty v ref rest Hlen Hpts) as Hrne.
  pose proof (multi_rest_length v ref rest Hlen Hpts) as Hrl.
  destruct (multi_trilaterate v ref rest Hfl Hlen Hpts) as [var Htri].
  assert (Hd0 : detR ref rest <> 0).
  { intros H0. rewrite H0, Rabs_R0 in Hdet. lra. }
  cbn zeta. rewrite !length_map.
  split; [auto|].
  split; [apply map_rowA_Num; assumption|].
  split; [apply map_rowB_Num; assumption|].
  split; [intros p x y; apply row_is_circle_difference|].
  split; [apply map_rowWeight_Num; assumption|].
  split; [apply signalMultiplier_cases|].
  pose proof (solveWeightedLeastSquares_Num ref rest Href Hrest Hrne) as Hsolve.
  rewrite Rltb_false in Hsolve by lra.
  destruct (normal_equations ref rest Hd0) as [Hn1 Hn2].
  eexists _, _. split; [exact Hsolve|].
  assert (Hx : forall X Y, solveWeightedLeastSquares (map (rowA ref) rest)
                 (map (rowB ref) rest) (map rowWeight rest) = mkEst X Y None ->
               est_x (estimateMultiSensorPosition ref rest) = X
               /\ est_y (estimateMultiSensorPosition ref rest) = Y).
  { intros X Y HS. unfold estimateMultiSensorPosition. cbn [est_x est_y].
    rewrite HS. split; reflexivity. }
  destruct (Hx _ _ Hsolve) as [Hex Hey].
  split; [exact Hex|]. split; [exact Hey|].
  split; [exact Hn1|]. split; [exact Hn2|].
  rewrite Hex, Hey in Htri.
  eexists. split; [exact Htri|]. cbn [lat lng r_qualityLevel confidence]. auto.
Qed.

(** *** Where the claim of the specification fails *)

Lemma Rpower_10_5_gt_1 : 1 < Rpower 10 ((0 + 100) / 20).
Proof.
  rewrite <- (Rpower_O 10) at 1 by lra.
  apply Rpower_lt; lra.
Qed.

Lemma rowWeight_zeroC (refLat refLng : num) :
  rowWeight (toPoint refLat refLng zeroC) = Num (1 / (9 + 1) * 1).
Proof.
  unfold rowWeight, toPoint, zeroC, exObs. cbn [p_obs obs_distance rssi].
  unfold rssiWeight, truthy. rewrite Reqb_true by reflexivity.
  cbn [negb nadd]. rewrite ndiv_Num by lra. reflexivity.
Qed.

(** The third sensor of [zeroRssiObs] reports [rssi = 0]; its equation
    gets the weight [1 / (9 + 1)], not [1 / (9 + 1) * 10 ^ ((0 + 100) / 20)]. *)
Lemma zeroRssiObs_weight :
  let v := zeroRssiObs in
  let rest := map (toPoint (refLatOf v) (refLngOf v)) [triB; zeroC] in
  List.filter validObservation v = v
  /\ (3 <= length v)%nat
  /\ pointsOf v = toPoint (refLatOf v) (refLngOf v) triA :: rest
  /\ map rowWeight rest
     <> map (fun p => Num (1 / (dR p + 1) * claimedMultiplier (rssi (p_obs p))))
            rest.
Proof.
  intros v rest.
  split.
  { apply filter_all. repeat constructor; apply exObs_valid; lra. }
  split; [cbn; lia|]. split; [reflexivity|].
  subst rest. cbn [map]. intros Heq.
  injection Heq as _ Hw. rewrite rowWeight_zeroC in Hw.
  injection Hw as Hw. revert Hw.
  unfold dR, toPoint, zeroC, exObs, claimedMultiplier.
  cbn [p_obs obs_distance rssi toR].
  pose proof Rpower_10_5_gt_1 as Hp.
  intros Hw. nra.
Qed.

Lemma meridianObs_not_solution :
  let v := meridianObs in
  let ref := toPoint (refLatOf v) (refLngOf v) obsA in
  let rest := map (toPoint (refLatOf v) (refLngOf v)) [obsB; obsC] in
  exists X Y,
    est_x (estimateMultiSensorPosition ref rest) = Num X
    /\ est_y (estimateMultiSensorPosition ref rest) = Num Y
    /\ S10 ref rest * X + S11 ref rest * Y <> T1 ref rest.
Proof.
  intros v ref rest.
  pose proof (pointsOf_finite v ltac:(discriminate) meridianObs_filtered) as Hfin.
  change (pointsOf v) with (ref :: rest) in Hfin.
  apply Forall_cons_1 in Hfin as [Href Hrest].
  pose proof (solveWeightedLeastSquares_Num ref rest Href Hrest ltac:(discriminate))
    as Hsolve.
  assert (Hdet : Rabs (detR ref rest) < 1e-10) by exact meridianObs_det.
  rewrite (Rltb_true _ _ Hdet) in Hsolve. clear Hdet.
  eexists _, _.
  split; [unfold estimateMultiSensorPosition; cbn [est_x]; rewrite Hsolve; reflexivity|].
  split; [unfold estimateMultiSensorPosition; cbn [est_y]; rewrite Hsolve; reflexivity|].
  subst ref rest v.
  destruct (refOf_finite meridianObs ltac:(discriminate) (proj2 meridianObs_filtered))
    as (rlat & rlng & _ & Hlng).
  rewrite meridianObs_refLat, Hlng.
  unfold S10, S11, T1. cbn [map length]. rewrite !Rsum_cons, !Rsum_nil.
  unfold a0R, a1R, bR, obsA, obsB, obsC.
  rewrite !xR_exObs, !yR_exObs, !dR_exObs, !wR_exObs.
  pose proof (signalMultiplier_pos (Some (Num (-70)))) as Hm.
  set (m := signalMultiplier (Some (Num (-70)))) in *.
  pose proof PI_gt_3 as HPI.
  cbn [INR].
  intros Heq.
  assert (Hpos : 0 < 62 * (1 / 6 * m)
                     * ((0.001 * PI / 180 * 6371000)
                        * (0.001 * PI / 180 * 6371000)
                        * (0.001 * PI / 180 * 6371000))).
  { assert (Hgen : forall dl, 0 < dl -> 0 < 62 * (1 / 6 * m) * (dl * dl * dl)).
    { intros dl Hd.
      assert (0 < dl * dl * dl) by (repeat apply Rmult_lt_0_compat; exact Hd).
      assert (0 < 1 / 6 * m) by lra.
      apply Rmult_lt_0_compat; [lra | assumption]. }
    apply Hgen. lra. }
  apply Rminus_diag_eq in Heq.
  change 50.001 with (50001 / 1000) in Heq.
  change 50.002 with (50002 / 1000) in Heq.
  change 0.001 with (1 / 1000) in Hpos.
  match type of Heq with ?e = 0 =>
    replace e with (62 * (1 / 6 * m)
                    * ((1 / 1000 * PI / 180 * 6371000)
                       * (1 / 1000 * PI / 180 * 6371000)
                       * (1 / 1000 * PI / 180 * 6371000))) in Heq by field
  end.
  lra.
Qed.

(** C1, as stated, fails twice: on [zeroRssiObs] the equation of the
    sensor that reports [rssi = 0] does not get the weight of the formula,
    and on the collinear [meridianObs] the returned position does not
    solve the normal equations. *)
Lemma multiSensor_counterexample :
  (let v := zeroRssiObs in
   let rest := map (toPoint (refLatOf v) (refLngOf v)) [triB; zeroC] in
   List.filter validObservation v = v
   /\ (3 <= length v)%nat
   /\ pointsOf v = toPoint (refLatOf v) (refLngOf v) triA :: rest
   /\ map rowWeight rest
      <> map (fun p => Num (1 / (dR p + 1) * claimedMultiplier (rssi (p_obs p))))
             rest)
  /\ (let v := meridianObs in
      let ref := toPoint (refLatOf v) (refLngOf v) obsA in
      let rest := map (toPoint (refLatOf v) (refLngOf v)) [obsB; obsC] in
      List.filter validObservation v = v
      /\ pointsOf v = ref :: rest
      /\ exists X Y,
           est_x (estimateMultiSensorPosition ref rest) = Num X
           /\ est_y (estimateMultiSensorPosition ref rest) = Num Y
           /\ S10 ref rest * X + S11 ref rest * Y <> T1 ref rest).
Proof.
  split; [exact zeroRssiObs_weight|].
  split; [apply filter_all, meridianObs_filtered|].
  split; [reflexivity | exact meridianObs_not_solution].
Qed.

(** ** Kalman smoother *)

Lemma applyKalmanFilter_fresh (states : gmap string kalmanState) (now : Z)
    (dev : string) (mlat mlng : R) (q : num) :
  states !! dev = None ->
  applyKalmanFilter states now dev (Num mlat) (Num mlng) q
  = (mkGps (Num mlat) (Num mlng),
     <[dev := mkKalmanState (mkVec4 (Num 0) (Num 0) (Num 0) (Num 0))
                            initialCovariance now (Num mlat) (Num mlng)]> states).
Proof.
  intros Hnone. unfold applyKalmanFilter. rewrite Hnone.
  rewrite gpsToMeters_self. reflexivity.
Qed.

(** A later call for a device that has a state keeps the anchor of that
    state, projects the measurement through it, and leaves the states of
    the other devices alone. *)
Lemma applyKalmanFilter_known (states : gmap string kalmanState) (now : Z)
    (dev : string) (mlat mlng q : num) (s : kalmanState) :
  states !! dev = Some s ->
  let m := gpsToMeters mlat mlng (ks_refLat s) (ks_refLng s) in
  let pred := kalmanPredict (ks_x s) (ks_P s) KALMAN_dt in
  let upd := kalmanUpdate (fst pred) (snd pred) (px m) (py m)
               (measurementNoise * (Num 1 + q / Num 10))%js in
  applyKalmanFilter states now dev mlat mlng q
  = (metersToGps (v0 (fst upd)) (v1 (fst upd)) (ks_refLat s) (ks_refLng s),
     <[dev := mkKalmanState (fst upd) (snd upd) now (ks_refLat s) (ks_refLng s)]>
       states).
Proof.
  intros Hs m pred upd. unfold applyKalmanFilter. rewrite Hs.
  fold m. fold pred. destruct pred as [xp Pp] eqn:Hp.
  cbn [fst snd] in upd. fold upd. destruct upd as [xu Pu].
  reflexivity.
Qed.

Lemma applyKalmanFilter_anchor (states : gmap string kalmanState) (now : Z)
    (dev dev' : string) (mlat mlng q : num) (s : kalmanState) :
  states !! dev = Some s ->
  exists s', snd (applyKalmanFilter states now dev' mlat mlng q) !! dev = Some s'
             /\ ks_refLat s' = ks_refLat s /\ ks_refLng s' = ks_refLng s.
Proof.
  intros Hs. destruct (decide (dev' = dev)) as [->|Hne].
  - rewrite (applyKalmanFilter_known _ _ _ _ _ _ s Hs). cbn [snd].
    rewrite lookup_insert_eq. eexists; split; [reflexivity|]. split; reflexivity.
  - exists s. split; [|split; reflexivity].
    unfold applyKalmanFilter.
    destruct (states !! dev') as [s0|].
    + destruct (kalmanPredict _ _ _) as [xp Pp].
      destruct (kalmanUpdate _ _ _ _ _) as [xu Pu].
      cbn [snd]. rewrite lookup_insert_ne by exact Hne. exact Hs.
    + cbn [snd]. rewrite lookup_insert_ne by exact Hne. exact Hs.
Qed.

Lemma runSmoother_anchor (calls : list smootherCall) :
  forall (states : gmap string kalmanState) (dev : string) (s : kalmanState),
    states !! dev = Some s ->
    exists s', runSmoother states calls !! dev = Some s'
               /\ ks_refLat s' = ks_refLat s /\ ks_refLng s' = ks_refLng s.
Proof.
  induction calls as [|c calls IH]; intros states dev s Hs.
  - exists s. cbn. auto.
  - cbn [runSmoother fold_left].
    destruct (applyKalmanFilter_anchor states (c_now c) dev (c_device c)
                (c_lat c) (c_lng c) (c_quality c) s Hs) as (s1 & H1 & Hl & Hg).
    destruct (IH _ dev s1 H1) as (s2 & H2 & Hl2 & Hg2).
    exists s2. split; [exact H2|]. split; congruence.
Qed.

(** C5. The first call of the smoother for a device without a state, on a
    finite measurement, returns the measurement unchanged and stores a
    state anchored at it: state vector [(0, 0, 0, 0)], covariance
    [diag(100, 100, 10, 10)]; after any further calls the device still has
    a state with that same anchor, and each such call projects its
    measurement through the stored anchor. *)
Theorem applyKalmanFilter_first (states : gmap string kalmanState) (now : Z)
    (dev : string) (mlat mlng : R) (q : num) :
  states !! dev = None ->
  let first := applyKalmanFilter states now dev (Num mlat) (Num mlng) q in
  fst first = mkGps (Num mlat) (Num mlng)
  /\ snd first !! dev
     = Some (mkKalmanState (mkVec4 (Num 0) (Num 0) (Num 0) (Num 0))
                           initialCovariance now (Num mlat) (Num mlng))
  /\ (forall calls now' lat' lng' q', exists s,
         runSmoother (snd first) calls !! dev = Some s
         /\ ks_refLat s = Num mlat /\ ks_refLng s = Num mlng
         /\ let m := gpsToMeters lat' lng' (Num mlat) (Num mlng) in
            let pred := kalmanPredict (ks_x s) (ks_P s) KALMAN_dt in
            let upd := kalmanUpdate (fst pred) (snd pred) (px m) (py m)
                         (measurementNoise * (Num 1 + q' / Num 10))%js in
            fst (applyKalmanFilter (runSmoother (snd first) calls) now' dev
                                   lat' lng' q')
            = metersToGps (v0 (fst upd)) (v1 (fst upd)) (Num mlat) (Num mlng)).
Proof.
  intros Hnone first.
  assert (Hfirst : first
    = (mkGps (Num mlat) (Num mlng),
       <[dev := mkKalmanState (mkVec4 (Num 0) (Num 0) (Num 0) (Num 0))
                              initialCovariance now (Num mlat) (Num mlng)]> states)).
  { subst first. apply applyKalmanFilter_fresh, Hnone. }
  rewrite Hfirst. cbn [fst snd].
  assert (Hlook : <[dev := mkKalmanState (mkVec4 (Num 0) (Num 0) (Num 0) (Num 0))
                      initialCovariance now (Num mlat) (Num mlng)]> states !! dev
                  = Some (mkKalmanState (mkVec4 (Num 0) (Num 0) (Num 0) (Num 0))
                      initialCovariance now (Num mlat) (Num mlng)))
    by apply lookup_insert_eq.
  split; [reflexivity|]. split; [exact Hlook|].
  - intros calls now' lat' lng' q'.
    destruct (runSmoother_anchor calls _ dev _ Hlook) as (s & Hs & Hl & Hg).
    exists s. cbn in Hl, Hg. split; [exact Hs|]. split; [exact Hl|].
    split; [exact Hg|]. cbn zeta.
    rewrite (applyKalmanFilter_known _ _ _ _ _ _ s Hs). cbn [fst].
    rewrite Hl, Hg. reflexivity.
Qed.

Lemma applyKalmanFilter_first_witness :
  (∅ : gmap string kalmanState) !! "d1"%string = None
  /\ fst (applyKalmanFilter ∅ 0%Z "d1" (Num 50) (Num 6) (Num 5))
     = mkGps (Num 50) (Num 6).
Proof.
  assert (H : (∅ : gmap string kalmanState) !! "d1"%string = None)
    by apply lookup_empty.
  split; [exact H|].
  exact (proj1 (applyKalmanFilter_first ∅ 0%Z "d1" 50 6 (Num 5) H)).
Defined.

(** ** Time-window aggregator: the three loops as one fold *)

Lemma entryStep_flat (ts : string) (offset : Z) (e : entry)
    (acc : deviceMap * gset string) :
  entryStep ts offset acc e = fold_left readingStep (entryReadings ts offset e) acc.
Proof.
  unfold entryStep, entryReadings. rewrite fold_left_map'. reflexivity.
Qed.

Lemma timestampStep_flat (getTime : string -> option Z) (dh : dataHandler)
    (centerTime : option Z) (acc : deviceMap * gset string) (ts : string) :
  timestampStep getTime dh centerTime acc ts
  = fold_left readingStep (timestampReadings getTime dh centerTime ts) acc.
Proof.
  unfold timestampStep, timestampReadings.
  destruct (inWindow getTime dh centerTime ts) as [offset|]; [|reflexivity].
  rewrite fold_left_flat_map. apply fold_left_ext'. intros a e. apply entryStep_flat.
Qed.

Lemma getDevicesInTimeWindow_flat (getTime : string -> option Z)
    (dh : dataHandler) (timestamp : string) :
  getDevicesInTimeWindow getTime dh timestamp
  = fst (fold_left readingStep (windowReadings getTime dh timestamp) ([], ∅)).
Proof.
  unfold getDevicesInTimeWindow, windowReadings. rewrite fold_left_flat_map.
  f_equal. apply fold_left_ext'. intros a ts. apply timestampStep_flat.
Qed.

Lemma dm_push_keys (mac : string) (o : obs) (dm : deviceMap) :
  map fst (dm_push mac o dm) = map fst dm.
Proof.
  unfold dm_push. induction dm as [|kv dm IH]; [reflexivity|].
  cbn [map]. rewrite IH. destruct (String.eqb (fst kv) mac); reflexivity.
Qed.

Lemma dm_push_app (mac : string) (o : obs) (a b : deviceMap) :
  dm_push mac o (a ++ b) = dm_push mac o a ++ dm_push mac o b.
Proof. unfold dm_push. apply map_app. Qed.

Lemma dm_has_In (mac : string) (dm : deviceMap) :
  dm_has mac dm = true <-> In mac (map fst dm).
Proof.
  unfold dm_has. rewrite existsb_exists, in_map_iff. split.
  - intros (kv & Hin & Heq). apply String.eqb_eq in Heq. eauto.
  - intros (kv & Heq & Hin). exists kv. split; [exact Hin|].
    apply String.eqb_eq. exact Heq.
Qed.

Lemma readingStep_NoDup (acc : deviceMap * gset string) (r : reading) :
  NoDup (map fst (fst acc)) -> NoDup (map fst (fst (readingStep acc r))).
Proof.
  destruct acc as [dm processed]. unfold readingStep, deviceStep. cbn [fst].
  intros Hnd. destruct (bool_decide _); [exact Hnd|]. cbn [fst].
  rewrite dm_push_keys.
  destruct (dm_has (d_mac_hashed (rd_device r)) dm) eqn:Hhas; [exact Hnd|].
  rewrite map_app. cbn [map fst].
  apply NoDup_app. split; [exact Hnd|]. split.
  - intros x Hx Hin. apply list_elem_of_In in Hx, Hin.
    destruct Hin as [<-|[]]. apply dm_has_In in Hx. congruence.
  - apply NoDup_singleton.
Qed.

Lemma getDevicesInTimeWindow_NoDup (getTime : string -> option Z)
    (dh : dataHandler) (timestamp : string) :
  NoDup (map fst (getDevicesInTimeWindow getTime dh timestamp)).
Proof.
  rewrite getDevicesInTimeWindow_flat.
  apply (fold_left_invariant (fun acc => NoDup (map fst (fst acc)))).
  - intros acc r. apply readingStep_NoDup.
  - constructor.
Qed.

(** ** Time-window aggregator: first-seen de-duplication and grouping *)

Lemma keepFirst_snoc {A : Type} (same : A -> A -> bool) (l : list A) (x : A) :
  keepFirst same (l ++ [x])
  = keepFirst same l ++ (if existsb (fun a => same a x) l then [] else [x]).
Proof.
  induction l as [|a l IH]; cbn [app keepFirst existsb]; [reflexivity|].
  rewrite IH, List.filter_app. f_equal.
  destruct (same a x) eqn:Hax; cbn [orb].
  - destruct (existsb _ l); cbn [List.filter]; [reflexivity|].
    rewrite Hax. reflexivity.
  - destruct (existsb _ l); cbn [List.filter]; [reflexivity|].
    rewrite Hax. reflexivity.
Qed.

Lemma keepFirst_In {A : Type} (same : A -> A -> bool) (l : list A) (x : A) :
  In x (keepFirst same l) -> In x l.
Proof.
  induction l as [|a l IH]; cbn [keepFirst In]; [auto|].
  intros [H|H]; [auto|]. apply filter_In in H as [H _]. auto.
Qed.

Lemma keepFirst_eqb_In (l : list string) (x : string) :
  In x (keepFirst String.eqb l) <-> In x l.
Proof.
  split; [apply keepFirst_In|].
  induction l as [|a l IH]; cbn [keepFirst In]; [auto|].
  intros [H|H]; [auto|].
  destruct (String.eqb a x) eqn:Hax.
  - apply String.eqb_eq in Hax. auto.
  - right. apply filter_In. split; [auto|]. rewrite Hax. reflexivity.
Qed.

Lemma keepFirst_distinct {A : Type} (same : A -> A -> bool) (l : list A) :
  ForallOrdPairs (fun a b => same a b = false) (keepFirst same l).
Proof.
  induction l as [|a l IH]; cbn [keepFirst]; constructor.
  - apply List.Forall_forall. intros b Hb. apply filter_In in Hb as [_ Hb].
    apply negb_true_iff in Hb. exact Hb.
  - apply ForallOrdPairs_filter, IH.
Qed.

(** The element [keepFirst] keeps of a class precedes every element of
    that class. *)
Lemma keepFirst_precedes {A : Type} (same : A -> A -> bool) (R : A -> A -> Prop)
    (l : list A) :
  (forall a, R a a) -> (forall a b, same a b = same b a) ->
  StronglySorted R l ->
  forall x y, In x (keepFirst same l) -> In y l -> same x y = true -> R x y.
Proof.
  intros Hrefl Hsym. induction 1 as [|a l Hs IH Hall]; intros x y Hx Hy Hxy.
  - destruct Hx.
  - cbn [keepFirst] in Hx. rewrite List.Forall_forall in Hall.
    destruct Hx as [<-|Hx].
    + destruct Hy as [<-|Hy]; [apply Hrefl | apply Hall, Hy].
    + apply filter_In in Hx as [Hx Hna]. apply negb_true_iff in Hna.
      destruct Hy as [<-|Hy]; [|exact (IH x y Hx Hy Hxy)].
      rewrite Hsym in Hxy. congruence.
Qed.

Lemma samePair_key (r r' : reading) : samePair r r' = true -> rd_key r = rd_key r'.
Proof.
  unfold samePair, rd_key, readingKey, rd_sensor, rd_mac. intros H.
  apply andb_prop in H as [H1 H2].
  apply String.eqb_eq in H1, H2. rewrite H1, H2. reflexivity.
Qed.

Lemma samePair_sym (r r' : reading) : samePair r r' = samePair r' r.
Proof.
  unfold samePair. rewrite (String.eqb_sym (rd_sensor r)), (String.eqb_sym (rd_mac r)).
  reflexivity.
Qed.

Lemma samePair_refl (r : reading) : samePair r r = true.
Proof. unfold samePair. rewrite !String.eqb_refl. reflexivity. Qed.

Lemma samePair_trans (a b c : reading) :
  samePair a b = true -> samePair b c = true -> samePair a c = true.
Proof.
  unfold samePair. intros H1 H2.
  apply andb_prop in H1 as [H1 H1'], H2 as [H2 H2'].
  apply String.eqb_eq in H1, H1', H2, H2'.
  rewrite H1, H2, H1', H2', !String.eqb_refl. reflexivity.
Qed.

(** At most one kept reading per pair, and at least one for every pair
    that has a reading. *)
Lemma firstSeen_one_per_pair (l : list reading) :
  ForallOrdPairs (fun a b => samePair a b = false) (firstSeen l)
  /\ (forall r, In r l -> exists r', In r' (firstSeen l) /\ samePair r' r = true).
Proof.
  split; [apply keepFirst_distinct|].
  unfold firstSeen. induction l as [|a l IH]; intros r Hr; [destruct Hr|].
  cbn [keepFirst]. destruct Hr as [<-|Hr].
  - exists a. split; [left; reflexivity | apply samePair_refl].
  - destruct (IH r Hr) as (r' & Hin & Hsame).
    destruct (samePair a r') eqn:Har.
    + exists a. split; [left; reflexivity|]. exact (samePair_trans a r' r Har Hsame).
    + exists r'. split; [|exact Hsame]. right. apply filter_In.
      split; [exact Hin|]. rewrite Har. reflexivity.
Qed.

Lemma groupByDevice_keys (l : list reading) :
  map fst (groupByDevice l) = keepFirst String.eqb (map rd_mac l).
Proof.
  unfold groupByDevice. rewrite map_map. cbn [fst]. apply map_id.
Qed.

Lemma existsb_eqb_In (l : list string) (x : string) :
  existsb (fun a => String.eqb a x) l = true <-> In x l.
Proof.
  rewrite existsb_exists. split.
  - intros (a & Ha & Heq). apply String.eqb_eq in Heq. congruence.
  - intros H. exists x. split; [exact H | apply String.eqb_refl].
Qed.

(** Grouping one more reading is the code's "ensure the key, then push". *)
Lemma groupByDevice_snoc (l : list reading) (r : reading) :
  groupByDevice (l ++ [r])
  = dm_push (rd_mac r) (rd_obs r)
      (if dm_has (rd_mac r) (groupByDevice l) then groupByDevice l
       else groupByDevice l ++ [(rd_mac r, [])]).
Proof.
  assert (Hfilter : forall m,
            map rd_obs (List.filter (fun r0 => String.eqb (rd_mac r0) m) (l ++ [r]))
            = map rd_obs (List.filter (fun r0 => String.eqb (rd_mac r0) m) l)
              ++ (if String.eqb (rd_mac r) m then [rd_obs r] else [])).
  { intros m. rewrite List.filter_app, map_app. cbn [List.filter].
    destruct (String.eqb (rd_mac r) m); reflexivity. }
  assert (Hpush : forall keys,
            dm_push (rd_mac r) (rd_obs r)
              (map (fun mac => (mac, map rd_obs
                      (List.filter (fun r0 => String.eqb (rd_mac r0) mac) l))) keys)
            = map (fun mac => (mac, map rd_obs
                      (List.filter (fun r0 => String.eqb (rd_mac r0) mac) (l ++ [r]))))
                  keys).
  { intros keys. unfold dm_push. rewrite map_map. apply map_ext. intros m.
    cbn [fst snd]. rewrite Hfilter, (String.eqb_sym m).
    destruct (String.eqb (rd_mac r) m); [reflexivity|].
    rewrite app_nil_r. reflexivity. }
  destruct (dm_has (rd_mac r) (groupByDevice l)) eqn:Hhas.
  - apply (proj1 (dm_has_In _ _)) in Hhas. rewrite groupByDevice_keys in Hhas.
    apply (proj1 (keepFirst_eqb_In _ _)) in Hhas.
    unfold groupByDevice at 1. rewrite map_app. cbn [map].
    rewrite keepFirst_snoc.
    apply (proj2 (existsb_eqb_In _ _)) in Hhas. rewrite Hhas, app_nil_r.
    unfold groupByDevice. rewrite Hpush. reflexivity.
  - assert (Hnot : ~ In (rd_mac r) (map rd_mac l)).
    { intros Hin. apply (proj2 (keepFirst_eqb_In _ _)) in Hin.
      rewrite <- groupByDevice_keys in Hin.
      apply (proj2 (dm_has_In _ _)) in Hin. congruence. }
    unfold groupByDevice at 1. rewrite map_app. cbn [map].
    rewrite keepFirst_snoc.
    destruct (existsb (fun a => String.eqb a (rd_mac r)) (map rd_mac l)) eqn:He.
    { apply (proj1 (existsb_eqb_In _ _)) in He. contradiction. }
    rewrite map_app. cbn [map].
    rewrite dm_push_app. unfold groupByDevice. rewrite Hpush. f_equal.
    unfold dm_push. cbn [map fst snd].
    rewrite String.eqb_refl, Hfilter, String.eqb_refl.
    rewrite filter_none; [reflexivity|].
    intros a Ha. apply String.eqb_neq. intros Heq. apply Hnot.
    apply in_map_iff. eauto.
Qed.

Lemma keysInjective_prefix (l : list reading) (r : reading) :
  keysInjective (l ++ [r]) -> keysInjective l.
Proof.
  intros H a b Ha Hb. apply H; apply in_or_app; left; assumption.
Qed.

(** With keys that tell pairs apart, the three nested loops compute the
    first-seen readings grouped by device, and the set of their keys. *)
Lemma readings_fold (l : list reading) :
  keysInjective l ->
  fold_left readingStep l ([], ∅)
  = (groupByDevice (firstSeen l), list_to_set (map rd_key l)).
Proof.
  induction l as [|r l IH] using rev_ind; intros Hinj; [reflexivity|].
  rewrite fold_left_app, (IH (keysInjective_prefix l r Hinj)).
  cbn [fold_left]. unfold readingStep, deviceStep. fold (rd_key r). fold (rd_mac r).
  fold (rd_obs r). unfold firstSeen. rewrite keepFirst_snoc, map_app. cbn [map].
  rewrite list_to_set_app_L. cbn [list_to_set].
  destruct (existsb (fun a => samePair a r) l) eqn:Hex.
  - apply existsb_exists in Hex as (r' & Hin & Hsame).
    assert (Hkey : rd_key r ∈ (list_to_set (map rd_key l) : gset string)).
    { apply elem_of_list_to_set, list_elem_of_In, in_map_iff.
      exists r'. split; [apply samePair_key; exact Hsame | exact Hin]. }
    rewrite bool_decide_true by exact Hkey. rewrite app_nil_r.
    f_equal. rewrite (right_id_L ∅ (∪)), (comm_L (∪)).
    symmetry. apply subseteq_union_1_L, singleton_subseteq_l, Hkey.
  - assert (Hkey : rd_key r ∉ (list_to_set (map rd_key l) : gset string)).
    { intros Hk. apply elem_of_list_to_set, list_elem_of_In, in_map_iff in Hk.
      destruct Hk as (r' & Heq & Hin).
      assert (Hs : samePair r' r = true).
      { apply Hinj; [apply in_or_app; left; exact Hin
                    | apply in_or_app; right; left; reflexivity | exact Heq]. }
      assert (Hf : existsb (fun a => samePair a r) l = true).
      { apply existsb_exists. eauto. }
      congruence. }
    rewrite bool_decide_false by exact Hkey.
    rewrite groupByDevice_snoc. f_equal. rewrite (right_id_L ∅ (∪)). reflexivity.
Qed.

Lemma getDevicesInTimeWindow_first_seen (getTime : string -> option Z)
    (dh : dataHandler) (timestamp : string) :
  keysInjective (windowReadings getTime dh timestamp) ->
  getDevicesInTimeWindow getTime dh timestamp = specAggregate getTime dh timestamp.
Proof.
  intros Hinj. rewrite getDevicesInTimeWindow_flat, (readings_fold _ Hinj).
  reflexivity.
Qed.

Lemma key_split (s1 s2 m1 m2 : string) :
  hasUnderscore s1 = false -> hasUnderscore s2 = false ->
  s1 +:+ "_" +:+ m1 = s2 +:+ "_" +:+ m2 -> s1 = s2 /\ m1 = m2.
Proof.
  revert s2. induction s1 as [|c1 s1 IH]; intros [|c2 s2] H1 H2 Heq;
    cbn [String.append hasUnderscore] in *.
  - injection Heq as Heq. auto.
  - injection Heq as Hc _. subst c2. cbn in H2. discriminate.
  - injection Heq as Hc _. subst c1. cbn in H1. discriminate.
  - injection Heq as Hc Heq. subst c2.
    apply orb_false_elim in H1 as [_ H1]. apply orb_false_elim in H2 as [_ H2].
    destruct (IH s2 H1 H2 Heq) as [-> ->]. auto.
Qed.

(** Sensor identifiers without an underscore never collide. *)
Lemma keysInjective_plain_sensors (l : list reading) :
  Forall (fun r => hasUnderscore (rd_sensor r) = false) l -> keysInjective l.
Proof.
  intros Hplain r r' Hr Hr' Hkey. rewrite List.Forall_forall in Hplain.
  destruct (key_split (rd_sensor r) (rd_sensor r') (rd_mac r) (rd_mac r')
              (Hplain r Hr) (Hplain r' Hr') Hkey) as [Hs Hm].
  unfold samePair. rewrite Hs, Hm, !String.eqb_refl. reflexivity.
Qed.

(** ** Time-window aggregator: the window *)

Lemma inWindow_iff (getTime : string -> option Z) (dh : dataHandler)
    (centerTime : option Z) (ts : string) (offset : Z) :
  inWindow getTime dh centerTime ts = Some offset
  <-> exists c t, centerTime = Some c /\ getTime ts = Some t
                  /\ (Z.abs (t - c) <= TIME_WINDOW_MS dh)%Z /\ offset = (t - c)%Z.
Proof.
  unfold inWindow. destruct centerTime as [c|], (getTime ts) as [t|].
  - destruct ((c - TIME_WINDOW_MS dh <=? t)%Z && (t <=? c + TIME_WINDOW_MS dh)%Z)
      eqn:Hb.
    + apply andb_prop in Hb as [H1 H2]. apply Z.leb_le in H1, H2. split.
      * intros H. injection H as <-. exists c, t. repeat split; lia.
      * intros (c' & t' & Hc & Ht & _ & ->). congruence.
    + split; [discriminate|].
      intros (c' & t' & Hc & Ht & Habs & _).
      injection Hc as <-. injection Ht as <-.
      apply andb_false_iff in Hb as [Hb|Hb]; apply Z.leb_gt in Hb; lia.
  - split; [discriminate|]. intros (c' & t' & _ & Ht & _). discriminate.
  - split; [discriminate|]. intros (c' & t' & Hc & _). discriminate.
  - split; [discriminate|]. intros (c' & t' & Hc & _). discriminate.
Qed.

Lemma in_timestampReadings (getTime : string -> option Z) (dh : dataHandler)
    (centerTime : option Z) (ts : string) (r : reading) :
  In r (timestampReadings getTime dh centerTime ts) <->
  rd_ts r = ts
  /\ inWindow getTime dh centerTime ts = Some (rd_offset r)
  /\ In (rd_entry r) (default [] (dataByTimestamp dh !! ts))
  /\ In (rd_device r) (devices (rd_entry r)).
Proof.
  unfold timestampReadings.
  destruct (inWindow getTime dh centerTime ts) as [offset|].
  - rewrite in_flat_map. unfold entryReadings. split.
    + intros (e & He & Hr). apply in_map_iff in Hr as (d & <- & Hd).
      cbn. auto.
    + intros (Hts & Hoff & He & Hd). exists (rd_entry r). split; [exact He|].
      apply in_map_iff. exists (rd_device r). split; [|exact Hd].
      destruct r as [ts' off' e' d']. cbn in *. congruence.
  - split; [intros []|]. intros (_ & H & _). discriminate.
Qed.

(** In a chronological store the window's readings come in the order of
    their times. *)
Lemma windowReadings_sorted (getTime : string -> option Z) (dh : dataHandler)
    (timestamp : string) :
  chronological getTime (timestamps dh) ->
  StronglySorted (fun r r' => (rd_offset r <= rd_offset r')%Z)
                 (windowReadings getTime dh timestamp).
Proof.
  unfold windowReadings, chronological. generalize (timestamps dh) as tss.
  induction 1 as [|ts tss Hs IH Hall]; cbn [flat_map]; [constructor|].
  apply StronglySorted_app; [|exact IH|].
  - apply StronglySorted_all_related. intros x y Hx Hy.
    apply in_timestampReadings in Hx as (_ & Hx & _), Hy as (_ & Hy & _).
    assert (rd_offset x = rd_offset y) by congruence. lia.
  - intros x y Hx Hy. apply in_flat_map in Hy as (ts' & Hts' & Hy).
    apply in_timestampReadings in Hx as (_ & Hx & _), Hy as (_ & Hy & _).
    apply inWindow_iff in Hx as (c & t & Hc & Ht & _ & ->).
    apply inWindow_iff in Hy as (c' & t' & Hc' & Ht' & _ & ->).
    rewrite List.Forall_forall in Hall. specialize (Hall ts' Hts' t t' Ht Ht').
    assert (c = c') by congruence. lia.
Qed.

(** What the aggregator guarantees when the keys of the window's readings
    tell their (sensor, device) pairs apart: it returns the first-seen
    reading of every pair, grouped by device; a reading is in the window
    exactly when its timestamp [t] has [|t - target| <= W]; in a
    chronological store the reading kept for a pair is the earliest one;
    and the map is empty when no timestamp lies in the window. *)
Lemma aggregator_first_seen (getTime : string -> option Z) (dh : dataHandler)
    (timestamp : string) :
  keysInjective (windowReadings getTime dh timestamp) ->
  getDevicesInTimeWindow getTime dh timestamp
  = groupByDevice (firstSeen (windowReadings getTime dh timestamp))
  /\ (forall r,
        In r (windowReadings getTime dh timestamp) <->
        In (rd_ts r) (timestamps dh)
        /\ (exists c t, getTime timestamp = Some c /\ getTime (rd_ts r) = Some t
                        /\ (Z.abs (t - c) <= TIME_WINDOW_MS dh)%Z
                        /\ rd_offset r = (t - c)%Z)
        /\ In (rd_entry r) (default [] (dataByTimestamp dh !! rd_ts r))
        /\ In (rd_device r) (devices (rd_entry r)))
  /\ (chronological getTime (timestamps dh) ->
      forall r r',
        In r (firstSeen (windowReadings getTime dh timestamp)) ->
        In r' (windowReadings getTime dh timestamp) ->
        samePair r r' = true -> (rd_offset r <= rd_offset r')%Z)
  /\ ((forall ts, In ts (timestamps dh) ->
                  inWindow getTime dh (getTime timestamp) ts = None) ->
      getDevicesInTimeWindow getTime dh timestamp = []).
Proof.
  intros Hinj. split; [apply getDevicesInTimeWindow_first_seen, Hinj|].
  split; [|split].
  - intros r. unfold windowReadings. rewrite in_flat_map. split.
    + intros (ts & Hts & Hr). apply in_timestampReadings in Hr as (<- & Hw & He & Hd).
      apply inWindow_iff in Hw. auto.
    + intros (Hts & Hw & He & Hd). exists (rd_ts r). split; [exact Hts|].
      apply in_timestampReadings. split; [reflexivity|].
      split; [apply inWindow_iff; exact Hw|]. auto.
  - intros Hchron r r' Hr Hr' Hsame.
    apply (keepFirst_precedes samePair
             (fun a b => (rd_offset a <= rd_offset b)%Z)
             (windowReadings getTime dh timestamp)); auto.
    + intros a. lia.
    + apply samePair_sym.
    + apply windowReadings_sorted, Hchron.
  - intros Hnone. rewrite getDevicesInTimeWindow_flat.
    assert (Hempty : windowReadings getTime dh timestamp = []).
    { unfold windowReadings. induction (timestamps dh) as [|ts tss IH];
        cbn [flat_map]; [reflexivity|].
      unfold timestampReadings at 1. rewrite (Hnone ts (or_introl eq_refl)).
      cbn [app]. apply IH. intros ts' Hts'. apply Hnone. right. exact Hts'. }
    rewrite Hempty. reflexivity.
Qed.

(** The scenario of the specification: with a 15 s window a query at
    [t + 12 s] groups both readings under the device; with a 5 s window
    only sensor B's remains. *)
Lemma asyncStore_windows :
  sensorsByDevice
    (getDevicesInTimeWindow exampleTime asyncStore "2025-01-15T10:30:12Z")
  = [("D"%string, ["A"%string; "B"%string])]
  /\ sensorsByDevice
       (getDevicesInTimeWindow exampleTime (setTimeWindow 5000 asyncStore)
                               "2025-01-15T10:30:12Z")
     = [("D"%string, ["B"%string])].
Proof. split; vm_compute; reflexivity. Qed.

(** C4 at a concrete store: the readings of the two different pairs
    [("pi_7", "a1b2")] and [("pi", "7_a1b2")] get the same key
    ["pi_7_a1b2"], so the second one is dropped as a duplicate of the
    first although its pair has no other reading; first-seen
    de-duplication by pair keeps both. *)
Theorem key_collision_drops_reading :
  let rs := windowReadings exampleTime collidingStore "2025-01-15T10:30:00Z" in
  map (fun r => (rd_sensor r, rd_mac r)) rs
  = [("pi_7"%string, "a1b2"%string); ("pi"%string, "7_a1b2"%string)]
  /\ map rd_key rs = ["pi_7_a1b2"%string; "pi_7_a1b2"%string]
  /\ sensorsByDevice
       (getDevicesInTimeWindow exampleTime collidingStore "2025-01-15T10:30:00Z")
     = [("a1b2"%string, ["pi_7"%string])]
  /\ sensorsByDevice
       (specAggregate exampleTime collidingStore "2025-01-15T10:30:00Z")
     = [("a1b2"%string, ["pi_7"%string]); ("7_a1b2"%string, ["pi"%string])].
Proof. repeat split; vm_compute; reflexivity. Qed.

(** ** Time-window aggregator: the readings carry no device identifier *)

Lemma dm_push_noMac (mac : string) (o : obs) (dm : deviceMap) :
  mac_hashed o = None -> noMac dm -> noMac (dm_push mac o dm).
Proof.
  intros Ho. unfold noMac, dm_push. induction 1 as [|kv dm Hkv _ IH]; cbn [map].
  - constructor.
  - constructor; [|exact IH].
    destruct (String.eqb (fst kv) mac); [|exact Hkv].
    cbn [snd]. apply Forall_app. split; [exact Hkv|]. repeat constructor. exact Ho.
Qed.

Lemma deviceStep_noMac (ts : string) (offset : Z) (e : entry)
    (acc : deviceMap * gset string) (d : device) :
  noMac (fst acc) -> noMac (fst (deviceStep ts offset e acc d)).
Proof.
  destruct acc as [dm processed]. unfold deviceStep. cbn [fst]. intros H.
  destruct (bool_decide _); [exact H|]. cbn [fst].
  apply dm_push_noMac; [reflexivity|].
  destruct (dm_has _ dm); [exact H|].
  apply Forall_app. split; [exact H|]. repeat constructor.
Qed.

Lemma getDevicesInTimeWindow_noMac (getTime : string -> option Z)
    (dh : dataHandler) (timestamp : string) :
  noMac (getDevicesInTimeWindow getTime dh timestamp).
Proof.
  unfold getDevicesInTimeWindow.
  apply (fold_left_invariant (fun acc => noMac (fst acc))); [|constructor].
  intros acc ts Hacc. unfold timestampStep.
  destruct (inWindow getTime dh (getTime timestamp) ts) as [offset|]; [|exact Hacc].
  apply (fold_left_invariant (fun acc => noMac (fst acc))); [|exact Hacc].
  intros acc' e Hacc'. unfold entryStep.
  apply (fold_left_invariant (fun acc => noMac (fst acc))); [|exact Hacc'].
  intros acc'' d. apply deviceStep_noMac.
Qed.

(** Consequently a single-sensor estimate computed from aggregated readings
    always lies due north of the sensor, whatever the device. *)
Lemma aggregated_bearing_zero (getTime : string -> option Z) (dh : dataHandler)
    (timestamp mac : string) (l : list obs) (o : obs) :
  In (mac, l) (getDevicesInTimeWindow getTime dh timestamp) -> In o l ->
  bearing (mac_hashed o) = Num 0.
Proof.
  intros Hin Ho.
  pose proof (getDevicesInTimeWindow_noMac getTime dh timestamp) as H.
  unfold noMac in H. rewrite List.Forall_forall in H.
  specialize (H _ Hin). cbn [snd] in H. rewrite List.Forall_forall in H.
  rewrite (H o Ho). reflexivity.
Qed.

Lemma macHash_ab : Z.rem (Z.abs (macHash "ab")) 360 = 225%Z.
Proof. vm_compute. reflexivity. Qed.

Lemma singleStore_window :
  getDevicesInTimeWindow exampleTime singleStore "2025-01-15T10:30:00Z"
  = [("ab"%string, [singleReading])].
Proof. vm_compute. reflexivity. Qed.

(** C3 at a concrete store: the device ["ab"], seen by one sensor at
    [(50, 6)] at 5 m.  The hash of ["ab"] gives the bearing 225 degrees,
    which would put the estimate west of the sensor; the aggregated
    reading carries no [mac_hashed], so the solver uses the bearing 0 and
    the estimate lies due north of the sensor: local offset [(0, 5)]. *)
Theorem single_sensor_bearing_ignores_device :
  getDevicesInTimeWindow exampleTime singleStore "2025-01-15T10:30:00Z"
  = [("ab"%string, [singleReading])]
  /\ Z.rem (Z.abs (macHash "ab")) 360 = 225%Z
  /\ bearing (Some "ab"%string) = Num (225 * PI / 180)
  /\ bearing (mac_hashed singleReading) = Num 0
  /\ 5 * sin (225 * PI / 180) < 0
  /\ exists r,
       trilaterate [singleReading] = Some r
       /\ gpsToMeters (lat r) (lng r) (Num 50) (Num 6) = mkPoint (Num 0) (Num 5)
       /\ lng r = Num 6
       /\ variance r = Num 5 /\ r_qualityLevel r = low /\ confidence r = Num 0.2
       /\ exists st,
            computeAllPositions exampleTime singleStore freshSession 0%Z
                                "2025-01-15T10:30:00Z"
            = ([mkDevicePosition "ab" r (lat r) (lng r) (lat r) (lng r) true], st).
Proof.
  split; [exact singleStore_window|].
  split; [exact macHash_ab|].
  split.
  { rewrite bearing_Num. unfold bearingR. cbn [String.eqb Ascii.eqb Bool.eqb].
    rewrite macHash_ab. reflexivity. }
  split; [reflexivity|].
  split; [pose proof sin_225_neg; lra|].
  destruct (oneSensor_estimate singleReading 50 6 5 eq_refl eq_refl eq_refl
              ltac:(lra) cos_50_neq0)
    as (r & Hr & Hlat & Hlng0 & Hproj & _ & Hvar & Hq & Hc & _).
  cbn [singleReading mac_hashed bearingR] in Hproj, Hlat, Hlng0.
  rewrite sin_0, cos_0, Rmult_0_r, Rmult_1_r in Hproj.
  exists r. split; [exact Hr|]. split; [exact Hproj|].
  assert (Hlng : lng r = Num 6).
  { rewrite Hlng0. f_equal. rewrite sin_0. unfold Rdiv. ring. }
  split; [exact Hlng|]. split; [exact Hvar|]. split; [exact Hq|]. split; [exact Hc|].
  unfold computeAllPositions. rewrite singleStore_window.
  cbn [fold_left]. unfold positionStep, freshSession.
  cbn [resultCache kalmanEnabled kalmanStates].
  unfold getCachedOrCompute. rewrite lookup_empty, Hr.
  cbn [kalmanEnabled kalmanStates].
  rewrite Hlat, Hlng. cbn [isNaN negb andb].
  rewrite (applyKalmanFilter_fresh ∅ 0%Z "ab" _ 6 _ (lookup_empty _)).
  cbn [g_lat g_lng isNaN negb andb app].
  eexists. reflexivity.
Qed.

(** ** Session controller: the guard on computed coordinates *)

Lemma append_inj_r (s a b : string) : s +:+ a = s +:+ b -> a = b.
Proof.
  induction s as [|c s IH]; cbn [String.append]; [auto|].
  intros H. injection H as H. auto.
Qed.

Lemma getCacheKey_inj (timestamp m1 m2 : string) :
  getCacheKey timestamp m1 = getCacheKey timestamp m2 -> m1 = m2.
Proof.
  unfold getCacheKey. intros H. apply append_inj_r in H.
  apply append_inj_r in H. exact H.
Qed.

Lemma getCachedOrCompute_spec (cache : gmap string (option result))
    (timestamp mac : string) (l : list obs) :
  fst (getCachedOrCompute cache timestamp mac l)
  = solverResult cache timestamp (mac, l)
  /\ forall k, k <> getCacheKey timestamp mac ->
               snd (getCachedOrCompute cache timestamp mac l) !! k = cache !! k.
Proof.
  unfold getCachedOrCompute, solverResult. cbn [fst snd].
  destruct (cache !! getCacheKey timestamp mac) as [r|]; cbn [fst snd].
  - split; [reflexivity|auto].
  - split; [reflexivity|]. intros k Hk. apply lookup_insert_ne. congruence.
Qed.

Lemma positionStep_spec (timestamp : string) (now : Z) (st : lateration)
    (results : list devicePosition) (mac : string) (l : list obs) :
  let res := solverResult (resultCache st) timestamp (mac, l) in
  exists st' extra,
    positionStep timestamp now (st, results) (mac, l) = (st', results ++ extra)
    /\ (forall k, k <> getCacheKey timestamp mac ->
                  resultCache st' !! k = resultCache st !! k)
    /\ (keptResult res = false -> extra = [])
    /\ (keptResult res = true ->
        exists dp, extra = [dp] /\ macHashed dp = mac /\ res = Some (raw dp)
                   /\ nonNaNPosition dp).
Proof.
  intros res. unfold positionStep.
  destruct (getCachedOrCompute_spec (resultCache st) timestamp mac l) as [Hres Hframe].
  destruct (getCachedOrCompute (resultCache st) timestamp mac l) as [res' cache].
  cbn [fst snd] in Hres, Hframe. fold res in Hres. subst res'.
  cbn [kalmanEnabled kalmanStates].
  destruct res as [r|] eqn:Er; cbn [keptResult].
  - destruct (negb (isNaN (lat r)) && negb (isNaN (lng r))) eqn:Hk.
    + apply andb_prop in Hk as [Hk1 Hk2].
      apply negb_true_iff in Hk1, Hk2.
      destruct (kalmanEnabled st).
      * destruct (applyKalmanFilter _ _ _ _ _ _) as [smoothed states].
        destruct (negb (isNaN (g_lat smoothed)) && negb (isNaN (g_lng smoothed)))
          eqn:Hs.
        -- apply andb_prop in Hs as [Hs1 Hs2]. apply negb_true_iff in Hs1, Hs2.
           eexists _, _. split; [reflexivity|]. split; [exact Hframe|].
           split; [discriminate|]. intros _. eexists. split; [reflexivity|].
           unfold nonNaNPosition. cbn. auto 10.
        -- eexists _, _. split; [reflexivity|]. split; [exact Hframe|].
           split; [discriminate|]. intros _. eexists. split; [reflexivity|].
           unfold nonNaNPosition. cbn. auto 10.
      * eexists _, _. split; [reflexivity|]. split; [exact Hframe|].
        split; [discriminate|]. intros _. eexists. split; [reflexivity|].
        unfold nonNaNPosition. cbn. auto 10.
    + exists (mkLateration cache (kalmanEnabled st) (kalmanStates st)), [].
      rewrite app_nil_r. split; [reflexivity|]. split; [exact Hframe|].
      split; [reflexivity | discriminate].
  - exists (mkLateration cache (kalmanEnabled st) (kalmanStates st)), [].
    rewrite app_nil_r. split; [reflexivity|]. split; [exact Hframe|].
    split; [reflexivity | discriminate].
Qed.

Lemma positions_fold (timestamp : string) (now : Z) (devs : list (string * list obs)) :
  NoDup (map fst devs) ->
  forall (st : lateration) (results : list devicePosition),
  exists st' out,
    fold_left (positionStep timestamp now) devs (st, results) = (st', results ++ out)
    /\ Forall nonNaNPosition out
    /\ map macHashed out
       = map fst (List.filter
                    (fun dev => keptResult (solverResult (resultCache st) timestamp dev))
                    devs)
    /\ Forall (fun dp => exists l,
                   In (macHashed dp, l) devs
                   /\ solverResult (resultCache st) timestamp (macHashed dp, l)
                      = Some (raw dp)) out
    /\ (forall k, (forall dev, In dev devs -> k <> getCacheKey timestamp (fst dev)) ->
                  resultCache st' !! k = resultCache st !! k).
Proof.
  induction devs as [|[mac l] devs IH]; intros Hnd st results.
  - exists st, []. rewrite app_nil_r. cbn. repeat split; auto.
  - cbn [map fst] in Hnd. apply NoDup_cons in Hnd as [Hnotin Hnd].
    cbn [fold_left].
    destruct (positionStep_spec timestamp now st results mac l)
      as (st1 & extra & Hstep & Hframe & Hdrop & Hkeep).
    cbn zeta in Hdrop, Hkeep. rewrite Hstep.
    destruct (IH Hnd st1 (results ++ extra))
      as (st' & out & Hfold & Hgood & Hmacs & Hraw & Hframe').
    assert (Hsame : forall dev, In dev devs ->
              solverResult (resultCache st1) timestamp dev
              = solverResult (resultCache st) timestamp dev).
    { intros dev Hdev. unfold solverResult. rewrite Hframe; [reflexivity|].
      intros Heq. apply getCacheKey_inj in Heq. apply Hnotin.
      apply list_elem_of_In, in_map_iff. exists dev. split; [congruence|exact Hdev]. }
    exists st', (extra ++ out). rewrite app_assoc. split; [exact Hfold|].
    assert (Hfilter :
      List.filter (fun dev => keptResult (solverResult (resultCache st1) timestamp dev)) devs
      = List.filter (fun dev => keptResult (solverResult (resultCache st) timestamp dev)) devs).
    { apply filter_ext_in. intros dev Hdev. rewrite (Hsame dev Hdev). reflexivity. }
    rewrite Hfilter in Hmacs.
    assert (Hraw' : Forall (fun dp => exists l0,
                       In (macHashed dp, l0) ((mac, l) :: devs)
                       /\ solverResult (resultCache st) timestamp (macHashed dp, l0)
                          = Some (raw dp)) out).
    { eapply Forall_impl; [exact Hraw|]. intros dp (l0 & Hin & Hres).
      exists l0. split; [right; exact Hin|]. rewrite <- (Hsame _ Hin). exact Hres. }
    assert (Hframe2 : forall k,
              (forall dev, In dev ((mac, l) :: devs) ->
                           k <> getCacheKey timestamp (fst dev)) ->
              resultCache st' !! k = resultCache st !! k).
    { intros k Hk. rewrite Hframe'.
      - apply Hframe. apply (Hk (mac, l)). left. reflexivity.
      - intros dev Hdev. apply Hk. right. exact Hdev. }
    cbn [List.filter].
    destruct (keptResult (solverResult (resultCache st) timestamp (mac, l))) eqn:Hk.
    + destruct (Hkeep eq_refl) as (dp & -> & Hmac & Hres & Hnn).
      split; [constructor; assumption|].
      split; [cbn [app map fst]; rewrite Hmac, Hmacs; reflexivity|].
      split; [|exact Hframe2].
      constructor; [|exact Hraw'].
      exists l. rewrite Hmac. split; [left; reflexivity | exact Hres].
    + rewrite (Hdrop eq_refl). cbn [app].
      split; [exact Hgood|]. split; [exact Hmacs|]. split; [exact Hraw'|exact Hframe2].
Qed.

(** C6 (amended). For every query, the list [computeAllPositions] returns
    holds, in the aggregator's device order, exactly the devices whose
    solver result is not [null] and has neither a [NaN] latitude nor a
    [NaN] longitude; every other device is omitted without an error, and
    every returned estimate has non-[NaN] [lat], [lng], [rawLat] and
    [rawLng]. *)
Theorem computeAllPositions_drops_NaN (getTime : string -> option Z)
    (dh : dataHandler) (st : lateration) (now : Z) (timestamp : string) :
  let devs := getDevicesInTimeWindow getTime dh timestamp in
  let kept := fun dev => keptResult (solverResult (resultCache st) timestamp dev) in
  let results := fst (computeAllPositions getTime dh st now timestamp) in
  Forall nonNaNPosition results
  /\ map macHashed results = map fst (List.filter kept devs)
  /\ (forall mac l, In (mac, l) devs -> kept (mac, l) = false ->
                    ~ In mac (map macHashed results))
  /\ (forall dp, In dp results ->
        exists l, In (macHashed dp, l) devs
                  /\ solverResult (resultCache st) timestamp (macHashed dp, l)
                     = Some (raw dp)).
Proof.
  intros devs kept results.
  pose proof (getDevicesInTimeWindow_NoDup getTime dh timestamp) as Hnd.
  fold devs in Hnd.
  destruct (positions_fold timestamp now devs Hnd st [])
    as (st' & out & Hfold & Hgood & Hmacs & Hraw & _).
  assert (Hres : results = out).
  { subst results. unfold computeAllPositions. fold devs. rewrite Hfold.
    reflexivity. }
  rewrite Hres. split; [exact Hgood|]. split; [exact Hmacs|]. split.
  - intros mac l Hin Hk Hmem. rewrite Hmacs in Hmem.
    apply in_map_iff in Hmem as ([mac' l'] & Heq & Hf). cbn [fst] in Heq. subst mac'.
    apply filter_In in Hf as [Hin' Hk'].
    rewrite (NoDup_fst_functional devs mac l l' Hnd Hin Hin') in Hk.
    unfold kept in Hk, Hk'. congruence.
  - rewrite List.Forall_forall in Hraw. exact Hraw.
Qed.

Lemma infStore_window :
  getDevicesInTimeWindow exampleTime infStore "2025-01-15T10:30:00Z"
  = [("ab"%string, [infReading])].
Proof. vm_compute. reflexivity. Qed.

(** C6, as stated, fails: an infinite longitude is not [NaN], so the
    estimate passes both guards and is returned. *)
Lemma infinite_longitude_counterexample :
  exists dp st,
    computeAllPositions exampleTime infStore freshSession 0%Z "2025-01-15T10:30:00Z"
    = ([dp], st)
    /\ macHashed dp = "ab"%string
    /\ final_lng dp = PosInf /\ rawLng dp = PosInf
    /\ ~ finite (final_lng dp).
Proof.
  assert (Hv : validObservation infReading = true).
  { unfold validObservation, infReading. cbn [obs_distance nltb].
    rewrite !Rltb_true by lra. reflexivity. }
  pose proof (trilaterate_one infReading Hv) as Ht.
  rewrite (estimateOneSensorPosition_gps infReading 50 5 eq_refl eq_refl cos_50_neq0)
    in Ht.
  cbn [g_lat g_lng infReading sensor_lng nadd] in Ht.
  unfold computeAllPositions. rewrite infStore_window.
  cbn [fold_left]. unfold positionStep, freshSession.
  cbn [resultCache kalmanEnabled kalmanStates].
  unfold getCachedOrCompute. rewrite lookup_empty.
  change (mkObs "S" (Num 50) PosInf (Num 5) (Some (Num (-70))) None
                (Some "2025-01-15T10:30:00Z"%string) (Some 0%Z)) with infReading in Ht.
  rewrite Ht. cbn [lat lng isNaN negb andb kalmanEnabled kalmanStates variance].
  unfold applyKalmanFilter. rewrite lookup_empty.
  cbn [g_lat g_lng isNaN negb andb app].
  eexists _, _. split; [reflexivity|].
  cbn [macHashed final_lng rawLng]. repeat split.
  intros [x Hx]. discriminate Hx.
Qed.

(** ** Session controller: the result cache and the smoothing switch *)

(** X1. [getCachedOrCompute] memoizes: a second request with the same
    timestamp and device returns what the first one returned and leaves
    the cache as it is, whatever observations it is given; a cached entry,
    a cached [null] included, is returned without solving, and a miss
    stores the solver's result under the key. *)
Theorem getCachedOrCompute_memoizes (cache : gmap string (option result))
    (timestamp mac : string) (l l' : list obs) :
  let first := getCachedOrCompute cache timestamp mac l in
  let again := getCachedOrCompute (snd first) timestamp mac l' in
  again = first
  /\ (forall r, cache !! getCacheKey timestamp mac = Some r -> first = (r, cache))
  /\ (cache !! getCacheKey timestamp mac = None ->
      first = (trilaterate l, <[getCacheKey timestamp mac := trilaterate l]> cache)).
Proof.
  cbn zeta. unfold getCachedOrCompute.
  destruct (cache !! getCacheKey timestamp mac) as [r|] eqn:Hc; cbn [fst snd].
  - rewrite Hc. split; [reflexivity|]. split; [|discriminate].
    intros r' Hr. congruence.
  - rewrite lookup_insert_eq. split; [reflexivity|]. split; [discriminate|auto].
Qed.

Lemma hasColon_app (a b : string) : hasColon (a +:+ ":" +:+ b) = true.
Proof.
  induction a as [|c a IH].
  - reflexivity.
  - change (Ascii.eqb c ":" || hasColon (a +:+ ":" +:+ b) = true).
    rewrite IH. apply orb_true_r.
Qed.

(** X2. Cache keys tell requests apart: for device identifiers without a
    colon, equal keys [`${timestamp}:${macHashed}`] mean equal timestamps
    and equal devices (timestamps may contain colons). *)
Theorem getCacheKey_injective (t1 t2 m1 m2 : string) :
  hasColon m1 = false -> hasColon m2 = false ->
  getCacheKey t1 m1 = getCacheKey t2 m2 -> t1 = t2 /\ m1 = m2.
Proof.
  unfold getCacheKey. revert t2.
  induction t1 as [|c1 t1 IH]; intros [|c2 t2] H1 H2 Heq;
    cbn [String.append] in Heq.
  - injection Heq as Heq. auto.
  - injection Heq as Hc Heq. change ("" +:+ m1) with m1 in Heq. subst m1.
    rewrite hasColon_app in H1. discriminate.
  - injection Heq as Hc Heq. change ("" +:+ m2) with m2 in Heq. subst m2.
    rewrite hasColon_app in H2. discriminate.
  - injection Heq as Hc Heq. subst c2.
    destruct (IH t2 H1 H2 Heq) as [-> ->]. auto.
Qed.

Lemma getCacheKey_injective_witness :
  "2025-01-15T10:30:00Z"%string = "2025-01-15T10:30:00Z"%string
  /\ "a1b2"%string = "a1b2"%string.
Proof.
  apply (getCacheKey_injective "2025-01-15T10:30:00Z" "2025-01-15T10:30:00Z"
           "a1b2" "a1b2"); reflexivity.
Defined.

Lemma cacheStep_self (timestamp : string) (cache : gmap string (option result))
    (dev : string * list obs) :
  cacheStep timestamp cache dev !! getCacheKey timestamp (fst dev)
  = Some (solverResult cache timestamp dev).
Proof.
  unfold cacheStep, getCachedOrCompute, solverResult.
  destruct (cache !! getCacheKey timestamp (fst dev)) as [r|] eqn:Hc; cbn [snd].
  - exact Hc.
  - apply lookup_insert_eq.
Qed.

Lemma cacheStep_other (timestamp : string) (cache : gmap string (option result))
    (dev : string * list obs) (k : string) :
  k <> getCacheKey timestamp (fst dev) ->
  cacheStep timestamp cache dev !! k = cache !! k.
Proof.
  intros Hk. unfold cacheStep.
  apply (proj2 (getCachedOrCompute_spec cache timestamp (fst dev) (snd dev))).
  exact Hk.
Qed.

Lemma cacheStep_mono (timestamp : string) (cache : gmap string (option result))
    (dev : string * list obs) (k : string) (v : option result) :
  cache !! k = Some v -> cacheStep timestamp cache dev !! k = Some v.
Proof.
  intros Hv. destruct (decide (k = getCacheKey timestamp (fst dev))) as [->|Hk].
  - rewrite cacheStep_self. unfold solverResult. rewrite Hv. reflexivity.
  - rewrite cacheStep_other by exact Hk. exact Hv.
Qed.

Lemma cacheFold_mono (timestamp : string) (devs : list (string * list obs)) :
  forall (cache : gmap string (option result)) (k : string) (v : option result),
    cache !! k = Some v ->
    fold_left (cacheStep timestamp) devs cache !! k = Some v.
Proof.
  induction devs as [|dev devs IH]; intros cache k v Hv; cbn [fold_left].
  - exact Hv.
  - apply IH, cacheStep_mono, Hv.
Qed.

Lemma solverResult_other (timestamp : string) (cache : gmap string (option result))
    (dev dev' : string * list obs) :
  fst dev <> fst dev' ->
  solverResult (cacheStep timestamp cache dev) timestamp dev'
  = solverResult cache timestamp dev'.
Proof.
  intros Hne. unfold solverResult. rewrite cacheStep_other; [reflexivity|].
  intros Heq. apply getCacheKey_inj in Heq. congruence.
Qed.

Lemma cacheFold_populated (timestamp : string) (devs : list (string * list obs)) :
  NoDup (map fst devs) ->
  forall (cache : gmap string (option result)) (dev : string * list obs),
    In dev devs ->
    fold_left (cacheStep timestamp) devs cache !! getCacheKey timestamp (fst dev)
    = Some (solverResult cache timestamp dev).
Proof.
  induction devs as [|d devs IH]; intros Hnd cache dev Hin; [destruct Hin|].
  cbn [map] in Hnd. apply NoDup_cons in Hnd as [Hnotin Hnd]. cbn [fold_left].
  destruct Hin as [->|Hin].
  - apply cacheFold_mono, cacheStep_self.
  - rewrite (IH Hnd _ dev Hin). f_equal. apply solverResult_other.
    intros Heq. apply Hnotin. rewrite Heq.
    apply list_elem_of_In, in_map. exact Hin.
Qed.

Lemma positionStep_cache (timestamp : string) (now : Z) (st : lateration)
    (results : list devicePosition) (dev : string * list obs) :
  let st' := fst (positionStep timestamp now (st, results) dev) in
  resultCache st' = cacheStep timestamp (resultCache st) dev
  /\ kalmanEnabled st' = kalmanEnabled st.
Proof.
  destruct dev as [mac l]. unfold positionStep, cacheStep. cbn [fst snd].
  destruct (getCachedOrCompute (resultCache st) timestamp mac l) as [res cache].
  cbn [kalmanEnabled kalmanStates snd].
  destruct res as [r|]; [|split; reflexivity].
  destruct (negb (isNaN (lat r)) && negb (isNaN (lng r))); [|split; reflexivity].
  destruct (kalmanEnabled st) eqn:Hk; [|split; reflexivity].
  destruct (applyKalmanFilter _ _ _ _ _ _) as [smoothed states].
  destruct (negb (isNaN (g_lat smoothed)) && negb (isNaN (g_lng smoothed)));
    split; reflexivity.
Qed.

Lemma positionFold_cache (timestamp : string) (now : Z)
    (devs : list (string * list obs)) :
  forall (st : lateration) (results : list devicePosition),
    let st' := fst (fold_left (positionStep timestamp now) devs (st, results)) in
    resultCache st' = fold_left (cacheStep timestamp) devs (resultCache st)
    /\ kalmanEnabled st' = kalmanEnabled st.
Proof.
  induction devs as [|dev devs IH]; intros st results; cbn [fold_left].
  - split; reflexivity.
  - destruct (positionStep_cache timestamp now st results dev) as [Hc Hk].
    destruct (positionStep timestamp now (st, results) dev) as [st1 results1].
    cbn [fst] in Hc, Hk. cbn zeta. 
    destruct (IH st1 results1) as [Hc' Hk']. cbn zeta in Hc', Hk'.
    rewrite Hc', Hk', Hc, Hk. split; reflexivity.
Qed.

Lemma computeAllPositions_fold (getTime : string -> option Z) (dh : dataHandler)
    (st : lateration) (now : Z) (timestamp : string) :
  computeAllPositions getTime dh st now timestamp
  = (let r := fold_left (positionStep timestamp now)
                        (getDevicesInTimeWindow getTime dh timestamp) (st, []) in
     (snd r, fst r)).
Proof.
  unfold computeAllPositions.
  destruct (fold_left _ _ _) as [st' results]. reflexivity.
Qed.

(** X3. [computeAllPositions] only adds to the result cache: every entry
    it finds is still there afterwards, every device of the window has an
    entry for the requested timestamp afterwards (the cached result if
    there was one, the solver's result otherwise), every new key belongs
    to a device of the window, and the smoothing switch is untouched. *)
Theorem computeAllPositions_cache (getTime : string -> option Z)
    (dh : dataHandler) (st : lateration) (now : Z) (timestamp : string) :
  let devs := getDevicesInTimeWindow getTime dh timestamp in
  let st' := snd (computeAllPositions getTime dh st now timestamp) in
  resultCache st ⊆ resultCache st'
  /\ (forall mac l, In (mac, l) devs ->
        resultCache st' !! getCacheKey timestamp mac
        = Some (solverResult (resultCache st) timestamp (mac, l)))
  /\ (forall k, resultCache st !! k = None -> is_Some (resultCache st' !! k) ->
        exists mac, In mac (map fst devs) /\ k = getCacheKey timestamp mac)
  /\ kalmanEnabled st' = kalmanEnabled st.
Proof.
  intros devs st'. subst st'. rewrite computeAllPositions_fold. cbn [snd].
  fold devs.
  destruct (positionFold_cache timestamp now devs st []) as [Hc Hk].
  cbn zeta in Hc, Hk. rewrite Hc, Hk.
  split; [|split; [|split; [|reflexivity]]].
  - apply map_subseteq_spec. intros k v Hv. apply cacheFold_mono, Hv.
  - intros mac l Hin.
    apply (cacheFold_populated timestamp devs
             (getDevicesInTimeWindow_NoDup getTime dh timestamp)
             (resultCache st) (mac, l) Hin).
  - intros k Hnone. clear Hc Hk. generalize (resultCache st) Hnone.
    induction devs as [|dev devs IH]; intros cache Hn [v Hv]; cbn [fold_left] in Hv.
    + congruence.
    + destruct (decide (k = getCacheKey timestamp (fst dev))) as [->|Hne].
      * exists (fst dev). split; [left; reflexivity|reflexivity].
      * destruct (IH (cacheStep timestamp cache dev)) as (mac & Hin & ->).
        -- rewrite cacheStep_other by exact Hne. exact Hn.
        -- eauto.
        -- exists mac. split; [right; exact Hin|reflexivity].
Qed.

Lemma flat_map_ext_In {A B : Type} (f g : A -> list B) (l : list A) :
  (forall a, In a l -> f a = g a) -> flat_map f l = flat_map g l.
Proof.
  induction l as [|a l IH]; intros H; cbn [flat_map]; [reflexivity|].
  rewrite (H a (or_introl eq_refl)), IH; [reflexivity|].
  intros b Hb. apply H. right. exact Hb.
Qed.

Lemma positionStep_off (timestamp : string) (now : Z) (st : lateration)
    (results : list devicePosition) (dev : string * list obs) :
  kalmanEnabled st = false ->
  positionStep timestamp now (st, results) dev
  = (mkLateration (cacheStep timestamp (resultCache st) dev) false (kalmanStates st),
     results ++ unsmoothedOutput (resultCache st) timestamp dev).
Proof.
  intros Hoff. destruct dev as [mac l].
  unfold positionStep, unsmoothedOutput, cacheStep. cbn [fst snd].
  destruct (getCachedOrCompute_spec (resultCache st) timestamp mac l) as [Hres _].
  destruct (getCachedOrCompute (resultCache st) timestamp mac l) as [res cache].
  cbn [fst snd] in *. rewrite <- Hres. cbn [kalmanEnabled kalmanStates].
  rewrite Hoff.
  destruct res as [r|]; [|rewrite app_nil_r; reflexivity].
  cbn [keptResult].
  destruct (negb (isNaN (lat r)) && negb (isNaN (lng r)));
    [reflexivity | rewrite app_nil_r; reflexivity].
Qed.

Lemma positionFold_off (timestamp : string) (now : Z)
    (devs : list (string * list obs)) :
  NoDup (map fst devs) ->
  forall (st : lateration) (results : list devicePosition),
    kalmanEnabled st = false ->
    fold_left (positionStep timestamp now) devs (st, results)
    = (mkLateration (fold_left (cacheStep timestamp) devs (resultCache st))
                    false (kalmanStates st),
       results ++ flat_map (unsmoothedOutput (resultCache st) timestamp) devs).
Proof.
  induction devs as [|dev devs IH]; intros Hnd st results Hoff; cbn [fold_left flat_map].
  - rewrite app_nil_r. destruct st. cbn in *. subst. reflexivity.
  - cbn [map] in Hnd. apply NoDup_cons in Hnd as [Hnotin Hnd].
    rewrite (positionStep_off _ _ _ _ _ Hoff).
    rewrite (IH Hnd (mkLateration _ false _) _ eq_refl).
    cbn [resultCache kalmanStates].
    rewrite <- app_assoc. do 3 f_equal.
    apply flat_map_ext_In. intros dev' Hin. unfold unsmoothedOutput.
    rewrite solverResult_other; [reflexivity|].
    intros Heq. apply Hnotin. rewrite Heq. apply list_elem_of_In, in_map. exact Hin.
Qed.

Lemma unsmoothedOutput_spec (cache : gmap string (option result))
    (timestamp : string) (dev : string * list obs) (dp : devicePosition) :
  In dp (unsmoothedOutput cache timestamp dev) ->
  isSmoothed dp = false /\ final_lat dp = lat (raw dp) /\ final_lng dp = lng (raw dp)
  /\ rawLat dp = lat (raw dp) /\ rawLng dp = lng (raw dp)
  /\ macHashed dp = fst dev /\ solverResult cache timestamp dev = Some (raw dp).
Proof.
  unfold unsmoothedOutput. destruct (solverResult cache timestamp dev) as [r|]; [|intros []].
  destruct (keptResult (Some r)); [|intros []].
  intros [<-|[]]. cbn. auto 10.
Qed.

(** X4. With smoothing off, [computeAllPositions] returns every position
    unsmoothed ([isSmoothed] false, [lat]/[lng] equal to the solver's and
    to [rawLat]/[rawLng]) and neither reads nor changes the smoother
    states. *)
Theorem computeAllPositions_kalman_off (getTime : string -> option Z)
    (dh : dataHandler) (st : lateration) (now : Z) (timestamp : string) :
  kalmanEnabled st = false ->
  let out := computeAllPositions getTime dh st now timestamp in
  Forall (fun dp => isSmoothed dp = false
                    /\ final_lat dp = lat (raw dp) /\ final_lng dp = lng (raw dp)
                    /\ rawLat dp = lat (raw dp) /\ rawLng dp = lng (raw dp))
         (fst out)
  /\ kalmanStates (snd out) = kalmanStates st
  /\ kalmanEnabled (snd out) = false.
Proof.
  intros Hoff out. subst out. rewrite computeAllPositions_fold.
  rewrite (positionFold_off timestamp now _
             (getDevicesInTimeWindow_NoDup getTime dh timestamp) st [] Hoff).
  cbn [fst snd app kalmanStates kalmanEnabled].
  split; [|split; reflexivity].
  apply List.Forall_forall. intros dp Hdp. apply in_flat_map in Hdp as (dev & _ & Hdp).
  apply unsmoothedOutput_spec in Hdp. tauto.
Qed.

(** X5. With smoothing off, asking again for the same timestamp returns
    the same list and leaves the controller state as the first request
    left it, whatever the clock says. *)
Theorem computeAllPositions_replay (getTime : string -> option Z)
    (dh : dataHandler) (st : lateration) (now now' : Z) (timestamp : string) :
  kalmanEnabled st = false ->
  let out := computeAllPositions getTime dh st now timestamp in
  computeAllPositions getTime dh (snd out) now' timestamp = out.
Proof.
  intros Hoff out. subst out. rewrite !computeAllPositions_fold.
  pose proof (getDevicesInTimeWindow_NoDup getTime dh timestamp) as Hnd.
  set (devs := getDevicesInTimeWindow getTime dh timestamp) in *.
  rewrite (positionFold_off timestamp now devs Hnd st [] Hoff).
  cbn [fst snd app].
  rewrite (positionFold_off timestamp now' devs Hnd (mkLateration _ false _) []
             eq_refl).
  cbn [fst snd app resultCache kalmanStates].
  set (cache1 := fold_left (cacheStep timestamp) devs (resultCache st)).
  assert (Hsame : forall dev, In dev devs ->
            solverResult cache1 timestamp dev
            = solverResult (resultCache st) timestamp dev).
  { intros dev Hin. unfold solverResult at 1. unfold cache1.
    rewrite (cacheFold_populated timestamp devs Hnd _ dev Hin). reflexivity. }
  f_equal.
  - apply flat_map_ext_In. intros dev Hin. unfold unsmoothedOutput.
    rewrite (Hsame dev Hin). reflexivity.
  - f_equal. apply map_eq. intros k.
    assert (Hhit : forall (l : list (string * list obs)) (c : gmap string (option result)),
              (forall dev, In dev l -> is_Some (c !! getCacheKey timestamp (fst dev))) ->
              fold_left (cacheStep timestamp) l c = c).
    { clear. induction l as [|dev l IH]; intros c Hc; cbn [fold_left]; [reflexivity|].
      assert (Hstep : cacheStep timestamp c dev = c).
      { unfold cacheStep, getCachedOrCompute.
        destruct (Hc dev (or_introl eq_refl)) as [v ->]. reflexivity. }
      rewrite Hstep. apply IH. intros d Hd. apply Hc. right. exact Hd. }
    rewrite Hhit; [reflexivity|].
    intros dev Hin. unfold cache1.
    rewrite (cacheFold_populated timestamp devs Hnd _ dev Hin). eauto.
Qed.

Lemma applyKalmanFilter_new (states : gmap string kalmanState) (now : Z)
    (dev : string) (mlat mlng q : num) :
  states !! dev = None ->
  exists s, applyKalmanFilter states now dev mlat mlng q
            = (mkGps mlat mlng, <[dev := s]> states)
            /\ ks_refLat s = mlat /\ ks_refLng s = mlng.
Proof.
  intros Hnone. unfold applyKalmanFilter. rewrite Hnone.
  eexists. split; [reflexivity|]. split; reflexivity.
Qed.

Lemma computeAllPositions_kalman_off_witness :
  let st := mkLateration ∅ false ∅ in
  kalmanEnabled st = false
  /\ kalmanStates (snd (computeAllPositions exampleTime singleStore st 0
                                            "2025-01-15T10:30:00Z")) = ∅.
Proof.
  intros st. split; [reflexivity|].
  exact (proj1 (proj2 (computeAllPositions_kalman_off exampleTime singleStore st 0
                         "2025-01-15T10:30:00Z" eq_refl))).
Defined.

Lemma computeAllPositions_replay_witness :
  let st := mkLateration ∅ false ∅ in
  let out := computeAllPositions exampleTime singleStore st 0 "2025-01-15T10:30:00Z" in
  kalmanEnabled st = false
  /\ computeAllPositions exampleTime singleStore (snd out) 500 "2025-01-15T10:30:00Z"
     = out.
Proof.
  intros st out. split; [reflexivity|].
  exact (computeAllPositions_replay exampleTime singleStore st 0 500
           "2025-01-15T10:30:00Z" eq_refl).
Defined.

(** ** Lateration solver: what the estimate depends on *)

(** X7. The quality of an estimate depends only on how many observations
    pass the distance filter: [sensorCount] is that number and is at least
    1; one kept observation gives [low] and confidence 0.2, two give
    [medium] and 0.5, three or more give [high] and 1, however many
    observations were passed in. *)
Theorem trilaterate_quality (l : list obs) (r : result) :
  trilaterate l = Some r ->
  let n := sensorCount r in
  n = length (List.filter validObservation l)
  /\ observations r = List.filter validObservation l
  /\ (1 <= n)%nat
  /\ (n = 1%nat -> r_qualityLevel r = low /\ confidence r = Num 0.2)
  /\ (n = 2%nat -> r_qualityLevel r = medium /\ confidence r = Num 0.5)
  /\ ((3 <= n)%nat -> r_qualityLevel r = high /\ confidence r = Num 1).
Proof.
  intros Hr n.
  destruct (trilaterate_Some_fields l r Hr) as (Hobs & Hcount & Hq & Hc).
  fold n in Hcount, Hq, Hc.
  assert (Hpos : (1 <= n)%nat).
  { rewrite Hcount. destruct (List.filter validObservation l) eqn:Hf.
    - apply trilaterate_None_iff in Hf. congruence.
    - cbn. lia. }
  split; [exact Hcount|]. split; [exact Hobs|]. split; [exact Hpos|].
  rewrite Hq, Hc. unfold getQualityLevel, getConfidenceFromSensorCount.
  split; [|split].
  - intros ->. cbn. auto.
  - intros ->. cbn. auto.
  - intros H3. apply Nat.leb_le in H3. rewrite H3. split; [reflexivity|].
    f_equal. lra.
Qed.

Lemma trilaterate_quality_witness :
  exists r, trilaterate mixedObs = Some r
            /\ r_qualityLevel r = low /\ confidence r = Num 0.2.
Proof.
  destruct (trilaterate mixedObs) as [r|] eqn:Hr.
  - exists r. split; [reflexivity|].
    destruct (trilaterate_quality mixedObs r Hr) as (Hn & _ & _ & H1 & _).
    apply H1. rewrite Hn.
    unfold mixedObs, twoA, exObs, validObservation.
    cbn [List.filter obs_distance nltb].
    rewrite (Rltb_true 0 250), (Rltb_false 250 200), (Rltb_true 0 30),
      (Rltb_true 30 200), (Rltb_false 0 0) by lra.
    reflexivity.
  - exfalso. apply trilaterate_None_iff in Hr. revert Hr.
    unfold mixedObs, twoA, exObs, validObservation.
    cbn [List.filter obs_distance nltb].
    rewrite (Rltb_true 0 250), (Rltb_false 250 200), (Rltb_true 0 30),
      (Rltb_true 30 200), (Rltb_false 0 0) by lra.
    discriminate.
Defined.

Lemma finitePoint_distance (ex ey : R) (p : pointObs) :
  finitePoint p ->
  (distance (mkPoint (Num ex) (Num ey)) (pos p) - obs_distance (p_obs p))%js
  = Num (residualR ex ey p).
Proof.
  intros (Hx & Hy & Hd & _). destruct (pos p) as [x y] eqn:E.
  cbn [px py] in Hx, Hy. unfold residualR. rewrite <- E.
  rewrite E. subst x y. rewrite distance_Num, Hd. reflexivity.
Qed.

Lemma calculateResidual_Num (ex ey : R) (var : option num) (points : list pointObs) :
  points <> [] -> Forall finitePoint points ->
  calculateResidual (mkEst (Num ex) (Num ey) var) points
  = Num (Rsum (fun p => Rabs (residualR ex ey p)) points / INR (length points)).
Proof.
  intros Hne Hfin. unfold calculateResidual, est_point. cbn [est_x est_y].
  rewrite (fold_nadd_Num
             (fun p => Math_abs (distance (mkPoint (Num ex) (Num ey)) (pos p)
                                 - obs_distance (p_obs p))%js)).
  - rewrite ndiv_Num by (apply INR_length_neq0; exact Hne).
    f_equal. f_equal. rewrite Rplus_0_l.
    induction Hfin as [|p l Hp _ IH]; [reflexivity|].
    rewrite !Rsum_cons, (finitePoint_distance ex ey p Hp). cbn [Math_abs toR].
    destruct l as [|p' l'].
    + reflexivity.
    + rewrite IH by discriminate. reflexivity.
  - eapply Forall_impl; [exact Hfin|]. intros p Hp. cbn beta.
    rewrite (finitePoint_distance ex ey p Hp). reflexivity.
Qed.

Lemma sumSqResiduals_Num (ex ey : R) (var : option num) (points : list pointObs) :
  Forall finitePoint points ->
  sumSqResiduals (mkEst (Num ex) (Num ey) var) points
  = Num (Rsum (fun p => residualR ex ey p * residualR ex ey p) points).
Proof.
  intros Hfin. unfold sumSqResiduals, est_point. cbn [est_x est_y].
  rewrite (fold_nadd_Num
             (fun p => Math_pow2 (distance (mkPoint (Num ex) (Num ey)) (pos p)
                                  - obs_distance (p_obs p))%js)).
  - f_equal. rewrite Rplus_0_l.
    induction Hfin as [|p l Hp _ IH]; [reflexivity|].
    rewrite !Rsum_cons, (finitePoint_distance ex ey p Hp), IH. reflexivity.
  - eapply Forall_impl; [exact Hfin|]. intros p Hp. cbn beta.
    rewrite (finitePoint_distance ex ey p Hp). reflexivity.
Qed.

Lemma Rsum_nonneg {A : Type} (f : A -> R) (l : list A) :
  (forall a, 0 <= f a) -> 0 <= Rsum f l.
Proof.
  intros Hf. induction l as [|a l IH]; [rewrite Rsum_nil; lra|].
  rewrite Rsum_cons. pose proof (Hf a). lra.
Qed.

Lemma sepR_sym (p1 p2 : pointObs) : sepR p2 p1 = sepR p1 p2.
Proof. unfold sepR. f_equal. ring. Qed.

Lemma sepR_zero (p1 p2 : pointObs) :
  sepR p1 p2 = 0 -> xR p2 = xR p1 /\ yR p2 = yR p1.
Proof.
  unfold sepR. intros H. apply sqrt_eq_0 in H; [|apply sum_squares_nonneg].
  pose proof (Rle_0_sqr (xR p2 - xR p1)) as Hx.
  pose proof (Rle_0_sqr (yR p2 - yR p1)) as Hy. unfold Rsqr in Hx, Hy.
  assert (Hx0 : (xR p2 - xR p1) * (xR p2 - xR p1) = 0) by lra.
  assert (Hy0 : (yR p2 - yR p1) * (yR p2 - yR p1) = 0) by lra.
  apply Rsqr_0_uniq in Hx0, Hy0. lra.
Qed.

Lemma clamp_reflect (t : R) :
  Rmax (-0.5) (Rmin 1.5 (1 - t)) = 1 - Rmax (-0.5) (Rmin 1.5 t).
Proof.
  unfold Rmax, Rmin. repeat destruct (Rle_dec _ _); lra.
Qed.

Lemma tR_swap (p1 p2 : pointObs) :
  sepR p1 p2 <> 0 -> tR p2 p1 = 1 - tR p1 p2.
Proof.
  intros HD. unfold tR. cbn zeta. rewrite sepR_sym, <- clamp_reflect.
  f_equal. f_equal. field. exact HD.
Qed.

Lemma estimateTwoSensorPosition_swap (p1 p2 : pointObs) :
  finitePoint p1 -> finitePoint p2 ->
  let e := estimateTwoSensorPosition p1 p2 in
  let e' := estimateTwoSensorPosition p2 p1 in
  est_x e' = est_x e /\ est_y e' = est_y e /\ est_variance e' = est_variance e
  /\ exists X Y, est_x e = Num X /\ est_y e = Num Y.
Proof.
  intros H1 H2. cbn zeta.
  rewrite (estimateTwoSensorPosition_Num p1 p2 H1 H2),
    (estimateTwoSensorPosition_Num p2 p1 H2 H1), (sepR_sym p1 p2).
  destruct (Reqb (sepR p1 p2) 0) eqn:HD; cbn [est_x est_y est_variance].
  - unfold Reqb in HD. destruct (Req_dec_T (sepR p1 p2) 0) as [H0|]; [|discriminate].
    destruct (sepR_zero p1 p2 H0) as [-> ->]. eauto 10.
  - assert (H0 : sepR p1 p2 <> 0).
    { intros H0. rewrite Reqb_true in HD by exact H0. discriminate. }
    rewrite (tR_swap p1 p2 H0).
    split; [f_equal; ring|]. split; [f_equal; ring|].
    split; [do 3 f_equal; ring|]. eauto.
Qed.

Lemma centroid_pair (f : obs -> num) (o1 o2 : obs) :
  finite (f o1) -> finite (f o2) -> centroid f [o2; o1] = centroid f [o1; o2].
Proof.
  intros H1 H2.
  rewrite !centroid_Num by (try discriminate; repeat constructor; assumption).
  f_equal. cbn [Rsum fold_right length]. lra.
Qed.

(** X8. Over exact arithmetic, with two finite in-range observations the
    estimate does not depend on which sensor is listed first: swapping
    them gives the same [lat], [lng], [variance], quality and
    confidence. *)
Theorem twoSensor_order (o1 o2 : obs) :
  filteredList [o1; o2] ->
  exists r r',
    trilaterate [o1; o2] = Some r /\ trilaterate [o2; o1] = Some r'
    /\ lat r' = lat r /\ lng r' = lng r /\ variance r' = variance r
    /\ r_qualityLevel r' = r_qualityLevel r /\ confidence r' = confidence r
    /\ sensorCount r' = sensorCount r.
Proof.
  intros Hfl.
  assert (Hfl' : filteredList [o2; o1]).
  { destruct Hfl as [Hv Hf]. 
    apply Forall_cons_1 in Hv as [Hv1 Hv]. apply Forall_cons_1 in Hv as [Hv2 _].
    apply Forall_cons_1 in Hf as [Hf1 Hf]. apply Forall_cons_1 in Hf as [Hf2 _].
    split; (constructor; [assumption|constructor; [assumption|constructor]]). }
  destruct (trilaterate_two [o1; o2] o1 o2 eq_refl (proj1 Hfl)) as [Hp Htri].
  destruct (trilaterate_two [o2; o1] o2 o1 eq_refl (proj1 Hfl')) as [Hp' Htri'].
  cbn zeta in Hp, Htri, Hp', Htri'.
  assert (Hlat : refLatOf [o2; o1] = refLatOf [o1; o2]).
  { destruct Hfl as [_ Hf].
    apply Forall_cons_1 in Hf as [(Hf1 & _) Hf]. apply Forall_cons_1 in Hf as [(Hf2 & _) _].
    apply centroid_pair; assumption. }
  assert (Hlng : refLngOf [o2; o1] = refLngOf [o1; o2]).
  { destruct Hfl as [_ Hf].
    apply Forall_cons_1 in Hf as [(_ & Hf1 & _) Hf].
    apply Forall_cons_1 in Hf as [(_ & Hf2 & _) _].
    apply centroid_pair; assumption. }
  rewrite Hlat, Hlng in Hp', Htri'.
  set (p1 := toPoint (refLatOf [o1; o2]) (refLngOf [o1; o2]) o1) in *.
  set (p2 := toPoint (refLatOf [o1; o2]) (refLngOf [o1; o2]) o2) in *.
  pose proof (pointsOf_finite [o1; o2] ltac:(discriminate) Hfl) as Hfin.
  rewrite Hp in Hfin.
  apply Forall_cons_1 in Hfin as [Hf1 Hfin]. apply Forall_cons_1 in Hfin as [Hf2 _].
  destruct (estimateTwoSensorPosition_swap p1 p2 Hf1 Hf2)
    as (Hx & Hy & Hvar & X & Y & HX & HY).
  cbn zeta in Hx, Hy, Hvar.
  eexists _, _. split; [exact Htri|]. split; [exact Htri'|].
  cbn [lat lng variance r_qualityLevel confidence sensorCount].
  rewrite Hx, Hy, Hvar. repeat (split; [reflexivity|]).
  split; [|auto].
  f_equal.
  destruct (estimateTwoSensorPosition p1 p2) as [ex ey var] eqn:E.
  destruct (estimateTwoSensorPosition p2 p1) as [ex' ey' var'] eqn:E'.
  cbn [est_x est_y est_variance] in *. subst ex' ey' var' ex ey.
  rewrite !calculateResidual_Num
    by first [ discriminate
             | constructor; [assumption|constructor; [assumption|constructor]] ].
  f_equal. f_equal. rewrite !Rsum_cons, !Rsum_nil. lra.
Qed.

Lemma twoSensor_order_witness :
  filteredList [twoA; twoB]
  /\ exists r r', trilaterate [twoA; twoB] = Some r
                  /\ trilaterate [twoB; twoA] = Some r'
                  /\ lat r' = lat r /\ lng r' = lng r.
Proof.
  split; [exact twoObs_filtered|].
  destruct (twoSensor_order twoA twoB twoObs_filtered)
    as (r & r' & H1 & H2 & H3 & H4 & _).
  exists r, r'. auto.
Defined.

(** [trilaterate] on three or more filtered observations, with the
    reported variance. *)
Lemma trilaterate_multi_variance (v : list obs) (ref : pointObs)
    (rest : list pointObs) :
  Forall (fun o => validObservation o = true) v -> (3 <= length v)%nat ->
  pointsOf v = ref :: rest ->
  let e := estimateMultiSensorPosition ref rest in
  let g := metersToGps (est_x e) (est_y e) (refLatOf v) (refLngOf v) in
  trilaterate v
  = Some (mkResult (g_lat g) (g_lng g) high (length v) v (Num 1.0)
                   (or_else (est_variance e) (calculateResidual e (ref :: rest)))).
Proof.
  intros Hval Hlen Hpts. cbn zeta.
  destruct (three_or_more v Hlen) as (o1 & o2 & o3 & tl & Hv).
  unfold trilaterate. rewrite (filter_all _ _ Hval).
  fold (refLatOf v) (refLngOf v). fold (pointsOf v).
  assert (Hpts' : toPoint (refLatOf v) (refLngOf v) o1 = ref
                  /\ map (toPoint (refLatOf v) (refLngOf v)) (o2 :: o3 :: tl) = rest).
  { unfold pointsOf in Hpts. rewrite Hv in Hpts at 3. cbn [map] in Hpts.
    injection Hpts as H1 H2. split; [exact H1|]. cbn [map]. exact H2. }
  destruct Hpts' as [Href Hrest].
  rewrite Hpts. subst v. cbn [length] in *.
  rewrite Href. cbn [map] in Hrest. cbn [map]. rewrite Hrest.
  reflexivity.
Qed.

Lemma exact_rows (ref : pointObs) (rest : list pointObs) (qx qy : R) :
  circle ref qx qy = 0 -> Forall (fun p => circle p qx qy = 0) rest ->
  T0 ref rest = S00 ref rest * qx + S01 ref rest * qy
  /\ T1 ref rest = S10 ref rest * qx + S11 ref rest * qy.
Proof.
  intros Href. unfold T0, T1, S00, S01, S10, S11.
  induction 1 as [|p rest Hp _ [IH0 IH1]].
  - rewrite !Rsum_nil. lra.
  - rewrite !Rsum_cons, IH0, IH1.
    pose proof (row_is_circle_difference ref p qx qy) as Hrow.
    rewrite Href, Hp in Hrow.
    assert (Hb : bR ref p = a0R ref p * qx + a1R ref p * qy) by lra.
    rewrite Hb. split; ring.
Qed.

Lemma exact_residual (p : pointObs) (qx qy : R) :
  0 < dR p -> circle p qx qy = 0 -> residualR qx qy p = 0.
Proof.
  unfold circle, residualR. intros Hd Hc.
  replace ((xR p - qx) * (xR p - qx) + (yR p - qy) * (yR p - qy))
    with (dR p * dR p) by lra.
  rewrite sqrt_square by lra. lra.
Qed.

(** X9. Noise-free ranges are solved exactly: if three or more finite
    in-range observations all lie on circles through one local point
    [(qx, qy)] and [|det| >= 1e-10], the weighted least-squares estimate
    is [(qx, qy)] itself, with variance 0, and [trilaterate] returns that
    point projected back to GPS. *)
Theorem multiSensor_exact_recovery (v : list obs) (ref : pointObs)
    (rest : list pointObs) (qx qy : R) :
  filteredList v -> (3 <= length v)%nat -> pointsOf v = ref :: rest ->
  1e-10 <= Rabs (detR ref rest) ->
  Forall (fun p => circle p qx qy = 0) (ref :: rest) ->
  let e := estimateMultiSensorPosition ref rest in
  let g := metersToGps (Num qx) (Num qy) (refLatOf v) (refLngOf v) in
  e = mkEst (Num qx) (Num qy) (Some (Num 0))
  /\ trilaterate v
     = Some (mkResult (g_lat g) (g_lng g) high (length v) v (Num 1) (Num 0)).
Proof.
  intros Hfl Hlen Hpts Hdet Hexact e g.
  destruct (multi_finite v ref rest Hfl Hlen Hpts) as [Href Hrest].
  pose proof (multi_rest_nonempty v ref rest Hlen Hpts) as Hrne.
  assert (Hd0 : detR ref rest <> 0).
  { intros H0. rewrite H0, Rabs_R0 in Hdet. lra. }
  apply Forall_cons_1 in Hexact as [Hcref Hcrest].
  destruct (exact_rows ref rest qx qy Hcref Hcrest) as [HT0 HT1].
  pose proof (solveWeightedLeastSquares_Num ref rest Href Hrest Hrne) as Hsolve.
  rewrite Rltb_false in Hsolve by lra.
  assert (HX : (S11 ref rest * T0 ref rest - S01 ref rest * T1 ref rest)
               / detR ref rest = qx).
  { rewrite HT0, HT1. unfold detR in *. field. exact Hd0. }
  assert (HY : (S00 ref rest * T1 ref rest - S10 ref rest * T0 ref rest)
               / detR ref rest = qy).
  { rewrite HT0, HT1. unfold detR in *. field. exact Hd0. }
  rewrite HX, HY in Hsolve.
  assert (Hfin : Forall finitePoint (ref :: rest)) by (constructor; assumption).
  assert (Hres0 : Forall (fun p => residualR qx qy p = 0) (ref :: rest)).
  { apply List.Forall_forall. intros p Hp.
    rewrite List.Forall_forall in Hfin.
    destruct (Hfin p Hp) as (_ & _ & _ & Hd & _).
    apply exact_residual; [exact Hd|].
    destruct Hp as [<-|Hp]; [exact Hcref|].
    rewrite List.Forall_forall in Hcrest. apply Hcrest, Hp. }
  assert (He : e = mkEst (Num qx) (Num qy) (Some (Num 0))).
  { subst e. unfold estimateMultiSensorPosition. rewrite Hsolve.
    cbn [est_x est_y]. rewrite (sumSqResiduals_Num qx qy None _ Hfin).
    rewrite Rsum_zero.
    - rewrite ndiv_Num by (apply not_0_INR; cbn [length]; lia).
      rewrite Math_sqrt_Num by (unfold Rdiv; rewrite Rmult_0_l; lra).
      unfold Rdiv. rewrite Rmult_0_l, sqrt_0. reflexivity.
    - eapply Forall_impl; [exact Hres0|]. intros p Hp. cbn beta. rewrite Hp. ring. }
  split; [exact He|].
  rewrite (trilaterate_multi_variance v ref rest (proj1 Hfl) Hlen Hpts).
  fold e. rewrite He. cbn [est_x est_y est_variance or_else truthy].
  rewrite Reqb_true by reflexivity. cbn [negb]. fold g.
  rewrite (calculateResidual_Num qx qy (Some (Num 0)) (ref :: rest)
             ltac:(discriminate) Hfin).
  rewrite Rsum_zero.
  - do 3 f_equal; [f_equal; lra|]. f_equal. unfold Rdiv. ring.
  - eapply Forall_impl; [exact Hres0|]. intros p Hp. cbn beta.
    rewrite Hp. apply Rabs_R0.
Qed.

Lemma exactRange_bounds (la lo : R) :
  Rabs (la - 50.0005) <= 0.0005 -> Rabs (lo - 6.0005) <= 0.001 ->
  0.0005 <= Rabs (la - 50.0005) \/ 0.001 <= Rabs (lo - 6.0005) ->
  50 < exactRange la lo < 200.
Proof.
  intros Hla Hlo Hfar. unfold exactRange.
  pose proof PI_gt_3 as HPI3. pose proof PI_4 as HPI4.
  pose proof (cos_deg_gt_half 50.0005 ltac:(lra) ltac:(lra)) as Hc.
  pose proof (COS_bound (50.0005 * PI / 180)) as [_ Hc1].
  set (c := cos (50.0005 * PI / 180)) in *.
  set (x := (lo - 6.0005) * PI / 180 * 6371000 * c).
  set (y := (la - 50.0005) * PI / 180 * 6371000).
  assert (Hk : 106183 < PI / 180 * 6371000 < 141578) by lra.
  set (k := PI / 180 * 6371000) in *.
  assert (Hx : x = (lo - 6.0005) * (k * c)) by (subst x k; field).
  assert (Hy : y = (la - 50.0005) * k) by (subst y k; field).
  assert (Hkc : 53091 < k * c < 141578) by nra.
  assert (Hxabs : Rabs x = Rabs (lo - 6.0005) * (k * c)).
  { rewrite Hx, Rabs_mult, (Rabs_pos_eq (k * c)) by lra. reflexivity. }
  assert (Hyabs : Rabs y = Rabs (la - 50.0005) * k).
  { rewrite Hy, Rabs_mult, (Rabs_pos_eq k) by lra. reflexivity. }
  pose proof (Rabs_pos (lo - 6.0005)) as Hlo0.
  pose proof (Rabs_pos (la - 50.0005)) as Hla0.
  assert (Hxx : x * x = Rabs x * Rabs x).
  { rewrite <- Rabs_mult. symmetry. apply Rabs_pos_eq. nra. }
  assert (Hyy : y * y = Rabs y * Rabs y).
  { rewrite <- Rabs_mult. symmetry. apply Rabs_pos_eq. nra. }
  assert (Hxub : Rabs x <= 141.578) by (rewrite Hxabs; nra).
  assert (Hyub : Rabs y <= 70.789) by (rewrite Hyabs; nra).
  pose proof (Rabs_pos x) as Hx0. pose proof (Rabs_pos y) as Hy0.
  assert (Hlow : 50 * 50 < x * x + y * y).
  { rewrite Hxx, Hyy. destruct Hfar as [Hf|Hf].
    - assert (53 <= Rabs y) by (rewrite Hyabs; nra). nra.
    - assert (53 <= Rabs x) by (rewrite Hxabs; nra). nra. }
  assert (Hup : x * x + y * y < 200 * 200).
  { rewrite Hxx, Hyy. nra. }
  split.
  - rewrite <- (sqrt_square 50) by lra. apply sqrt_lt_1_alt. lra.
  - rewrite <- (sqrt_square 200) by lra. apply sqrt_lt_1_alt.
    split; [apply sum_squares_nonneg | exact Hup].
Qed.

Lemma exactObs_filtered : filteredList exactObs.
Proof.
  assert (HA : 50 < exactRange 50 6 < 200).
  { apply exactRange_bounds.
    - rewrite Rabs_left by lra. lra.
    - rewrite Rabs_left by lra. lra.
    - left. rewrite Rabs_left by lra. lra. }
  assert (HB : 50 < exactRange 50.001 6 < 200).
  { apply exactRange_bounds.
    - rewrite Rabs_pos_eq by lra. lra.
    - rewrite Rabs_left by lra. lra.
    - left. rewrite Rabs_pos_eq by lra. lra. }
  assert (HC : 50 < exactRange 50.0005 6.0015 < 200).
  { apply exactRange_bounds.
    - rewrite Rabs_pos_eq by lra. lra.
    - rewrite Rabs_pos_eq by lra. lra.
    - right. rewrite Rabs_pos_eq by lra. lra. }
  split; repeat constructor;
    first [ apply exObs_valid; lra
          | apply exObs_finite; cbn; unfold finite; eauto ].
Qed.

Lemma exactObs_ref :
  refLatOf exactObs = Num 50.0005 /\ refLngOf exactObs = Num 6.0005.
Proof.
  unfold refLatOf, refLngOf. split.
  - rewrite centroid_Num.
    + f_equal. unfold exactObs, exactA, exactB, exactC, exObs.
      cbn [Rsum fold_right sensor_lat toR length INR]. lra.
    + discriminate.
    + repeat constructor; unfold finite; cbn; eauto.
  - rewrite centroid_Num.
    + f_equal. unfold exactObs, exactA, exactB, exactC, exObs.
      cbn [Rsum fold_right sensor_lng toR length INR]. lra.
    + discriminate.
    + repeat constructor; unfold finite; cbn; eauto.
Qed.

Lemma exactObs_det :
  1e-10 <= Rabs (detR (toPoint (Num 50.0005) (Num 6.0005) exactA)
                      (map (toPoint (Num 50.0005) (Num 6.0005)) [exactB; exactC])).
Proof.
  cbn [map]. rewrite detR_two_rows.
  unfold a0R, a1R, exactA, exactB, exactC.
  rewrite !xR_exObs, !yR_exObs, !wR_exObs_default.
  pose proof (cos_deg_gt_half 50.0005 ltac:(lra) ltac:(lra)) as Hc.
  pose proof PI_gt_3 as HPI.
  destruct exactObs_filtered as [Hval _].
  assert (HB : 50 < exactRange 50.001 6 < 200).
  { apply exactRange_bounds.
    - rewrite Rabs_pos_eq by lra. lra.
    - rewrite Rabs_left by lra. lra.
    - left. rewrite Rabs_pos_eq by lra. lra. }
  assert (HC : 50 < exactRange 50.0005 6.0015 < 200).
  { apply exactRange_bounds.
    - rewrite Rabs_pos_eq by lra. lra.
    - rewrite Rabs_pos_eq by lra. lra.
    - right. rewrite Rabs_pos_eq by lra. lra. }
  set (dB := exactRange 50.001 6) in *. set (dC := exactRange 50.0005 6.0015) in *.
  set (c := cos (50.0005 * PI / 180)) in *.
  set (a := 2 * ((6.0015 - 6.0005) * PI / 180 * 6371000 * c
                 - (6 - 6.0005) * PI / 180 * 6371000 * c)).
  set (b := 2 * ((50.001 - 50.0005) * PI / 180 * 6371000
                 - (50 - 50.0005) * PI / 180 * 6371000)).
  assert (Ha : 100 < a).
  { subst a. replace (2 * ((6.0015 - 6.0005) * PI / 180 * 6371000 * c
                          - (6 - 6.0005) * PI / 180 * 6371000 * c))
      with (19113 / 180 * (PI * c)) by lra.
    assert (3 * (1 / 2) < PI * c) by nra. lra. }
  assert (Hb : 200 < b) by (subst b; lra).
  assert (HwB : 1 / 201 < 1 / (dB + 1)).
  { unfold Rdiv. rewrite !Rmult_1_l. apply Rinv_lt_contravar; nra. }
  assert (HwC : 1 / 201 < 1 / (dC + 1)).
  { unfold Rdiv. rewrite !Rmult_1_l. apply Rinv_lt_contravar; nra. }
  match goal with |- _ <= Rabs ?e => assert (He : 1 <= e) end.
  { match goal with |- 1 <= _ * _ * ((?u - _ * _) * _) =>
      replace u with 0 by (unfold Rdiv; ring) end.
    fold a.
    assert (Hab : 20000 < a * b) by nra.
    assert (Hsq : 400000000 < (0 - a * b) * (0 - a * b)) by nra.
    assert (Hw : 1 / 201 * (1 / 201) < 1 / (dB + 1) * (1 / (dC + 1))) by nra.
    nra. }
  rewrite Rabs_pos_eq; lra.
Qed.

Lemma multiSensor_exact_recovery_witness :
  let v := exactObs in
  let ref := toPoint (refLatOf v) (refLngOf v) exactA in
  let rest := map (toPoint (refLatOf v) (refLngOf v)) [exactB; exactC] in
  filteredList v /\ (3 <= length v)%nat /\ pointsOf v = ref :: rest
  /\ 1e-10 <= Rabs (detR ref rest)
  /\ Forall (fun p => circle p 0 0 = 0) (ref :: rest)
  /\ estimateMultiSensorPosition ref rest = mkEst (Num 0) (Num 0) (Some (Num 0)).
Proof.
  intros v ref rest.
  assert (H1 : filteredList v) by exact exactObs_filtered.
  assert (H2 : (3 <= length v)%nat) by (cbn; lia).
  assert (H3 : pointsOf v = ref :: rest) by reflexivity.
  assert (H4 : 1e-10 <= Rabs (detR ref rest)).
  { subst ref rest v. destruct exactObs_ref as [-> ->]. exact exactObs_det. }
  assert (H5 : Forall (fun p => circle p 0 0 = 0) (ref :: rest)).
  { subst ref rest v. destruct exactObs_ref as [-> ->]. cbn [map].
    repeat constructor; unfold circle, exactA, exactB, exactC;
      rewrite xR_exObs, yR_exObs, dR_exObs; unfold exactRange;
      rewrite sqrt_sqrt by apply sum_squares_nonneg; ring. }
  repeat (split; [assumption|]).
  exact (proj1 (multiSensor_exact_recovery v ref rest 0 0 H1 H2 H3 H4 H5)).
Defined.

Lemma or_else_nonneg (a b : R) :
  0 <= a -> 0 <= b ->
  exists var, or_else (Some (Num a)) (Num b) = Num var /\ 0 <= var.
Proof.
  intros Ha Hb. cbn [or_else truthy].
  destruct (negb (Reqb a 0)); eauto.
Qed.

Lemma mean_abs_nonneg (x y : R) (points : list pointObs) :
  0 <= Rsum (fun p => Rabs (residualR x y p)) points / INR (length points).
Proof.
  apply Rmult_le_pos.
  - apply Rsum_nonneg. intros p. apply Rabs_pos.
  - destruct points as [|p l].
    + cbn [length INR]. rewrite Rinv_0. lra.
    + left. apply Rinv_0_lt_compat, lt_0_INR. cbn. lia.
Qed.

Lemma norm_triangle (u1 u2 w1 w2 : R) :
  sqrt ((u1 + w1) * (u1 + w1) + (u2 + w2) * (u2 + w2))
  <= sqrt (u1 * u1 + u2 * u2) + sqrt (w1 * w1 + w2 * w2).
Proof.
  set (U := sqrt (u1 * u1 + u2 * u2)). set (W := sqrt (w1 * w1 + w2 * w2)).
  assert (HU : U * U = u1 * u1 + u2 * u2) by apply sqrt_sqrt, sum_squares_nonneg.
  assert (HW : W * W = w1 * w1 + w2 * w2) by apply sqrt_sqrt, sum_squares_nonneg.
  assert (HU0 : 0 <= U) by apply sqrt_pos.
  assert (HW0 : 0 <= W) by apply sqrt_pos.
  assert (HCS : u1 * w1 + u2 * w2 <= U * W).
  { destruct (Rle_dec (u1 * w1 + u2 * w2) 0) as [Hneg|Hpos].
    - apply Rle_trans with 0; [exact Hneg | apply Rmult_le_pos; assumption].
    - apply Rnot_le_lt in Hpos.
      apply Rsqr_incr_0_var; [|apply Rmult_le_pos; assumption].
      unfold Rsqr.
      replace (U * W * (U * W)) with ((U * U) * (W * W)) by ring.
      rewrite HU, HW.
      pose proof (Rle_0_sqr (u1 * w2 - u2 * w1)) as Hsq. unfold Rsqr in Hsq. lra. }
  rewrite <- (sqrt_square (U + W)) by lra.
  apply sqrt_le_1_alt.
  replace ((U + W) * (U + W)) with (U * U + 2 * (U * W) + W * W) by ring.
  rewrite HU, HW. lra.
Qed.

(** X11. Over exact arithmetic, [distance] on finite points is a metric:
    symmetric, zero exactly between equal points, never negative, and it
    satisfies the triangle inequality. *)
Theorem distance_metric (ax ay bx by' cx cy : R) :
  let a := mkPoint (Num ax) (Num ay) in
  let b := mkPoint (Num bx) (Num by') in
  let c := mkPoint (Num cx) (Num cy) in
  distance a b = distance b a
  /\ (distance a b = Num 0 <-> a = b)
  /\ exists dab dbc dac,
       distance a b = Num dab /\ distance b c = Num dbc /\ distance a c = Num dac
       /\ 0 <= dab /\ dac <= dab + dbc.
Proof.
  intros a b c. subst a b c. rewrite !distance_Num.
  split; [f_equal; f_equal; ring|]. split.
  - split.
    + intros H. injection H as H.
      apply sqrt_eq_0 in H; [|apply sum_squares_nonneg].
      pose proof (Rle_0_sqr (bx - ax)) as Hx.
      pose proof (Rle_0_sqr (by' - ay)) as Hy. unfold Rsqr in Hx, Hy.
      assert (Hx0 : (bx - ax) * (bx - ax) = 0) by lra.
      assert (Hy0 : (by' - ay) * (by' - ay) = 0) by lra.
      apply Rsqr_0_uniq in Hx0, Hy0.
      f_equal; f_equal; lra.
    + intros H. injection H as -> ->. f_equal.
      replace ((bx - bx) * (bx - bx) + (by' - by') * (by' - by')) with 0 by ring.
      apply sqrt_0.
  - eexists _, _, _. repeat (split; [reflexivity|]).
    split; [apply sqrt_pos|].
    replace (cx - ax) with ((bx - ax) + (cx - bx)) by ring.
    replace (cy - ay) with ((by' - ay) + (cy - by')) by ring.
    apply norm_triangle.
Qed.

(** ** Kalman smoother: invariants of the stored states *)

Ltac finite_vec x H :=
  let a := fresh x "0" in let b := fresh x "1" in
  let c := fresh x "2" in let d := fresh x "3" in
  destruct x as [a b c d];
  destruct H as ([? ?] & [? ?] & [? ?] & [? ?]);
  cbn [v0 v1 v2 v3] in *; subst a b c d.

Ltac finite_mat P H :=
  let r0 := fresh P "r0" in let r1 := fresh P "r1" in
  let r2 := fresh P "r2" in let r3 := fresh P "r3" in
  let H0 := fresh in let H1 := fresh in let H2 := fresh in let H3 := fresh in
  destruct P as [r0 r1 r2 r3];
  destruct H as (H0 & H1 & H2 & H3);
  cbn [m0 m1 m2 m3] in H0, H1, H2, H3;
  finite_vec r0 H0; finite_vec r1 H1; finite_vec r2 H2; finite_vec r3 H3.

Lemma finiteVec_intro (a b c d : R) : finiteVec (mkVec4 (Num a) (Num b) (Num c) (Num d)).
Proof. unfold finiteVec, finite. cbn. eauto 10. Qed.

Lemma kalmanPredict_finite (x : vec4) (P : mat4) :
  finiteVec x -> finiteMat P ->
  finiteVec (fst (kalmanPredict x P KALMAN_dt))
  /\ finiteMat (snd (kalmanPredict x P KALMAN_dt)).
Proof.
  intros Hx HP. finite_vec x Hx. finite_mat P HP.
  unfold kalmanPredict, KALMAN_dt, processNoise, el.
  cbn [fst snd m0 m1 m2 m3 v0 v1 v2 v3 nadd nmul].
  split; [apply finiteVec_intro|]. repeat split; unfold finite; cbn; eauto.
Qed.

Lemma kalmanPredict_symmetric (x : vec4) (P : mat4) :
  finiteMat P -> symmetricMat P ->
  symmetricMat (snd (kalmanPredict x P KALMAN_dt)).
Proof.
  intros HP Hs. finite_mat P HP.
  unfold symmetricMat, el in Hs. cbn [m0 m1 m2 m3 v0 v1 v2 v3] in Hs.
  destruct Hs as (H01 & H02 & H03 & H12 & H13 & H23).
  injection H01 as H01. injection H02 as H02. injection H03 as H03.
  injection H12 as H12. injection H13 as H13. injection H23 as H23.
  unfold kalmanPredict, KALMAN_dt, processNoise, symmetricMat, el.
  cbn [fst snd m0 m1 m2 m3 v0 v1 v2 v3 nadd nmul].
  subst. repeat split; f_equal; ring.
Qed.

Lemma small_det (d : R) : Rltb (Rabs d) 1e-10 = false -> d <> 0.
Proof.
  intros H H0. rewrite H0, Rabs_R0 in H. rewrite Rltb_true in H by lra. discriminate.
Qed.

Ltac kalman_update_step Hdet :=
  unfold kalmanUpdate, el;
  cbn [fst snd m0 m1 m2 m3 v0 v1 v2 v3 nadd nmul nsub nopp Math_abs nltb];
  match goal with
  | |- context [Rltb (Rabs ?d) 1e-10] =>
      destruct (Rltb (Rabs d) 1e-10) eqn:Hdet;
      [ cbn [fst snd m0 m1 m2 m3 v0 v1 v2 v3]
      | apply small_det in Hdet;
         rewrite !ndiv_Num by exact Hdet;
         cbn [fst snd m0 m1 m2 m3 v0 v1 v2 v3 nadd nmul nsub nopp] ]
  end.

Lemma kalmanUpdate_finite (x : vec4) (P : mat4) (mx my r : R) :
  finiteVec x -> finiteMat P ->
  finiteVec (fst (kalmanUpdate x P (Num mx) (Num my) (Num r)))
  /\ finiteMat (snd (kalmanUpdate x P (Num mx) (Num my) (Num r))).
Proof.
  intros Hx HP. finite_vec x Hx. finite_mat P HP.
  kalman_update_step Hdet.
  - split; [apply finiteVec_intro|]. repeat split; unfold finite; cbn; eauto.
  - split; [apply finiteVec_intro|]. repeat split; unfold finite; cbn; eauto.
Qed.

Lemma kalmanUpdate_symmetric (x : vec4) (P : mat4) (mx my r : R) :
  finiteVec x -> finiteMat P -> symmetricMat P ->
  symmetricMat (snd (kalmanUpdate x P (Num mx) (Num my) (Num r))).
Proof.
  intros Hx HP Hs. finite_vec x Hx. finite_mat P HP.
  pose proof Hs as Hs'.
  unfold symmetricMat, el in Hs. cbn [m0 m1 m2 m3 v0 v1 v2 v3] in Hs.
  destruct Hs as (H01 & H02 & H03 & H12 & H13 & H23).
  injection H01 as H01. injection H02 as H02. injection H03 as H03.
  injection H12 as H12. injection H13 as H13. injection H23 as H23.
  kalman_update_step Hdet; [exact Hs'|]. clear Hs'.
  unfold symmetricMat, el. cbn [m0 m1 m2 m3 v0 v1 v2 v3].
  subst. repeat split; f_equal; field; exact Hdet.
Qed.

Lemma initialCovariance_regular : finiteMat initialCovariance /\ symmetricMat initialCovariance.
Proof.
  split.
  - repeat split; unfold finite; cbn; eauto.
  - repeat split.
Qed.

Lemma applyKalmanFilter_regular (states : gmap string kalmanState) (now : Z)
    (dev : string) (mlat mlng q : R) :
  map_Forall (fun _ s => regularState s) states ->
  map_Forall (fun _ s => regularState s)
             (snd (applyKalmanFilter states now dev (Num mlat) (Num mlng) (Num q))).
Proof.
  intros Hreg. destruct (states !! dev) as [s|] eqn:Hs.
  - rewrite (applyKalmanFilter_known _ _ _ _ _ _ s Hs). cbn [snd].
    apply map_Forall_insert_2; [|exact Hreg].
    destruct (Hreg dev s Hs) as (Hx & HP & Hsym & [rlat Hlat] & [rlng Hlng]).
    rewrite Hlat, Hlng, gpsToMeters_Num. cbn [px py].
    unfold measurementNoise. rewrite ndiv_Num by lra. cbn [nadd nmul].
    destruct (kalmanPredict_finite (ks_x s) (ks_P s) Hx HP) as [Hxp HPp].
    pose proof (kalmanPredict_symmetric (ks_x s) (ks_P s) HP Hsym) as Hsp.
    unfold regularState. cbn [ks_x ks_P ks_refLat ks_refLng].
    split; [apply kalmanUpdate_finite; assumption|].
    split; [apply kalmanUpdate_finite; assumption|].
    split; [apply kalmanUpdate_symmetric; assumption|].
    unfold finite. eauto.
  - rewrite (applyKalmanFilter_fresh states now dev mlat mlng (Num q) Hs). cbn [snd].
    apply map_Forall_insert_2; [|exact Hreg].
    unfold regularState. cbn [ks_x ks_P ks_refLat ks_refLng].
    split; [apply finiteVec_intro|].
    split; [apply initialCovariance_regular|].
    split; [apply initialCovariance_regular|].
    unfold finite. eauto.
Qed.

(** X12. Over exact arithmetic, the smoother keeps its states regular:
    starting from regular states (none at all, for instance), any
    sequence of calls with finite latitude, longitude and quality leaves
    every device with a finite state vector, a finite symmetric
    covariance matrix and a finite anchor. *)
Theorem runSmoother_regular (calls : list smootherCall) :
  forall states : gmap string kalmanState,
    map_Forall (fun _ s => regularState s) states ->
    Forall finiteCall calls ->
    map_Forall (fun _ s => regularState s) (runSmoother states calls).
Proof.
  induction calls as [|c calls IH]; intros states Hreg Hfin; [exact Hreg|].
  apply Forall_cons_1 in Hfin as [([la Hla] & [lo Hlo] & [q Hq]) Hfin].
  unfold runSmoother. cbn [fold_left].
  apply IH; [|exact Hfin].
  rewrite Hla, Hlo, Hq. apply applyKalmanFilter_regular, Hreg.
Qed.

Lemma runSmoother_regular_witness :
  map_Forall (fun _ s => regularState s)
             (runSmoother ∅ [mkCall "d1" (Num 50) (Num 6) (Num 5) 0;
                             mkCall "d1" (Num 50.001) (Num 6) (Num 3) 1000]).
Proof.
  apply runSmoother_regular.
  - apply map_Forall_empty.
  - repeat constructor; unfold finite; cbn; eauto.
Defined.

Lemma kalman_step_rest (P : mat4) (r : R) :
  finiteMat P ->
  let pred := kalmanPredict zero4 P KALMAN_dt in
  let upd := kalmanUpdate (fst pred) (snd pred) (Num 0) (Num 0) (Num r) in
  fst upd = zero4 /\ finiteMat (snd upd).
Proof.
  intros HP. cbn zeta.
  destruct (kalmanPredict_finite zero4 P (finiteVec_intro 0 0 0 0) HP) as [Hxp HPp].
  split; [|apply kalmanUpdate_finite; assumption].
  clear Hxp. finite_mat P HP.
  unfold kalmanPredict, KALMAN_dt, processNoise, zero4, el.
  cbn [fst snd m0 m1 m2 m3 v0 v1 v2 v3 nadd nmul].
  kalman_update_step Hdet.
  - f_equal; f_equal; ring.
  - f_equal; f_equal; field; exact Hdet.
Qed.

Lemma applyKalmanFilter_rest (states : gmap string kalmanState) (now : Z)
    (dev : string) (mlat mlng q : R) (s : kalmanState) :
  cos (mlat * PI / 180) <> 0 ->
  states !! dev = Some s -> restingAt mlat mlng s ->
  exists s',
    applyKalmanFilter states now dev (Num mlat) (Num mlng) (Num q)
    = (mkGps (Num mlat) (Num mlng), <[dev := s']> states)
    /\ restingAt mlat mlng s'.
Proof.
  intros Hcos Hs (Hx & HP & Hlat & Hlng).
  rewrite (applyKalmanFilter_known _ _ _ _ _ _ s Hs).
  rewrite Hlat, Hlng, gpsToMeters_self, Hx. cbn [px py].
  unfold measurementNoise. rewrite ndiv_Num by lra. cbn [nadd nmul].
  destruct (kalman_step_rest (ks_P s) (2.0 * (1 + q / 10)) HP) as [Hxu HPu].
  cbn zeta in Hxu, HPu. rewrite Hxu. cbn [zero4 v0 v1].
  eexists. split.
  - f_equal. rewrite (metersToGps_Num 0 0 mlat mlng Hcos).
    pose proof PI_neq0' as HPI.
    f_equal; f_equal; field; auto.
  - unfold restingAt. cbn [ks_x ks_P ks_refLat ks_refLng]. auto.
Qed.

Lemma smootherFold_app (l : list smootherCall) :
  forall (acc acc' : list (string * gps)) (st : gmap string kalmanState),
    fold_left smootherStep l (acc' ++ acc, st)
    = (acc' ++ fst (fold_left smootherStep l (acc, st)),
       snd (fold_left smootherStep l (acc, st))).
Proof.
  induction l as [|c l IH]; intros acc acc' st; cbn [fold_left].
  - reflexivity.
  - unfold smootherStep at 2 4 6. cbn [fst snd].
    destruct (applyKalmanFilter st _ _ _ _ _) as [g st'].
    rewrite <- app_assoc. apply IH.
Qed.

Lemma smoothAll_cons (states : gmap string kalmanState) (c : smootherCall)
    (calls : list smootherCall) :
  let first := applyKalmanFilter states (c_now c) (c_device c) (c_lat c) (c_lng c)
                                 (c_quality c) in
  smoothAll states (c :: calls)
  = ((c_device c, fst first) :: fst (smoothAll (snd first) calls),
     snd (smoothAll (snd first) calls)).
Proof.
  cbn zeta. unfold smoothAll. cbn [fold_left]. unfold smootherStep at 2. cbn [fst snd].
  destruct (applyKalmanFilter states _ _ _ _ _) as [g st1]. cbn [fst snd app].
  apply (smootherFold_app calls [] [(c_device c, g)] st1).
Qed.

Lemma smoothAll_rest (dev : string) (mlat mlng : R) (later : list (R * Z)) :
  cos (mlat * PI / 180) <> 0 ->
  forall (states : gmap string kalmanState) (s : kalmanState),
    states !! dev = Some s -> restingAt mlat mlng s ->
    fst (smoothAll states
           (map (fun qn => mkCall dev (Num mlat) (Num mlng) (Num (fst qn)) (snd qn))
                later))
    = map (fun _ => (dev, mkGps (Num mlat) (Num mlng))) later.
Proof.
  intros Hcos. induction later as [|[q now] later IH]; intros states s Hs Hrest.
  - reflexivity.
  - cbn [map]. rewrite smoothAll_cons. cbn [fst snd c_now c_device c_lat c_lng c_quality].
    destruct (applyKalmanFilter_rest states now dev mlat mlng q s Hcos Hs Hrest)
      as (s' & -> & Hrest').
    cbn [fst snd]. f_equal.
    apply (IH _ s'); [apply lookup_insert_eq | exact Hrest'].
Qed.

(** X13. A device that keeps being measured at one finite position is
    reported at exactly that position by every call of the smoother, the
    first one included, for any qualities and any clock readings
    (provided the cosine of the latitude is not zero). *)
Theorem smoother_stationary (states : gmap string kalmanState) (dev : string)
    (mlat mlng : R) (q0 : num) (now0 : Z) (later : list (R * Z)) :
  cos (mlat * PI / 180) <> 0 -> states !! dev = None ->
  let calls :=
    mkCall dev (Num mlat) (Num mlng) q0 now0
    :: map (fun qn => mkCall dev (Num mlat) (Num mlng) (Num (fst qn)) (snd qn)) later in
  fst (smoothAll states calls)
  = map (fun _ => (dev, mkGps (Num mlat) (Num mlng))) calls.
Proof.
  intros Hcos Hnone calls. subst calls. rewrite smoothAll_cons.
  cbn [fst snd c_now c_device c_lat c_lng c_quality map].
  rewrite (applyKalmanFilter_fresh states now0 dev mlat mlng q0 Hnone).
  cbn [fst snd]. f_equal. rewrite length_map || idtac.
  rewrite map_map. cbn beta.
  apply (smoothAll_rest dev mlat mlng later Hcos _ _ (lookup_insert_eq _ _ _)).
  unfold restingAt. cbn [ks_x ks_P ks_refLat ks_refLng].
  split; [reflexivity|]. split; [apply initialCovariance_regular|]. auto.
Qed.

Lemma smoother_stationary_witness :
  fst (smoothAll ∅ [mkCall "d1" (Num 50) (Num 6) (Num 5) 0;
                    mkCall "d1" (Num 50) (Num 6) (Num 3) 1000;
                    mkCall "d1" (Num 50) (Num 6) (Num 80) 2000])
  = [("d1"%string, mkGps (Num 50) (Num 6)); ("d1"%string, mkGps (Num 50) (Num 6));
     ("d1"%string, mkGps (Num 50) (Num 6))].
Proof.
  exact (smoother_stationary ∅ "d1" 50 6 (Num 5) 0 [(3, 1000%Z); (80, 2000%Z)]
           cos_50_neq0 (lookup_empty _)).
Defined.

Lemma applyKalmanFilter_local (states1 states2 : gmap string kalmanState)
    (now : Z) (dev : string) (mlat mlng q : num) :
  states1 !! dev = states2 !! dev ->
  fst (applyKalmanFilter states1 now dev mlat mlng q)
  = fst (applyKalmanFilter states2 now dev mlat mlng q)
  /\ snd (applyKalmanFilter states1 now dev mlat mlng q) !! dev
     = snd (applyKalmanFilter states2 now dev mlat mlng q) !! dev.
Proof.
  intros Heq. unfold applyKalmanFilter. rewrite <- Heq.
  destruct (states1 !! dev) as [s|].
  - destruct (kalmanPredict _ _ _) as [xp Pp].
    destruct (kalmanUpdate _ _ _ _ _) as [xu Pu]. cbn [fst snd].
    rewrite !lookup_insert_eq. auto.
  - cbn [fst snd]. rewrite !lookup_insert_eq. auto.
Qed.

Lemma applyKalmanFilter_other (states : gmap string kalmanState)
    (now : Z) (dev dev' : string) (mlat mlng q : num) :
  dev' <> dev ->
  snd (applyKalmanFilter states now dev' mlat mlng q) !! dev = states !! dev.
Proof.
  intros Hne. unfold applyKalmanFilter.
  destruct (states !! dev') as [s|].
  - destruct (kalmanPredict _ _ _) as [xp Pp].
    destruct (kalmanUpdate _ _ _ _ _) as [xu Pu]. cbn [snd].
    apply lookup_insert_ne. exact Hne.
  - cbn [snd]. apply lookup_insert_ne. exact Hne.
Qed.

Lemma smoothAll_local (dev : string) (calls : list smootherCall) :
  forall states1 states2 : gmap string kalmanState,
    states1 !! dev = states2 !! dev ->
    List.filter (fun o => String.eqb (fst o) dev) (fst (smoothAll states1 calls))
    = fst (smoothAll states2
             (List.filter (fun c => String.eqb (c_device c) dev) calls))
    /\ snd (smoothAll states1 calls) !! dev
       = snd (smoothAll states2
                (List.filter (fun c => String.eqb (c_device c) dev) calls)) !! dev.
Proof.
  induction calls as [|c calls IH]; intros states1 states2 Heq.
  - split; [reflexivity | exact Heq].
  - rewrite smoothAll_cons. cbn [fst snd List.filter].
    destruct (String.eqb (c_device c) dev) eqn:Hc.
    + apply String.eqb_eq in Hc. rewrite smoothAll_cons. cbn [fst snd]. rewrite Hc.
      destruct (applyKalmanFilter_local states1 states2 (c_now c) dev (c_lat c)
                  (c_lng c) (c_quality c) Heq) as [Hout Hst].
      destruct (IH _ _ Hst) as [IH1 IH2].
      rewrite Hout, IH1, IH2. auto.
    + apply String.eqb_neq in Hc. apply IH.
      rewrite applyKalmanFilter_other by exact Hc. exact Heq.
Qed.

(** X14. Devices are smoothed independently: the positions a sequence of
    calls returns for a device, and the state it leaves for it, are those
    of the device's own calls alone. *)
Theorem smoother_isolation (states : gmap string kalmanState)
    (calls : list smootherCall) (dev : string) :
  let own := List.filter (fun c => String.eqb (c_device c) dev) calls in
  List.filter (fun o => String.eqb (fst o) dev) (fst (smoothAll states calls))
  = fst (smoothAll states own)
  /\ snd (smoothAll states calls) !! dev = snd (smoothAll states own) !! dev.
Proof. apply smoothAll_local. reflexivity. Qed.

Ltac num_fields :=
  repeat match goal with
         | |- (_, _) = (_, _) => f_equal
         | |- mkMat4 _ _ _ _ = mkMat4 _ _ _ _ => f_equal
         | |- mkVec4 _ _ _ _ = mkVec4 _ _ _ _ => f_equal
         | |- Num _ = Num _ => f_equal
         end.

Lemma kalmanPredict_block (x0 x1 x2 x3 a b c a' b' c' : R) :
  kalmanPredict (vecR x0 x1 x2 x3) (blockMat a b c a' b' c') KALMAN_dt
  = (vecR (x0 + x2) (x1 + x3) x2 x3,
     blockMat (a + 2 * b + c + 0.5) (b + c) (c + 0.5)
              (a' + 2 * b' + c' + 0.5) (b' + c') (c' + 0.5)).
Proof.
  unfold kalmanPredict, KALMAN_dt, processNoise, blockMat, vecR, el.
  cbn [fst snd m0 m1 m2 m3 v0 v1 v2 v3 nadd nmul].
  replace 1.0 with 1 by lra.
  num_fields; lra.
Qed.

Lemma axisPSD_predict (a b c : R) :
  axisPSD a b c -> axisPSD (a + 2 * b + c + 0.5) (b + c) (c + 0.5).
Proof.
  intros (Ha & Hc & Hb). unfold axisPSD.
  assert (Hsum : 0 <= a + 2 * b + c).
  { pose proof (Rle_0_sqr (a + b)) as Hsq. unfold Rsqr in Hsq.
    assert (H1 : 0 <= a * (a + 2 * b + c)).
    { replace (a * (a + 2 * b + c)) with ((a + b) * (a + b) + (a * c - b * b)) by ring.
      lra. }
    destruct (Rle_dec 0 (a + 2 * b + c)) as [H|H]; [exact H|].
    apply Rnot_le_lt in H.
    assert (a * (a + 2 * b + c) < 0) by nra. lra. }
  split; [lra|]. split; [lra|].
  replace ((b + c) * (b + c)) with (b * b + 2 * b * c + c * c) by ring.
  replace ((a + 2 * b + c + 0.5) * (c + 0.5))
    with (a * c + 2 * b * c + c * c + 0.5 * c + 0.5 * (a + 2 * b + c) + 0.5 * 0.5)
    by lra.
  lra.
Qed.

Lemma kalmanUpdate_block (x0 x1 x2 x3 a b c a' b' c' mx my r : R) :
  0 < a -> 0 < a' -> 2 <= r ->
  kalmanUpdate (vecR x0 x1 x2 x3) (blockMat a b c a' b' c') (Num mx) (Num my) (Num r)
  = (vecR (x0 + a / (a + r) * (mx - x0)) (x1 + a' / (a' + r) * (my - x1))
          (x2 + b / (a + r) * (mx - x0)) (x3 + b' / (a' + r) * (my - x1)),
     blockMat (r * a / (a + r)) (r * b / (a + r)) (c - b * b / (a + r))
              (r * a' / (a' + r)) (r * b' / (a' + r)) (c' - b' * b' / (a' + r))).
Proof.
  intros Ha Ha' Hr. unfold blockMat, vecR.
  kalman_update_step Hdet.
  - exfalso. unfold Rltb in Hdet.
    destruct (Rlt_dec _ _) as [Hlt|]; [|discriminate].
    assert (Hbig : 4 <= (a + r) * (a' + r) - 0 * 0) by nra.
    rewrite Rabs_pos_eq in Hlt by lra. lra.
  - assert (H1 : a + r <> 0) by lra. assert (H2 : a' + r <> 0) by lra.
    num_fields; field; auto.
Qed.

Lemma axisPSD_update (a b c r : R) :
  axisPSD a b c -> 0 < r ->
  axisPSD (r * a / (a + r)) (r * b / (a + r)) (c - b * b / (a + r)).
Proof.
  intros (Ha & Hc & Hb) Hr. unfold axisPSD.
  assert (Hs : 0 < a + r) by lra.
  assert (Hinv : 0 < / (a + r)) by (apply Rinv_0_lt_compat; exact Hs).
  assert (Hc' : 0 < c - b * b / (a + r)).
  { apply Rmult_lt_reg_r with (a + r); [exact Hs|].
    replace ((c - b * b / (a + r)) * (a + r)) with (c * (a + r) - b * b)
      by (field; lra). nra. }
  split; [|split; [exact Hc'|]].
  - unfold Rdiv. apply Rmult_lt_0_compat; [nra | exact Hinv].
  - apply Rmult_le_reg_r with ((a + r) * (a + r)); [nra|].
    replace (r * b / (a + r) * (r * b / (a + r)) * ((a + r) * (a + r)))
      with (r * r * (b * b)) by (field; lra).
    replace (r * a / (a + r) * (c - b * b / (a + r)) * ((a + r) * (a + r)))
      with (r * a * (c * (a + r) - b * b)) by (field; lra).
    assert (H1 : r * (b * b) <= r * (a * c)) by nra.
    nra.
Qed.

Lemma createKalmanState_conditioned (now : Z) (mlat mlng : R) :
  conditionedState (mkKalmanState zero4 initialCovariance now (Num mlat) (Num mlng)).
Proof.
  exists 0, 0, 0, 0, 100, 0, 10, 100, 0, 10, mlat, mlng.
  cbn [ks_x ks_P ks_refLat ks_refLng]. unfold axisPSD.
  repeat split; lra.
Qed.

(** X15. Smoothing never overshoots: for a device whose stored covariance
    has uncorrelated axes and positive semi-definite blocks (a fresh
    state has), a call with a finite measurement and a quality [>= 0]
    moves the position, on each axis of the anchor's frame, to a point
    strictly between the predicted position and the measurement, keeps
    the anchor, returns that point projected to GPS, and leaves a
    covariance of the same kind. *)
Theorem applyKalmanFilter_between (states : gmap string kalmanState) (now : Z)
    (dev : string) (mlat mlng q : R) (s : kalmanState) :
  states !! dev = Some s -> conditionedState s -> 0 <= q ->
  let m := gpsToMeters (Num mlat) (Num mlng) (ks_refLat s) (ks_refLng s) in
  let out := applyKalmanFilter states now dev (Num mlat) (Num mlng) (Num q) in
  exists s' gx gy,
    snd out !! dev = Some s' /\ conditionedState s'
    /\ 0 < gx < 1 /\ 0 < gy < 1
    /\ v0 (ks_x s')
       = Num ((1 - gx) * (toR (v0 (ks_x s)) + toR (v2 (ks_x s))) + gx * toR (px m))
    /\ v1 (ks_x s')
       = Num ((1 - gy) * (toR (v1 (ks_x s)) + toR (v3 (ks_x s))) + gy * toR (py m))
    /\ fst out = metersToGps (v0 (ks_x s')) (v1 (ks_x s')) (ks_refLat s) (ks_refLng s)
    /\ ks_refLat s' = ks_refLat s /\ ks_refLng s' = ks_refLng s.
Proof.
  intros Hs (x0 & x1 & x2 & x3 & a & b & c & a' & b' & c' & rlat & rlng
             & Hx & HP & Hpsd & Hpsd' & Hlat & Hlng) Hq m out.
  subst out m. rewrite (applyKalmanFilter_known _ _ _ _ _ _ s Hs).
  rewrite Hx, HP, Hlat, Hlng, gpsToMeters_Num, kalmanPredict_block.
  cbn [fst snd px py toR v0 v1 v2 v3 vecR].
  unfold measurementNoise. rewrite ndiv_Num by lra. cbn [nadd nmul].
  apply axisPSD_predict in Hpsd, Hpsd'.
  set (ap := a + 2 * b + c + 0.5) in *. set (bp := b + c) in *.
  set (cp := c + 0.5) in *.
  set (ap' := a' + 2 * b' + c' + 0.5) in *. set (bp' := b' + c') in *.
  set (cp' := c' + 0.5) in *.
  set (r := 2.0 * (1 + q / 10)).
  assert (Hr : 2 <= r) by (subst r; lra).
  destruct Hpsd as (Ha & Hc & Hb). destruct Hpsd' as (Ha' & Hc' & Hb').
  rewrite (kalmanUpdate_block _ _ _ _ ap bp cp ap' bp' cp' _ _ r Ha Ha' Hr).
  cbn [fst snd v0 v1 vecR]. rewrite lookup_insert_eq.
  assert (Hg : forall u, 0 < u -> 0 < u / (u + r) < 1).
  { intros u Hu. split.
    - apply Rdiv_lt_0_compat; lra.
    - apply Rmult_lt_reg_r with (u + r); [lra|].
      unfold Rdiv. rewrite Rmult_assoc, Rinv_l by lra. lra. }
  eexists _, (ap / (ap + r)), (ap' / (ap' + r)).
  split; [reflexivity|]. cbn [ks_x ks_P ks_refLat ks_refLng v0 v1].
  split.
  - eexists _, _, _, _, _, _, _, _, _, _, rlat, rlng.
    cbn [ks_x ks_P ks_refLat ks_refLng].
    split; [reflexivity|]. split; [reflexivity|].
    split; [apply axisPSD_update; [unfold axisPSD; auto | lra]|].
    split; [apply axisPSD_update; [unfold axisPSD; auto | lra]|]. auto.
  - split; [apply Hg, Ha|]. split; [apply Hg, Ha'|].
    unfold vecR. cbn [v0 v1].
    split; [f_equal; ring|]. split; [f_equal; ring|]. auto.
Qed.

Lemma applyKalmanFilter_between_witness :
  let s := mkKalmanState zero4 initialCovariance 0 (Num 50) (Num 6) in
  exists s' gx gy,
    snd (applyKalmanFilter {[ "d1"%string := s ]} 1000 "d1" (Num 50.001) (Num 6) (Num 5))
      !! "d1"%string = Some s'
    /\ conditionedState s' /\ 0 < gx < 1 /\ 0 < gy < 1.
Proof.
  intros s.
  destruct (applyKalmanFilter_between {[ "d1"%string := s ]} 1000 "d1" 50.001 6 5 s
              (lookup_singleton_eq _ _) (createKalmanState_conditioned 0 50 6)
              ltac:(lra))
    as (s' & gx & gy & H1 & H2 & H3 & H4 & _).
  exists s', gx, gy. auto.
Defined.

(** ** Data handler: loading, grouping and the time window *)

Lemma Set_from_acc (l : list string) :
  forall acc : list string,
    NoDup acc ->
    let s := fold_left (fun s x => if existsb (String.eqb x) s then s else s ++ [x])
                       l acc in
    NoDup s /\ forall x, In x s <-> In x acc \/ In x l.
Proof.
  induction l as [|y l IH]; intros acc Hnd; cbn [fold_left].
  - split; [exact Hnd|]. intros x. cbn. tauto.
  - destruct (existsb (String.eqb y) acc) eqn:Hy.
    + destruct (IH acc Hnd) as [H1 H2]. split; [exact H1|].
      intros x. rewrite (H2 x). cbn [In].
      apply existsb_exists in Hy as (z & Hz & Heq). apply String.eqb_eq in Heq.
      subst z. split; [tauto|]. intros [H|[<-|H]]; auto.
    + assert (Hnot : ~ In y acc).
      { intros Hin. apply Bool.not_true_iff_false in Hy. apply Hy.
        apply existsb_exists. exists y. split; [exact Hin | apply String.eqb_refl]. }
      assert (Hnd' : NoDup (acc ++ [y])).
      { apply NoDup_app. split; [exact Hnd|]. split; [|apply NoDup_singleton].
        intros x Hx Hx'. apply list_elem_of_In in Hx, Hx'.
        destruct Hx' as [<-|[]]. contradiction. }
      destruct (IH (acc ++ [y]) Hnd') as [H1 H2]. split; [exact H1|].
      intros x. rewrite (H2 x), in_app_iff. cbn [In]. tauto.
Qed.

Lemma Set_from_spec (l : list string) :
  NoDup (Set_from l) /\ forall x, In x (Set_from l) <-> In x l.
Proof.
  destruct (Set_from_acc l [] (NoDup_nil_2)) as [H1 H2]. split; [exact H1|].
  intros x. unfold Set_from. rewrite (H2 x). cbn. tauto.
Qed.

Lemma insertSorted_perm (x : string) (l : list string) :
  Permutation (insertSorted x l) (x :: l).
Proof.
  induction l as [|y l IH]; cbn [insertSorted]; [reflexivity|].
  destruct (String.leb x y); [reflexivity|].
  rewrite IH. apply perm_swap.
Qed.

Lemma Array_sort_perm (l : list string) : Permutation (Array_sort l) l.
Proof.
  induction l as [|x l IH]; cbn [Array_sort fold_right]; [reflexivity|].
  fold (Array_sort l). rewrite insertSorted_perm, IH. reflexivity.
Qed.

Lemma leb_of_not_leb (x y : string) :
  String.leb x y = false -> String.leb y x = true.
Proof.
  intros H. destruct (String.leb_total x y) as [H'|H']; congruence.
Qed.

Lemma insertSorted_sorted (x : string) (l : list string) :
  Sorted (fun a b => String.leb a b = true) l ->
  Sorted (fun a b => String.leb a b = true) (insertSorted x l).
Proof.
  induction 1 as [|y l Hs IH Hhd]; cbn [insertSorted].
  - repeat constructor.
  - destruct (String.leb x y) eqn:Hxy.
    + constructor; [constructor; assumption|]. constructor. exact Hxy.
    + constructor; [exact IH|].
      destruct l as [|z l]; cbn [insertSorted].
      * constructor. apply leb_of_not_leb, Hxy.
      * destruct (String.leb x z); constructor.
        -- apply leb_of_not_leb, Hxy.
        -- inversion Hhd. assumption.
Qed.

Lemma Array_sort_sorted (l : list string) :
  Sorted (fun a b => String.leb a b = true) (Array_sort l).
Proof.
  induction l as [|x l IH]; cbn [Array_sort fold_right]; [constructor|].
  apply insertSorted_sorted, IH.
Qed.

Lemma String_compare_lt_trans (a : string) :
  forall b c : string,
    String.compare a b = Lt -> String.compare b c = Lt -> String.compare a c = Lt.
Proof.
  induction a as [|ca a IH]; intros [|cb b] [|cc c]; cbn [String.compare];
    try congruence.
  unfold Ascii.compare.
  destruct (N.compare_spec (N_of_ascii ca) (N_of_ascii cb)) as [Hab|Hab|Hab];
    destruct (N.compare_spec (N_of_ascii cb) (N_of_ascii cc)) as [Hbc|Hbc|Hbc];
    try congruence; intros H1 H2.
  - rewrite Hab, Hbc, N.compare_refl. eapply IH; eassumption.
  - rewrite Hab. apply N.compare_lt_iff in Hbc. rewrite Hbc. reflexivity.
  - rewrite <- Hbc. apply N.compare_lt_iff in Hab. rewrite Hab. reflexivity.
  - assert (Hac : (N_of_ascii ca < N_of_ascii cc)%N) by lia.
    apply N.compare_lt_iff in Hac. rewrite Hac. reflexivity.
Qed.

Lemma String_ltb_of_leb (a b : string) :
  String.leb a b = true -> a <> b -> String.ltb a b = true.
Proof.
  unfold String.leb, String.ltb. intros Hle Hne.
  destruct (String.compare a b) eqn:Hc; try congruence.
  apply String.compare_eq_iff in Hc. contradiction.
Qed.

Lemma sorted_distinct_strict (l : list string) :
  Sorted (fun a b => String.leb a b = true) l -> NoDup l ->
  StronglySorted (fun a b => String.ltb a b = true) l.
Proof.
  intros Hs Hnd. apply Sorted_StronglySorted.
  - intros a b c Hab Hbc. unfold String.ltb in *.
    destruct (String.compare a b) eqn:H1; try discriminate.
    destruct (String.compare b c) eqn:H2; try discriminate.
    rewrite (String_compare_lt_trans a b c H1 H2). reflexivity.
  - induction Hs as [|y l Hs IH Hhd]; [constructor|].
    apply NoDup_cons in Hnd as [Hy Hnd].
    constructor; [apply IH, Hnd|].
    destruct Hhd as [|z l Hyz]; constructor.
    apply String_ltb_of_leb; [exact Hyz|].
    intros ->. apply Hy. left.
Qed.

Lemma processData_timestamps_facts (data : list entry) (st : store) :
  let tss := getTimestamps (processData data st) in
  StronglySorted (fun a b => String.ltb a b = true) tss
  /\ NoDup tss
  /\ (forall ts, In ts tss <-> exists e, In e data /\ e_timestamp e = ts)
  /\ (data <> [] -> tss <> []).
Proof.
  cbn zeta. unfold getTimestamps, processData. cbn [handler timestamps].
  destruct (Set_from_spec (map e_timestamp data)) as [Hnd Hin].
  pose proof (Array_sort_perm (Set_from (map e_timestamp data))) as Hperm.
  assert (Hnd' : NoDup (Array_sort (Set_from (map e_timestamp data)))).
  { rewrite Hperm. exact Hnd. }
  assert (Hmem : forall ts,
             In ts (Array_sort (Set_from (map e_timestamp data)))
             <-> exists e, In e data /\ e_timestamp e = ts).
  { intros ts. rewrite <- !list_elem_of_In, Hperm, list_elem_of_In, Hin, in_map_iff.
    split; intros (e & H1 & H2); exists e; auto. }
  split; [apply sorted_distinct_strict; [apply Array_sort_sorted | exact Hnd']|].
  split; [exact Hnd'|]. split; [exact Hmem|].
  intros Hne Hnil. destruct data as [|e data]; [congruence|].
  assert (Hin' : In (e_timestamp e) (Array_sort (Set_from (map e_timestamp (e :: data))))).
  { apply Hmem. exists e. split; [left; reflexivity | reflexivity]. }
  rewrite Hnil in Hin'. destruct Hin'.
Qed.

(** X16. [processData] leaves [timestamps] strictly ascending in code-unit
    order (so without duplicates), holding exactly the timestamps of the
    entries; it is empty only for empty data. *)
Theorem processData_timestamps (data : list entry) (st : store) :
  let tss := getTimestamps (processData data st) in
  StronglySorted (fun a b => String.ltb a b = true) tss
  /\ NoDup tss
  /\ (forall ts, In ts tss <-> exists e, In e data /\ e_timestamp e = ts)
  /\ (data <> [] -> tss <> []).
Proof. exact (processData_timestamps_facts data st). Qed.

Lemma groupByTimestamp_lookup (data : list entry) (tss : list string) (ts : string) :
  groupByTimestamp data tss !! ts
  = if existsb (String.eqb ts) tss
    then Some (List.filter (fun e => String.eqb (e_timestamp e) ts) data)
    else None.
Proof.
  unfold groupByTimestamp.
  assert (G : forall (l : list string) (m : gmap string (list entry)),
             fold_left
               (fun m ts =>
                  <[ts := List.filter (fun e => String.eqb (e_timestamp e) ts) data]> m)
               l m !! ts
             = if existsb (String.eqb ts) l
               then Some (List.filter (fun e => String.eqb (e_timestamp e) ts) data)
               else m !! ts).
  { induction l as [|t l IH]; intros m; cbn [fold_left existsb]; [reflexivity|].
    rewrite IH. destruct (existsb (String.eqb ts) l); [rewrite orb_true_r; reflexivity|].
    rewrite orb_false_r. destruct (String.eqb ts t) eqn:Ht.
    - apply String.eqb_eq in Ht. subst t. apply lookup_insert_eq.
    - apply String.eqb_neq in Ht. apply lookup_insert_ne. congruence. }
  rewrite G. destruct (existsb (String.eqb ts) tss); [reflexivity | apply lookup_empty].
Qed.

Lemma existsb_eqb_iff (x : string) (l : list string) :
  existsb (String.eqb x) l = true <-> In x l.
Proof.
  rewrite existsb_exists. split.
  - intros (y & Hy & Heq). apply String.eqb_eq in Heq. subst y. exact Hy.
  - intros Hin. exists x. split; [exact Hin | apply String.eqb_refl].
Qed.

Lemma partition_by_key {A : Type} (key : A -> string) (data : list A)
    (keys : list string) :
  NoDup keys -> (forall a, In a data -> In (key a) keys) ->
  Permutation
    (flat_map (fun k => List.filter (fun a => String.eqb (key a) k) data) keys)
    data.
Proof.
  intros Hnd. induction data as [|a data IH]; intros Hcover.
  - clear. induction keys as [|k keys IHk]; [reflexivity|].
    cbn [flat_map List.filter app]. exact IHk.
  - assert (Hone : forall ks : list string, NoDup ks ->
               Permutation
                 (flat_map (fun k => List.filter (fun b => String.eqb (key b) k)
                                                 (a :: data)) ks)
                 ((if existsb (String.eqb (key a)) ks then [a] else [])
                  ++ flat_map (fun k => List.filter (fun b => String.eqb (key b) k) data)
                              ks)).
    { induction ks as [|k ks IHk]; intros Hk; [reflexivity|].
      apply NoDup_cons in Hk as [Hnotin Hk].
      cbn [flat_map List.filter existsb]. specialize (IHk Hk).
      destruct (String.eqb (key a) k) eqn:Hak.
      - apply String.eqb_eq in Hak. subst k.
        assert (Hno : existsb (String.eqb (key a)) ks = false).
        { apply Bool.not_true_iff_false. intros H. apply existsb_eqb_iff in H.
          apply Hnotin, list_elem_of_In, H. }
        rewrite Hno in IHk. cbn [app orb] in IHk |- *. rewrite IHk. reflexivity.
      - cbn [orb]. rewrite IHk.
        destruct (existsb (String.eqb (key a)) ks); cbn [app].
        + symmetry. apply Permutation_middle.
        + reflexivity. }
    rewrite (Hone keys Hnd).
    assert (Hin : existsb (String.eqb (key a)) keys = true).
    { apply existsb_eqb_iff, Hcover. left. reflexivity. }
    rewrite Hin. cbn [app]. constructor. apply IH.
    intros b Hb. apply Hcover. right. exact Hb.
Qed.

Lemma processData_groups_facts (data : list entry) (st : store) :
  let st' := processData data st in
  let group := fun ts => default [] (dataByTimestamp (handler st') !! ts) in
  (forall ts, In ts (getTimestamps st') ->
              dataByTimestamp (handler st') !! ts
              = Some (List.filter (fun e => String.eqb (e_timestamp e) ts) data))
  /\ (forall ts, ~ In ts (getTimestamps st') ->
                 dataByTimestamp (handler st') !! ts = None)
  /\ (forall ts e, In e (group ts) <-> In e data /\ e_timestamp e = ts)
  /\ (forall ts, In ts (getTimestamps st') -> group ts <> [])
  /\ Permutation (flat_map group (getTimestamps st')) data.
Proof.
  intros st' group.
  destruct (processData_timestamps_facts data st) as (_ & Hnd & Hmem & _).
  cbn zeta in Hnd, Hmem. fold st' in Hnd, Hmem.
  assert (Hlook : forall ts,
             dataByTimestamp (handler st') !! ts
             = if existsb (String.eqb ts) (getTimestamps st')
               then Some (List.filter (fun e => String.eqb (e_timestamp e) ts) data)
               else None).
  { intros ts. apply groupByTimestamp_lookup. }
  assert (Hgroup : forall ts, In ts (getTimestamps st') ->
             group ts = List.filter (fun e => String.eqb (e_timestamp e) ts) data).
  { intros ts Hts. unfold group. rewrite Hlook.
    apply existsb_eqb_iff in Hts. rewrite Hts. reflexivity. }
  assert (Hnone : forall ts, ~ In ts (getTimestamps st') ->
             dataByTimestamp (handler st') !! ts = None).
  { intros ts Hts. rewrite Hlook.
    destruct (existsb (String.eqb ts) (getTimestamps st')) eqn:H; [|reflexivity].
    apply existsb_eqb_iff in H. contradiction. }
  split.
  { intros ts Hts. rewrite Hlook. apply existsb_eqb_iff in Hts. rewrite Hts. reflexivity. }
  split; [exact Hnone|]. split; [|split].
  - intros ts e. split.
    + intros Hin. unfold group in Hin. rewrite Hlook in Hin.
      destruct (existsb (String.eqb ts) (getTimestamps st')); [|destruct Hin].
      cbn [default] in Hin. apply filter_In in Hin as [H1 H2].
      apply String.eqb_eq in H2. auto.
    + intros [Hin Hts]. rewrite Hgroup.
      * apply filter_In. split; [exact Hin | apply String.eqb_eq, Hts].
      * apply Hmem. eauto.
  - intros ts Hts Hnil. apply Hmem in Hts as (e & He & Hets).
    assert (Hin : In e (group ts)).
    { rewrite Hgroup by (apply Hmem; eauto).
      apply filter_In. split; [exact He | apply String.eqb_eq, Hets]. }
    rewrite Hnil in Hin. destruct Hin.
  - rewrite (flat_map_ext_In group
               (fun ts => List.filter (fun e => String.eqb (e_timestamp e) ts) data)
               _ Hgroup).
    apply partition_by_key; [exact Hnd|].
    intros e He. apply Hmem. eauto.
Qed.

(** X17. [processData] files every entry under its own timestamp and
    nowhere else: the group of a listed timestamp is the data filtered by
    that timestamp (in upload order, never empty), other timestamps have
    no group, and the groups taken in timestamp order are a permutation
    of the data. *)
Theorem processData_groups (data : list entry) (st : store) :
  let st' := processData data st in
  let group := fun ts => default [] (dataByTimestamp (handler st') !! ts) in
  (forall ts, In ts (getTimestamps st') ->
              dataByTimestamp (handler st') !! ts
              = Some (List.filter (fun e => String.eqb (e_timestamp e) ts) data))
  /\ (forall ts, ~ In ts (getTimestamps st') ->
                 dataByTimestamp (handler st') !! ts = None)
  /\ (forall ts e, In e (group ts) <-> In e data /\ e_timestamp e = ts)
  /\ (forall ts, In ts (getTimestamps st') -> group ts <> [])
  /\ Permutation (flat_map group (getTimestamps st')) data.
Proof. exact (processData_groups_facts data st). Qed.

Lemma find_snoc {A : Type} (p : A -> bool) (l : list A) (x : A) :
  List.find p (l ++ [x])
  = match List.find p l with
    | Some y => Some y
    | None => if p x then Some x else None
    end.
Proof.
  induction l as [|y l IH]; cbn [app List.find]; [reflexivity|].
  destruct (p y); [reflexivity | exact IH].
Qed.

Lemma sm_has_find (id : string) (m : list (string * sensor)) :
  sm_has id m = match List.find (fun kv => String.eqb (fst kv) id) m with
                | Some _ => true
                | None => false
                end.
Proof.
  unfold sm_has. induction m as [|kv m IH]; cbn [existsb List.find]; [reflexivity|].
  destruct (String.eqb (fst kv) id); [reflexivity | exact IH].
Qed.

Lemma addSensor_find (data : list entry) :
  forall (acc : list (string * sensor)) (id : string),
    List.find (fun kv => String.eqb (fst kv) id) (fold_left addSensor data acc)
    = match List.find (fun kv => String.eqb (fst kv) id) acc with
      | Some kv => Some kv
      | None => (fun e => (device_key e, sensorOf e))
                <$> List.find (fun e => String.eqb (device_key e) id) data
      end.
Proof.
  induction data as [|e data IH]; intros acc id; cbn [fold_left List.find].
  - destruct (List.find _ acc); reflexivity.
  - rewrite IH. unfold addSensor. rewrite sm_has_find.
    destruct (List.find (fun kv => String.eqb (fst kv) (device_key e)) acc)
      as [kv0|] eqn:Hacc.
    + destruct (List.find (fun kv => String.eqb (fst kv) id) acc) eqn:Hid;
        [reflexivity|].
      destruct (String.eqb (device_key e) id) eqn:He; [|reflexivity].
      apply String.eqb_eq in He. rewrite He in Hacc. congruence.
    + rewrite find_snoc. cbn [fst].
      destruct (List.find (fun kv => String.eqb (fst kv) id) acc); [reflexivity|].
      destruct (String.eqb (device_key e) id); reflexivity.
Qed.

Lemma addSensor_keys (data : list entry) :
  forall acc : list (string * sensor),
    NoDup (map fst acc) ->
    NoDup (map fst (fold_left addSensor data acc))
    /\ forall id, In id (map fst (fold_left addSensor data acc))
                  <-> In id (map fst acc) \/ exists e, In e data /\ device_key e = id.
Proof.
  induction data as [|e data IH]; intros acc Hnd; cbn [fold_left].
  - split; [exact Hnd|]. intros id. split; [auto|]. intros [H|(e & [] & _)]. exact H.
  - assert (Hhas : sm_has (device_key e) acc = true <-> In (device_key e) (map fst acc)).
    { unfold sm_has. rewrite existsb_exists, in_map_iff. split.
      - intros (kv & Hin & Heq). apply String.eqb_eq in Heq. eauto.
      - intros (kv & Heq & Hin). exists kv. split; [exact Hin|].
        apply String.eqb_eq, Heq. }
    replace (addSensor acc e)
      with (if sm_has (device_key e) acc then acc
            else acc ++ [(device_key e, sensorOf e)]) by reflexivity.
    destruct (sm_has (device_key e) acc) eqn:Hs.
    + destruct (IH acc Hnd) as [H1 H2]. split; [exact H1|].
      intros id. rewrite (H2 id). split.
      * intros [H|(e' & He' & Hid)]; [auto|]. right. exists e'. split; [right|]; auto.
      * intros [H|(e' & [<-|He'] & Hid)]; [auto| |right; eauto].
        left. rewrite <- Hid. apply Hhas. reflexivity.
    + assert (Hnd' : NoDup (map fst (acc ++ [(device_key e, sensorOf e)]))).
      { rewrite map_app. cbn [map fst]. apply NoDup_app.
        split; [exact Hnd|]. split; [|apply NoDup_singleton].
        intros x Hx Hx'. apply list_elem_of_In in Hx, Hx'. destruct Hx' as [<-|[]].
        apply Hhas in Hx. congruence. }
      destruct (IH _ Hnd') as [H1 H2]. split; [exact H1|].
      intros id. rewrite (H2 id), map_app, in_app_iff.
      cbn [map fst In]. split.
      * intros [[H|[<-|[]]]|(e' & He' & Hid)]; [auto| |].
        -- right. exists e. split; [left|]; reflexivity.
        -- right. exists e'. split; [right|]; auto.
      * intros [H|(e' & [<-|He'] & Hid)]; [auto| |right; eauto].
        left. right. left. exact Hid.
Qed.

Lemma processData_sensors_facts (data : list entry) (st : store) :
  let st' := processData data st in
  (forall id, getSensorById id st'
              = sensorOf <$> List.find (fun e => String.eqb (device_key e) id) data)
  /\ NoDup (map fst (getSensors st'))
  /\ (forall id, In id (map fst (getSensors st'))
                 <-> exists e, In e data /\ device_key e = id)
  /\ exists features,
       normalizedData st' = Some features
       /\ map f_id features = map fst (getSensors st')
       /\ forall f, In f features ->
            exists s, getSensorById (f_id f) st' = Some s
                      /\ f_coordinates f = (s_lng s, s_lat s).
Proof.
  intros st'.
  assert (Hfind : forall id,
             List.find (fun kv => String.eqb (fst kv) id) (sensorMap st')
             = (fun e => (device_key e, sensorOf e))
               <$> List.find (fun e => String.eqb (device_key e) id) data).
  { intros id. apply (addSensor_find data [] id). }
  destruct (addSensor_keys data [] (NoDup_nil_2)) as [Hnd Hkeys].
  split.
  { intros id. unfold getSensorById. rewrite Hfind.
    destruct (List.find _ data); reflexivity. }
  split; [exact Hnd|]. split.
  { intros id. unfold getSensors. change (sensorMap st') with (fold_left addSensor data []).
    rewrite (Hkeys id). cbn [map In]. tauto. }
  eexists. split; [reflexivity|]. split.
  { unfold createGeoJSON. rewrite map_map. reflexivity. }
  intros f Hf. unfold createGeoJSON in Hf. apply in_map_iff in Hf as ([id s] & <- & Hin).
  cbn [f_id f_coordinates fst snd]. exists s. split; [|reflexivity].
  unfold getSensorById.
  assert (Hunique : forall (m : list (string * sensor)),
             NoDup (map fst m) -> In (id, s) m ->
             List.find (fun kv => String.eqb (fst kv) id) m = Some (id, s)).
  { clear. induction m as [|[k v] m IH]; intros Hnd Hin; [destruct Hin|].
    cbn [map fst] in Hnd. apply NoDup_cons in Hnd as [Hk Hnd]. cbn [List.find fst].
    destruct Hin as [Heq|Hin].
    - injection Heq as -> ->. rewrite String.eqb_refl. reflexivity.
    - destruct (String.eqb k id) eqn:Hkid.
      + apply String.eqb_eq in Hkid. subst k. exfalso. apply Hk.
        apply list_elem_of_In, in_map_iff. exists (id, s). auto.
      + apply IH; assumption. }
  change (sensorMap st') with (fold_left addSensor data []).
  rewrite (Hunique _ Hnd Hin). reflexivity.
Qed.

(** X18. [processData] registers every sensor once, with the coordinates
    of its first entry (later entries of the same sensor do not move it):
    [getSensorById] returns that sensor and [null] for an unknown id, and
    the GeoJSON collection lists the same sensors in the same order, each
    with [coordinates] [[lng, lat]]. *)
Theorem processData_sensors (data : list entry) (st : store) :
  let st' := processData data st in
  (forall id, getSensorById id st'
              = sensorOf <$> List.find (fun e => String.eqb (device_key e) id) data)
  /\ NoDup (map fst (getSensors st'))
  /\ (forall id, In id (map fst (getSensors st'))
                 <-> exists e, In e data /\ device_key e = id)
  /\ exists features,
       normalizedData st' = Some features
       /\ map f_id features = map fst (getSensors st')
       /\ forall f, In f features ->
            exists s, getSensorById (f_id f) st' = Some s
                      /\ f_coordinates f = (s_lng s, s_lat s).
Proof. exact (processData_sensors_facts data st). Qed.

Lemma withCoordinates_spec (coords : gmap string coordinates) (p : pendingEntry)
    (e : entry) :
  In e (withCoordinates coords p)
  <-> exists la lo,
        coords !! device_key e = Some (mkCoordinates (Some la) (Some lo))
        /\ p_device_key p = Some (device_key e) /\ e_gps e = (la, lo)
        /\ e_timestamp e = p_timestamp p /\ devices e = p_devices p.
Proof.
  unfold withCoordinates. split.
  - destruct (p_device_key p) as [key|]; [|intros []].
    destruct (coords !! key) as [[[la|] [lo|]]|] eqn:Hc; cbn [In]; try tauto.
    intros [<-|[]]. cbn. eauto 10.
  - intros (la & lo & Hc & Hk & Hg & Ht & Hd). rewrite Hk, Hc. left.
    destruct e as [k g t ds]. cbn in *. subst. reflexivity.
Qed.

(** X19. [completePendingData] fails without changing anything when no
    upload is pending, and also when no pending entry has numeric
    coordinates for its sensor (the upload stays pending); otherwise it
    loads exactly the pending entries whose sensor has numeric
    coordinates, in order and with those coordinates, reports the counts
    of sensors, timestamps and entries (each at least 1), clears the
    pending upload, and a second call fails with "No pending data to
    process". *)
Theorem completePendingData_outcomes (st : store) :
  let out := completePendingData st in
  let valid :=
    flat_map (withCoordinates (sensorGpsCoordinates st))
             (default [] (pendingNewFormatData st)) in
  (pendingNewFormatData st = None ->
   out = (Failed "No pending data to process", st))
  /\ (pendingNewFormatData st <> None -> valid = [] ->
      out = (Failed "No entries with valid GPS coordinates", st))
  /\ (pendingNewFormatData st <> None -> valid <> [] ->
      snd out = mkStore (handler (processData valid st)) valid
                        (normalizedData (processData valid st))
                        (sensorMap (processData valid st)) None
                        (sensorGpsCoordinates st)
      /\ fst out = Completed (length (getSensors (snd out)))
                             (length (getTimestamps (snd out))) (length valid)
      /\ (1 <= length (getSensors (snd out)))%nat
      /\ (1 <= length (getTimestamps (snd out)))%nat
      /\ completePendingData (snd out)
         = (Failed "No pending data to process", snd out))
  /\ (forall e, In e valid <->
        exists p la lo,
          In p (default [] (pendingNewFormatData st))
          /\ sensorGpsCoordinates st !! device_key e
             = Some (mkCoordinates (Some la) (Some lo))
          /\ p_device_key p = Some (device_key e) /\ e_gps e = (la, lo)
          /\ e_timestamp e = p_timestamp p /\ devices e = p_devices p).
Proof.
  intros out valid. subst out. unfold completePendingData.
  destruct (pendingNewFormatData st) as [pending|] eqn:Hp; cbn [default] in valid.
  - cbn zeta.
    change (flat_map (withCoordinates (sensorGpsCoordinates st)) pending) with valid.
    assert (Hvalid : valid = flat_map (withCoordinates (sensorGpsCoordinates st)) pending)
      by reflexivity.
    clearbody valid.
    split; [discriminate|]. split; [|split].
    + intros _ Hnil. rewrite Hnil. reflexivity.
    + intros _ Hne.
      assert (Hlen : (length valid =? 0)%nat = false).
      { destruct valid; [congruence | reflexivity]. }
      rewrite Hlen. cbn [fst snd].
      cbn [handler rawData normalizedData sensorMap pendingNewFormatData
           sensorGpsCoordinates processData].
      split; [reflexivity|]. split; [reflexivity|].
      destruct (processData_timestamps_facts valid st) as (_ & _ & _ & Hts).
      destruct (processData_sensors_facts valid st) as (_ & _ & Hsens & _).
      cbn zeta in Hts, Hsens.
      split; [|split; [|reflexivity]].
      * destruct valid as [|e valid']; [congruence|].
        assert (Hin : In (device_key e)
                         (map fst (getSensors (processData (e :: valid') st)))).
        { apply Hsens. exists e. split; [left|]; reflexivity. }
        unfold getSensors in *. cbn [sensorMap processData] in *.
        destruct (fold_left addSensor (e :: valid') []); [destruct Hin | cbn; lia].
      * specialize (Hts Hne).
        unfold getTimestamps in *. cbn [handler timestamps processData] in *.
        destruct (Array_sort _); [congruence | cbn; lia].
    + intros e. rewrite Hvalid, in_flat_map. split.
      * intros (p & Hin & He). apply withCoordinates_spec in He as (la & lo & H).
        exists p, la, lo. tauto.
      * intros (p & la & lo & Hin & H). exists p. split; [exact Hin|].
        apply withCoordinates_spec. exists la, lo. exact H.
  - split; [reflexivity|]. split; [congruence|]. split; [congruence|].
    intros e. subst valid. cbn [flat_map]. split; [intros []|].
    intros (p & _ & _ & [] & _).
Qed.

(** X20. The views of a loaded store agree: [getRawData] is the data,
    and [hasData] is false, [getTimestamps] is empty and [getSensors] is
    empty exactly when the data is empty; [processData] and [clear] keep
    the time window; after [clear] all three are empty and
    [computeAllPositions] returns no position and leaves the controller
    as it is. *)
Theorem store_views_agree (data : list entry) (st : store) :
  let st' := processData data st in
  getRawData st' = data
  /\ (hasData st' = true <-> data <> [])
  /\ (getTimestamps st' = [] <-> data = [])
  /\ (getSensors st' = [] <-> data = [])
  /\ getTimeWindow st' = getTimeWindow st
  /\ hasData (clear st') = false
  /\ getTimestamps (clear st') = [] /\ getSensors (clear st') = []
  /\ getTimeWindow (clear st') = getTimeWindow st
  /\ (forall (getTime : string -> option Z) (session : lateration) (now : Z)
             (timestamp : string),
        computeAllPositions getTime (handler (clear st')) session now timestamp
        = ([], session)).
Proof.
  intros st'.
  destruct (processData_timestamps_facts data st) as (_ & _ & Hmem & Hts).
  destruct (processData_sensors_facts data st) as (_ & _ & Hsens & _).
  cbn zeta in Hmem, Hts, Hsens. fold st' in Hmem, Hts, Hsens.
  split; [reflexivity|]. split; [|split; [|split]].
  - unfold hasData. change (rawData st') with data.
    destruct data; cbn; split; congruence.
  - split; [|intros ->; reflexivity].
    intros Hnil. destruct data as [|e data]; [reflexivity|].
    exfalso. apply Hts; [discriminate | exact Hnil].
  - split; [|intros ->; reflexivity].
    intros Hnil. destruct data as [|e data]; [reflexivity|].
    assert (Hin : In (device_key e) (map fst (getSensors st'))).
    { apply Hsens. exists e. split; [left|]; reflexivity. }
    rewrite Hnil in Hin. destruct Hin.
  - repeat (split; [reflexivity|]).
    intros getTime session now timestamp. destruct session. reflexivity.
Qed.

Lemma in_windowReadings (getTime : string -> option Z) (dh : dataHandler)
    (timestamp : string) (r : reading) :
  In r (windowReadings getTime dh timestamp) <->
  In (rd_ts r) (timestamps dh)
  /\ (exists c t, getTime timestamp = Some c /\ getTime (rd_ts r) = Some t
                  /\ (Z.abs (t - c) <= TIME_WINDOW_MS dh)%Z
                  /\ rd_offset r = (t - c)%Z)
  /\ In (rd_entry r) (default [] (dataByTimestamp dh !! rd_ts r))
  /\ In (rd_device r) (devices (rd_entry r)).
Proof.
  unfold windowReadings. rewrite in_flat_map. split.
  - intros (ts & Hts & Hr). apply in_timestampReadings in Hr as (<- & Hw & He & Hd).
    apply inWindow_iff in Hw. auto.
  - intros (Hts & Hw & He & Hd). exists (rd_ts r). split; [exact Hts|].
    apply in_timestampReadings. split; [reflexivity|].
    split; [apply inWindow_iff; exact Hw|]. auto.
Qed.

Lemma dm_push_In (mac : string) (o : obs) (dm : deviceMap) (k : string)
    (l : list obs) :
  In (k, l) (dm_push mac o dm) ->
  exists l0, In (k, l0) dm /\ (l = l0 \/ (k = mac /\ l = l0 ++ [o])).
Proof.
  unfold dm_push. rewrite in_map_iff. intros ([k0 l0] & Heq & Hin).
  cbn [fst snd] in Heq. destruct (String.eqb k0 mac) eqn:Hk.
  - apply String.eqb_eq in Hk. injection Heq as <- <-. exists l0. auto.
  - injection Heq as <- <-. exists l0. auto.
Qed.

(** Every observation of the aggregated map is the reading of its device
    at some timestamp of the window. *)
Lemma readingStep_sound (l : list reading) :
  forall (seen : list reading) (acc : deviceMap * gset string),
    (forall k obsl o, In (k, obsl) (fst acc) -> In o obsl ->
                      exists r, In r seen /\ rd_mac r = k /\ rd_obs r = o) ->
    forall k obsl o,
      In (k, obsl) (fst (fold_left readingStep l acc)) -> In o obsl ->
      exists r, In r (seen ++ l) /\ rd_mac r = k /\ rd_obs r = o.
Proof.
  induction l as [|r l IH]; intros seen acc Hacc k obsl o Hin Ho.
  - cbn [fold_left] in Hin. rewrite app_nil_r. eauto.
  - cbn [fold_left] in Hin.
    replace (seen ++ r :: l) with ((seen ++ [r]) ++ l)
      by (rewrite <- app_assoc; reflexivity).
    apply (IH (seen ++ [r]) (readingStep acc r)) with (obsl := obsl); auto.
    clear k obsl o Hin Ho. intros k obsl o Hin Ho.
    destruct acc as [dm processed]. unfold readingStep, deviceStep in Hin.
    cbn [fst] in Hacc.
    destruct (bool_decide _).
    + cbn [fst] in Hin. destruct (Hacc k obsl o Hin Ho) as (r' & Hr' & H).
      exists r'. split; [apply in_or_app; left; exact Hr' | exact H].
    + cbn [fst] in Hin. apply dm_push_In in Hin as (l0 & Hl0 & Hcase).
      assert (Hold : forall o', In o' l0 ->
                exists r', In r' (seen ++ [r]) /\ rd_mac r' = k /\ rd_obs r' = o').
      { intros o' Ho'.
        destruct (dm_has (d_mac_hashed (rd_device r)) dm).
        - destruct (Hacc k l0 o' Hl0 Ho') as (r' & Hr' & H).
          exists r'. split; [apply in_or_app; left; exact Hr' | exact H].
        - apply in_app_or in Hl0 as [Hl0|[Heq|[]]].
          + destruct (Hacc k l0 o' Hl0 Ho') as (r' & Hr' & H).
            exists r'. split; [apply in_or_app; left; exact Hr' | exact H].
          + injection Heq as _ <-. destruct Ho'. }
      destruct Hcase as [->|[-> ->]]; [apply Hold, Ho|].
      apply in_app_or in Ho as [Ho|[<-|[]]]; [apply Hold, Ho|].
      exists r. split; [apply in_or_app; right; left; reflexivity|].
      split; reflexivity.
Qed.

Lemma getDevicesInTimeWindow_sound (getTime : string -> option Z)
    (dh : dataHandler) (timestamp : string) (mac : string) (l : list obs) (o : obs) :
  In (mac, l) (getDevicesInTimeWindow getTime dh timestamp) -> In o l ->
  exists r, In r (windowReadings getTime dh timestamp)
            /\ rd_mac r = mac /\ rd_obs r = o.
Proof.
  rewrite getDevicesInTimeWindow_flat. intros Hin Ho.
  apply (readingStep_sound _ [] ([], ∅)) with (obsl := l); auto.
  intros k obsl o' [].
Qed.

Lemma groupByDevice_In (l : list reading) (r : reading) :
  In r l ->
  In (rd_mac r,
      map rd_obs (List.filter (fun r' => String.eqb (rd_mac r') (rd_mac r)) l))
     (groupByDevice l)
  /\ In (rd_obs r)
        (map rd_obs (List.filter (fun r' => String.eqb (rd_mac r') (rd_mac r)) l)).
Proof.
  intros Hr. split.
  - unfold groupByDevice. apply in_map_iff. exists (rd_mac r). split; [reflexivity|].
    apply keepFirst_eqb_In, in_map, Hr.
  - apply in_map, filter_In. split; [exact Hr | apply String.eqb_refl].
Qed.

(** X21. Widening the time window loses nothing: when the keys of the
    wider window's readings tell the (sensor, device) pairs apart, every
    device the aggregator finds with the smaller window it also finds
    with the wider one, with a reading from every sensor that had one. *)
Theorem wider_window_sees_more (getTime : string -> option Z) (dh : dataHandler)
    (timestamp : string) (w w' : Z) :
  (w <= w')%Z ->
  keysInjective (windowReadings getTime (setTimeWindow w' dh) timestamp) ->
  forall mac l o,
    In (mac, l) (getDevicesInTimeWindow getTime (setTimeWindow w dh) timestamp) ->
    In o l ->
    exists l' o',
      In (mac, l') (getDevicesInTimeWindow getTime (setTimeWindow w' dh) timestamp)
      /\ In o' l' /\ sensor_id o' = sensor_id o.
Proof.
  intros Hw Hinj mac l o Hin Ho.
  destruct (getDevicesInTimeWindow_sound _ _ _ _ _ _ Hin Ho) as (r & Hr & Hmac & Hobs).
  assert (Hr' : In r (windowReadings getTime (setTimeWindow w' dh) timestamp)).
  { apply in_windowReadings. apply in_windowReadings in Hr.
    destruct Hr as (Hts & (c & t & Hc & Ht & Habs & Hoff) & He & Hd).
    cbn [setTimeWindow timestamps dataByTimestamp TIME_WINDOW_MS] in *.
    split; [exact Hts|]. split; [|auto].
    exists c, t. repeat split; auto. lia. }
  rewrite (getDevicesInTimeWindow_first_seen _ _ _ Hinj). unfold specAggregate.
  destruct (firstSeen_one_per_pair
              (windowReadings getTime (setTimeWindow w' dh) timestamp))
    as [_ Hfirst].
  destruct (Hfirst r Hr') as (r1 & Hr1 & Hsame).
  unfold samePair in Hsame. apply andb_prop in Hsame as [Hs Hm].
  apply String.eqb_eq in Hs, Hm.
  destruct (groupByDevice_In _ r1 Hr1) as [Hgroup Hmem].
  rewrite Hm, Hmac in Hgroup.
  eexists _, (rd_obs r1). split; [exact Hgroup|]. split.
  - rewrite <- Hmac, <- Hm. exact Hmem.
  - rewrite <- Hobs. exact Hs.
Qed.

Lemma wider_window_sees_more_witness :
  (5000 <= 15000)%Z
  /\ exists l' o',
       In ("D"%string, l')
          (getDevicesInTimeWindow exampleTime (setTimeWindow 15000 asyncStore)
                                  "2025-01-15T10:30:12Z")
       /\ In o' l' /\ sensor_id o' = "B"%string.
Proof.
  split; [lia|].
  assert (Hinj : keysInjective
                   (windowReadings exampleTime (setTimeWindow 15000 asyncStore)
                                   "2025-01-15T10:30:12Z")).
  { apply keysInjective_plain_sensors. apply List.Forall_forall. intros r Hr.
    vm_compute in Hr. destruct Hr as [<-|[<-|[]]]; reflexivity. }
  set (oB := mkObs "B" (Num 50.001) (Num 6) (Num 7) (Some (Num (-60))) None
                   (Some "2025-01-15T10:30:12Z"%string) (Some 0%Z)).
  destruct (wider_window_sees_more exampleTime asyncStore "2025-01-15T10:30:12Z"
              5000 15000 ltac:(lia) Hinj "D" [oB] oB)
    as (l' & o' & H1 & H2 & H3).
  - vm_compute. left. reflexivity.
  - left. reflexivity.
  - exists l', o'. auto.
Defined.

Lemma StronglySorted_weaken {A : Type} (R R' : A -> A -> Prop) (l : list A) :
  (forall a b, In a l -> In b l -> R a b -> R' a b) ->
  StronglySorted R l -> StronglySorted R' l.
Proof.
  intros Himp Hs. induction Hs as [|a l Hs IH Hall]; constructor.
  - apply IH. intros x y Hx Hy. apply Himp; right; assumption.
  - rewrite List.Forall_forall in *. intros b Hb.
    apply Himp; [left; reflexivity | right; exact Hb | apply Hall, Hb].
Qed.

(** X22. In a store loaded by [processData] whose timestamps are ordered
    in time as they are as strings (one ISO-8601 format, say) and whose
    sensor identifiers contain no underscore, the aggregator returns the
    first-seen reading of every (sensor, device) pair grouped by device,
    every reading comes from an uploaded entry, and the reading kept for
    a pair is the earliest one in the window, not the one nearest to the
    target time. *)
Theorem processed_store_earliest_wins (getTime : string -> option Z)
    (data : list entry) (st : store) (timestamp : string) :
  let dh := handler (processData data st) in
  let window := windowReadings getTime dh timestamp in
  (forall a b ta tb, In a (timestamps dh) -> In b (timestamps dh) ->
                     String.ltb a b = true ->
                     getTime a = Some ta -> getTime b = Some tb -> (ta <= tb)%Z) ->
  Forall (fun e => hasUnderscore (device_key e) = false) data ->
  getDevicesInTimeWindow getTime dh timestamp = groupByDevice (firstSeen window)
  /\ (forall r, In r window -> In (rd_entry r) data /\ e_timestamp (rd_entry r) = rd_ts r)
  /\ (forall r r', In r (firstSeen window) -> In r' window -> samePair r r' = true ->
                   (rd_offset r <= rd_offset r')%Z).
Proof.
  intros dh window Hmono Hplain.
  destruct (processData_timestamps_facts data st) as (Hsorted & _).
  destruct (processData_groups_facts data st) as (_ & _ & Hgroup & _).
  cbn zeta in Hsorted, Hgroup. unfold getTimestamps in Hsorted. fold dh in Hsorted, Hgroup.
  assert (Hentry : forall r, In r window ->
             In (rd_entry r) data /\ e_timestamp (rd_entry r) = rd_ts r).
  { intros r Hr. apply in_windowReadings in Hr as (_ & _ & He & _).
    apply Hgroup in He. exact He. }
  assert (Hinj : keysInjective window).
  { apply keysInjective_plain_sensors. apply List.Forall_forall. intros r Hr.
    rewrite List.Forall_forall in Hplain. apply Hplain, Hentry, Hr. }
  assert (Hchron : chronological getTime (timestamps dh)).
  { unfold chronological. eapply StronglySorted_weaken; [|exact Hsorted].
    intros a b Ha Hb Hab ta tb. apply Hmono; assumption. }
  split; [apply (getDevicesInTimeWindow_first_seen _ _ _ Hinj)|].
  split; [exact Hentry|].
  intros r r' Hr Hr' Hsame.
  apply (keepFirst_precedes samePair (fun a b => (rd_offset a <= rd_offset b)%Z) window);
    auto.
  - intros a. lia.
  - apply samePair_sym.
  - apply windowReadings_sorted, Hchron.
Qed.

Lemma processed_store_earliest_wins_witness :
  getTimestamps (processData asyncData emptyStore)
  = ["2025-01-15T10:30:00Z"%string; "2025-01-15T10:30:12Z"%string]
  /\ Forall (fun e => hasUnderscore (device_key e) = false) asyncData
  /\ getDevicesInTimeWindow exampleTime (handler (processData asyncData emptyStore))
                            "2025-01-15T10:30:12Z"
     = groupByDevice
         (firstSeen (windowReadings exampleTime
                       (handler (processData asyncData emptyStore))
                       "2025-01-15T10:30:12Z")).
Proof.
  assert (Hts : getTimestamps (processData asyncData emptyStore)
                = ["2025-01-15T10:30:00Z"%string; "2025-01-15T10:30:12Z"%string])
    by (vm_compute; reflexivity).
  assert (Hplain : Forall (fun e => hasUnderscore (device_key e) = false) asyncData)
    by (repeat constructor).
  split; [exact Hts|]. split; [exact Hplain|].
  apply (processed_store_earliest_wins exampleTime asyncData emptyStore
           "2025-01-15T10:30:12Z"); [|exact Hplain].
  unfold getTimestamps in Hts. rewrite Hts.
  intros a b ta tb [<-|[<-|[]]] [<-|[<-|[]]] Hlt Ha Hb;
    vm_compute in Hlt; try discriminate;
    vm_compute in Ha, Hb; injection Ha as <-; injection Hb as <-; lia.
Defined.

(** ** Realtime path: buffering and the positions shown *)

Lemma find_key_None {B : Type} (m : list (string * B)) (k : string) :
  List.find (fun kv => String.eqb (fst kv) k) m = None <-> ~ In k (map fst m).
Proof.
  induction m as [|[k0 v] m IH]; cbn [List.find map fst In]; [tauto|].
  destruct (String.eqb k0 k) eqn:Hk.
  - apply String.eqb_eq in Hk. split; [discriminate|]. intros H. exfalso. auto.
  - apply String.eqb_neq in Hk. rewrite IH. tauto.
Qed.

Lemma find_key_Some {B : Type} (m : list (string * B)) (k : string)
    (kv : string * B) :
  List.find (fun kv => String.eqb (fst kv) k) m = Some kv -> In kv m /\ fst kv = k.
Proof.
  intros H. apply find_some in H as [H1 H2]. apply String.eqb_eq in H2. auto.
Qed.

Lemma replace_keys {B : Type} (m : list (string * B)) (k : string) (v : B) :
  map fst (map (fun kv => if String.eqb (fst kv) k then (fst kv, v) else kv) m)
  = map fst m.
Proof.
  rewrite map_map. apply map_ext. intros kv.
  destruct (String.eqb (fst kv) k); reflexivity.
Qed.

Lemma bySensor_fold (l : list bufferedReading) :
  let m := fold_left bySensorStep l [] in
  map fst m = sensorsOfReadings l
  /\ NoDup (map fst m)
  /\ forall s r, In (s, r) m ->
       In r l /\ b_sensor_id r = s
       /\ forall r', In r' l -> b_sensor_id r' = s ->
                     (b_timestamp r' <= b_timestamp r)%Z.
Proof.
  unfold sensorsOfReadings.
  induction l as [|x l IH] using rev_ind; cbn zeta.
  - split; [reflexivity|]. split; [constructor|]. intros s r [].
  - rewrite fold_left_app. cbn [fold_left].
    set (m := fold_left bySensorStep l []) in *.
    destruct IH as (Hkeys & Hnd & Hmax).
    rewrite map_app. cbn [map]. rewrite keepFirst_snoc.
    assert (Hex : existsb (fun a => String.eqb a (b_sensor_id x)) (map b_sensor_id l)
                  = true <-> In (b_sensor_id x) (map fst m)).
    { rewrite Hkeys, keepFirst_eqb_In. apply existsb_eqb_In. }
    unfold bySensorStep.
    destruct (List.find (fun kv => String.eqb (fst kv) (b_sensor_id x)) m)
      as [existing|] eqn:Hfind.
    + apply find_key_Some in Hfind as [Hin Hk].
      assert (Hmem : In (b_sensor_id x) (map fst m)).
      { rewrite <- Hk. apply in_map, Hin. }
      rewrite (proj2 Hex Hmem), app_nil_r.
      destruct existing as [s0 r0]. cbn [fst snd] in *. subst s0.
      destruct (Hmax _ _ Hin) as (Hr0 & Hs0 & Hr0max).
      destruct (b_timestamp r0 <? b_timestamp x)%Z eqn:Hlt.
      * apply Z.ltb_lt in Hlt. rewrite replace_keys.
        split; [exact Hkeys|]. split; [exact Hnd|].
        intros s r Hsr. apply in_map_iff in Hsr as ([s1 r1] & Heq & Hin1).
        cbn [fst] in Heq. destruct (String.eqb s1 (b_sensor_id x)) eqn:Hs1.
        -- apply String.eqb_eq in Hs1. injection Heq as <- <-. subst s1.
           split; [apply in_or_app; right; left; reflexivity|].
           split; [reflexivity|].
           intros r' Hr' Hs'. apply in_app_or in Hr' as [Hr'|[<-|[]]]; [|lia].
           specialize (Hr0max r' Hr' Hs'). lia.
        -- injection Heq as <- <-. destruct (Hmax _ _ Hin1) as (H1 & H2 & H3).
           split; [apply in_or_app; left; exact H1|]. split; [exact H2|].
           intros r' Hr' Hs'. apply in_app_or in Hr' as [Hr'|[<-|[]]]; [auto|].
           apply String.eqb_neq in Hs1. congruence.
      * apply Z.ltb_ge in Hlt.
        split; [exact Hkeys|]. split; [exact Hnd|].
        intros s r Hsr. destruct (Hmax _ _ Hsr) as (H1 & H2 & H3).
        split; [apply in_or_app; left; exact H1|]. split; [exact H2|].
        intros r' Hr' Hs'. apply in_app_or in Hr' as [Hr'|[<-|[]]]; [auto|].
        assert (Heq : r = r0).
        { apply (NoDup_fst_functional m s r r0 Hnd Hsr). rewrite <- Hs'. exact Hin. }
        subst r. lia.
    + apply find_key_None in Hfind.
      assert (Hno : existsb (fun a => String.eqb a (b_sensor_id x)) (map b_sensor_id l)
                    = false).
      { apply Bool.not_true_iff_false. intros H. apply Hfind, Hex, H. }
      rewrite Hno, map_app. cbn [map fst]. rewrite Hkeys.
      split; [reflexivity|]. split.
      * rewrite <- Hkeys. apply NoDup_app. split; [exact Hnd|].
        split; [|apply NoDup_singleton].
        intros k Hk Hk'. apply list_elem_of_In in Hk, Hk'. destruct Hk' as [<-|[]].
        contradiction.
      * intros s r Hsr. apply in_app_or in Hsr as [Hsr|[Heq|[]]].
        -- destruct (Hmax _ _ Hsr) as (H1 & H2 & H3).
           split; [apply in_or_app; left; exact H1|]. split; [exact H2|].
           intros r' Hr' Hs'. apply in_app_or in Hr' as [Hr'|[<-|[]]]; [auto|].
           exfalso. apply Hfind. rewrite Hs'. apply in_map_iff. exists (s, r). auto.
        -- injection Heq as <- <-.
           split; [apply in_or_app; right; left; reflexivity|].
           split; [reflexivity|].
           intros r' Hr' Hs'. apply in_app_or in Hr' as [Hr'|[<-|[]]]; [|lia].
           exfalso. apply Hfind, Hex, existsb_eqb_In.
           rewrite <- Hs'. apply in_map, Hr'.
Qed.

Lemma realtimeObservations_ids (l : list bufferedReading) :
  map sensor_id (realtimeObservations l) = sensorsOfReadings l.
Proof.
  unfold realtimeObservations.
  destruct (bySensor_fold l) as (Hkeys & _ & Hmax). cbn zeta in *.
  rewrite <- Hkeys, map_map. apply map_ext_in. intros [s r] Hin.
  cbn [snd fst observationOf sensor_id].
  destruct (Hmax s r Hin) as (_ & H & _). exact H.
Qed.

(** X23. The realtime path hands the solver one observation per sensor
    that reported in the window, in order of first appearance: each is
    built from a reading of that sensor that no other reading of the same
    sensor postdates, and none carries [mac_hashed]. *)
Theorem realtimeObservations_latest (recentReadings : list bufferedReading) :
  let observations := realtimeObservations recentReadings in
  map sensor_id observations = sensorsOfReadings recentReadings
  /\ NoDup (map sensor_id observations)
  /\ (forall s, In s (map sensor_id observations)
                <-> exists r, In r recentReadings /\ b_sensor_id r = s)
  /\ (forall o, In o observations ->
        exists r, In r recentReadings /\ o = observationOf r
                  /\ forall r', In r' recentReadings ->
                                b_sensor_id r' = b_sensor_id r ->
                                (b_timestamp r' <= b_timestamp r)%Z)
  /\ Forall (fun o => mac_hashed o = None) observations.
Proof.
  intros observations. subst observations. unfold realtimeObservations.
  destruct (bySensor_fold recentReadings) as (Hkeys & Hnd & Hmax). cbn zeta in *.
  set (m := fold_left bySensorStep recentReadings []) in *.
  assert (Hids : map sensor_id (map (fun kv => observationOf (snd kv)) m) = map fst m).
  { rewrite map_map. apply map_ext_in. intros [s r] Hin. cbn [snd fst observationOf sensor_id].
    destruct (Hmax s r Hin) as (_ & H & _). exact H. }
  rewrite Hids. split; [exact Hkeys|]. split; [exact Hnd|]. split; [|split].
  - intros s. rewrite Hkeys. unfold sensorsOfReadings.
    rewrite keepFirst_eqb_In, in_map_iff. split; intros (r & H1 & H2); eauto.
  - intros o Ho. apply in_map_iff in Ho as ([s r] & <- & Hin). cbn [snd].
    destruct (Hmax s r Hin) as (H1 & H2 & H3).
    exists r. split; [exact H1|]. split; [reflexivity|].
    intros r' Hr' Hs'. apply H3; congruence.
  - apply List.Forall_forall. intros o Ho. apply in_map_iff in Ho as (kv & <- & _).
    reflexivity.
Qed.

Lemma realtimeStep_devices (cutoffTime : Z) (mac : string)
    (readings : list bufferedReading) (dp : realtimeDevice) :
  In dp (snd (realtimeStep cutoffTime (mac, readings))) ->
  let recent := List.filter (fun r => (cutoffTime <=? b_timestamp r)%Z) readings in
  rt_macHashed dp = mac
  /\ trilaterate (realtimeObservations recent) = Some (rt_result dp)
  /\ isNaN (lat (rt_result dp)) = false /\ isNaN (lng (rt_result dp)) = false
  /\ rt_sensorCount dp = length (sensorsOfReadings recent).
Proof.
  unfold realtimeStep. cbn zeta.
  set (recent := List.filter (fun r => (cutoffTime <=? b_timestamp r)%Z) readings).
  assert (Hlen : length (realtimeObservations recent) = length (sensorsOfReadings recent)).
  { rewrite <- realtimeObservations_ids, length_map. reflexivity. }
  destruct recent as [|r0 recent'] eqn:Hrecent; [intros []|].
  cbn [snd]. destruct (trilaterate _) as [r|]; [|intros []].
  destruct (negb (isNaN (lat r)) && negb (isNaN (lng r))) eqn:Hk; [|intros []].
  intros [<-|[]]. cbn [rt_macHashed rt_result rt_sensorCount].
  apply andb_prop in Hk as [H1 H2]. apply negb_true_iff in H1, H2.
  rewrite Hlen. auto.
Qed.

Lemma realtimeStep_buffer (cutoffTime : Z) (kv : string * list bufferedReading) :
  fst (realtimeStep cutoffTime kv)
  = match List.filter (fun r => (cutoffTime <=? b_timestamp r)%Z) (snd kv) with
    | [] => []
    | l => [(fst kv, l)]
    end.
Proof.
  destruct kv as [mac readings]. unfold realtimeStep. cbn [fst snd].
  destruct (List.filter _ readings); reflexivity.
Qed.

Lemma computeRealtimePositions_buffer (now : Z) (buf : readingsBuffer)
    (currentDevices : list realtimeDevice) (mac : string)
    (l : list bufferedReading) :
  In (mac, l) (fst (computeRealtimePositions now buf currentDevices))
  <-> exists readings,
        In (mac, readings) buf
        /\ l = List.filter (fun r => (now - REALTIME_TIME_WINDOW_MS
                                      <=? b_timestamp r)%Z) readings
        /\ l <> [].
Proof.
  unfold computeRealtimePositions. cbn [fst]. rewrite in_flat_map. split.
  - intros (x & Hx & Hin). apply in_map_iff in Hx as ([mac0 readings] & <- & Hin0).
    rewrite realtimeStep_buffer in Hin. cbn [fst snd] in Hin.
    destruct (List.filter _ readings) as [|r0 l0] eqn:Hr; [destruct Hin|].
    destruct Hin as [Heq|[]]. injection Heq as <- <-.
    exists readings. rewrite Hr. split; [exact Hin0|]. split; [reflexivity|discriminate].
  - intros (readings & Hin & -> & Hne).
    exists (realtimeStep (now - REALTIME_TIME_WINDOW_MS) (mac, readings)).
    split; [apply in_map, Hin|]. rewrite realtimeStep_buffer. cbn [fst snd].
    destruct (List.filter _ readings); [congruence | left; reflexivity].
Qed.

(** X24. [computeRealtimePositions] keeps in the buffer exactly the
    readings of the last 15 s, dropping devices left without any, in
    buffer order.  A device it reports has the solver's result for its
    latest-per-sensor observations, with neither [lat] nor [lng] [NaN];
    its [sensorCount] is the number of sensors that reported in the
    window, which is at least the number of observations the solver kept
    and on which alone the quality depends.  When no device of the buffer
    yields a position, [currentDevices] stays as it was. *)
Theorem computeRealtimePositions_spec (now : Z) (buf : readingsBuffer)
    (currentDevices : list realtimeDevice) :
  let cutoffTime := (now - REALTIME_TIME_WINDOW_MS)%Z in
  let recentOf := fun readings =>
    List.filter (fun r => (cutoffTime <=? b_timestamp r)%Z) readings in
  let out := computeRealtimePositions now buf currentDevices in
  (forall mac l, In (mac, l) (fst out) <->
                 exists readings, In (mac, readings) buf /\ l = recentOf readings
                                  /\ l <> [])
  /\ map fst (fst out)
     = map fst (List.filter (fun kv => (0 <? length (recentOf (snd kv)))%nat) buf)
  /\ (forall dp, In dp (snd out) ->
        In dp currentDevices
        \/ exists readings,
             In (rt_macHashed dp, readings) buf
             /\ trilaterate (realtimeObservations (recentOf readings))
                = Some (rt_result dp)
             /\ isNaN (lat (rt_result dp)) = false
             /\ isNaN (lng (rt_result dp)) = false
             /\ rt_sensorCount dp = length (sensorsOfReadings (recentOf readings))
             /\ (sensorCount (rt_result dp) <= rt_sensorCount dp)%nat
             /\ r_qualityLevel (rt_result dp)
                = getQualityLevel (sensorCount (rt_result dp)))
  /\ ((forall kv, In kv buf ->
         keptResult (trilaterate (realtimeObservations (recentOf (snd kv)))) = false
         \/ recentOf (snd kv) = []) ->
      snd out = currentDevices).
Proof.
  intros cutoffTime recentOf out. subst out. unfold computeRealtimePositions.
  fold cutoffTime. cbn [fst snd].
  assert (Hfst : forall kv,
             fst (realtimeStep cutoffTime kv)
             = match recentOf (snd kv) with
               | [] => []
               | l => [(fst kv, l)]
               end).
  { intros [mac readings]. unfold realtimeStep, recentOf. cbn [fst snd].
    destruct (List.filter _ readings); reflexivity. }
  split; [|split; [|split]].
  - intros mac l.
    apply (computeRealtimePositions_buffer now buf currentDevices mac l).
  - induction buf as [|kv buf IH]; [reflexivity|].
    cbn [map flat_map List.filter]. rewrite map_app, IH, Hfst.
    destruct (recentOf (snd kv)); reflexivity.
  - intros dp Hdp.
    destruct (0 <? length (flat_map snd (map (realtimeStep cutoffTime) buf)))%nat;
      [|left; exact Hdp].
    right. apply in_flat_map in Hdp as (x & Hx & Hin).
    apply in_map_iff in Hx as ([mac readings] & <- & Hin0).
    destruct (realtimeStep_devices cutoffTime mac readings dp Hin)
      as (Hmac & Htri & Hlat & Hlng & Hcount).
    fold (recentOf readings) in Htri, Hcount.
    exists readings. rewrite Hmac. split; [exact Hin0|].
    split; [exact Htri|]. split; [exact Hlat|]. split; [exact Hlng|].
    split; [exact Hcount|].
    destruct (trilaterate_Some_fields _ _ Htri) as (_ & Hn & Hq & _).
    split; [|exact Hq].
    rewrite Hn, Hcount.
    rewrite <- realtimeObservations_ids, length_map. apply filter_length_le.
  - intros Hnone.
    assert (Hnil : flat_map snd (map (realtimeStep cutoffTime) buf) = []).
    { induction buf as [|[mac readings] buf IH]; [reflexivity|].
      cbn [map flat_map]. rewrite IH by (intros kv Hkv; apply Hnone; right; exact Hkv).
      rewrite app_nil_r. unfold realtimeStep. fold (recentOf readings).
      destruct (Hnone (mac, readings) (or_introl eq_refl)) as [Hk|Hk]; cbn [snd] in Hk.
      - destruct (recentOf readings); [reflexivity|]. cbn [snd].
        unfold keptResult in Hk. destruct (trilaterate _) as [r|]; [|reflexivity].
        rewrite Hk. reflexivity.
      - rewrite Hk. reflexivity. }
    rewrite Hnil. reflexivity.
Qed.

Lemma rb_push_grows (mac : string) (r : bufferedReading) (buf : readingsBuffer)
    (k : string) (l : list bufferedReading) :
  In (k, l) buf ->
  exists l', In (k, l ++ l') (rb_push mac r buf)
             /\ (k = mac -> l' = [r]).
Proof.
  intros Hin. unfold rb_push. destruct (String.eqb k mac) eqn:Hk.
  - exists [r]. split; [|auto]. apply in_map_iff. exists (k, l). cbn [fst snd].
    rewrite Hk. auto.
  - exists []. rewrite app_nil_r. split.
    + apply in_map_iff. exists (k, l). cbn [fst]. rewrite Hk. auto.
    + intros ->. rewrite String.eqb_refl in Hk. discriminate.
Qed.

Lemma bufferStep_grows (now : Z) (e : entry) (buf : readingsBuffer) (d : device)
    (k : string) (l : list bufferedReading) :
  In (k, l) buf -> exists l', In (k, l ++ l') (bufferStep now e buf d).
Proof.
  intros Hin. unfold bufferStep.
  destruct (String.eqb (d_mac_hashed d) ""); [exists []; rewrite app_nil_r; exact Hin|].
  destruct (rb_push_grows (d_mac_hashed d) (bufferedOf now e d)
              (if rb_has (d_mac_hashed d) buf then buf
               else buf ++ [(d_mac_hashed d, [])]) k l) as (l' & H & _).
  - destruct (rb_has _ buf); [exact Hin | apply in_or_app; left; exact Hin].
  - eauto.
Qed.

Lemma bufferFold_grows (now : Z) (e : entry) (ds : list device) :
  forall (buf : readingsBuffer) (k : string) (l : list bufferedReading),
    In (k, l) buf -> exists l', In (k, l ++ l') (fold_left (bufferStep now e) ds buf).
Proof.
  induction ds as [|d ds IH]; intros buf k l Hin; cbn [fold_left].
  - exists []. rewrite app_nil_r. exact Hin.
  - destruct (bufferStep_grows now e buf d k l Hin) as (l1 & H1).
    destruct (IH _ _ _ H1) as (l2 & H2). exists (l1 ++ l2).
    rewrite app_assoc. exact H2.
Qed.

Lemma bufferStep_pushes (now : Z) (e : entry) (buf : readingsBuffer) (d : device) :
  d_mac_hashed d <> ""%string ->
  exists l, In (d_mac_hashed d, l ++ [bufferedOf now e d]) (bufferStep now e buf d).
Proof.
  intros Hmac. unfold bufferStep.
  apply String.eqb_neq in Hmac. rewrite Hmac.
  assert (Hkey : exists l, In (d_mac_hashed d, l)
                              (if rb_has (d_mac_hashed d) buf then buf
                               else buf ++ [(d_mac_hashed d, [])])).
  { destruct (rb_has (d_mac_hashed d) buf) eqn:Hhas.
    - unfold rb_has in Hhas. apply existsb_exists in Hhas as ([k l] & Hin & Hk).
      apply String.eqb_eq in Hk. cbn [fst] in Hk. subst k. eauto.
    - exists []. apply in_or_app. right. left. reflexivity. }
  destruct Hkey as (l & Hl).
  destruct (rb_push_grows (d_mac_hashed d) (bufferedOf now e d) _ _ _ Hl) as (l' & H & Hl').
  rewrite (Hl' eq_refl) in H. eauto.
Qed.

(** X25. A message with a device list schedules a computation; when that
    computation runs on the buffer the message left, at most 15 s after
    the message arrived, the reading of each device of the message that
    has a [mac_hashed] is kept in the buffer; and the sensor of the
    message is registered afterwards, with the coordinates of the message
    if it was new and with its old coordinates otherwise. *)
Theorem realtime_report_is_used (now now' : Z) (e : entry) (d : device)
    (sensors : list (string * sensor)) (buf : readingsBuffer)
    (currentDevices : list realtimeDevice) :
  In d (devices e) -> d_mac_hashed d <> ""%string ->
  (now' - REALTIME_TIME_WINDOW_MS <= now)%Z ->
  let '(sensors', buf', scheduled) := handleRealtimeMessage now e sensors buf in
  let out := computeRealtimePositions now' buf' currentDevices in
  scheduled = true
  /\ (exists l, In (d_mac_hashed d, l) (fst out) /\ In (bufferedOf now e d) l)
  /\ (exists s, snd <$> List.find (fun kv => String.eqb (fst kv) (device_key e)) sensors'
                = Some s
                /\ (snd <$> List.find (fun kv => String.eqb (fst kv) (device_key e))
                                      sensors = None -> s = sensorOf e)
                /\ (forall s0, snd <$> List.find (fun kv => String.eqb (fst kv)
                                                              (device_key e)) sensors
                               = Some s0 -> s = s0)).
Proof.
  intros Hd Hmac Hrecent. unfold handleRealtimeMessage.
  destruct (devices e) as [|d0 ds] eqn:Hds; [destruct Hd|].
  rewrite <- Hds in *. cbn zeta. split; [reflexivity|]. split.
  - assert (Hbuf : exists l, In (d_mac_hashed d, l) (fold_left (bufferStep now e) (devices e) buf)
                             /\ In (bufferedOf now e d) l).
    { clear Hds. revert buf. induction (devices e) as [|d1 l1 IH]; intros buf; [destruct Hd|].
      cbn [fold_left]. destruct Hd as [->|Hd].
      - destruct (bufferStep_pushes now e buf d Hmac) as (l & Hl).
        destruct (bufferFold_grows now e l1 _ _ _ Hl) as (l' & Hl').
        eexists. split; [exact Hl'|]. apply in_or_app. left. apply in_or_app. right.
        left. reflexivity.
      - apply IH, Hd. }
    destruct Hbuf as (l & Hl & Hin).
    assert (Hkeep : In (bufferedOf now e d)
                       (List.filter (fun r => (now' - REALTIME_TIME_WINDOW_MS
                                               <=? b_timestamp r)%Z) l)).
    { apply filter_In. split; [exact Hin|]. apply Z.leb_le. exact Hrecent. }
    eexists. split; [|exact Hkeep].
    apply computeRealtimePositions_buffer. exists l. split; [exact Hl|]. split; [reflexivity|].
    intros Hnil. rewrite Hnil in Hkeep. destruct Hkeep.
  - unfold addSensor. rewrite sm_has_find.
    destruct (List.find (fun kv => String.eqb (fst kv) (device_key e)) sensors)
      as [[k s0]|] eqn:Hfind.
    + rewrite Hfind. cbn [fmap option_fmap option_map snd]. exists s0.
      split; [reflexivity|]. split; [discriminate|]. intros s1 H. congruence.
    + rewrite find_snoc, Hfind. cbn [fst]. rewrite String.eqb_refl.
      eexists. split; [reflexivity|]. split; [reflexivity|]. discriminate.
Qed.

Lemma realtime_report_is_used_witness :
  let d := mkDevice "D" (Some (Num (-70))) (Num 5) in
  let e := mkEntry "A" (Num 50, Num 6) "2025-01-15T10:30:00Z" [d] in
  In d (devices e) /\ d_mac_hashed d <> ""%string
  /\ (16000 - REALTIME_TIME_WINDOW_MS <= 1000)%Z
  /\ exists l,
       In ("D"%string, l)
          (fst (computeRealtimePositions
                  16000 (snd (fst (handleRealtimeMessage 1000 e [] []))) []))
       /\ In (bufferedOf 1000 e d) l.
Proof.
  intros d e.
  assert (H1 : In d (devices e)) by (left; reflexivity).
  assert (H2 : d_mac_hashed d <> ""%string) by discriminate.
  assert (H3 : (16000 - REALTIME_TIME_WINDOW_MS <= 1000)%Z)
    by (unfold REALTIME_TIME_WINDOW_MS; lia).
  split; [exact H1|]. split; [exact H2|]. split; [exact H3|].
  pose proof (realtime_report_is_used 1000 16000 e d [] [] [] H1 H2 H3) as H.
  unfold handleRealtimeMessage in *. cbn [devices e] in *.
  destruct H as (_ & Hl & _). exact Hl.
Defined.

(** ** Zone manager: the point-in-polygon test *)

Lemma last_cons_default {A : Type} (l : list A) :
  forall a d : A, List.last (a :: l) d = List.last l a.
Proof.
  induction l as [|b l IH]; intros a d; [reflexivity|].
  change (List.last (a :: b :: l) d) with (List.last (b :: l) d).
  rewrite !IH. reflexivity.
Qed.

Lemma last_app_cons {A : Type} (l1 l2 : list A) (a d : A) :
  List.last (l1 ++ a :: l2) d = List.last l2 a.
Proof.
  induction l1 as [|b l1 IH].
  - apply last_cons_default.
  - change ((b :: l1) ++ a :: l2) with (b :: (l1 ++ a :: l2)).
    rewrite last_cons_default.
    destruct l1 as [|c l1].
    + apply last_cons_default.
    + change ((c :: l1) ++ a :: l2) with (c :: (l1 ++ a :: l2)).
      rewrite last_cons_default. rewrite <- (last_cons_default (l1 ++ a :: l2) c d).
      exact IH.
Qed.

Lemma rayLoop_crossings (x y : num) (rest : list latLng) :
  forall (vj : latLng) (inside : bool),
    rayLoop x y vj rest inside = xorb inside (crossings x y vj rest).
Proof.
  induction rest as [|vi rest IH]; intros vj inside; cbn [rayLoop crossings].
  - destruct inside; reflexivity.
  - rewrite IH. destruct (edgeCrossed x y vi vj), inside, (crossings x y vi rest);
      reflexivity.
Qed.

Lemma crossings_app (x y : num) (l1 l2 : list latLng) :
  forall vj,
    crossings x y vj (l1 ++ l2)
    = xorb (crossings x y vj l1) (crossings x y (List.last l1 vj) l2).
Proof.
  induction l1 as [|v l1 IH]; intros vj.
  - reflexivity.
  - change ((v :: l1) ++ l2) with (v :: (l1 ++ l2)). cbn [crossings].
    rewrite IH, xorb_assoc, last_cons_default. reflexivity.
Qed.

Lemma isPointInPolygon_crossings (point : latLng) (polygon : list latLng) (d : latLng) :
  (3 <= length polygon)%nat ->
  isPointInPolygon point polygon
  = crossings (ll_lng point) (ll_lat point) (List.last polygon d) polygon.
Proof.
  intros Hlen. unfold isPointInPolygon.
  destruct (Nat.ltb_spec (length polygon) 3) as [H|_]; [lia|].
  destruct polygon as [|v0 rest]; [cbn [length] in Hlen; lia|].
  rewrite rayLoop_crossings. cbn [xorb]. rewrite !last_cons_default. reflexivity.
Qed.

(** X26. The polygon test does not depend on the vertex the polygon's
    array starts with: every rotation of the array gives the same answer,
    for all coordinates, [NaN] and infinite ones included. *)
Theorem isPointInPolygon_rotate (point : latLng) (l1 l2 : list latLng) :
  isPointInPolygon point (l1 ++ l2) = isPointInPolygon point (l2 ++ l1).
Proof.
  destruct l1 as [|a l1]; [rewrite app_nil_r; reflexivity|].
  destruct l2 as [|b l2]; [rewrite app_nil_r; reflexivity|].
  destruct (Nat.ltb_spec (length ((a :: l1) ++ b :: l2)) 3) as [Hlt|Hge].
  - unfold isPointInPolygon.
    destruct (Nat.ltb_spec (length ((a :: l1) ++ b :: l2)) 3) as [_|H]; [|lia].
    destruct (Nat.ltb_spec (length ((b :: l2) ++ a :: l1)) 3) as [_|H]; [reflexivity|].
    rewrite length_app in *. cbn [length] in *. lia.
  - rewrite (isPointInPolygon_crossings point _ a Hge).
    rewrite (isPointInPolygon_crossings point ((b :: l2) ++ a :: l1) a)
      by (rewrite length_app in *; cbn [length] in *; lia).
    rewrite !crossings_app.
    rewrite (last_app_cons (a :: l1) l2 b a), (last_app_cons (b :: l2) l1 a a).
    rewrite !last_cons_default. apply xorb_comm.
Qed.

Lemma edgeCrossed_finite (x y xi yi xj yj : R) :
  edgeCrossed (Num x) (Num y) (mkLatLng (Num yi) (Num xi)) (mkLatLng (Num yj) (Num xj))
  = negb (Bool.eqb (Rltb y yi) (Rltb y yj))
    && Rltb x ((xj - xi) * (y - yi) / (yj - yi) + xi).
Proof.
  unfold edgeCrossed. cbn [ll_lat ll_lng nltb nsub nmul].
  destruct (Req_dec_T yi yj) as [->|Hne].
  - rewrite eqb_reflx. reflexivity.
  - f_equal. unfold ndiv. rewrite Reqb_false by lra. reflexivity.
Qed.

Lemma intersection_offset (x y xi yi xj yj : R) :
  yj - yi <> 0 ->
  (xj - xi) * (y - yi) / (yj - yi) + xi - x
  = ((xj - x) * (y - yi) + (xi - x) * (yj - y)) / (yj - yi).
Proof. intros H. field. exact H. Qed.

Lemma straddle_cases (y yi yj : R) :
  negb (Bool.eqb (Rltb y yi) (Rltb y yj)) = true ->
  (yi <= y < yj) \/ (yj <= y < yi).
Proof.
  unfold Rltb. destruct (Rlt_dec y yi), (Rlt_dec y yj); cbn; try discriminate;
    intros _; [right | left]; lra.
Qed.

Lemma edgeCrossed_right (x y xi yi xj yj : R) :
  xi <= x -> xj <= x ->
  edgeCrossed (Num x) (Num y) (mkLatLng (Num yi) (Num xi)) (mkLatLng (Num yj) (Num xj))
  = false.
Proof.
  intros Hi Hj. rewrite edgeCrossed_finite.
  destruct (negb (Bool.eqb (Rltb y yi) (Rltb y yj))) eqn:Hs; [|reflexivity].
  cbn [andb]. apply Rltb_false. intros Hlt.
  apply straddle_cases in Hs.
  assert (Hd : yj - yi <> 0) by lra.
  pose proof (intersection_offset x y xi yi xj yj Hd) as Hoff.
  set (N := (xj - x) * (y - yi) + (xi - x) * (yj - y)) in *.
  assert (HN : 0 < N / (yj - yi)) by lra.
  destruct Hs as [Hs|Hs].
  - assert (N <= 0).
    { subst N. assert (0 <= (x - xj) * (y - yi)) by (apply Rmult_le_pos; lra).
      assert (0 <= (x - xi) * (yj - y)) by (apply Rmult_le_pos; lra). lra. }
    assert (N / (yj - yi) <= 0).
    { unfold Rdiv. assert (0 < / (yj - yi)) by (apply Rinv_0_lt_compat; lra).
      assert (0 <= (- N) * / (yj - yi)) by (apply Rmult_le_pos; lra). lra. }
    lra.
  - assert (0 <= N).
    { subst N. assert (0 <= (x - xj) * (yi - y)) by (apply Rmult_le_pos; lra).
      assert (0 <= (x - xi) * (y - yj)) by (apply Rmult_le_pos; lra). lra. }
    assert (N / (yj - yi) <= 0).
    { replace (N / (yj - yi)) with (- (N * / (yi - yj))) by (field; lra).
      assert (0 < / (yi - yj)) by (apply Rinv_0_lt_compat; lra).
      assert (0 <= N * / (yi - yj)) by (apply Rmult_le_pos; lra). lra. }
    lra.
Qed.

Lemma edgeCrossed_left (x y xi yi xj yj : R) :
  x < xi -> x < xj ->
  edgeCrossed (Num x) (Num y) (mkLatLng (Num yi) (Num xi)) (mkLatLng (Num yj) (Num xj))
  = xorb (Rltb y yi) (Rltb y yj).
Proof.
  intros Hi Hj. rewrite edgeCrossed_finite.
  destruct (negb (Bool.eqb (Rltb y yi) (Rltb y yj))) eqn:Hs.
  - cbn [andb]. transitivity true.
    + apply Rltb_true. apply straddle_cases in Hs.
      assert (Hd : yj - yi <> 0) by lra.
      pose proof (intersection_offset x y xi yi xj yj Hd) as Hoff.
      set (N := (xj - x) * (y - yi) + (xi - x) * (yj - y)) in *.
      cut (0 < N / (yj - yi)); [lra|].
      destruct Hs as [Hs|Hs].
      * assert (0 < N).
        { subst N. assert (0 <= (xj - x) * (y - yi)) by (apply Rmult_le_pos; lra).
          assert (0 < (xi - x) * (yj - y)) by (apply Rmult_lt_0_compat; lra). lra. }
        apply Rdiv_lt_0_compat; lra.
      * assert (0 < - N).
        { subst N. assert (0 < (xj - x) * (yi - y)) by (apply Rmult_lt_0_compat; lra).
          assert (0 <= (xi - x) * (y - yj)) by (apply Rmult_le_pos; lra). lra. }
        replace (N / (yj - yi)) with ((- N) / (yi - yj)) by (field; lra).
        apply Rdiv_lt_0_compat; lra.
    + destruct (Rltb y yi), (Rltb y yj); cbn in Hs |- *; congruence.
  - cbn [andb]. destruct (Rltb y yi), (Rltb y yj); cbn in Hs |- *; congruence.
Qed.

Lemma edgeCrossed_level (x y xi yi xj yj : R) :
  (yi <= y /\ yj <= y) \/ (y < yi /\ y < yj) ->
  edgeCrossed (Num x) (Num y) (mkLatLng (Num yi) (Num xi)) (mkLatLng (Num yj) (Num xj))
  = false.
Proof.
  intros H. rewrite edgeCrossed_finite. unfold Rltb at 1 2.
  destruct (Rlt_dec y yi), (Rlt_dec y yj); cbn; try reflexivity; lra.
Qed.

Lemma finiteLatLng_eta (v : latLng) :
  finiteLatLng v -> v = mkLatLng (Num (toR (ll_lat v))) (Num (toR (ll_lng v))).
Proof.
  destruct v as [a b]. unfold finiteLatLng. cbn [ll_lat ll_lng].
  intros [[r ->] [s ->]]. reflexivity.
Qed.

Lemma crossings_none (x y : num) (P : latLng -> Prop) (l : list latLng) :
  (forall vi vj, P vi -> P vj -> edgeCrossed x y vi vj = false) ->
  Forall P l -> forall vj, P vj -> crossings x y vj l = false.
Proof.
  intros Hno Hl. induction Hl as [|v l Hv Hl IH]; intros vj Hvj; [reflexivity|].
  cbn [crossings]. rewrite (Hno v vj Hv Hvj), (IH v Hv). reflexivity.
Qed.

Lemma crossings_telescope (x y : num) (s : latLng -> bool) (P : latLng -> Prop)
    (l : list latLng) :
  (forall vi vj, P vi -> P vj -> edgeCrossed x y vi vj = xorb (s vi) (s vj)) ->
  Forall P l -> forall vj, P vj ->
  crossings x y vj l = xorb (s vj) (s (List.last l vj)).
Proof.
  intros Hx Hl. induction Hl as [|v l Hv Hl IH]; intros vj Hvj.
  - cbn [crossings List.last]. destruct (s vj); reflexivity.
  - cbn [crossings]. rewrite (Hx v vj Hv Hvj), (IH v Hv), last_cons_default.
    destruct (s v), (s vj), (s (List.last l v)); reflexivity.
Qed.

Lemma Forall_last {A : Type} (P : A -> Prop) (l : list A) (d : A) :
  Forall P l -> P d -> P (List.last l d).
Proof.
  intros Hl. revert d. induction Hl as [|v l Hv Hl IH]; intros d Hd; [exact Hd|].
  rewrite last_cons_default. apply IH, Hv.
Qed.

(** Over exact arithmetic, a point outside the bounding box of a polygon
    with finite vertices is outside the polygon. *)
Lemma isPointInPolygon_outside_box_exact (point : latLng) (polygon : list latLng) :
  finiteLatLng point -> Forall finiteLatLng polygon ->
  Forall (fun v => toR (ll_lat v) <= toR (ll_lat point)) polygon
  \/ Forall (fun v => toR (ll_lat point) < toR (ll_lat v)) polygon
  \/ Forall (fun v => toR (ll_lng v) <= toR (ll_lng point)) polygon
  \/ Forall (fun v => toR (ll_lng point) < toR (ll_lng v)) polygon ->
  isPointInPolygon point polygon = false.
Proof.
  intros Hp Hfin Hbox.
  destruct (Nat.ltb_spec (length polygon) 3) as [Hlt|Hge].
  { unfold isPointInPolygon. destruct (Nat.ltb_spec (length polygon) 3); [reflexivity|lia]. }
  destruct polygon as [|v0 rest] eqn:Hpoly; [cbn [length] in Hge; lia|].
  rewrite <- Hpoly in *. rewrite (isPointInPolygon_crossings point polygon v0 Hge).
  rewrite (finiteLatLng_eta point Hp). cbn [ll_lat ll_lng toR] in *.
  set (x := toR (ll_lng point)) in *. set (y := toR (ll_lat point)) in *.
  assert (Hnone : forall (Q : latLng -> Prop),
             (forall vi vj, finiteLatLng vi /\ Q vi -> finiteLatLng vj /\ Q vj ->
                            edgeCrossed (Num x) (Num y) vi vj = false) ->
             Forall Q polygon ->
             crossings (Num x) (Num y) (List.last polygon v0) polygon = false).
  { intros Q HQ HF.
    assert (HF' : Forall (fun v => finiteLatLng v /\ Q v) polygon).
    { apply List.Forall_forall. intros v Hv. split.
      - exact (proj1 (List.Forall_forall _ _) Hfin v Hv).
      - exact (proj1 (List.Forall_forall _ _) HF v Hv). }
    apply (crossings_none _ _ _ _ HQ HF').
    rewrite Hpoly, last_cons_default.
    rewrite Hpoly in HF'. inversion HF' as [|? ? H0 Hrest]; subst.
    apply (Forall_last (fun v => finiteLatLng v /\ Q v)); assumption. }
  destruct Hbox as [Hb|[Hb|[Hb|Hb]]].
  - apply (Hnone (fun v => toR (ll_lat v) <= y)); [|exact Hb].
    intros vi vj [Hfi Hi] [Hfj Hj].
    rewrite (finiteLatLng_eta vi Hfi), (finiteLatLng_eta vj Hfj).
    apply edgeCrossed_level. left. split; assumption.
  - apply (Hnone (fun v => y < toR (ll_lat v))); [|exact Hb].
    intros vi vj [Hfi Hi] [Hfj Hj].
    rewrite (finiteLatLng_eta vi Hfi), (finiteLatLng_eta vj Hfj).
    apply edgeCrossed_level. right. split; assumption.
  - apply (Hnone (fun v => toR (ll_lng v) <= x)); [|exact Hb].
    intros vi vj [Hfi Hi] [Hfj Hj].
    rewrite (finiteLatLng_eta vi Hfi), (finiteLatLng_eta vj Hfj).
    apply edgeCrossed_right; assumption.
  - assert (HF' : Forall (fun v => finiteLatLng v /\ x < toR (ll_lng v)) polygon).
    { apply List.Forall_forall. intros v Hv. split.
      - exact (proj1 (List.Forall_forall _ _) Hfin v Hv).
      - exact (proj1 (List.Forall_forall _ _) Hb v Hv). }
    assert (Hlast : finiteLatLng (List.last polygon v0)
                    /\ x < toR (ll_lng (List.last polygon v0))).
    { rewrite Hpoly, last_cons_default.
      rewrite Hpoly in HF'. inversion HF' as [|? ? H0 Hrest]; subst.
      apply (Forall_last (fun v => finiteLatLng v /\ x < toR (ll_lng v))); assumption. }
    rewrite (crossings_telescope (Num x) (Num y)
               (fun v => Rltb y (toR (ll_lat v)))
               (fun v => finiteLatLng v /\ x < toR (ll_lng v)) polygon).
    + rewrite Hpoly at 1. rewrite last_cons_default.
      rewrite Hpoly at 1. rewrite last_cons_default. 
      rewrite <- (last_cons_default rest v0 (List.last rest v0)).
      rewrite last_cons_default. apply xorb_nilpotent.
    + intros vi vj [Hfi Hi] [Hfj Hj].
      rewrite (finiteLatLng_eta vi Hfi), (finiteLatLng_eta vj Hfj).
      cbn [ll_lat ll_lng toR]. apply edgeCrossed_left; assumption.
    + exact HF'.
    + exact Hlast.
Qed.

Lemma edgeCrossed_horizontal (x y xi xj y0 : R) :
  edgeCrossed (Num x) (Num y) (mkLatLng (Num y0) (Num xi)) (mkLatLng (Num y0) (Num xj))
  = false.
Proof. rewrite edgeCrossed_finite, eqb_reflx. reflexivity. Qed.

Lemma edgeCrossed_vertical (x y x0 yi yj : R) :
  yi <> yj ->
  edgeCrossed (Num x) (Num y) (mkLatLng (Num yi) (Num x0)) (mkLatLng (Num yj) (Num x0))
  = xorb (Rltb y yi) (Rltb y yj) && Rltb x x0.
Proof.
  intros Hne. rewrite edgeCrossed_finite.
  replace ((x0 - x0) * (y - yi) / (yj - yi) + x0) with x0 by (field; lra).
  destruct (Rltb y yi), (Rltb y yj); reflexivity.
Qed.

(** X28. For an axis-aligned rectangle listed corner after corner from
    the south-west one, in either direction, the test is true exactly for
    the points with [west <= lng < east] and [south <= lat < north]: the
    western and southern edges belong to the zone, the eastern and
    northern ones do not. *)
Theorem isPointInPolygon_rectangle (west east south north x y : R) :
  west < east -> south < north ->
  let sw := mkLatLng (Num south) (Num west) in
  let nw := mkLatLng (Num north) (Num west) in
  let ne := mkLatLng (Num north) (Num east) in
  let se := mkLatLng (Num south) (Num east) in
  let point := mkLatLng (Num y) (Num x) in
  (isPointInPolygon point [sw; nw; ne; se] = true
   <-> west <= x < east /\ south <= y < north)
  /\ (isPointInPolygon point [sw; se; ne; nw] = true
      <-> west <= x < east /\ south <= y < north).
Proof.
  intros Hx Hy sw nw ne se point.
  unfold isPointInPolygon. cbn [length Nat.ltb Nat.leb List.last rayLoop ll_lat ll_lng point].
  subst sw nw ne se.
  rewrite !edgeCrossed_horizontal.
  rewrite !edgeCrossed_vertical by lra.
  unfold Rltb.
  destruct (Rlt_dec y south), (Rlt_dec y north), (Rlt_dec x west), (Rlt_dec x east);
    cbn; split; split; intros H; try discriminate; try reflexivity; try lra.
Qed.

Lemma isPointInPolygon_rectangle_witness :
  0 < 2 /\ 0 < 1
  /\ (isPointInPolygon (mkLatLng (Num 0) (Num 0))
        [mkLatLng (Num 0) (Num 0); mkLatLng (Num 1) (Num 0);
         mkLatLng (Num 1) (Num 2); mkLatLng (Num 0) (Num 2)] = true)
  /\ (isPointInPolygon (mkLatLng (Num 1) (Num 2))
        [mkLatLng (Num 0) (Num 0); mkLatLng (Num 1) (Num 0);
         mkLatLng (Num 1) (Num 2); mkLatLng (Num 0) (Num 2)] = true -> False).
Proof.
  assert (H1 : 0 < 2) by lra. assert (H2 : 0 < 1) by lra.
  split; [exact H1|]. split; [exact H2|]. split.
  - apply (proj1 (isPointInPolygon_rectangle 0 2 0 1 0 0 H1 H2)). lra.
  - intros H. apply (proj1 (isPointInPolygon_rectangle 0 2 0 1 2 1 H1 H2)) in H. lra.
Defined.

(** ** Time controls: index invariant and playback *)

Section TimeControlsProperties.
Import TimeControls.

Lemma item_in_range (ts : list string) (i : Z) :
  (0 <= i < Z.of_nat (length ts))%Z ->
  exists t, item ts i = Some t /\ In t ts.
Proof.
  intros Hi. unfold item. destruct (Z.ltb_spec i 0) as [H|_]; [lia|].
  destruct (nth_error ts (Z.to_nat i)) as [t|] eqn:Hn.
  - exists t. split; [reflexivity|]. eapply nth_error_In, Hn.
  - apply nth_error_None in Hn. lia.
Qed.

Lemma getCurrentTimestamp_item (st : state) :
  timestamps st <> [] -> getCurrentTimestamp st = item (timestamps st) (currentIndex st).
Proof.
  intros Hne. unfold getCurrentTimestamp.
  destruct (timestamps st); [congruence | reflexivity].
Qed.

Lemma indexOf_range (ts : list string) (x : string) :
  (indexOf ts x = -1 \/ 0 <= indexOf ts x < Z.of_nat (length ts))%Z.
Proof.
  induction ts as [|t ts IH]; cbn [indexOf length]; [left; reflexivity|].
  destruct (String.eqb t x); [right; lia|].
  destruct (Z.ltb_spec (indexOf ts x) 0); [left; reflexivity | right; lia].
Qed.

Ltac controls_same :=
  cbn [fst snd timestamps currentIndex isPlaying] in *.

Lemma fire_invariant (ev : event) (st : state) (shown : option string) :
  controlsInv st -> admissible st ev ->
  controlsInv (fst (fire ev st))
  /\ Forall (fun c => c <> None) (snd (fire ev st))
  /\ (isSetTimestamp ev = false -> synced st shown ->
      synced (fst (fire ev st)) (List.last (snd (fire ev st)) shown)).
Proof.
  intros [Hidx Hplay] Hadm.
  assert (Hstep : forall delta,
             controlsInv (fst (step delta st))
             /\ Forall (fun c => c <> None) (snd (step delta st))
             /\ (synced st shown ->
                 synced (fst (step delta st)) (List.last (snd (step delta st)) shown))).
  { intros delta. unfold step.
    destruct ((0 <=? currentIndex st + delta)%Z
              && (currentIndex st + delta <? Z.of_nat (length (timestamps st)))%Z)
      eqn:Hc.
    - apply andb_prop in Hc as [H1 H2]. apply Z.leb_le in H1. apply Z.ltb_lt in H2.
      controls_same.
      destruct (item_in_range (timestamps st) (currentIndex st + delta)
                  ltac:(lia)) as (t & Ht & _).
      split; [split; [right; controls_same; lia | exact Hplay]|].
      split; [constructor; [congruence | constructor]|].
      intros _. right. cbn [List.last]. rewrite getCurrentTimestamp_item.
      + reflexivity.
      + controls_same. intros E. rewrite E in H2. cbn [length] in H2. lia.
    - controls_same. split; [split; assumption|]. split; [constructor|].
      intros Hs. exact Hs. }
  destruct ev; cbn [fire isSetTimestamp admissible] in *.
  - (* setTimestamps *)
    unfold setTimestamps. cbn [timestamps currentIndex].
    destruct ts as [|t ts]; [congruence|]. cbn [length Nat.ltb Nat.leb fst snd].
    split; [split|split].
    + right. controls_same. cbn [length]. lia.
    + intros _. controls_same. discriminate.
    + constructor; [discriminate | constructor].
    + intros _ _. right. reflexivity.
  - (* slider *)
    unfold handleSliderChange.
    destruct (negb (newIndex =? currentIndex st)%Z) eqn:Hc; controls_same.
    + destruct (item_in_range (timestamps st) newIndex Hadm) as (t & Ht & _).
      split; [split; [right; controls_same; lia | exact Hplay]|].
      split; [constructor; [congruence | constructor]|].
      intros _ _. right. cbn [List.last]. rewrite getCurrentTimestamp_item.
      * reflexivity.
      * controls_same. intros E. rewrite E in Hadm. cbn [length] in Hadm. lia.
    + split; [split; assumption|]. split; [constructor|]. intros _ Hs. exact Hs.
  - (* speed *)
    split; [split; assumption|]. split; [constructor|]. intros _ Hs. exact Hs.
  - destruct (Hstep (-1)%Z) as (H1 & H2 & H3). auto.
  - destruct (Hstep 1%Z) as (H1 & H2 & H3). auto.
  - destruct (Hstep delta) as (H1 & H2 & H3). auto.
  - (* play button *)
    unfold togglePlayback, pause, play.
    destruct (isPlaying st) eqn:Hp.
    + split; [split; [exact Hidx | discriminate]|]. split; [constructor|].
      intros _ Hs. exact Hs.
    + destruct (Nat.eqb_spec (length (timestamps st)) 0) as [Hlen|Hlen].
      * split; [split; [exact Hidx | cbn [fst]; rewrite Hp; discriminate]|].
        split; [constructor|]. intros _ Hs. exact Hs.
      * split; [split; [exact Hidx|]|].
        -- intros _ E. cbn [fst timestamps] in E. rewrite E in Hlen. apply Hlen.
           reflexivity.
        -- split; [constructor|]. intros _ Hs. exact Hs.
  - (* play *)
    unfold play.
    destruct (Nat.eqb_spec (length (timestamps st)) 0) as [Hlen|Hlen].
    + split; [split; [exact Hidx | exact Hplay]|].
      split; [constructor|]. intros _ Hs. exact Hs.
    + split; [split; [exact Hidx|]|].
      * intros _ E. cbn [fst timestamps] in E. rewrite E in Hlen. apply Hlen.
        reflexivity.
      * split; [constructor|]. intros _ Hs. exact Hs.
  - (* pause *)
    unfold pause. controls_same.
    split; [split; [exact Hidx | discriminate]|]. split; [constructor|].
    intros _ Hs. exact Hs.
  - (* frame *)
    unfold animationLoop. destruct (isPlaying st) eqn:Hp; cbn [negb].
    + specialize (Hplay eq_refl).
      destruct (Num 1000 / playbackSpeed st <=? currentTime - lastFrameTime st)%js.
      * controls_same.
        assert (Hlen : (0 < Z.of_nat (length (timestamps st)))%Z).
        { destruct (timestamps st); [congruence | cbn [length]; lia]. }
        assert (Hin : (0 <= currentIndex st < Z.of_nat (length (timestamps st)))%Z).
        { destruct Hidx as [[H _]|H]; [congruence | exact H]. }
        set (index := if (Z.of_nat (length (timestamps st)) <=? currentIndex st + 1)%Z
                      then 0%Z else (currentIndex st + 1)%Z).
        assert (Hindex : (0 <= index < Z.of_nat (length (timestamps st)))%Z).
        { subst index.
          destruct (Z.leb_spec (Z.of_nat (length (timestamps st)))
                               (currentIndex st + 1)); lia. }
        destruct (item_in_range (timestamps st) index Hindex) as (t & Ht & _).
        split; [split; [right; controls_same; exact Hindex | intros _; exact Hplay]|].
        split; [constructor; [congruence | constructor]|].
        intros _ _. right. cbn [List.last]. rewrite getCurrentTimestamp_item.
        -- reflexivity.
        -- exact Hplay.
      * controls_same. split; [split; [exact Hidx | intros _; exact Hplay]|].
        split; [constructor|]. intros _ Hs. exact Hs.
    + controls_same. split; [split; [exact Hidx | rewrite Hp; discriminate]|].
      split; [constructor|]. intros _ Hs. exact Hs.
  - (* setTimestamp *)
    unfold setTimestamp.
    destruct (Z.leb_spec 0 (indexOf (timestamps st) timestamp)) as [H|H];
      controls_same.
    + split; [split; [|exact Hplay]|].
      * right. controls_same.
        destruct (indexOf_range (timestamps st) timestamp); lia.
      * split; [constructor|]. discriminate.
    + split; [split; assumption|]. split; [constructor|]. discriminate.
  - (* reset *)
    unfold reset, pause. controls_same.
    split; [split; [left; split; reflexivity | discriminate]|].
    split; [constructor|]. intros _ _. left. reflexivity.
Qed.

Lemma run_invariant (evs : list event) :
  forall (st : state) (calls : list (option string)),
    controlsInv st -> admissibleFrom st evs ->
    Forall (fun c => c <> None) calls ->
    let out := fold_left (fun acc ev => let '(st', cs) := fire ev (fst acc) in
                                        (st', snd acc ++ cs))
                         evs (st, calls) in
    controlsInv (fst out)
    /\ Forall (fun c => c <> None) (snd out)
    /\ (existsb isSetTimestamp evs = false ->
        synced st (List.last calls None) ->
        synced (fst out) (List.last (snd out) None)).
Proof.
  induction evs as [|ev evs IH]; intros st calls Hinv Hadm Hcalls; cbn [fold_left].
  - cbn [fst snd]. auto.
  - destruct Hadm as [Hev Hrest]. cbn [existsb fst snd].
    destruct (fire_invariant ev st (List.last calls None) Hinv Hev) as (H1 & H2 & H3).
    destruct (fire ev st) as [st' cs] eqn:Hfire. cbn [fst snd] in *.
    assert (Hc' : Forall (fun c => c <> None) (calls ++ cs)).
    { apply Forall_app. split; assumption. }
    destruct (IH st' (calls ++ cs) H1 Hrest Hc') as (I1 & I2 & I3).
    split; [exact I1|]. split; [exact I2|].
    intros Hno Hs. apply orb_false_elim in Hno as [Hev' Hno].
    apply I3; [exact Hno|].
    replace (List.last (calls ++ cs) None) with (List.last cs (List.last calls None)).
    + apply H3; assumption.
    + clear. induction cs as [|c cs IHc] using rev_ind.
      * rewrite app_nil_r. reflexivity.
      * rewrite app_assoc, !last_last. reflexivity.
Qed.

(** X29. Whatever is done to the time controls from their initial state
    (loading non-empty lists, slider input within the slider's range,
    speed changes, previous and next, play and pause, animation frames,
    [setTimestamp], [reset]): [currentIndex] is a valid index of
    [timestamps], or 0 when the list is empty; playback runs only on a
    non-empty list; [updateCallback] is never called with [undefined];
    [getCurrentTimestamp] is [null] exactly when the list is empty; and
    unless [setTimestamp] was used, the timestamp last handed to
    [updateCallback] is the current one. *)
Theorem TimeControls_invariant (evs : list event) :
  admissibleFrom initial evs ->
  let st := fst (run evs initial) in
  let calls := snd (run evs initial) in
  indexInRange st
  /\ (isPlaying st = true -> timestamps st <> [])
  /\ Forall (fun c => c <> None) calls
  /\ (getCurrentTimestamp st = None <-> timestamps st = [])
  /\ (existsb isSetTimestamp evs = false -> timestamps st <> [] ->
      List.last calls None = getCurrentTimestamp st).
Proof.
  intros Hadm st calls.
  assert (Hinit : controlsInv initial).
  { split; [left; split; reflexivity | discriminate]. }
  destruct (run_invariant evs initial [] Hinit Hadm ltac:(constructor))
    as ((Hidx & Hplay) & Hcalls & Hsync).
  fold (run evs initial) in Hidx, Hplay, Hcalls, Hsync. fold st in Hidx, Hplay, Hsync.
  fold calls in Hcalls, Hsync.
  split; [exact Hidx|]. split; [exact Hplay|]. split; [exact Hcalls|]. split.
  - split.
    + intros Hnone. destruct (timestamps st) as [|t ts] eqn:Hts; [reflexivity|].
      exfalso. rewrite getCurrentTimestamp_item in Hnone by congruence.
      destruct Hidx as [[H _]|H]; [congruence|].
      destruct (item_in_range _ _ H) as (t' & Ht' & _). congruence.
    + intros Hts. unfold getCurrentTimestamp. rewrite Hts. reflexivity.
  - intros Hno Hne. destruct (Hsync Hno) as [H|H]; [left; reflexivity| |exact H].
    contradiction.
Qed.

Lemma TimeControls_invariant_witness :
  let evs := [SetTimestamps ["2025-01-15T10:30:00Z"; "2025-01-15T10:30:12Z"]%string;
              NextClick; NextClick; PlayClick (Num 0); Frame (Num 2000)] in
  admissibleFrom initial evs
  /\ indexInRange (fst (run evs initial))
  /\ Forall (fun c => c <> None) (snd (run evs initial)).
Proof.
  intros evs.
  assert (Hadm : admissibleFrom initial evs).
  { cbn. repeat split; discriminate. }
  split; [exact Hadm|].
  destruct (TimeControls_invariant evs Hadm) as (H1 & _ & H3 & _).
  split; [exact H1 | exact H3].
Defined.

Lemma frames_run (times : list num) :
  forall (st : state) (calls : list (option string)),
    (0 <= currentIndex st < Z.of_nat (length (timestamps st)))%Z ->
    let out := fold_left (fun acc ev => let '(st', cs) := fire ev (fst acc) in
                                        (st', snd acc ++ cs))
                         (map Frame times) (st, calls) in
    let n := Z.of_nat (length (timestamps st)) in
    exists k : nat,
      (k <= length times)%nat
      /\ timestamps (fst out) = timestamps st
      /\ isPlaying (fst out) = isPlaying st
      /\ currentIndex (fst out) = ((currentIndex st + Z.of_nat k) mod n)%Z
      /\ snd out
         = calls ++ map (fun j => item (timestamps st)
                                       ((currentIndex st + Z.of_nat j) mod n)%Z)
                        (seq 1 k)
      /\ (isPlaying st = false -> k = 0%nat).
Proof.
  induction times as [|t times IH]; intros st calls Hin; cbn [map fold_left].
  - exists 0%nat. cbn [fst snd seq map length]. rewrite app_nil_r, Z.add_0_r.
    rewrite Z.mod_small by lia. repeat split; auto.
  - cbn [fire fst snd]. unfold animationLoop.
    destruct (isPlaying st) eqn:Hp; cbn [negb].
    + destruct (Num 1000 / playbackSpeed st <=? t - lastFrameTime st)%js.
      * set (n := Z.of_nat (length (timestamps st))) in *.
        set (index := if (n <=? currentIndex st + 1)%Z then 0%Z
                      else (currentIndex st + 1)%Z).
        assert (Hindex : index = ((currentIndex st + 1) mod n)%Z).
        { subst index. destruct (Z.leb_spec n (currentIndex st + 1)).
          - replace (currentIndex st + 1)%Z with n by lia.
            rewrite Z_mod_same_full. reflexivity.
          - rewrite Z.mod_small by lia. reflexivity. }
        assert (Hr : (0 <= index < n)%Z).
        { rewrite Hindex. apply Z.mod_pos_bound. lia. }
        cbn [timestamps currentIndex].
        set (st1 := mkState (timestamps st) index true (playbackSpeed st) true t).
        destruct (IH st1 (calls ++ [item (timestamps st) index]) Hr)
          as (k & Hk & Hts & Hpl & Hidx & Hcalls & _).
        cbn [timestamps currentIndex isPlaying st1] in *. fold n in Hidx, Hcalls.
        exists (S k). split; [cbn [length]; lia|]. split; [exact Hts|].
        split; [exact Hpl|]. split; [|split; [|discriminate]].
        -- rewrite Hidx, Hindex, Zplus_mod_idemp_l. f_equal. lia.
        -- rewrite Hcalls, <- app_assoc. f_equal.
           change (seq 1 (S k)) with (1%nat :: seq 2 k). cbn [map app].
           f_equal; [rewrite Hindex; reflexivity|].
           rewrite <- (seq_shift k 1), map_map. apply map_ext. intros j.
           rewrite Hindex, Zplus_mod_idemp_l. f_equal. f_equal. lia.
      * cbn [timestamps currentIndex].
        set (st1 := mkState (timestamps st) (currentIndex st) true (playbackSpeed st)
                            true (lastFrameTime st)).
        destruct (IH st1 (calls ++ []) Hin) as (k & Hk & Hts & Hpl & Hidx & Hcalls & _).
        cbn [timestamps currentIndex isPlaying st1] in *.
        exists k. split; [cbn [length]; lia|]. split; [exact Hts|].
        split; [exact Hpl|]. split; [exact Hidx|]. split; [|discriminate].
        rewrite Hcalls, app_nil_r. reflexivity.
    + destruct (IH st (calls ++ []) Hin) as (k & Hk & Hts & Hpl & Hidx & Hcalls & H0).
      exists k. split; [cbn [length]; lia|]. split; [exact Hts|].
      split; [congruence|]. split; [exact Hidx|]. split; [|intros _; auto].
      rewrite Hcalls, app_nil_r. reflexivity.
Qed.

(** X30. Playback visits the timestamps in cyclic order without skipping
    any: over any sequence of animation frames, however late, each frame
    advances by at most one step, wrapping from the last timestamp to the
    first, and [updateCallback] receives exactly the timestamps passed,
    in order; the list itself is unchanged, and a paused control does
    not move. *)
Theorem playback_cycles (times : list num) (st : state) :
  (0 <= currentIndex st < Z.of_nat (length (timestamps st)))%Z ->
  let st' := fst (run (map Frame times) st) in
  let calls := snd (run (map Frame times) st) in
  let n := Z.of_nat (length (timestamps st)) in
  timestamps st' = timestamps st
  /\ (length calls <= length times)%nat
  /\ currentIndex st' = ((currentIndex st + Z.of_nat (length calls)) mod n)%Z
  /\ calls = map (fun j => item (timestamps st)
                                ((currentIndex st + Z.of_nat j) mod n)%Z)
                 (seq 1 (length calls))
  /\ (isPlaying st = false -> calls = []).
Proof.
  intros Hin st' calls n.
  destruct (frames_run times st [] Hin) as (k & Hk & Hts & _ & Hidx & Hcalls & H0).
  fold (run (map Frame times) st) in Hts, Hidx, Hcalls.
  fold st' in Hts, Hidx. fold calls in Hcalls. fold n in Hidx, Hcalls.
  cbn [app] in Hcalls.
  assert (Hlen : length calls = k).
  { rewrite Hcalls, length_map, length_seq. reflexivity. }
  rewrite Hlen. split; [exact Hts|]. split; [exact Hk|]. split; [exact Hidx|].
  split; [exact Hcalls|]. intros Hp. rewrite Hcalls, (H0 Hp). reflexivity.
Qed.

Lemma playback_cycles_witness :
  let st := mkState ["2025-01-15T10:30:00Z"; "2025-01-15T10:30:12Z"]%string 1 true
                    (Num 1) true (Num 0) in
  let times := [Num 1000; Num 1500; Num 2000] in
  (0 <= currentIndex st < Z.of_nat (length (timestamps st)))%Z
  /\ currentIndex (fst (run (map Frame times) st))
     = ((1 + Z.of_nat (length (snd (run (map Frame times) st)))) mod 2)%Z.
Proof.
  intros st times.
  assert (Hin : (0 <= currentIndex st < Z.of_nat (length (timestamps st)))%Z)
    by (cbn; lia).
  split; [exact Hin|].
  destruct (playback_cycles times st Hin) as (_ & _ & H & _). exact H.
Defined.

End TimeControlsProperties.

(** ** Lateration solver: three or more sensors in double precision *)

(** The exact arithmetic is an instance: at [exact] every function of
    [Doubles] is the function of the same name of the first embedding. *)
Lemma rounded_exact (v : num) : Doubles.rounded exact v = v.
Proof. destruct v; reflexivity. Qed.

Ltac exact_arith :=
  unfold Doubles.add, Doubles.sub, Doubles.mul, Doubles.div, Doubles.PI_D;
  cbn [round cosD sinD sqrtD pow10D pow2D exact];
  rewrite ?rounded_exact.

Lemma gpsToMeters_exact (lat lng refLat refLng : num) :
  Doubles.gpsToMeters exact lat lng refLat refLng = gpsToMeters lat lng refLat refLng.
Proof. unfold Doubles.gpsToMeters, gpsToMeters. exact_arith. reflexivity. Qed.

Lemma metersToGps_exact (x y refLat refLng : num) :
  Doubles.metersToGps exact x y refLat refLng = metersToGps x y refLat refLng.
Proof. unfold Doubles.metersToGps, metersToGps. exact_arith. reflexivity. Qed.

Lemma distance_exact (p1 p2 : point) : Doubles.distance exact p1 p2 = distance p1 p2.
Proof. unfold Doubles.distance, distance. exact_arith. reflexivity. Qed.

Lemma toPoint_exact (refLat refLng : num) (o : obs) :
  Doubles.toPoint exact refLat refLng o = toPoint refLat refLng o.
Proof. unfold Doubles.toPoint, toPoint. rewrite gpsToMeters_exact. reflexivity. Qed.

Lemma centroid_exact (f : obs -> num) (l : list obs) :
  Doubles.centroid exact f l = centroid f l.
Proof.
  unfold Doubles.centroid, centroid, Doubles.sumOver, sumOver. exact_arith.
  f_equal. apply fold_left_ext'. intros a o. apply rounded_exact.
Qed.

Lemma pointsD_exact (v : list obs) : pointsD exact v = pointsOf v.
Proof.
  unfold pointsD, pointsOf, refLatD, refLngD, refLatOf, refLngOf.
  rewrite !centroid_exact. apply map_ext. intros o. apply toPoint_exact.
Qed.

Lemma rowA_exact (ref p : pointObs) : Doubles.rowA exact ref p = rowA ref p.
Proof. unfold Doubles.rowA, rowA. exact_arith. reflexivity. Qed.

Lemma rowB_exact (ref p : pointObs) : Doubles.rowB exact ref p = rowB ref p.
Proof. unfold Doubles.rowB, rowB. exact_arith. reflexivity. Qed.

Lemma rowWeight_exact (p : pointObs) : Doubles.rowWeight exact p = rowWeight p.
Proof.
  unfold Doubles.rowWeight, rowWeight, Doubles.rssiWeight, rssiWeight. exact_arith.
  destruct (rssi (p_obs p)) as [v|]; [|reflexivity].
  destruct (truthy v); [|reflexivity]. exact_arith. reflexivity.
Qed.

Lemma accumulate_exact (A : list (num * num)) :
  forall (b w : list num) (s : normalSums),
    Doubles.accumulate exact A b w s = accumulate A b w s.
Proof.
  induction A as [|ai A IH]; intros b w s; [reflexivity|].
  destruct b as [|bi b]; [reflexivity|]. destruct w as [|wi w]; [reflexivity|].
  cbn [Doubles.accumulate accumulate]. rewrite IH. f_equal.
  unfold Doubles.addRow, addRow. exact_arith. reflexivity.
Qed.

Lemma normalSumsD_exact (ref : pointObs) (rest : list pointObs) :
  normalSumsD exact ref rest
  = accumulate (map (rowA ref) rest) (map (rowB ref) rest) (map rowWeight rest) sums0.
Proof.
  unfold normalSumsD. rewrite accumulate_exact. f_equal; apply map_ext; intros p.
  - apply rowA_exact.
  - apply rowB_exact.
  - apply rowWeight_exact.
Qed.

Lemma singular_exact (s : normalSums) :
  Doubles.singular exact s
  = (Math_abs (ata00 s * ata11 s - ata01 s * ata10 s) <? Num 1e-10)%js.
Proof. unfold Doubles.singular, Doubles.determinant. exact_arith. reflexivity. Qed.

Lemma columnSum_exact (col : num * num -> num) (A : list (num * num)) :
  Doubles.columnSum exact col A = columnSum col A.
Proof.
  unfold Doubles.columnSum, columnSum. apply fold_left_ext'. intros c ai.
  exact_arith. reflexivity.
Qed.

Lemma solveWeightedLeastSquares_exact (A : list (num * num)) (b w : list num) :
  Doubles.solveWeightedLeastSquares exact A b w = solveWeightedLeastSquares A b w.
Proof.
  unfold Doubles.solveWeightedLeastSquares, solveWeightedLeastSquares.
  rewrite singular_exact, accumulate_exact, !columnSum_exact.
  unfold Doubles.determinant. exact_arith. reflexivity.
Qed.

Lemma estimateMultiSensorPosition_exact (ref : pointObs) (rest : list pointObs) :
  Doubles.estimateMultiSensorPosition exact ref rest
  = estimateMultiSensorPosition ref rest.
Proof.
  unfold Doubles.estimateMultiSensorPosition, estimateMultiSensorPosition.
  assert (HA : map (Doubles.rowA exact ref) rest = map (rowA ref) rest)
    by (apply map_ext; intros p; apply rowA_exact).
  assert (HB : map (Doubles.rowB exact ref) rest = map (rowB ref) rest)
    by (apply map_ext; intros p; apply rowB_exact).
  assert (HW : map (Doubles.rowWeight exact) rest = map rowWeight rest)
    by (apply map_ext; intros p; apply rowWeight_exact).
  rewrite HA, HB, HW, solveWeightedLeastSquares_exact.
  f_equal. f_equal. exact_arith. f_equal. f_equal.
  unfold Doubles.sumSqResiduals, sumSqResiduals. apply fold_left_ext'.
  intros acc p. exact_arith. rewrite distance_exact. reflexivity.
Qed.

(** [trilaterate] over any arithmetic, on three or more kept
    observations. *)
Lemma trilaterate_multi_D (ar : arithmetic) (observations validObs : list obs)
    (ref : pointObs) (rest : list pointObs) :
  List.filter validObservation observations = validObs ->
  (3 <= length validObs)%nat ->
  pointsD ar validObs = ref :: rest ->
  length rest = (length validObs - 1)%nat
  /\ let e := Doubles.estimateMultiSensorPosition ar ref rest in
     let g := Doubles.metersToGps ar (est_x e) (est_y e)
                                  (refLatD ar validObs) (refLngD ar validObs) in
     exists var,
       Doubles.trilaterate ar observations
       = Some (mkResult (g_lat g) (g_lng g) high (length validObs) validObs
                        (Num 1.0) var).
Proof.
  intros Hfilter Hlen Hpts.
  destruct (three_or_more validObs Hlen) as (o1 & o2 & o3 & tl & Hv).
  assert (Hrl : length rest = (length validObs - 1)%nat).
  { assert (H : length (pointsD ar validObs) = length validObs)
      by (unfold pointsD; apply length_map).
    rewrite Hpts in H. cbn [length] in H. lia. }
  split; [exact Hrl|]. cbn zeta. subst validObs.
  unfold Doubles.trilaterate. unfold pointsD, refLatD, refLngD in *.
  rewrite Hv in *. cbn [map] in Hpts. injection Hpts as <- <-.
  cbn [length Nat.ltb Nat.leb]. eexists. reflexivity.
Qed.



(** C1 (amended). Over any arithmetic: for a list with [n >= 3] kept
    observations the solver builds [n - 1] equations, the one of sensor
    [i] with the row [(2 (x_i - x_1), 2 (y_i - y_1))] and the weight
    [1 / (d_i + 1) * m_i], where [m_i = Math.pow(10, (rssi_i + 100) / 20)]
    for an rssi that is present and neither zero nor [NaN], and [m_i] is
    exactly 1 for a missing, zero or [NaN] rssi; and whenever the test
    [Math.abs(det) < 1e-10] on the determinant the code computes fails,
    the returned local position is the closed-form inverse of the 2x2
    system applied to the accumulated sums [A'WA] and [A'Wb].  Over exact
    arithmetic each equation is the first sensor's circle equation minus
    the sensor's own, and that position solves the normal equations
    [(A'WA) x = A'Wb]. *)
Theorem multiSensor_normal_equations (ar : arithmetic)
    (observations validObs : list obs) (ref : pointObs) (rest : list pointObs) :
  List.filter validObservation observations = validObs ->
  (3 <= length validObs)%nat ->
  pointsD ar validObs = ref :: rest ->
  let A := map (Doubles.rowA ar ref) rest in
  let b := map (Doubles.rowB ar ref) rest in
  let weights := map (Doubles.rowWeight ar) rest in
  let s := normalSumsD ar ref rest in
  let det := Doubles.determinant ar s in
  (length A = (length validObs - 1)%nat /\ length b = (length validObs - 1)%nat
   /\ length weights = (length validObs - 1)%nat)
  /\ A = map (fun p =>
                (Doubles.mul ar (Num 2) (Doubles.sub ar (px (pos p)) (px (pos ref))),
                 Doubles.mul ar (Num 2) (Doubles.sub ar (py (pos p)) (py (pos ref)))))
             rest
  /\ weights
     = map (fun p =>
              Doubles.mul ar
                (Doubles.div ar (Num 1) (Doubles.add ar (obs_distance (p_obs p)) (Num 1)))
                (Doubles.rssiWeight ar (rssi (p_obs p))))
           rest
  /\ (forall r, match r with
                | None => Doubles.rssiWeight ar r = Num 1
                | Some x =>
                    (truthy x = false -> Doubles.rssiWeight ar r = Num 1)
                    /\ (truthy x = true ->
                        Doubles.rssiWeight ar r
                        = pow10D ar (Doubles.div ar (Doubles.add ar x (Num 100))
                                                 (Num 20)))
                end)
  /\ (Doubles.singular ar s = false ->
      let X := Doubles.div ar
                 (Doubles.sub ar (Doubles.mul ar (ata11 s) (atb0 s))
                                 (Doubles.mul ar (ata01 s) (atb1 s))) det in
      let Y := Doubles.div ar
                 (Doubles.sub ar (Doubles.mul ar (ata00 s) (atb1 s))
                                 (Doubles.mul ar (ata10 s) (atb0 s))) det in
      Doubles.solveWeightedLeastSquares ar A b weights = mkEst X Y None
      /\ est_x (Doubles.estimateMultiSensorPosition ar ref rest) = X
      /\ est_y (Doubles.estimateMultiSensorPosition ar ref rest) = Y
      /\ exists r,
           Doubles.trilaterate ar observations = Some r
           /\ lat r = g_lat (Doubles.metersToGps ar X Y (refLatD ar validObs)
                                                 (refLngD ar validObs))
           /\ lng r = g_lng (Doubles.metersToGps ar X Y (refLatD ar validObs)
                                                 (refLngD ar validObs))
           /\ r_qualityLevel r = high /\ confidence r = Num 1.0)
  /\ (ar = exact -> Forall finiteObs validObs ->
      1e-10 <= Rabs (detR ref rest) ->
      (forall p x y,
         2 * (xR p - xR ref) * x + 2 * (yR p - yR ref) * y - bR ref p
         = circle ref x y - circle p x y)
      /\ A = map (fun p => (Num (2 * (xR p - xR ref)), Num (2 * (yR p - yR ref)))) rest
      /\ b = map (fun p => Num (bR ref p)) rest
      /\ weights
         = map (fun p => Num (1 / (dR p + 1) * signalMultiplier (rssi (p_obs p)))) rest
      /\ Doubles.singular ar s = false
      /\ exists X Y,
           est_x (Doubles.estimateMultiSensorPosition ar ref rest) = Num X
           /\ est_y (Doubles.estimateMultiSensorPosition ar ref rest) = Num Y
           /\ S00 ref rest * X + S01 ref rest * Y = T0 ref rest
           /\ S10 ref rest * X + S11 ref rest * Y = T1 ref rest).
Proof.
  intros Hfilter Hlen Hpts.
  destruct (trilaterate_multi_D ar observations validObs ref rest Hfilter Hlen Hpts)
    as (Hrl & var & Htri).
  cbn zeta. rewrite !length_map.
  split; [auto|].
  split; [apply map_ext; intros p; reflexivity|].
  split; [apply map_ext; intros p; reflexivity|].
  split.
  { intros [x|]; [|reflexivity]. unfold Doubles.rssiWeight.
    split; intros ->; reflexivity. }
  split.
  - intros Hsing.
    assert (Hsolve : Doubles.solveWeightedLeastSquares ar
                       (map (Doubles.rowA ar ref) rest)
                       (map (Doubles.rowB ar ref) rest)
                       (map (Doubles.rowWeight ar) rest)
                     = mkEst
                         (Doubles.div ar
                            (Doubles.sub ar
                               (Doubles.mul ar (ata11 (normalSumsD ar ref rest))
                                               (atb0 (normalSumsD ar ref rest)))
                               (Doubles.mul ar (ata01 (normalSumsD ar ref rest))
                                               (atb1 (normalSumsD ar ref rest))))
                            (Doubles.determinant ar (normalSumsD ar ref rest)))
                         (Doubles.div ar
                            (Doubles.sub ar
                               (Doubles.mul ar (ata00 (normalSumsD ar ref rest))
                                               (atb1 (normalSumsD ar ref rest)))
                               (Doubles.mul ar (ata10 (normalSumsD ar ref rest))
                                               (atb0 (normalSumsD ar ref rest))))
                            (Doubles.determinant ar (normalSumsD ar ref rest)))
                         None).
    { unfold Doubles.solveWeightedLeastSquares.
      fold (normalSumsD ar ref rest). rewrite Hsing. reflexivity. }
    split; [exact Hsolve|].
    assert (Hx : est_x (Doubles.estimateMultiSensorPosition ar ref rest)
                 = est_x (Doubles.solveWeightedLeastSquares ar
                            (map (Doubles.rowA ar ref) rest)
                            (map (Doubles.rowB ar ref) rest)
                            (map (Doubles.rowWeight ar) rest))) by reflexivity.
    assert (Hy : est_y (Doubles.estimateMultiSensorPosition ar ref rest)
                 = est_y (Doubles.solveWeightedLeastSquares ar
                            (map (Doubles.rowA ar ref) rest)
                            (map (Doubles.rowB ar ref) rest)
                            (map (Doubles.rowWeight ar) rest))) by reflexivity.
    rewrite Hsolve in Hx, Hy. cbn [est_x est_y] in Hx, Hy.
    split; [exact Hx|]. split; [exact Hy|].
    rewrite Hx, Hy in Htri.
    eexists. split; [exact Htri|]. cbn [lat lng r_qualityLevel confidence]. auto.
  - intros -> Hfin Hdet.
    rewrite pointsD_exact in Hpts.
    assert (Hfl : filteredList validObs).
    { split; [|exact Hfin]. subst validObs. apply List.Forall_forall.
      intros o Ho. apply filter_In in Ho. apply Ho. }
    destruct (multiSensor_normal_equations_exact validObs ref rest Hfl Hlen Hpts Hdet)
      as (_ & HA & HB & Hcircle & HW & _ & X & Y & _ & Hx & Hy & Hn1 & Hn2 & _).
    cbn zeta in HA, HB, HW.
    split; [exact Hcircle|].
    split.
    { rewrite <- HA. apply map_ext. intros p. apply rowA_exact. }
    split.
    { rewrite <- HB. apply map_ext. intros p. apply rowB_exact. }
    split.
    { rewrite <- HW. apply map_ext. intros p. apply rowWeight_exact. }
    split.
    { destruct (multi_finite validObs ref rest Hfl Hlen Hpts) as [Href Hrest].
      rewrite singular_exact, normalSumsD_exact.
      rewrite (determinant_Num ref rest Href Hrest). cbn [Math_abs nltb].
      apply Rltb_false. lra. }
    exists X, Y. rewrite estimateMultiSensorPosition_exact. auto.
Qed.

Lemma multiSensor_normal_equations_witness :
  let v := triangleObs in
  let ref := toPoint (refLatOf v) (refLngOf v) triA in
  let rest := map (toPoint (refLatOf v) (refLngOf v)) [triB; triC] in
  List.filter validObservation v = v /\ (3 <= length v)%nat
  /\ pointsD exact v = ref :: rest
  /\ exists X Y,
       est_x (Doubles.estimateMultiSensorPosition exact ref rest) = Num X
       /\ est_y (Doubles.estimateMultiSensorPosition exact ref rest) = Num Y
       /\ S00 ref rest * X + S01 ref rest * Y = T0 ref rest
       /\ S10 ref rest * X + S11 ref rest * Y = T1 ref rest.
Proof.
  intros v ref rest.
  assert (H1 : List.filter validObservation v = v)
    by (apply filter_all, triangleObs_filtered).
  assert (H2 : (3 <= length v)%nat) by (cbn; lia).
  assert (H3 : pointsD exact v = ref :: rest) by (rewrite pointsD_exact; reflexivity).
  repeat (split; [assumption|]).
  destruct (multiSensor_normal_equations exact v v ref rest H1 H2 H3)
    as (_ & _ & _ & _ & _ & Hexact).
  destruct (Hexact eq_refl (proj2 triangleObs_filtered) triangleObs_det)
    as (_ & _ & _ & _ & _ & X & Y & Hx & Hy & Hn1 & Hn2).
  exists X, Y. auto.
Defined.

(** ** Session controller: devices without a smoother state *)

Lemma positionStep_frame (timestamp : string) (now : Z) (st : lateration)
    (results : list devicePosition) (mac : string) (l : list obs) :
  exists st' extra,
    positionStep timestamp now (st, results) (mac, l) = (st', results ++ extra)
    /\ resultCache st' = cacheStep timestamp (resultCache st) (mac, l)
    /\ kalmanEnabled st' = kalmanEnabled st
    /\ (forall k, k <> mac -> kalmanStates st' !! k = kalmanStates st !! k)
    /\ Forall (fun dp => macHashed dp = mac) extra
    /\ (kalmanEnabled st = true -> kalmanStates st !! mac = None ->
        extra = firstOutput (resultCache st) timestamp (mac, l)
        /\ match solverResult (resultCache st) timestamp (mac, l) with
           | Some r =>
               if keptResult (Some r) then
                 exists s, kalmanStates st' !! mac = Some s
                           /\ anchoredAt (lat r) (lng r) s
               else kalmanStates st' !! mac = None
           | None => kalmanStates st' !! mac = None
           end).
Proof.
  pose proof (positionStep_cache timestamp now st results (mac, l)) as [Hc Hk].
  cbn zeta in Hc, Hk.
  pose proof (getCachedOrCompute_spec (resultCache st) timestamp mac l) as [Hres _].
  unfold positionStep in *. unfold firstOutput, keptResult.
  cbn [fst snd] in *.
  destruct (getCachedOrCompute (resultCache st) timestamp mac l) as [res cache].
  cbn [fst] in Hres. rewrite <- Hres.
  cbn [kalmanEnabled kalmanStates] in *.
  destruct res as [r|].
  - destruct (negb (isNaN (lat r)) && negb (isNaN (lng r))) eqn:Hkept.
    + destruct (kalmanEnabled st) eqn:Hon.
      * destruct (applyKalmanFilter (kalmanStates st) now mac (lat r) (lng r)
                    (if truthy (variance r) then variance r else Num 5))
          as [smoothed states] eqn:Hka.
        assert (Hother : forall k, k <> mac -> states !! k = kalmanStates st !! k).
        { intros k Hne.
          pose proof (applyKalmanFilter_other (kalmanStates st) now k mac (lat r)
                        (lng r) (if truthy (variance r) then variance r else Num 5)
                        ltac:(congruence)) as H.
          rewrite Hka in H. exact H. }
        destruct (negb (isNaN (g_lat smoothed)) && negb (isNaN (g_lng smoothed)))
          eqn:Hsm.
        -- eexists _, [_]. split; [reflexivity|]. cbn [fst] in Hc, Hk.
           split; [exact Hc|]. split; [exact Hk|]. split; [exact Hother|].
           split; [constructor; [reflexivity | constructor]|].
           intros _ Hnone.
           destruct (applyKalmanFilter_new (kalmanStates st) now mac (lat r) (lng r)
                       (if truthy (variance r) then variance r else Num 5) Hnone)
             as (s & Heq & Hlat & Hlng).
           rewrite Hka in Heq. injection Heq as -> ->. cbn [g_lat g_lng].
           split; [reflexivity|]. exists s. cbn [kalmanStates]. rewrite lookup_insert_eq.
           split; [reflexivity | split; assumption].
        -- eexists _, [_]. split; [reflexivity|]. cbn [fst] in Hc, Hk.
           split; [exact Hc|]. split; [exact Hk|]. split; [exact Hother|].
           split; [constructor; [reflexivity | constructor]|].
           intros _ Hnone.
           destruct (applyKalmanFilter_new (kalmanStates st) now mac (lat r) (lng r)
                       (if truthy (variance r) then variance r else Num 5) Hnone)
             as (s & Heq & Hlat & Hlng).
           rewrite Hka in Heq. injection Heq as -> ->. cbn [g_lat g_lng] in Hsm.
           rewrite Hkept in Hsm. discriminate.
      * eexists _, [_]. split; [reflexivity|]. cbn [fst] in Hc, Hk.
        split; [exact Hc|]. split; [exact Hk|]. split; [reflexivity|].
        split; [constructor; [reflexivity | constructor]|]. discriminate.
    + eexists _, []. rewrite app_nil_r. split; [reflexivity|]. cbn [fst] in Hc, Hk.
      split; [exact Hc|]. split; [exact Hk|]. split; [reflexivity|].
      split; [constructor|]. intros _ Hnone. split; [reflexivity | exact Hnone].
  - eexists _, []. rewrite app_nil_r. split; [reflexivity|]. cbn [fst] in Hc, Hk.
    split; [exact Hc|]. split; [exact Hk|]. split; [reflexivity|].
    split; [constructor|]. intros _ Hnone. split; [reflexivity | exact Hnone].
Qed.

Lemma firstOutput_other (timestamp : string) (cache : gmap string (option result))
    (dev dev' : string * list obs) :
  fst dev <> fst dev' ->
  firstOutput (cacheStep timestamp cache dev) timestamp dev'
  = firstOutput cache timestamp dev'.
Proof.
  intros Hne. unfold firstOutput. rewrite solverResult_other by exact Hne. reflexivity.
Qed.

Lemma filter_mac_all (mac : string) (l : list devicePosition) :
  Forall (fun dp => macHashed dp = mac) l ->
  List.filter (fun dp => String.eqb (macHashed dp) mac) l = l.
Proof.
  intros H. apply filter_all. eapply Forall_impl; [exact H|].
  intros dp ->. apply String.eqb_refl.
Qed.

Lemma filter_mac_none (mac : string) (l : list devicePosition) :
  Forall (fun dp => macHashed dp <> mac) l ->
  List.filter (fun dp => String.eqb (macHashed dp) mac) l = [].
Proof.
  induction 1 as [|dp l Hdp _ IH]; [reflexivity|]. cbn [List.filter].
  apply String.eqb_neq in Hdp. rewrite Hdp. exact IH.
Qed.

Lemma positionFold_first (timestamp : string) (now : Z)
    (devs : list (string * list obs)) :
  NoDup (map fst devs) ->
  forall (st : lateration) (results : list devicePosition),
    kalmanEnabled st = true ->
    exists st' out,
      fold_left (positionStep timestamp now) devs (st, results) = (st', results ++ out)
      /\ (forall k, ~ In k (map fst devs) -> kalmanStates st' !! k = kalmanStates st !! k)
      /\ Forall (fun dp => In (macHashed dp) (map fst devs)) out
      /\ forall mac l,
           In (mac, l) devs -> kalmanStates st !! mac = None ->
           List.filter (fun dp => String.eqb (macHashed dp) mac) out
           = firstOutput (resultCache st) timestamp (mac, l)
           /\ match solverResult (resultCache st) timestamp (mac, l) with
              | Some r =>
                  if keptResult (Some r) then
                    exists s, kalmanStates st' !! mac = Some s
                              /\ anchoredAt (lat r) (lng r) s
                  else kalmanStates st' !! mac = None
              | None => kalmanStates st' !! mac = None
              end.
Proof.
  induction devs as [|[m0 l0] devs IH]; intros Hnd st results Hon.
  - exists st, []. rewrite app_nil_r. cbn [fold_left map In].
    split; [reflexivity|]. split; [auto|]. split; [constructor|]. intros mac l [].
  - cbn [map fst] in Hnd. apply NoDup_cons in Hnd as [Hnotin Hnd].
    assert (Hnotin' : ~ In m0 (map fst devs)).
    { intros Hin. apply Hnotin, list_elem_of_In, Hin. }
    cbn [fold_left].
    destruct (positionStep_frame timestamp now st results m0 l0)
      as (st1 & extra & Hstep & Hcache1 & Hon1 & Hframe1 & Hextra & Hfirst).
    rewrite Hstep.
    destruct (IH Hnd st1 (results ++ extra) ltac:(congruence))
      as (st' & out & Hfold & Hframe & Hkeys & Hdev).
    exists st', (extra ++ out). rewrite app_assoc. split; [exact Hfold|].
    split.
    { intros k Hk. cbn [map fst In] in Hk.
      rewrite Hframe by tauto. apply Hframe1. intros ->. tauto. }
    split.
    { apply Forall_app. split.
      - eapply Forall_impl; [exact Hextra|]. intros dp ->. left. reflexivity.
      - eapply Forall_impl; [exact Hkeys|]. intros dp Hin. right. exact Hin. }
    intros mac l Hin Hnone. rewrite List.filter_app.
    destruct Hin as [Heq|Hin].
    + injection Heq as -> ->.
      destruct (Hfirst Hon Hnone) as [Hex Hstate].
      rewrite (filter_mac_all mac extra Hextra).
      rewrite filter_mac_none, app_nil_r.
      * split; [exact Hex|]. rewrite (Hframe mac Hnotin'). exact Hstate.
      * eapply Forall_impl; [exact Hkeys|]. intros dp Hk Heq. cbn beta in Hk.
        rewrite Heq in Hk. tauto.
    + assert (Hne : mac <> m0).
      { intros ->. apply Hnotin'. apply in_map_iff. exists (m0, l). auto. }
      rewrite filter_mac_none.
      * cbn [app].
        destruct (Hdev mac l Hin) as [Hout Hstate].
        { rewrite Hframe1 by exact Hne. exact Hnone. }
        rewrite Hcache1 in Hout, Hstate.
        rewrite firstOutput_other in Hout by (cbn [fst]; congruence).
        rewrite solverResult_other in Hstate by (cbn [fst]; congruence).
        split; assumption.
      * eapply Forall_impl; [exact Hextra|]. intros dp -> Heq. congruence.
Qed.

Lemma firstOutput_raw (cache : gmap string (option result)) (timestamp : string)
    (dev : string * list obs) (dp : devicePosition) :
  In dp (firstOutput cache timestamp dev) ->
  macHashed dp = fst dev /\ Some (raw dp) = solverResult cache timestamp dev
  /\ keptResult (Some (raw dp)) = true
  /\ isSmoothed dp = true
  /\ final_lat dp = lat (raw dp) /\ final_lng dp = lng (raw dp)
  /\ rawLat dp = lat (raw dp) /\ rawLng dp = lng (raw dp).
Proof.
  unfold firstOutput. destruct (solverResult cache timestamp dev) as [r|]; [|intros []].
  destruct (keptResult (Some r)) eqn:Hk; [|intros []].
  intros [<-|[]]. cbn [macHashed raw isSmoothed final_lat final_lng rawLat rawLng].
  rewrite Hk. repeat split; reflexivity.
Qed.

(** What [computeAllPositions] does for the devices without a smoother
    state while smoothing is on. *)
Lemma computeAllPositions_fresh (getTime : string -> option Z)
    (dh : dataHandler) (st : lateration) (now : Z) (timestamp : string) :
  kalmanEnabled st = true ->
  let devices := getDevicesInTimeWindow getTime dh timestamp in
  let out := computeAllPositions getTime dh st now timestamp in
  (forall mac l,
     In (mac, l) devices -> kalmanStates st !! mac = None ->
     List.filter (fun dp => String.eqb (macHashed dp) mac) (fst out)
     = firstOutput (resultCache st) timestamp (mac, l)
     /\ match solverResult (resultCache st) timestamp (mac, l) with
        | Some r =>
            if keptResult (Some r) then
              exists s, kalmanStates (snd out) !! mac = Some s
                        /\ anchoredAt (lat r) (lng r) s
            else kalmanStates (snd out) !! mac = None
        | None => kalmanStates (snd out) !! mac = None
        end)
  /\ (forall dp,
        In dp (fst out) -> kalmanStates st !! macHashed dp = None ->
        isSmoothed dp = true
        /\ final_lat dp = lat (raw dp) /\ final_lng dp = lng (raw dp)
        /\ rawLat dp = lat (raw dp) /\ rawLng dp = lng (raw dp)
        /\ exists s, kalmanStates (snd out) !! macHashed dp = Some s
                     /\ anchoredAt (lat (raw dp)) (lng (raw dp)) s).
Proof.
  intros Hon devices out. subst out. rewrite computeAllPositions_fold.
  destruct (positionFold_first timestamp now devices
              (getDevicesInTimeWindow_NoDup getTime dh timestamp) st [] Hon)
    as (st' & res & Hfold & _ & Hkeys & Hdev).
  fold devices. rewrite Hfold. cbn [fst snd app].
  split; [exact Hdev|].
  intros dp Hin Hnone.
  assert (Hk : In (macHashed dp) (map fst devices)).
  { exact (proj1 (List.Forall_forall _ _) Hkeys dp Hin). }
  apply in_map_iff in Hk as ([mac l] & Hmac & Hl). cbn [fst] in Hmac. subst mac.
  destruct (Hdev (macHashed dp) l Hl Hnone) as [Hout Hstate].
  assert (Hdp : In dp (firstOutput (resultCache st) timestamp (macHashed dp, l))).
  { rewrite <- Hout. apply filter_In. split; [exact Hin | apply String.eqb_refl]. }
  destruct (firstOutput_raw _ _ _ _ Hdp) as (_ & Hraw & Hkept & Hs & H1 & H2 & H3 & H4).
  repeat (split; [assumption|]).
  rewrite <- Hraw, Hkept in Hstate. exact Hstate.
Qed.

(** X6. With smoothing on, every device of the window that has no
    smoother state yet is reported at the solver's own position, flagged
    [isSmoothed], and afterwards has a state anchored at that position,
    whatever states the other devices of the window have; it is not
    reported, and gets no state, when the solver has no result for it or
    one with a [NaN] coordinate.  So the first frame after [clearCache],
    [resetKalmanFilters] or [setKalmanEnabled(true)] shows every device
    at its raw position. *)
Theorem computeAllPositions_first_frame (getTime : string -> option Z)
    (dh : dataHandler) (st : lateration) (now : Z) (timestamp : string) :
  kalmanEnabled st = true ->
  let devices := getDevicesInTimeWindow getTime dh timestamp in
  let rawOnly := fun s0 : lateration =>
    Forall (fun dp => isSmoothed dp = true
                      /\ final_lat dp = lat (raw dp) /\ final_lng dp = lng (raw dp))
           (fst (computeAllPositions getTime dh s0 now timestamp)) in
  let out := computeAllPositions getTime dh st now timestamp in
  (forall mac l,
     In (mac, l) devices -> kalmanStates st !! mac = None ->
     List.filter (fun dp => String.eqb (macHashed dp) mac) (fst out)
     = firstOutput (resultCache st) timestamp (mac, l)
     /\ match solverResult (resultCache st) timestamp (mac, l) with
        | Some r =>
            if keptResult (Some r) then
              exists s, kalmanStates (snd out) !! mac = Some s
                        /\ anchoredAt (lat r) (lng r) s
            else kalmanStates (snd out) !! mac = None
        | None => kalmanStates (snd out) !! mac = None
        end)
  /\ (forall dp,
        In dp (fst out) -> kalmanStates st !! macHashed dp = None ->
        isSmoothed dp = true
        /\ final_lat dp = lat (raw dp) /\ final_lng dp = lng (raw dp)
        /\ rawLat dp = lat (raw dp) /\ rawLng dp = lng (raw dp)
        /\ exists s, kalmanStates (snd out) !! macHashed dp = Some s
                     /\ anchoredAt (lat (raw dp)) (lng (raw dp)) s)
  /\ rawOnly (clearCache st)
  /\ rawOnly (resetKalmanFilters st)
  /\ (forall st0, rawOnly (setKalmanEnabled true st0)).
Proof.
  intros Hon devices rawOnly out.
  destruct (computeAllPositions_fresh getTime dh st now timestamp Hon) as [H1 H2].
  split; [exact H1|]. split; [exact H2|].
  assert (Hraw : forall s0, kalmanEnabled s0 = true -> kalmanStates s0 = ∅ -> rawOnly s0).
  { intros s0 Hon0 Hempty. subst rawOnly. cbn beta.
    destruct (computeAllPositions_fresh getTime dh s0 now timestamp Hon0) as [_ H].
    cbn zeta in H. apply List.Forall_forall. intros dp Hin.
    destruct (H dp Hin) as (Hs & Hl1 & Hl2 & _).
    - rewrite Hempty. apply lookup_empty.
    - auto. }
  split; [apply Hraw; [exact Hon | reflexivity]|].
  split; [apply Hraw; [exact Hon | reflexivity]|].
  intros st0. apply Hraw; reflexivity.
Qed.

Lemma computeAllPositions_first_frame_witness :
  let out := computeAllPositions exampleTime singleStore freshSession 0
                                 "2025-01-15T10:30:00Z" in
  kalmanEnabled freshSession = true
  /\ (forall dp, In dp (fst out) ->
                 isSmoothed dp = true /\ final_lat dp = lat (raw dp)).
Proof.
  intros out. split; [reflexivity|].
  intros dp Hin.
  destruct (computeAllPositions_first_frame exampleTime singleStore freshSession 0
              "2025-01-15T10:30:00Z" eq_refl) as (_ & H & _).
  destruct (H dp Hin (lookup_empty _)) as (H1 & H2 & _). auto.
Defined.

(** ** Lateration solver: the sign of the variance *)

Lemma notNegative_add (a b : num) :
  notNegative a -> notNegative b -> notNegative (a + b)%js.
Proof. destruct a, b; cbn; try tauto. intros. lra. Qed.

Lemma notNegative_abs (a : num) : notNegative (Math_abs a).
Proof. destruct a; cbn; auto. apply Rabs_pos. Qed.

Lemma notNegative_sqrt (a : num) : notNegative (Math_sqrt a).
Proof.
  destruct a as [x| | |]; cbn; auto.
  destruct (Rltb x 0); cbn; [exact I | apply sqrt_pos].
Qed.

Lemma notNegative_div_length (a : num) (n : nat) :
  notNegative a -> (0 < n)%nat -> notNegative (a / Num (INR n))%js.
Proof.
  intros Ha Hn. assert (Hpos : 0 < INR n) by (apply lt_0_INR; exact Hn).
  destruct a as [x| | |]; cbn [notNegative ndiv] in *.
  - rewrite Reqb_false by lra. cbn [notNegative]. apply Rmult_le_pos; [exact Ha|].
    left. apply Rinv_0_lt_compat, Hpos.
  - rewrite Rltb_false by lra. exact I.
  - destruct Ha.
  - exact I.
Qed.

Lemma notNegative_or_else (v : option num) (d : num) :
  match v with Some x => notNegative x | None => True end ->
  notNegative d -> notNegative (or_else v d).
Proof.
  destruct v as [x|]; cbn [or_else]; [|auto]. intros Hx Hd.
  destruct (truthy x); assumption.
Qed.

Lemma notNegative_ite (a b : num) :
  notNegative a -> notNegative b -> notNegative (if truthy a then a else b).
Proof. intros Ha Hb. destruct (truthy a); assumption. Qed.

Lemma calculateResidual_notNegative (e : estimatedPos) (points : list pointObs) :
  points <> [] -> notNegative (calculateResidual e points).
Proof.
  intros Hne. unfold calculateResidual. apply notNegative_div_length.
  - assert (G : forall acc, notNegative acc ->
                  notNegative
                    (fold_left
                       (fun acc p =>
                          (acc + Math_abs (distance (est_point e) (pos p)
                                           - obs_distance (p_obs p)))%js)
                       points acc)).
    { clear Hne. induction points as [|p points IH]; intros acc Hacc; [exact Hacc|].
      cbn [fold_left]. apply IH, notNegative_add; [exact Hacc|].
      apply notNegative_abs. }
    apply G. cbn. lra.
  - destruct points; [congruence | cbn [length]; lia].
Qed.

Lemma validObservation_notNegative (o : obs) :
  validObservation o = true -> notNegative (obs_distance o).
Proof.
  unfold validObservation. intros H. apply andb_prop in H as [H _].
  destruct (obs_distance o) as [x| | |]; cbn in *; try discriminate; auto.
  unfold Rltb in H. destruct (Rlt_dec 0 x); [lra | discriminate].
Qed.

(** X10. The [variance] of an estimate is never negative: it is a number
    [>= 0], [Infinity] or [NaN], whatever the observations; with one
    kept observation it is that observation's distance. *)
Theorem trilaterate_variance (l : list obs) (r : result) :
  trilaterate l = Some r ->
  notNegative (variance r)
  /\ (sensorCount r = 1%nat ->
      exists d, variance r = Num d /\ 0 < d < 200
                /\ Forall (fun o => obs_distance o = Num d) (observations r)).
Proof.
  unfold trilaterate.
  pose proof (filter_In validObservation) as Hfil.
  destruct (List.filter validObservation l) as [|o1 [|o2 [|o3 tl]]] eqn:Hf;
    cbn zeta; [discriminate| | |].
  - assert (Hv : validObservation o1 = true).
    { apply (proj1 (Hfil o1 l)). rewrite Hf. left. reflexivity. }
    unfold estimateOneSensorPosition. intros H. injection H as <-.
    cbn [variance sensorCount observations est_variance length Nat.ltb Nat.leb].
    unfold validObservation in Hv. apply andb_prop in Hv as [H0 H200].
    destruct (obs_distance o1) as [x| | |] eqn:Hd; cbn in H0, H200; try discriminate.
    unfold Rltb in H0, H200.
    destruct (Rlt_dec 0 x) as [Hx0|]; [|discriminate].
    destruct (Rlt_dec x 200) as [Hx200|]; [|discriminate].
    cbn [or_else truthy]. rewrite Reqb_false by lra. cbn [negb].
    split; [cbn; lra|]. intros _. exists x. split; [reflexivity|].
    split; [lra|]. constructor; [exact Hd | constructor].
  - intros H. injection H as <-. cbn [variance sensorCount length Nat.ltb Nat.leb].
    split; [|discriminate].
    apply notNegative_or_else.
    + unfold estimateTwoSensorPosition.
      destruct (_ =? Num 0)%js; cbn [est_variance]; [exact I|].
      apply notNegative_abs.
    + apply calculateResidual_notNegative. discriminate.
  - intros H. injection H as <-. cbn [variance sensorCount].
    split; [|cbn [length]; discriminate].
    unfold estimateMultiSensorPosition. cbn [est_variance or_else].
    apply notNegative_ite; [apply notNegative_sqrt|].
    apply calculateResidual_notNegative. discriminate.
Qed.

Lemma trilaterate_variance_witness :
  exists r, trilaterate [singleReading] = Some r /\ notNegative (variance r).
Proof.
  destruct (trilaterate [singleReading]) as [r|] eqn:Hr.
  - exists r. split; [reflexivity|].
    exact (proj1 (trilaterate_variance [singleReading] r Hr)).
  - exfalso. apply trilaterate_None_iff in Hr. revert Hr.
    cbn [List.filter].
    replace (validObservation singleReading) with true; [discriminate|].
    symmetry. unfold validObservation, singleReading. cbn [obs_distance nltb].
    rewrite !Rltb_true by lra. reflexivity.
Defined.

(** ** Zone manager: points outside the bounding box *)

Lemma edgeCrossed_same_side (x y : num) (vi vj : latLng) :
  (y <? ll_lat vi)%js = (y <? ll_lat vj)%js -> edgeCrossed x y vi vj = false.
Proof. intros H. unfold edgeCrossed. cbn zeta. rewrite H, eqb_reflx. reflexivity. Qed.

(** X27. A point that no vertex lies north of, and a point that every
    vertex lies north of, is outside the polygon, for all coordinates
    ([NaN] and infinite ones included): no edge passes the latitude
    comparison, so no arithmetic is involved. *)
Theorem isPointInPolygon_outside_box (point : latLng) (polygon : list latLng) :
  Forall (fun v => (ll_lat point <? ll_lat v)%js = false) polygon
  \/ Forall (fun v => (ll_lat point <? ll_lat v)%js = true) polygon ->
  isPointInPolygon point polygon = false.
Proof.
  intros Hside.
  destruct (Nat.ltb_spec (length polygon) 3) as [Hlt|Hge].
  { unfold isPointInPolygon.
    destruct (Nat.ltb_spec (length polygon) 3); [reflexivity|lia]. }
  destruct polygon as [|v0 rest] eqn:Hpoly; [cbn [length] in Hge; lia|].
  rewrite <- Hpoly in *. rewrite (isPointInPolygon_crossings point polygon v0 Hge).
  assert (Hb : exists b, Forall (fun v => (ll_lat point <? ll_lat v)%js = b) polygon).
  { destruct Hside as [H|H]; eauto. }
  destruct Hb as [b Hb].
  apply (crossings_none _ _ (fun v => (ll_lat point <? ll_lat v)%js = b)).
  - intros vi vj Hi Hj. apply edgeCrossed_same_side. congruence.
  - exact Hb.
  - rewrite Hpoly, last_cons_default. rewrite Hpoly in Hb.
    apply Forall_cons_1 in Hb as [H0 Hrest].
    apply (Forall_last (fun v => (ll_lat point <? ll_lat v)%js = b)); assumption.
Qed.

Lemma isPointInPolygon_outside_box_witness :
  let point := mkLatLng (Num 2) (Num 0) in
  let polygon := [mkLatLng (Num 0) (Num 0); mkLatLng (Num 0) (Num 1);
                  mkLatLng (Num 1) (Num 0)] in
  Forall (fun v => (ll_lat point <? ll_lat v)%js = false) polygon
  /\ isPointInPolygon point polygon = false.
Proof.
  intros point polygon.
  assert (Hb : Forall (fun v => (ll_lat point <? ll_lat v)%js = false) polygon).
  { repeat (constructor; [cbn [ll_lat point nltb]; apply Rltb_false; lra|]).
    constructor. }
  split; [exact Hb|].
  apply (isPointInPolygon_outside_box point polygon). left. exact Hb.
Defined.
